(* ====================================================================== *)
(*  Physics-informed Gaussian-process notebooks: the NLML evaluation       *)
(*  engine (kernel evaluation, block covariance assembly, Cholesky/SVD     *)
(*  inversion, scalar objectives and the analytic gradient).               *)
(*                                                                         *)
(*  Conventions of the embedding                                           *)
(*   - IEEE doubles are read as exact real numbers (Stdlib's R);           *)
(*   - a 2-D ndarray is a MathComp matrix 'M[R]_(m, n), a 1-D ndarray a    *)
(*     row vector 'rV[R]_n; `@`/`.dot` is mulmx, `.T` is trmx, np.block    *)
(*     is block_mx, np.concatenate is row_mx;                              *)
(*   - a Python call that may raise returns a value of type [res];         *)
(*     try/except np.linalg.LinAlgError is [try_except];                   *)
(*   - the notebooks' globals (x, y, t, n, y_u, y_f) are Section           *)
(*     variables of the module of each notebook;                           *)
(*   - numpy, scipy and sympy routines are modelled from their documented  *)
(*     behaviour; np.linalg.svd stays a parameter ([svd_fun]).             *)
(* ====================================================================== *)

From HB Require Import structures.
From mathcomp Require Import boot ssralg matrix perm.
From Stdlib Require Import Reals Lra Lia ZArith ClassicalEpsilon FunctionalExtensionality.

Set Implicit Arguments.
Unset Strict Implicit.
Unset Printing Implicit Defensive.

Import GRing.Theory.

Delimit Scope R_scope with Re.
Delimit Scope ring_scope with R.
Delimit Scope nat_scope with N.
Local Open Scope ring_scope.

(* ---------------------------------------------------------------------- *)
(*  1. The real numbers as a MathComp field                               *)
(* ---------------------------------------------------------------------- *)

Definition Req_bool (a b : R) : bool := if Req_dec_T a b then true else false.

Lemma Req_boolP : Equality.axiom Req_bool.
Proof. by move=> a b; rewrite /Req_bool; case: Req_dec_T => h; constructor. Qed.

#[hnf] HB.instance Definition _ := hasDecEq.Build R Req_boolP.

Definition Rfind (P : pred R) (_ : nat) : option R :=
  let w := epsilon (inhabits R0) (fun r => P r = true) in
  if P w then Some w else None.

Lemma Rfind_sound P k r : Rfind P k = Some r -> P r.
Proof. by rewrite /Rfind; case: ifP => // h [<-]. Qed.

Lemma Rfind_complete (P : pred R) : (exists r, P r) -> exists k, Rfind P k.
Proof.
move=> ex; exists 0%N; rewrite /Rfind.
have h := epsilon_spec (inhabits R0) (fun r => P r = true).
by rewrite h.
Qed.

Lemma Rfind_ext (P Q : pred R) : P =1 Q -> Rfind P =1 Rfind Q.
Proof.
by move=> pq k; have -> : P = Q by apply: functional_extensionality.
Qed.

#[hnf] HB.instance Definition _ :=
  hasChoice.Build R Rfind_sound Rfind_complete Rfind_ext.

Lemma RaddA : associative Rplus.
Proof. by move=> a b c; rewrite Rplus_assoc. Qed.

#[hnf] HB.instance Definition _ :=
  GRing.isZmodule.Build R RaddA Rplus_comm Rplus_0_l Rplus_opp_l.

Lemma RmulA : associative Rmult.
Proof. by move=> a b c; rewrite Rmult_assoc. Qed.

Lemma R1_neq0 : R1 != 0 :> R.
Proof. by apply/eqP; apply: R1_neq_R0. Qed.

#[hnf] HB.instance Definition _ := GRing.Zmodule_isComNzRing.Build R
  RmulA Rmult_comm Rmult_1_l Rmult_plus_distr_r R1_neq0.

Lemma RmulVf (a : R) : a != 0 -> Rinv a * a = 1.
Proof. by move/eqP => a0; apply: Rinv_l. Qed.

#[hnf] HB.instance Definition _ :=
  GRing.ComNzRing_isField.Build R RmulVf Rinv_0.

(* Scalars are computed with Stdlib's operations; [toR] exposes them under
   the ring notations so that [ring], [field], [lra] and [nra] apply.      *)
Ltac toR :=
  rewrite /GRing.add /GRing.mul /GRing.opp /GRing.inv /GRing.zero /GRing.one /=;
  try match goal with |- @eq _ ?a ?b => change (@eq R a b) end.

Lemma Rneq0P (a : R) : reflect (a <> 0%Re) (a != 0).
Proof. by apply: (iffP idP) => [/eqP|/eqP]. Qed.

Lemma RunitE (a : R) : (a \is a GRing.unit) = (a != 0).
Proof. by rewrite unitfE. Qed.

Lemma Rexpn (a : R) (k : nat) : a ^+ k = (a ^ k)%Re.
Proof. by elim: k => [|k IH] //; rewrite exprS IH. Qed.

(* ---------------------------------------------------------------------- *)
(*  2. Python exceptions                                                   *)
(* ---------------------------------------------------------------------- *)

(* The two messages with which numpy/scipy raise LinAlgError here.         *)
Inductive linalg_failure := NotPositiveDefinite | SingularMatrix.

Inductive exn := LinAlgError (why : linalg_failure).

Inductive res (A : Type) := Ok (a : A) | Raise (e : exn).
Arguments Ok {A} a.
Arguments Raise {A} e.

Definition bind {A B} (c : res A) (k : A -> res B) : res B :=
  match c with Ok a => k a | Raise e => Raise e end.

Notation "x <- c ;; k" := (bind c (fun x => k))
  (at level 100, c at next level, right associativity).

(* try: body / except np.linalg.LinAlgError: handler                       *)
Definition try_except {A} (body handler : res A) : res A :=
  match body with
  | Ok a => Ok a
  | Raise (LinAlgError _) => handler
  end.

Definition returns {A} (c : res A) : bool :=
  if c is Ok _ then true else false.

Lemma bind_Ok {A B} (a : A) (k : A -> res B) : bind (Ok a) k = k a.
Proof. by []. Qed.

Lemma bind_Raise {A B} e (k : A -> res B) : bind (Raise e) k = Raise e.
Proof. by []. Qed.

Lemma try_except_Ok {A} (a : A) h : try_except (Ok a) h = Ok a.
Proof. by []. Qed.

Lemma try_except_Raise {A} e (h : res A) : try_except (Raise e) h = h.
Proof. by case: e. Qed.

(* ---------------------------------------------------------------------- *)
(*  3. numpy / scipy routines used by the notebooks                        *)
(* ---------------------------------------------------------------------- *)

(* u @ v for two 1-D arrays.                                               *)
Definition vdot {n} (u v : 'rV[R]_n) : R := \sum_i u 0 i * v 0 i.

(* np.diag(L) of a 2-D array: the 1-D array of its diagonal.               *)
Definition diag_of {n} (A : 'M[R]_n) : 'rV[R]_n := \row_i A i i.

(* The entries an `lower=True` LAPACK routine reads.                       *)
Definition tril {n} (A : 'M[R]_n) : 'M[R]_n :=
  \matrix_(i, j) if (j <= i)%N then A i j else 0.

(* np.linalg.cholesky: LAPACK potrf on the lower triangle.  The factor is
   built column by column; a pivot that is not strictly positive makes
   numpy raise LinAlgError("Matrix is not positive definite").             *)
Fixpoint cholesky (n : nat) : 'M[R]_n -> res 'M[R]_n :=
  match n with
  | 0%N => fun _ => Ok 0
  | n'.+1 => fun M =>
    let M' : 'M_(1 + n') := M in
    let a := M 0 0 in
    if Rlt_dec 0%Re a then
      let l := sqrt a in
      let c := (/ l)%Re *: dlsubmx M' in
      L' <- cholesky (drsubmx M' - c *m c^T) ;;
      Ok (block_mx (l%:M) 0 c L' : 'M_(1 + n'))
    else Raise (LinAlgError NotPositiveDefinite)
  end.

(* scipy.linalg.solve_triangular(a, b, lower=True): the solution X of
   tril(a) X = b; a zero on the diagonal raises LinAlgError.               *)
Definition solve_triangular {n m} (a : 'M[R]_n) (b : 'M[R]_(n, m)) :
  res 'M[R]_(n, m) :=
  if [forall i, a i i != 0] then Ok (invmx (tril a) *m b)
  else Raise (LinAlgError SingularMatrix).

(* np.linalg.inv: raises LinAlgError("Singular matrix") on a singular
   argument.                                                               *)
Definition inv {n} (A : 'M[R]_n) : res 'M[R]_n :=
  if A \in unitmx then Ok (invmx A) else Raise (LinAlgError SingularMatrix).

(* np.sign on a scalar.                                                    *)
Definition sign (r : R) : R :=
  if Rlt_dec 0%Re r then 1%Re else if Rlt_dec r 0%Re then (-1)%Re else 0%Re.

(* np.linalg.slogdet: the pair (sign, log|det|).                           *)
Definition slogdet {n} (A : 'M[R]_n) : R * R :=
  (sign (\det A), ln (Rabs (\det A))).

(* np.linalg.svd returns (u, s, vt).  The routine itself is a parameter of
   the notebooks' functions; [is_svd] is its contract at one matrix.       *)
Definition svd_result (n : nat) : Type := ('M[R]_n * 'rV[R]_n * 'M[R]_n)%type.

Definition svd_fun : Type := forall n : nat, 'M[R]_n -> svd_result n.

Definition is_svd {n} (M : 'M[R]_n) (r : svd_result n) : Prop :=
  let '(u, s, vt) := r in
  [/\ u^T *m u = 1%:M, vt *m vt^T = 1%:M,
      forall i, Rle 0%Re (s 0 i) & M = u *m diag_mx s *m vt].

(* k = np.zeros((n, n)); k[i, j] = v; for i in range(n): ...               *)
Definition zeros (n : nat) : 'M[R]_n := const_mx 0%Re.

Definition setitem {n} (k : 'M[R]_n) (i j : 'I_n) (v : R) : 'M[R]_n :=
  \matrix_(a, b) if (a == i) && (b == j) then v else k a b.

Definition for_range {S : Type} (n : nat) (body : 'I_n -> S -> S) (st : S) : S :=
  foldl (fun st i => body i st) st (enum 'I_n).

(* The double loop shared by every kernel evaluator.                       *)
Definition fill_pairwise (n : nat) (g : 'I_n -> 'I_n -> R) : 'M[R]_n :=
  for_range (fun i k => for_range (fun j k => setitem k i j (g i j)) k)
            (zeros n).

(* ----- unfolding equations and the contracts of the routines ----------- *)

Lemma cholesky0 (M : 'M[R]_0) : cholesky M = Ok 0.
Proof. by []. Qed.

Lemma choleskyS n (M : 'M[R]_(1 + n)) :
  cholesky M =
  let a := M 0 0 in
  if Rlt_dec 0%Re a then
    let l := sqrt a in
    let c := (/ l)%Re *: dlsubmx M in
    L' <- cholesky (drsubmx M - c *m c^T) ;;
    Ok (block_mx (l%:M) 0 c L')
  else Raise (LinAlgError NotPositiveDefinite).
Proof. by []. Qed.

Lemma cholesky_raises n (M : 'M[R]_n) e :
  cholesky M = Raise e -> e = LinAlgError NotPositiveDefinite.
Proof.
elim: n M e => [|n IH] //; rewrite -[n.+1]/(1 + n)%N => M e.
rewrite choleskyS; lazy zeta; set a := M 0 0; case: Rlt_dec => apos; last by case.
case E: (cholesky _) => [L'|e']; rewrite ?bind_Ok ?bind_Raise // => -[<-].
exact: IH E.
Qed.

Lemma cholesky_spec n (M L : 'M[R]_n) :
  M^T = M -> cholesky M = Ok L ->
  [/\ is_trig_mx L, forall i, (0 < L i i)%Re & L *m L^T = M].
Proof.
elim: n M L => [|n IH]; last rewrite -[n.+1]/(1 + n)%N; move=> M L symM.
  move=> _; split; first by rewrite (flatmx0 L) mx0_is_trig.
    by case.
  by apply/matrixP; case.
rewrite choleskyS; lazy zeta; set a := M 0 0; case: Rlt_dec => // apos.
set c := _ *: _; set S := _ - _.
case E: (cholesky S) => [L'|e]; rewrite ?bind_Ok ?bind_Raise // => -[<-].
have symS : S^T = S.
  rewrite /S linearB /= trmx_mul trmxK; congr (_ - _).
  by rewrite -[M in LHS]symM -[in LHS]trmx_drsub trmxK.
have [trigL' posL' eqL'] := IH _ _ symS E.
have lpos : (0 < sqrt a)%Re by apply: sqrt_lt_R0.
have l2 : sqrt a * sqrt a = a by apply: sqrt_sqrt; lra.
have lV : sqrt a * (/ sqrt a)%Re = 1 by toR; rewrite Rinv_r //; lra.
split.
- by rewrite is_trig_block_mx // trigL' andbT scalar_mx_is_trig /= eqxx.
- move=> i; case: (split_ordP i) => j ->.
    by rewrite [j]ord1 block_mxEul mxE eqxx mulr1n.
  by rewrite block_mxEdr.
- rewrite tr_block_mx mulmx_block tr_scalar_mx trmx0 !mulmx0 !mul0mx !addr0.
  rewrite -scalar_mxM eqL' /S addrC subrK -[RHS]submxK; congr block_mx.
  + by rewrite [ulsubmx _]mx11_scalar !mxE lshift0; congr (_%:M).
  + rewrite mul_scalar_mx /c linearZ /= scalerA lV scale1r.
    by rewrite trmx_dlsub symM.
  + by rewrite mul_mx_scalar /c scalerA lV scale1r.
Qed.

Lemma tril_trig n (L : 'M[R]_n) : is_trig_mx L -> tril L = L.
Proof.
move/is_trig_mxP => trigL; apply/matrixP => i j; rewrite mxE.
by case: leqP => // ij; rewrite trigL.
Qed.

Lemma prod_Rneq0 n (f : 'I_n -> R) :
  (forall i, f i != 0) -> \prod_i f i != 0.
Proof. by move=> f0; apply/prodf_neq0 => i _. Qed.

Lemma trig_unitmx n (L : 'M[R]_n) :
  is_trig_mx L -> (forall i, L i i != 0) -> L \in unitmx.
Proof. by move=> trigL d0; rewrite unitmxE det_trig // unitfE prod_Rneq0. Qed.

Lemma Rlt0_neq0 (a : R) : (0 < a)%Re -> a != 0.
Proof. by move=> a0; apply/Rneq0P; lra. Qed.

Lemma solve_triangular_trig n (L : 'M[R]_n) :
  is_trig_mx L -> (forall i, L i i != 0) ->
  solve_triangular L 1%:M = Ok (invmx L).
Proof.
move=> trigL d0; rewrite /solve_triangular tril_trig // mulmx1.
by have -> : [forall i, L i i != 0] by apply/forallP.
Qed.

Lemma solve_triangular_raises n m (a : 'M[R]_n) (b : 'M[R]_(n, m)) e :
  solve_triangular a b = Raise e -> e = LinAlgError SingularMatrix.
Proof. by rewrite /solve_triangular; case: ifP => // _ [<-]. Qed.

Lemma inv_raises n (A : 'M[R]_n) e :
  inv A = Raise e -> e = LinAlgError SingularMatrix.
Proof. by rewrite /inv; case: ifP => // _ [<-]. Qed.

Lemma invmx_mul n (A B : 'M[R]_n) :
  A \in unitmx -> B \in unitmx -> invmx (A *m B) = invmx B *m invmx A.
Proof.
move=> uA uB; have uAB : A *m B \in unitmx by rewrite unitmx_mul uA.
apply: (can_inj (mulKmx uAB)); rewrite mulmxV // mulmxA -[A *m B *m _]mulmxA.
by rewrite mulmxV // mulmx1 mulmxV.
Qed.

(* What the Cholesky branch of every notebook computes as the inverse.     *)
Lemma cholesky_inverse n (M L : 'M[R]_n) :
  M^T = M -> cholesky M = Ok L ->
  [/\ M \in unitmx, solve_triangular L 1%:M = Ok (invmx L)
    & (invmx L)^T *m invmx L = invmx M].
Proof.
move=> symM cM; have [trigL posL LLt] := cholesky_spec symM cM.
have d0 i : L i i != 0 by apply: Rlt0_neq0.
have uL : L \in unitmx by apply: trig_unitmx.
have uLt : L^T \in unitmx by rewrite unitmx_tr.
split; first by rewrite -LLt unitmx_mul uL.
  exact: solve_triangular_trig.
by rewrite -LLt invmx_mul // trmx_inv.
Qed.

Lemma cholesky_det n (M L : 'M[R]_n) :
  M^T = M -> cholesky M = Ok L -> \det M = \prod_i (L i i) ^+ 2.
Proof.
move=> symM cM; have [trigL _ <-] := cholesky_spec symM cM.
rewrite det_mulmx det_tr det_trig // -expr2.
by rewrite -prodrXl.
Qed.

(* ---------------------------------------------------------------------- *)
(*  4. Facts of linear algebra behind the solver                           *)
(* ---------------------------------------------------------------------- *)

Section Loops.

Variable n : nat.
Variable g : 'I_n -> 'I_n -> R.

(* A loop body that in every case stores g i j at (i, j).                  *)
Variable body : 'I_n -> 'I_n -> 'M[R]_n -> 'M[R]_n.
Hypothesis bodyE : forall i j k, body i j k = setitem k i j (g i j).

Lemma inner_loopE (i : 'I_n) (js : seq 'I_n) (k : 'M[R]_n) a b :
  foldl (fun k j => body i j k) k js a b =
  if (a == i) && (b \in js) then g i b else k a b.
Proof.
elim: js k => [|j js IH] k /=; first by rewrite andbF.
rewrite IH in_cons bodyE mxE; case: (a == i) => //=.
by case: (b \in js); rewrite ?orbT //= orbF; case: eqP => // ->.
Qed.

Lemma outer_loopE (is_ : seq 'I_n) (k : 'M[R]_n) a b :
  foldl (fun k i => for_range (fun j k => body i j k) k) k is_ a b =
  if a \in is_ then g a b else k a b.
Proof.
elim: is_ k => [|i is_ IH] k //=.
rewrite IH /for_range inner_loopE mem_enum andbT in_cons.
by case: (a \in is_); rewrite ?orbT // orbF; case: eqP => // ->.
Qed.

Lemma pairwise_loopE (k0 : 'M[R]_n) :
  for_range (fun i k => for_range (fun j k => body i j k) k) k0 =
  \matrix_(i, j) g i j.
Proof.
by apply/matrixP => a b; rewrite {1}/for_range outer_loopE mem_enum mxE.
Qed.

End Loops.

(* The double loop writes every entry exactly with its kernel value.       *)
Lemma fill_pairwiseE n (g : 'I_n -> 'I_n -> R) :
  fill_pairwise g = \matrix_(i, j) g i j.
Proof. exact: pairwise_loopE. Qed.

(* log_sum = 0; for i in range(n): log_sum = log_sum + f(i)                *)
Lemma for_range_sum n (f : 'I_n -> R) (a0 : R) :
  for_range (fun i acc => acc + f i) a0 = a0 + \sum_i f i.
Proof.
rewrite /for_range -[\sum_i f i]big_enum /=; move: (enum _) => is_.
elim: is_ a0 => [|i is_ IH] a0 /=; first by rewrite big_nil addr0.
by rewrite IH big_cons addrA.
Qed.

Section Dots.

Variable n : nat.

Lemma vdotE (u v : 'rV[R]_n) : vdot u v = (u *m v^T) 0 0.
Proof. by rewrite mxE; apply: eq_bigr => i _; rewrite mxE. Qed.

Lemma vdotC (u v : 'rV[R]_n) : vdot u v = vdot v u.
Proof. by apply: eq_bigr => i _; rewrite mulrC. Qed.

Lemma vdot_mulmx (u v : 'rV[R]_n) (A : 'M[R]_n) :
  vdot (u *m A) v = vdot u (v *m A^T).
Proof. by rewrite !vdotE trmx_mul trmxK mulmxA. Qed.

Lemma vdotZl a (u v : 'rV[R]_n) : vdot (a *: u) v = a * vdot u v.
Proof. by rewrite !vdotE -scalemxAl mxE. Qed.

Lemma vdotDl (u1 u2 v : 'rV[R]_n) : vdot (u1 + u2) v = vdot u1 v + vdot u2 v.
Proof. by rewrite !vdotE mulmxDl mxE. Qed.

Lemma vdotNl (u v : 'rV[R]_n) : vdot (- u) v = - vdot u v.
Proof. by rewrite !vdotE mulNmx mxE. Qed.

End Dots.

Lemma vdot_row_mx n1 n2 (u1 v1 : 'rV[R]_n1) (u2 v2 : 'rV[R]_n2) :
  vdot (row_mx u1 u2) (row_mx v1 v2) = vdot u1 v1 + vdot u2 v2.
Proof. by rewrite !vdotE tr_row_mx mul_row_col mxE. Qed.

Section Schur.

Variables n1 n2 : nat.
Variables (A : 'M[R]_n1) (B : 'M[R]_(n1, n2)) (D : 'M[R]_(n2, n1)).

Lemma block_LU (S : 'M[R]_n2) : A \in unitmx ->
  block_mx A B D (S + D *m invmx A *m B) =
  block_mx 1%:M 0 (D *m invmx A) 1%:M *m block_mx A B 0 S.
Proof.
move=> uA; rewrite mulmx_block !mul1mx !mul0mx ?mulmx0 !addr0 mulmxKV //.
by rewrite addrC.
Qed.

Lemma block_times_candidate (S : 'M[R]_n2) : A \in unitmx -> S \in unitmx ->
  block_mx A B D (S + D *m invmx A *m B) *m
  block_mx (invmx A + invmx A *m B *m invmx S *m D *m invmx A)
           (- (invmx A *m B *m invmx S))
           (- (invmx S *m D *m invmx A))
           (invmx S) = 1%:M.
Proof.
move=> uA uS; rewrite mulmx_block [RHS]scalar_mx_block; congr block_mx.
- by rewrite mulmxDr mulmxN !mulmxA mulmxV // mul1mx addrK.
- by rewrite mulmxN !mulmxA mulmxV // mul1mx addNr.
- rewrite mulmxDr mulmxN !mulmxA !mulmxDl mulmxV // mul1mx.
  by rewrite subrr.
- by rewrite mulmxN !mulmxA addrC mulmxDl mulmxV // addrK.
Qed.

Variable C : 'M[R]_n2.

Let S := C - D *m invmx A *m B.

Let eqC : C = S + D *m invmx A *m B.
Proof. by rewrite /S subrK. Qed.

(* det K = det A * det (C - D A^-1 B)                                      *)
Lemma det_block_schur : A \in unitmx ->
  \det (block_mx A B D C) = \det A * \det S.
Proof.
move=> uA; rewrite {1}eqC block_LU //.
by rewrite det_mulmx det_lblock det_ublock !det1 !mul1r.
Qed.

Lemma unitmx_block_schur : A \in unitmx -> S \in unitmx ->
  block_mx A B D C \in unitmx.
Proof.
by move=> uA uS; rewrite unitmxE det_block_schur // unitrM -!unitmxE uA.
Qed.

Lemma invmx_block_schur : A \in unitmx -> S \in unitmx ->
  invmx (block_mx A B D C) =
  block_mx (invmx A + invmx A *m B *m invmx S *m D *m invmx A)
           (- (invmx A *m B *m invmx S))
           (- (invmx S *m D *m invmx A))
           (invmx S).
Proof.
move=> uA uS; have uK := unitmx_block_schur uA uS.
apply: (can_inj (mulKmx uK)); rewrite mulmxV //.
by rewrite {1}eqC block_times_candidate.
Qed.

End Schur.

Section SymmetricBlocks.

Variable n : nat.
Variables (A : 'M[R]_n) (B : 'M[R]_n) (C : 'M[R]_n).

Hypothesis symA : A^T = A.
Hypothesis symC : C^T = C.

Let S := C - B^T *m invmx A *m B.

Lemma sym_invmx (M : 'M[R]_n) : M^T = M -> (invmx M)^T = invmx M.
Proof. by move=> symM; rewrite trmx_inv symM. Qed.

Lemma schur_sym : S^T = S.
Proof.
by rewrite /S linearB /= !trmx_mul trmxK trmx_inv symA symC mulmxA.
Qed.

Lemma joint_sym : (block_mx A B B^T C)^T = block_mx A B B^T C.
Proof. by rewrite tr_block_mx symA symC trmxK. Qed.

(* With symmetric diagonal blocks the lower-left block of the inverse is
   the transpose of the upper-right one.                                   *)
Lemma invmx_block_sym : A \in unitmx -> S \in unitmx ->
  let T := invmx A *m B *m invmx S in
  invmx (block_mx A B B^T C) =
  block_mx (invmx A + T *m B^T *m invmx A) (- T) (- T^T) (invmx S).
Proof.
move=> uA uS T; rewrite invmx_block_schur //; congr block_mx.
rewrite /T !trmx_mul !trmx_inv symA schur_sym.
by rewrite !mulmxA.
Qed.

End SymmetricBlocks.

Section SvdFacts.

Variable n : nat.
Variables (M u vt : 'M[R]_n) (s : 'rV[R]_n).

Hypothesis svdM : is_svd M (u, s, vt).

Lemma svd_unit_u : u \in unitmx /\ invmx u = u^T.
Proof.
have [uu _ _ _] := svdM; have [_ uU] := mulmx1_unit uu; split=> //.
by rewrite -[LHS]mul1mx -uu mulmxK.
Qed.

Lemma svd_unit_vt : vt \in unitmx /\ invmx vt = vt^T.
Proof.
have [_ vv _ _] := svdM; have [uV _] := mulmx1_unit vv; split=> //.
by rewrite -[RHS]mul1mx -(mulVmx uV) -mulmxA vv mulmx1.
Qed.

Lemma svd_unitmx : (M \in unitmx) = (diag_mx s \in unitmx).
Proof.
have [_ _ _ ->] := svdM; have [uU _] := svd_unit_u; have [uV _] := svd_unit_vt.
by rewrite !unitmx_mul uU uV andbT.
Qed.

Lemma diag_unitmx : (diag_mx s \in unitmx) = [forall i, s 0 i != 0].
Proof.
rewrite unitmxE det_diag unitfE; apply/idP/forallP => [p0 i|s0].
  by apply: contraNneq p0 => si0; rewrite (bigD1 i) //= si0 mul0r.
exact: prod_Rneq0.
Qed.

(* M^-1 = V S^-1 U^T, the inverse formed in every SVD branch.              *)
Lemma svd_inverse : diag_mx s \in unitmx ->
  vt^T *m invmx (diag_mx s) *m u^T = invmx M.
Proof.
move=> uS; have [_ _ _ ->] := svdM.
have [uU <-] := svd_unit_u; have [uV <-] := svd_unit_vt.
by rewrite !invmx_mul ?unitmx_mul ?uU ?uS // mulmxA.
Qed.

Lemma det_orth (Q : 'M[R]_n) : Q^T *m Q = 1%:M -> Rabs (\det Q) = 1%Re.
Proof.
move/(congr1 determinant); rewrite det_mulmx det_tr det1.
toR; set d := \det Q => h.
have e0 : ((d + 1) * (d - 1) = 0)%Re by nra.
case: (Rmult_integral _ _ e0) => e.
  by rewrite Rabs_left; lra.
by rewrite Rabs_right; lra.
Qed.

Lemma prod_ge0 (f : 'I_n -> R) :
  (forall i, Rle 0%Re (f i)) -> Rle 0%Re (\prod_i f i).
Proof.
move=> f0; elim/big_rec: _ => [|i r _ r0]; first by toR; lra.
by toR; apply: Rmult_le_pos.
Qed.

(* |det M| is the product of the singular values.                          *)
Lemma svd_absdet : Rabs (\det M) = \prod_i s 0 i.
Proof.
have [uu vv s0 ->] := svdM.
rewrite !det_mulmx det_diag; toR; rewrite !Rabs_mult det_orth //.
have -> : Rabs (\det vt) = 1%Re.
  by rewrite -det_tr; apply: det_orth; rewrite trmxK.
by rewrite Rabs_right ?Rmult_1_l ?Rmult_1_r //; apply/Rle_ge/prod_ge0.
Qed.

End SvdFacts.

Section Logarithms.

Variable n : nat.

Lemma ln_prod (f : 'I_n -> R) :
  (forall i, (0 < f i)%Re) -> ln (\prod_i f i) = \sum_i ln (f i).
Proof.
move=> f0.
suff [] : (0 < \prod_i f i)%Re /\ ln (\prod_i f i) = \sum_i ln (f i) by [].
apply: (big_rec2 (fun a b => (0 < a)%Re /\ ln a = b)) => [|i b a _ [a0 <-]].
  by rewrite ln_1; split=> //; toR; lra.
by split; [toR; apply: Rmult_lt_0_compat | toR; rewrite ln_mult].
Qed.

(* 2 * sum_i log|L_ii| is the log-determinant of L L^T.                    *)
Lemma cholesky_logdet (M L : 'M[R]_n) :
  M^T = M -> cholesky M = Ok L ->
  (0 < \det M)%Re /\
  ln (\det M) = (2 * \sum_i ln (Rabs (L i i)))%Re.
Proof.
move=> symM cM; have [_ posL _] := cholesky_spec symM cM.
have -> : \det M = \prod_i (L i i * L i i).
  by rewrite (cholesky_det symM cM); apply: eq_bigr => i _; rewrite expr2.
have pos2 i : (0 < L i i * L i i)%Re by toR; apply: Rmult_lt_0_compat.
split.
  have: (0 <= \prod_i (L i i * L i i))%Re by apply: prod_ge0 => i; apply: Rlt_le.
  have: \prod_i (L i i * L i i) != 0 by apply: prod_Rneq0 => i; apply: Rlt0_neq0.
  by move/Rneq0P; lra.
rewrite ln_prod // -[(2 * _)%Re]/(2%Re * _) mulr_sumr; apply: eq_bigr => i _.
rewrite Rabs_right; first by have := posL i; lra.
by toR; rewrite ln_mult //; lra.
Qed.

End Logarithms.

(* ---------------------------------------------------------------------- *)
(*  5. sympy: symbolic expressions, sp.diff and sp.lambdify                *)
(* ---------------------------------------------------------------------- *)

Module sp.

(* sp.symbols('x_i x_j y_i y_j t_i t_j sigma l_x l_y l_t phi a b c d')     *)
Inductive symbol :=
  x_i | x_j | y_i | y_j | t_i | t_j | sigma | l_x | l_y | l_t | phi
| a | b | c | d.

Definition symbol_id (v : symbol) : nat :=
  match v with
  | x_i => 0 | x_j => 1 | y_i => 2 | y_j => 3 | t_i => 4 | t_j => 5
  | sigma => 6 | l_x => 7 | l_y => 8 | l_t => 9 | phi => 10
  | a => 11 | b => 12 | c => 13 | d => 14
  end.

Definition symbol_eqb (u v : symbol) : bool :=
  Nat.eqb (symbol_id u) (symbol_id v).

(* Expression trees: sympy's Add, Mul and Pow nodes with integer leaves;
   sqrt is kept apart from the integer powers.                             *)
Inductive expr :=
| Sym (v : symbol)
| Int (z : Z)
| Add (e1 e2 : expr)
| Mul (e1 e2 : expr)
| Pow (e : expr) (k : Z)
| exp (e : expr)
| sqrt (e : expr).

(* Python's operators on expressions: a - b, - a, a / b.                   *)
Definition neg (e : expr) : expr := Mul (Int (-1)) e.
Definition sub (e1 e2 : expr) : expr := Add e1 (neg e2).
Definition div (e1 e2 : expr) : expr := Mul e1 (Pow e2 (-1)).

(* Sums and products as sympy builds them: zero terms and unit factors
   are dropped.                                                            *)
Definition mkAdd (e1 e2 : expr) : expr :=
  match e1, e2 with
  | Int Z0, _ => e2
  | _, Int Z0 => e1
  | _, _ => Add e1 e2
  end.

Definition mkMul (e1 e2 : expr) : expr :=
  match e1, e2 with
  | Int Z0, _ => Int 0
  | _, Int Z0 => Int 0
  | Int (Zpos xH), _ => e2
  | _, Int (Zpos xH) => e1
  | _, _ => Mul e1 e2
  end.

(* The derivative with respect to one symbol.                              *)
Fixpoint diff1 (v : symbol) (e : expr) : expr :=
  match e with
  | Sym u => if symbol_eqb u v then Int 1 else Int 0
  | Int _ => Int 0
  | Add e1 e2 => mkAdd (diff1 v e1) (diff1 v e2)
  | Mul e1 e2 => mkAdd (mkMul (diff1 v e1) e2) (mkMul e1 (diff1 v e2))
  | Pow e1 k => mkMul (mkMul (Int k) (Pow e1 (k - 1))) (diff1 v e1)
  | exp e1 => mkMul (exp e1) (diff1 v e1)
  | sqrt e1 => mkMul (diff1 v e1) (Pow (Mul (Int 2) (sqrt e1)) (-1))
  end.

(* sp.diff(e, v1, v2, ...): successive derivatives, left to right.         *)
Fixpoint diff (e : expr) (vs : seq symbol) : expr :=
  match vs with
  | [::] => e
  | v :: vs' => diff (diff1 v e) vs'
  end.

Definition pow_int (r : R) (k : Z) : R :=
  match k with
  | Z0 => 1%Re
  | Zpos p => (r ^ Pos.to_nat p)%Re
  | Zneg p => (/ (r ^ Pos.to_nat p))%Re
  end.

Fixpoint eval (env : symbol -> R) (e : expr) : R :=
  match e with
  | Sym v => env v
  | Int z => IZR z
  | Add e1 e2 => (eval env e1 + eval env e2)%Re
  | Mul e1 e2 => (eval env e1 * eval env e2)%Re
  | Pow e1 k => pow_int (eval env e1) k
  | exp e1 => Rtrigo_def.exp (eval env e1)
  | sqrt e1 => R_sqrt.sqrt (eval env e1)
  end.

(* The positional arguments of a lambdified function.                      *)
Fixpoint bind_args (args : seq symbol) (vals : seq R) (v : symbol) : R :=
  match args, vals with
  | u :: args', w :: vals' =>
      if symbol_eqb u v then w else bind_args args' vals' v
  | _, _ => 0%Re
  end.

(* sp.lambdify(args, e, "numpy")                                           *)
Definition lambdify (args : seq symbol) (e : expr) (vals : seq R) : R :=
  eval (bind_args args vals) e.

Lemma eval_mkAdd env e1 e2 :
  eval env (mkAdd e1 e2) = (eval env e1 + eval env e2)%Re.
Proof.
rewrite /mkAdd; case: e1 => [v|[|p|p]|? ?|? ?|? ?|?|?] /=; rewrite ?Rplus_0_l //;
  by case: e2 => [v'|[|p'|p']|? ?|? ?|? ?|?|?] /=; rewrite ?Rplus_0_r.
Qed.

Lemma eval_mkMul env e1 e2 :
  eval env (mkMul e1 e2) = (eval env e1 * eval env e2)%Re.
Proof.
rewrite /mkMul; case: e1 => [v|[|[p|p|]|p]|? ?|? ?|? ?|?|?] /=;
  rewrite ?Rmult_0_l ?Rmult_1_l //;
  by case: e2 => [v'|[|[p'|p'|]|p']|? ?|? ?|? ?|?|?] /=;
     rewrite ?Rmult_0_r ?Rmult_1_r.
Qed.

Definition to_Z (e : expr) : option Z :=
  match e with Int z => Some z | _ => None end.

End sp.

(* Python's expression syntax for sympy terms.                             *)
Declare Scope sp_scope.
Delimit Scope sp_scope with sp.
Bind Scope sp_scope with sp.expr.
Coercion sp.Sym : sp.symbol >-> sp.expr.
Number Notation sp.expr sp.Int sp.to_Z : sp_scope.
Notation "e1 + e2" := (sp.Add e1 e2) : sp_scope.
Notation "e1 - e2" := (sp.sub e1 e2) : sp_scope.
Notation "e1 * e2" := (sp.Mul e1 e2) : sp_scope.
Notation "e1 / e2" := (sp.div e1 e2) : sp_scope.
Notation "- e" := (sp.neg e) : sp_scope.
Notation "e ** k" := (sp.Pow e k%Z) (at level 30, right associativity) : sp_scope.

(* Unfolds a lambdified kernel down to a real-number expression.           *)
Ltac sp_compute :=
  cbv [sp.lambdify sp.eval sp.diff sp.diff1 sp.mkAdd sp.mkMul sp.neg sp.sub
       sp.div sp.symbol_eqb sp.symbol_id sp.bind_args sp.pow_int Nat.eqb
       Z.sub Z.add Z.opp Z.pos_sub Z.double Z.succ_double Z.pred_double
       Pos.pred_double Pos.succ Pos.add Pos.to_nat Pos.iter_op Nat.add].

(* p[k] for a 1-D array.                                                   *)
Definition item {m : nat} (v : 'rV[R]_m.+1) (k : nat) : R := v 0 (inord k).

(* x[k] with an index computed at run time (k - n in the gradient loops);
   the notebooks only use indices inside the array.                        *)
Definition getitem {m : nat} (v : 'rV[R]_m) (k : nat) : R :=
  if insub k is Some i then v 0 (i : 'I_m) else 0%Re.

(* ====================================================================== *)
(*  6. Notebook "PDE 1 - 2D", determinant form of the objective            *)
(*     (kernels without signal variance, Nelder-Mead and conjugate         *)
(*     gradient on det((y^T K^-1 y) K))                                    *)
(* ====================================================================== *)

Module DetMax.

Import sp.

(* Noise of our data: s = 1e-7                                             *)
Definition s : R := 1e-7%Re.

(* kuu_sym = sp.exp(-1/(2*l_x)*((x_i - x_j)**2) - 1/(2*l_y)*((y_i - y_j)**2)) *)
Definition kuu_sym : expr :=
  exp (-1 / (2 * l_x) * ((x_i - x_j) ** 2) - 1 / (2 * l_y) * ((y_i - y_j) ** 2))%sp.

Definition kuu_fn (xi xj yi yj lx ly : R) : R :=
  lambdify [:: x_i; x_j; y_i; y_j; l_x; l_y] kuu_sym [:: xi; xj; yi; yj; lx; ly].

Definition kuu {m} (x y : 'rV[R]_m) (l_x l_y : R) : 'M[R]_m :=
  fill_pairwise (fun i j => kuu_fn (x 0 i) (x 0 j) (y 0 i) (y 0 j) l_x l_y).

Definition kff_sym : expr :=
  (phi ** 2 * kuu_sym
   + phi * diff kuu_sym [:: x_i]
   + phi * diff kuu_sym [:: y_i; y_i]
   + phi * diff kuu_sym [:: x_j]
   + diff kuu_sym [:: x_i; x_j]
   + diff kuu_sym [:: y_i; y_i; x_j]
   + phi * diff kuu_sym [:: y_j; y_j]
   + diff kuu_sym [:: x_i; y_j; y_j]
   + diff kuu_sym [:: y_i; y_i; y_j; y_j])%sp.

Definition kff_fn (xi xj yi yj lx ly ph : R) : R :=
  lambdify [:: x_i; x_j; y_i; y_j; l_x; l_y; phi] kff_sym
           [:: xi; xj; yi; yj; lx; ly; ph].

Definition kff {m} (x y : 'rV[R]_m) (l_x l_y phi : R) : 'M[R]_m :=
  fill_pairwise (fun i j => kff_fn (x 0 i) (x 0 j) (y 0 i) (y 0 j) l_x l_y phi).

Definition kfu_sym : expr :=
  (phi * kuu_sym + diff kuu_sym [:: x_i] + diff kuu_sym [:: y_i; y_i])%sp.

Definition kfu_fn (xi xj yi yj lx ly ph : R) : R :=
  lambdify [:: x_i; x_j; y_i; y_j; l_x; l_y; phi] kfu_sym
           [:: xi; xj; yi; yj; lx; ly; ph].

Definition kfu {m} (x y : 'rV[R]_m) (l_x l_y phi : R) : 'M[R]_m :=
  fill_pairwise (fun i j => kfu_fn (x 0 i) (x 0 j) (y 0 i) (y 0 j) l_x l_y phi).

Definition kuf {m} (x y : 'rV[R]_m) (l_x l_y phi : R) : 'M[R]_m :=
  (kfu x y l_x l_y phi)^T.

(* [sp.diff(kuu_sym, l) for l in [l_x, l_y, phi]] and their lambdified
   forms; kuu_l_x, kuu_l_y and kuu_phi take no phi argument.               *)
Definition kuu_sym_l_x : expr := diff kuu_sym [:: l_x].
Definition kuu_sym_l_y : expr := diff kuu_sym [:: l_y].
Definition kuu_sym_phi : expr := diff kuu_sym [:: phi].
Definition kfu_sym_l_x : expr := diff kfu_sym [:: l_x].
Definition kfu_sym_l_y : expr := diff kfu_sym [:: l_y].
Definition kfu_sym_phi : expr := diff kfu_sym [:: phi].
Definition kff_sym_l_x : expr := diff kff_sym [:: l_x].
Definition kff_sym_l_y : expr := diff kff_sym [:: l_y].
Definition kff_sym_phi : expr := diff kff_sym [:: phi].

Definition lambdify6 (e : expr) (xi xj yi yj lx ly : R) : R :=
  lambdify [:: x_i; x_j; y_i; y_j; l_x; l_y] e [:: xi; xj; yi; yj; lx; ly].

Definition lambdify7 (e : expr) (xi xj yi yj lx ly ph : R) : R :=
  lambdify [:: x_i; x_j; y_i; y_j; l_x; l_y; phi] e
           [:: xi; xj; yi; yj; lx; ly; ph].

Definition kuu_l_x := lambdify6 kuu_sym_l_x.
Definition kff_l_x := lambdify7 kff_sym_l_x.
Definition kfu_l_x := lambdify7 kfu_sym_l_x.
Definition kuu_l_y := lambdify6 kuu_sym_l_y.
Definition kff_l_y := lambdify7 kff_sym_l_y.
Definition kfu_l_y := lambdify7 kfu_sym_l_y.
Definition kuu_phi := lambdify6 kuu_sym_phi.
Definition kff_phi := lambdify7 kff_sym_phi.
Definition kfu_phi := lambdify7 kfu_sym_phi.

Section Notebook.

(* Global variables: x, y, n, y_u, y_f, s                                  *)
Variable n : nat.
Variables x y : 'rV[R]_n.
Variable svd : svd_fun.

(* simulate_data: y_u = x*x + y, y_f = 2*(x*x + x + y)                      *)
Definition y_u : 'rV[R]_n := \row_i (x 0 i * x 0 i + y 0 i).
Definition y_f : 'rV[R]_n := \row_i (2%Re * (x 0 i * x 0 i + x 0 i + y 0 i)).
Definition y_con : 'rV[R]_(n + n) := row_mx y_u y_f.

Definition K (l_x l_y phi : R) : 'M[R]_(n + n) :=
  block_mx (kuu x y l_x l_y + s *: 1%:M) (kuf x y l_x l_y phi)
           (kfu x y l_x l_y phi) (kff x y l_x l_y phi + s *: 1%:M).

Definition nlml (params : 'rV[R]_3) : res R :=
  let l_x_exp := Rtrigo_def.exp (item params 0) in
  let l_y_exp := Rtrigo_def.exp (item params 1) in
  try_except
    (L <- cholesky (K l_x_exp l_y_exp (item params 2)) ;;
     L_inv <- solve_triangular L 1%:M ;;
     let K_inv := L_inv^T *m L_inv in
     let val := \det (vdot (y_con *m K_inv) y_con *: (L *m L^T)) in
     Ok val)
    (let '(u, s_mat, vt) := svd (K l_x_exp l_y_exp (item params 2)) in
     S_inv <- inv (diag_mx s_mat) ;;
     let K_inv := vt^T *m S_inv *m u^T in
     let val := \prod_i (vdot (y_con *m K_inv) y_con * s_mat 0 i) in
     Ok val).

(* The inversion pattern of the block functions: Cholesky when possible,
   otherwise the SVD; the second component is the determinant the
   notebook keeps alongside.                                               *)
Definition nlml_block (params : 'rV[R]_3) : res R :=
  let l_x_exp := Rtrigo_def.exp (item params 0) in
  let l_y_exp := Rtrigo_def.exp (item params 1) in
  let A := kuu x y l_x_exp l_y_exp + s *: 1%:M in
  let B := (kfu x y l_x_exp l_y_exp (item params 2))^T in
  let C := kff x y l_x_exp l_y_exp (item params 2) + s *: 1%:M in
  A_inv_det <-
    try_except
      (L <- cholesky A ;;
       L_inv <- solve_triangular L 1%:M ;;
       Ok (L_inv^T *m L_inv, \prod_i (diag_of L) 0 i ^+ 2))
      (let '(u, s_mat, vt) := svd A in
       S_inv <- inv (diag_mx s_mat) ;;
       Ok (vt^T *m S_inv *m u^T, \prod_i s_mat 0 i)) ;;
  let A_inv := A_inv_det.1 in
  let KA := C - B^T *m A_inv *m B in
  KA_inv_det <-
    try_except
      (L <- cholesky KA ;;
       L_inv <- solve_triangular L 1%:M ;;
       Ok (L_inv^T *m L_inv, \prod_i (diag_of L) 0 i ^+ 2))
      (let '(u, s_mat, vt) := svd KA in
       S_inv <- inv (diag_mx s_mat) ;;
       Ok (vt^T *m S_inv *m u^T, \prod_i s_mat 0 i)) ;;
  let KA_inv := KA_inv_det.1 in
  let T := A_inv *m B *m KA_inv in
  let factor := vdot (y_u *m (A_inv + T *m B^T *m A_inv)) y_u
                - vdot ((2%Re *: y_u) *m T) y_f
                + vdot (y_f *m KA_inv) y_f in
  Ok (\det (factor *: A) * \det (factor *: KA)).

(* "Piecing it together": the inverse of the joint matrix from the
   inverses of A and of the Schur complement KA.                           *)
Definition piece_together {m} (A_inv B KA_inv : 'M[R]_m) : 'M[R]_(m + m) :=
  let T := A_inv *m B *m KA_inv in
  block_mx (A_inv + T *m B^T *m A_inv) (- T) (- T^T) KA_inv.

Definition K_inv_and_det (l_x l_y phi : R) : res ('M[R]_(n + n) * R) :=
  let A := kuu x y l_x l_y + s *: 1%:M in
  let B := (kfu x y l_x l_y phi)^T in
  let C := kff x y l_x l_y phi + s *: 1%:M in
  A_inv <-
    try_except
      (L <- cholesky A ;;
       L_inv <- solve_triangular L 1%:M ;;
       Ok (L_inv^T *m L_inv))
      (let '(u, s_mat, vt) := svd A in
       S_inv <- inv (diag_mx s_mat) ;;
       Ok (vt^T *m S_inv *m u^T)) ;;
  let KA := C - B^T *m A_inv *m B in
  KA_inv <-
    try_except
      (L <- cholesky KA ;;
       L_inv <- solve_triangular L 1%:M ;;
       Ok (L_inv^T *m L_inv))
      (let '(u, s_mat, vt) := svd KA in
       S_inv <- inv (diag_mx s_mat) ;;
       Ok (vt^T *m S_inv *m u^T)) ;;
  let K_inv := piece_together A_inv B KA_inv in
  let f := vdot (y_con *m K_inv) y_con in
  let det_fK := \det (f *: A) * \det (f *: KA) in
  Ok (K_inv, det_fK).

(* K_l_x, K_l_y and K_phi are one loop nest over range(2*n) with three
   different triples of derivative kernels.                                *)
Definition K_derivative
    (guu : R -> R -> R -> R -> R -> R -> R)
    (gfu gff : R -> R -> R -> R -> R -> R -> R -> R)
    (x y : 'rV[R]_n) (l_x l_y phi : R) : 'M[R]_(n + n) :=
  for_range (fun (i : 'I_(n + n)) k =>
    for_range (fun (j : 'I_(n + n)) k =>
      let k := if (i < n)%N && (j < n)%N then
                 setitem k i j (guu (getitem x i) (getitem x j)
                                    (getitem y i) (getitem y j) l_x l_y)
               else k in
      let k := if (i < n)%N && (n <= j)%N then
                 setitem k i j (gfu (getitem x (j - n)) (getitem x i)
                                    (getitem y (j - n)) (getitem y i)
                                    l_x l_y phi)
               else k in
      let k := if (n <= i)%N && (j < n)%N then
                 setitem k i j (gfu (getitem x (i - n)) (getitem x j)
                                    (getitem y (i - n)) (getitem y j)
                                    l_x l_y phi)
               else k in
      let k := if (n <= i)%N && (n <= j)%N then
                 setitem k i j (gff (getitem x (i - n)) (getitem x (j - n))
                                    (getitem y (i - n)) (getitem y (j - n))
                                    l_x l_y phi)
               else k in
      k) k) (zeros (n + n)).

Definition K_l_x := K_derivative kuu_l_x kfu_l_x kff_l_x.
Definition K_l_y := K_derivative kuu_l_y kfu_l_y kff_l_y.
Definition K_phi := K_derivative kuu_phi kfu_phi kff_phi.

Definition grad_L (l_x l_y phi : R) : res (seq R) :=
  r <- K_inv_and_det l_x l_y phi ;;
  let K_inv := r.1 in
  let det_fK := r.2 in
  let K_1 := K_l_x x y l_x l_y phi in
  let K_2 := K_l_y x y l_x l_y phi in
  let K_3 := K_phi x y l_x l_y phi in
  let w : 'rV[R]_(n + n) := (K_inv *m y_con^T)^T in
  let comp_1 := det_fK * (\tr (K_inv *m K_1)
                          - vdot (((2 * n)%:R *: w) *m K_1) w / vdot y_con w) in
  let comp_2 := det_fK * (\tr (K_inv *m K_2)
                          - vdot (((2 * n)%:R *: w) *m K_2) w / vdot y_con w) in
  let comp_3 := det_fK * (\tr (K_inv *m K_3)
                          - vdot (((2 * n)%:R *: w) *m K_3) w / vdot y_con w) in
  Ok [:: comp_1; comp_2; comp_3].

Definition grad_nlml (par : 'rV[R]_3) : res (seq R) :=
  g <- grad_L (Rtrigo_def.exp (item par 0)) (Rtrigo_def.exp (item par 1))
              (item par 2) ;;
  Ok [:: nth 0 g 0 * Rtrigo_def.exp (item par 0);
         nth 0 g 1 * Rtrigo_def.exp (item par 1);
         nth 0 g 2 * 1].

End Notebook.

(* ----- the kernels are symmetric functions of the two sample points ---- *)

Lemma kuu_fn_sym xi xj yi yj lx ly :
  kuu_fn xi xj yi yj lx ly = kuu_fn xj xi yj yi lx ly.
Proof.
rewrite /kuu_fn /kuu_sym; sp_compute.
by congr (Rtrigo_def.exp _); ring.
Qed.

Lemma kff_fn_sym xi xj yi yj lx ly ph :
  kff_fn xi xj yi yj lx ly ph = kff_fn xj xi yj yi lx ly ph.
Proof.
rewrite /kff_fn /kff_sym /kuu_sym; sp_compute.
match goal with |- context [Rtrigo_def.exp ?u] => set E := Rtrigo_def.exp u end.
match goal with |- context [Rtrigo_def.exp ?u] =>
  have -> : Rtrigo_def.exp u = E by rewrite /E; congr (Rtrigo_def.exp _); ring end.
ring.
Qed.

Lemma kuu_sym_mx m (x y : 'rV[R]_m) l_x l_y : (kuu x y l_x l_y)^T = kuu x y l_x l_y.
Proof.
by rewrite /kuu fill_pairwiseE; apply/matrixP => i j; rewrite !mxE kuu_fn_sym.
Qed.

Lemma kff_sym_mx m (x y : 'rV[R]_m) l_x l_y phi :
  (kff x y l_x l_y phi)^T = kff x y l_x l_y phi.
Proof.
by rewrite /kff fill_pairwiseE; apply/matrixP => i j; rewrite !mxE kff_fn_sym.
Qed.

End DetMax.

(* ---------------------------------------------------------------------- *)
(*  7. The determinant-form notebook: symmetry, whole-matrix and block     *)
(*     evaluation                                                          *)
(* ---------------------------------------------------------------------- *)

Section BlockQuadraticForm.

Variable n : nat.
Variable B : 'M[R]_n.

(* y^T K^-1 y through the blocks, as the block functions form it.          *)
Lemma block_quadratic_form (Ai Si : 'M[R]_n) (yu yf : 'rV[R]_n) :
  let T := Ai *m B *m Si in
  vdot (row_mx yu yf *m block_mx (Ai + T *m B^T *m Ai) (- T) (- T^T) Si)
       (row_mx yu yf)
  = vdot (yu *m (Ai + T *m B^T *m Ai)) yu - vdot ((2%Re *: yu) *m T) yf
    + vdot (yf *m Si) yf.
Proof.
move=> T; rewrite mul_row_block vdot_row_mx !vdotDl !mulmxN !vdotNl.
rewrite [vdot (yf *m T^T) yu]vdot_mulmx trmxK [vdot yf _]vdotC.
rewrite -scalemxAl vdotZl.
set q1 := vdot (yu *m _) yu; set q2 := vdot (yu *m T) yf; set q3 := vdot _ yf.
by toR; ring.
Qed.

End BlockQuadraticForm.

Section DetMaxFacts.

Variable n : nat.
Variables x y : 'rV[R]_n.
Variable svd : svd_fun.
Variables l_x l_y phi : R.

Let A := DetMax.kuu x y l_x l_y + DetMax.s *: 1%:M.
Let B := (DetMax.kfu x y l_x l_y phi)^T.
Let C := DetMax.kff x y l_x l_y phi + DetMax.s *: 1%:M.
Let S := C - B^T *m invmx A *m B.
Let yc := DetMax.y_con x y.

Lemma DetMax_symA : A^T = A.
Proof. by rewrite /A linearD /= DetMax.kuu_sym_mx linearZ /= trmx1. Qed.

Lemma DetMax_symC : C^T = C.
Proof. by rewrite /C linearD /= DetMax.kff_sym_mx linearZ /= trmx1. Qed.

Lemma DetMax_KE : DetMax.K x y l_x l_y phi = block_mx A B B^T C.
Proof. by rewrite /DetMax.K /DetMax.kuf -/A -/C -/B trmxK. Qed.

Lemma DetMax_symK : (DetMax.K x y l_x l_y phi)^T = DetMax.K x y l_x l_y phi.
Proof. by rewrite DetMax_KE joint_sym // ?DetMax_symA ?DetMax_symC. Qed.

(* The quadratic form y^T K^-1 y and the form-B objective
   val(theta) = det((y^T K^-1 y) K) of the notebook's first cell.          *)
Definition DetMax_quad : R :=
  vdot (yc *m invmx (DetMax.K x y l_x l_y phi)) yc.

Definition DetMax_val : R :=
  \det (DetMax_quad *: DetMax.K x y l_x l_y phi).

Lemma DetMax_schur_blocks : A \in unitmx -> S \in unitmx ->
  let T := invmx A *m B *m invmx S in
  [/\ invmx (DetMax.K x y l_x l_y phi) =
        block_mx (invmx A + T *m B^T *m invmx A) (- T) (- T^T) (invmx S),
      DetMax_quad =
        vdot (DetMax.y_u x y *m (invmx A + T *m B^T *m invmx A)) (DetMax.y_u x y)
        - vdot ((2%Re *: DetMax.y_u x y) *m T) (DetMax.y_f x y)
        + vdot (DetMax.y_f x y *m invmx S) (DetMax.y_f x y)
    & forall f : R, \det (f *: A) * \det (f *: S) =
                    \det (f *: DetMax.K x y l_x l_y phi)].
Proof.
move=> uA uS T.
have invK := @invmx_block_sym _ A B C DetMax_symA DetMax_symC uA uS.
split; first by rewrite DetMax_KE.
  by rewrite /DetMax_quad DetMax_KE invK /yc /DetMax.y_con block_quadratic_form.
move=> f; rewrite !detZ DetMax_KE det_block_schur // exprD.
by rewrite -/S; set dA := \det A; set dS := \det S; set fn := f ^+ n; toR; ring.
Qed.

Lemma DetMax_nlml_cholesky (params : 'rV[R]_3) :
  l_x = Rtrigo_def.exp (item params 0) -> l_y = Rtrigo_def.exp (item params 1) ->
  phi = item params 2 ->
  returns (cholesky (DetMax.K x y l_x l_y phi)) ->
  DetMax.nlml x y svd params = Ok DetMax_val.
Proof.
move=> elx ely eph; rewrite /DetMax.nlml -elx -ely -eph.
case cK: (cholesky _) => [L|] // _.
have [_ _ LLt] := cholesky_spec DetMax_symK cK.
have [_ sL Kinv] := cholesky_inverse DetMax_symK cK.
by rewrite bind_Ok sL bind_Ok /= Kinv LLt.
Qed.

Lemma DetMax_nlml_block_cholesky (params : 'rV[R]_3) :
  l_x = Rtrigo_def.exp (item params 0) -> l_y = Rtrigo_def.exp (item params 1) ->
  phi = item params 2 ->
  returns (cholesky A) -> returns (cholesky S) ->
  DetMax.nlml_block x y svd params = Ok DetMax_val.
Proof.
move=> elx ely eph; rewrite /DetMax.nlml_block -elx -ely -eph -/A -/B -/C.
case cA: (cholesky A) => [LA|] // _.
have [uA sLA Ainv] := cholesky_inverse DetMax_symA cA.
rewrite bind_Ok sLA !bind_Ok /= Ainv -/S.
case cS: (cholesky S) => [LS|] // _.
have symS : S^T = S by apply: schur_sym; [apply: DetMax_symA | apply: DetMax_symC].
have [uS sLS Sinv] := cholesky_inverse symS cS.
rewrite bind_Ok sLS !bind_Ok /= Sinv.
have [_ <- ->] := DetMax_schur_blocks uA uS.
by [].
Qed.

End DetMaxFacts.

(* ====================================================================== *)
(*  8. Notebook "PDE 1 - 2D with 4 parameters": plain inversion against    *)
(*     the SVD                                                             *)
(* ====================================================================== *)

Module NlmlSvd.

Import sp.

Definition kuu_sym : expr :=
  (sigma * exp (-1 / (2 * l_x) * ((x_i - x_j) ** 2)
                - 1 / (2 * l_y) * ((y_i - y_j) ** 2)))%sp.

Definition lambdify7 (e : expr) (xi xj yi yj sg lx ly : R) : R :=
  lambdify [:: x_i; x_j; y_i; y_j; sigma; l_x; l_y] e
           [:: xi; xj; yi; yj; sg; lx; ly].

Definition lambdify8 (e : expr) (xi xj yi yj sg lx ly ph : R) : R :=
  lambdify [:: x_i; x_j; y_i; y_j; sigma; l_x; l_y; phi] e
           [:: xi; xj; yi; yj; sg; lx; ly; ph].

Definition kuu_fn := lambdify7 kuu_sym.

Definition kuu {m} (x y : 'rV[R]_m) (sigma l_x l_y : R) : 'M[R]_m :=
  fill_pairwise (fun i j =>
    kuu_fn (x 0 i) (x 0 j) (y 0 i) (y 0 j) sigma l_x l_y).

Definition kff_sym : expr :=
  (phi ** 2 * kuu_sym
   + phi * diff kuu_sym [:: x_i]
   + phi * diff kuu_sym [:: y_i; y_i]
   + phi * diff kuu_sym [:: x_j]
   + diff kuu_sym [:: x_i; x_j]
   + diff kuu_sym [:: y_i; y_i; x_j]
   + phi * diff kuu_sym [:: y_j; y_j]
   + diff kuu_sym [:: x_i; y_j; y_j]
   + diff kuu_sym [:: y_i; y_i; y_j; y_j])%sp.

Definition kff_fn := lambdify8 kff_sym.

Definition kff {m} (x y : 'rV[R]_m) (sigma l_x l_y phi : R) : 'M[R]_m :=
  fill_pairwise (fun i j =>
    kff_fn (x 0 i) (x 0 j) (y 0 i) (y 0 j) sigma l_x l_y phi).

Definition kfu_sym : expr :=
  (phi * kuu_sym + diff kuu_sym [:: x_i] + diff kuu_sym [:: y_i; y_i])%sp.

Definition kfu_fn := lambdify8 kfu_sym.

Definition kfu {m} (x y : 'rV[R]_m) (sigma l_x l_y phi : R) : 'M[R]_m :=
  fill_pairwise (fun i j =>
    kfu_fn (x 0 i) (x 0 j) (y 0 i) (y 0 j) sigma l_x l_y phi).

Definition kuf {m} (x t : 'rV[R]_m) (sigma l_x l_y phi : R) : 'M[R]_m :=
  (kfu x t sigma l_x l_y phi)^T.

(* The matrix both objectives assemble inline.                             *)
Definition joint_K {m} (params : 'rV[R]_4) (x y : 'rV[R]_m) (s : R) :
  'M[R]_(m + m) :=
  let sigma_exp := Rtrigo_def.exp (item params 0) in
  let l_x_exp := Rtrigo_def.exp (item params 1) in
  let l_y_exp := Rtrigo_def.exp (item params 2) in
  block_mx (kuu x y sigma_exp l_x_exp l_y_exp + s *: 1%:M)
           (kuf x y sigma_exp l_x_exp l_y_exp (item params 3))
           (kfu x y sigma_exp l_x_exp l_y_exp (item params 3))
           (kff x y sigma_exp l_x_exp l_y_exp (item params 3) + s *: 1%:M).

(* val = np.linalg.slogdet(K) + np.mat(y) * np.linalg.inv(K) * np.mat(y).T
   slogdet returns the tuple (sign, logdet); adding the 1x1 matrix
   broadcasts it against the array [sign, logdet], so val is the 1x2
   matrix [[sign + q, logdet + q]] and val.item(0) its first entry.        *)
Definition nlml {m} (params : 'rV[R]_4) (x y y1 y2 : 'rV[R]_m) (s : R) : res R :=
  let K := joint_K params x y s in
  let y := row_mx y1 y2 in
  let sl := slogdet K in
  K_inv <- inv K ;;
  let q : 'M[R]_1 := y *m K_inv *m y^T in
  let val : 'M[R]_(1, 2) :=
    \matrix_(i, j) (nth 0%Re [:: sl.1; sl.2] j + q 0 0) in
  Ok (val 0 0).

Definition nlml_svd (svd : svd_fun) {m} (params : 'rV[R]_4)
    (x y y1 y2 : 'rV[R]_m) (s : R) : res R :=
  let K := joint_K params x y s in
  let y := row_mx y1 y2 in
  let '(u, s, vt) := svd _ K in
  let log_sum :=
    for_range (fun i log_sum => log_sum + ln (Rabs (s 0 i))) 0%Re in
  S_inv <- inv (diag_mx s) ;;
  let K_inv := vt^T *m S_inv *m u^T in
  let val : 'M[R]_1 := log_sum%:M + y *m K_inv *m y^T in
  Ok (val 0 0).

End NlmlSvd.

(* ====================================================================== *)
(*  9. Notebooks "PDE 3 - Advection-Diffusion"                             *)
(* ====================================================================== *)

Module AdvDiff.

Import sp.

(* Noise of our data: s = 1e-7                                             *)
Definition s : R := 1e-7%Re.

Definition kuu_sym : expr :=
  (sigma * exp (-1 / (2 * l_x) * ((x_i - x_j) ** 2)
                - 1 / (2 * l_y) * ((y_i - y_j) ** 2)
                - 1 / (2 * l_t) * ((t_i - t_j) ** 2)))%sp.

Definition lambdify10 (e : expr) (xi xj yi yj ti tj sg lx ly lt : R) : R :=
  lambdify [:: x_i; x_j; y_i; y_j; t_i; t_j; sigma; l_x; l_y; l_t] e
           [:: xi; xj; yi; yj; ti; tj; sg; lx; ly; lt].

Definition lambdify14 (e : expr)
    (xi xj yi yj ti tj sg lx ly lt va vb vc vd : R) : R :=
  lambdify [:: x_i; x_j; y_i; y_j; t_i; t_j; sigma; l_x; l_y; l_t; a; b; c; d]
           e [:: xi; xj; yi; yj; ti; tj; sg; lx; ly; lt; va; vb; vc; vd].

Definition kuu_fn := lambdify10 kuu_sym.

Definition kuu {m} (x y t : 'rV[R]_m) (sigma l_x l_y l_t : R) : 'M[R]_m :=
  fill_pairwise (fun i j =>
    kuu_fn (x 0 i) (x 0 j) (y 0 i) (y 0 j) (t 0 i) (t 0 j) sigma l_x l_y l_t).

Definition kff_sym : expr :=
  (a ** 2 * diff kuu_sym [:: x_i; x_j]
   + a * b * diff kuu_sym [:: x_i; y_j]
   + a * c * diff kuu_sym [:: x_i; x_j; x_j]
   + a * d * diff kuu_sym [:: x_i; y_j; y_j]
   - a * diff kuu_sym [:: x_i; t_j]
   + b * a * diff kuu_sym [:: y_i; x_j]
   + b ** 2 * diff kuu_sym [:: y_i; y_j]
   + b * c * diff kuu_sym [:: y_i; x_j; x_j]
   + b * d * diff kuu_sym [:: y_i; y_j; y_j]
   - b * diff kuu_sym [:: y_i; t_j]
   + c * a * diff kuu_sym [:: x_i; x_i; x_j]
   + c * b * diff kuu_sym [:: x_i; x_i; y_j]
   + c ** 2 * diff kuu_sym [:: x_i; x_i; x_j; x_j]
   + c * d * diff kuu_sym [:: x_i; x_i; y_j; y_j]
   - c * diff kuu_sym [:: x_i; x_i; t_j]
   + d * a * diff kuu_sym [:: y_i; y_i; x_j]
   + d * b * diff kuu_sym [:: y_i; y_i; y_j]
   + d * c * diff kuu_sym [:: y_i; y_i; x_j; x_j]
   + d ** 2 * diff kuu_sym [:: y_i; y_i; y_j; y_j]
   - d * diff kuu_sym [:: y_i; y_i; t_j]
   - a * diff kuu_sym [:: t_i; x_j]
   - b * diff kuu_sym [:: t_i; y_j]
   - c * diff kuu_sym [:: t_i; x_j; x_j]
   - d * diff kuu_sym [:: t_i; y_j; y_j]
   + diff kuu_sym [:: t_i; t_j])%sp.

Definition kff_fn := lambdify14 kff_sym.

Definition kff {m} (x y t : 'rV[R]_m) (sigma l_x l_y l_t a b c d : R) :
  'M[R]_m :=
  fill_pairwise (fun i j =>
    kff_fn (x 0 i) (x 0 j) (y 0 i) (y 0 j) (t 0 i) (t 0 j)
           sigma l_x l_y l_t a b c d).

Definition kfu_sym : expr :=
  (a * diff kuu_sym [:: x_i]
   + b * diff kuu_sym [:: y_i]
   + c * diff kuu_sym [:: x_i; x_i]
   + d * diff kuu_sym [:: y_i; y_i]
   - diff kuu_sym [:: t_i])%sp.

Definition kfu_fn := lambdify14 kfu_sym.

Definition kfu {m} (x y t : 'rV[R]_m) (sigma l_x l_y l_t a b c d : R) :
  'M[R]_m :=
  fill_pairwise (fun i j =>
    kfu_fn (x 0 i) (x 0 j) (y 0 i) (y 0 j) (t 0 i) (t 0 j)
           sigma l_x l_y l_t a b c d).

Definition kuf {m} (x y t : 'rV[R]_m) (sigma l_x l_y l_t a b c d : R) :
  'M[R]_m :=
  (kfu x y t sigma l_x l_y l_t a b c d)^T.

Section Notebook.

(* Global variables: x, y, t, n, y_u, y_f, s                               *)
Variable n : nat.
Variables x y t : 'rV[R]_n.
Variable svd : svd_fun.

Definition K (sigma l_x l_y l_t a b c d s : R) : 'M[R]_(n + n) :=
  block_mx (kuu x y t sigma l_x l_y l_t + s *: 1%:M)
           (kuf x y t sigma l_x l_y l_t a b c d)
           (kfu x y t sigma l_x l_y l_t a b c d)
           (kff x y t sigma l_x l_y l_t a b c d + s *: 1%:M).

(* The inverse and the log-determinant accumulator of one matrix: the body
   of K_inv_and_det once K(...) is evaluated.  K_inv and log_sum are only
   assigned after the calls that can raise, so the handler starts from
   their initial values.                                                   *)
Definition inv_and_logsum {m} (M : 'M[R]_m) : res ('M[R]_m * R) :=
  try_except
    (L <- cholesky M ;;
     L_inv <- solve_triangular L 1%:M ;;
     let K_inv := L_inv^T *m L_inv in
     let log_sum :=
       for_range (fun i log_sum => log_sum + ln (Rabs (L i i))) 0%Re in
     Ok (K_inv, log_sum))
    (let '(u, s_mat, vt) := svd M in
     S_inv <- inv (diag_mx s_mat) ;;
     let K_inv := vt^T *m S_inv *m u^T in
     let log_sum :=
       for_range (fun i log_sum => log_sum + ln (s_mat 0 i)) 0%Re in
     Ok (K_inv, log_sum)).

Definition K_inv_and_det (sigma l_x l_y l_t a b c d s : R) :
  res ('M[R]_(n + n) * R) :=
  inv_and_logsum (K sigma l_x l_y l_t a b c d s).

(* advection_diffusion.ipynb: data from the simulated PDE, eight
   optimisation variables.                                                 *)
Definition nlml (y_u y_f : 'rV[R]_n) (params : 'rV[R]_8) : res R :=
  let sigma_exp := Rtrigo_def.exp (item params 0) in
  let l_x_exp := Rtrigo_def.exp (item params 1) in
  let l_y_exp := Rtrigo_def.exp (item params 2) in
  let l_t_exp := Rtrigo_def.exp (item params 3) in
  let y_con := row_mx y_u y_f in
  Ab <- K_inv_and_det sigma_exp l_x_exp l_y_exp l_t_exp (item params 4)
          (item params 5) (item params 6) (item params 7) s ;;
  let val := Ab.2 + vdot (y_con *m Ab.1) y_con in
  Ok val.

End Notebook.

(* The second notebook of the same PDE: synthetic data, c and d fixed.     *)
Module Synthetic.

Section Notebook.

Variable n : nat.
Variables x y t : 'rV[R]_n.
Variable svd : svd_fun.

(* simulate_data: y_u = np.exp(2*x) + 3*y - t, y_f = 5*np.ones(n)          *)
Definition y_u : 'rV[R]_n :=
  \row_i (Rtrigo_def.exp (2%Re * x 0 i) + 3%Re * y 0 i - t 0 i).
Definition y_f : 'rV[R]_n := 5%Re *: const_mx 1.

Definition nlml (params : 'rV[R]_6) : res R :=
  let c_par := 0.5%Re in
  let d_par := 0.5%Re in
  let sigma_exp := Rtrigo_def.exp (item params 0) in
  let l_x_exp := Rtrigo_def.exp (item params 1) in
  let l_y_exp := Rtrigo_def.exp (item params 2) in
  let l_t_exp := Rtrigo_def.exp (item params 3) in
  let y_con := row_mx y_u y_f in
  Ab <- K_inv_and_det x y t svd sigma_exp l_x_exp l_y_exp l_t_exp
          (item params 4) (item params 5) c_par d_par s ;;
  let val := Ab.2 + vdot (y_con *m Ab.1) y_con in
  Ok val.

End Notebook.

End Synthetic.

End AdvDiff.

(* ====================================================================== *)
(*  10. Notebook "PDE 1 - 2D" with the Matern kernel (nu = 5/2)            *)
(* ====================================================================== *)

Module Matern.

Import sp.

(* Noise of our data: s = 0                                                *)
Definition s : R := 0%Re.

(* Circumventing evaluations of kernel-derivatives at zero:                *)
Definition corr_nan : R := 1e-4%Re.

Definition r_l : expr :=
  sqrt ((x_i - x_j) ** 2 / l_x + (y_i - y_j) ** 2 / l_y)%sp.

(* 5/3 is a Python float in the notebook; it is read as the real 5/3.      *)
Definition kuu_sym : expr :=
  (sigma * (1 + sqrt 5 * r_l + 5 / 3 * r_l ** 2) * exp (- sqrt 5 * r_l))%sp.

Definition lambdify7 (e : expr) (xi xj yi yj sg lx ly : R) : R :=
  lambdify [:: x_i; x_j; y_i; y_j; sigma; l_x; l_y] e
           [:: xi; xj; yi; yj; sg; lx; ly].

Definition lambdify8 (e : expr) (xi xj yi yj sg lx ly ph : R) : R :=
  lambdify [:: x_i; x_j; y_i; y_j; sigma; l_x; l_y; phi] e
           [:: xi; xj; yi; yj; sg; lx; ly; ph].

Definition kuu_fn := lambdify7 kuu_sym.

Definition kuu {m} (x y : 'rV[R]_m) (sigma l_x l_y : R) : 'M[R]_m :=
  fill_pairwise (fun i j =>
    kuu_fn (x 0 i) (x 0 j) (y 0 i) (y 0 j) sigma l_x l_y).

Definition kff_sym : expr :=
  (phi ** 2 * kuu_sym
   + phi * diff kuu_sym [:: x_i]
   + phi * diff kuu_sym [:: y_i; y_i]
   + phi * diff kuu_sym [:: x_j]
   + diff kuu_sym [:: x_i; x_j]
   + diff kuu_sym [:: y_i; y_i; x_j]
   + phi * diff kuu_sym [:: y_j; y_j]
   + diff kuu_sym [:: x_i; y_j; y_j]
   + diff kuu_sym [:: y_i; y_i; y_j; y_j])%sp.

Definition kff_fn := lambdify8 kff_sym.

Definition kff {m} (x y : 'rV[R]_m) (sigma l_x l_y phi : R) : 'M[R]_m :=
  for_range (fun (i : 'I_m) k =>
    for_range (fun (j : 'I_m) k =>
      if i == j then
        setitem k i j (kff_fn (x 0 i) (x 0 j + corr_nan)
                              (y 0 i) (y 0 j + corr_nan) sigma l_x l_y phi)
      else
        setitem k i j (kff_fn (x 0 i) (x 0 j) (y 0 i) (y 0 j)
                              sigma l_x l_y phi)) k)
    (zeros m).

Definition kfu_sym : expr :=
  (phi * kuu_sym + diff kuu_sym [:: x_i] + diff kuu_sym [:: y_i; y_i])%sp.

Definition kfu_fn := lambdify8 kfu_sym.

Definition kfu {m} (x y : 'rV[R]_m) (sigma l_x l_y phi : R) : 'M[R]_m :=
  for_range (fun (i : 'I_m) k =>
    for_range (fun (j : 'I_m) k =>
      if i == j then
        setitem k i j (kfu_fn (x 0 i) (x 0 j + corr_nan)
                              (y 0 i) (y 0 j + corr_nan) sigma l_x l_y phi)
      else
        setitem k i j (kfu_fn (x 0 i) (x 0 j) (y 0 i) (y 0 j)
                              sigma l_x l_y phi)) k)
    (zeros m).

Definition kuf {m} (x y : 'rV[R]_m) (sigma l_x l_y phi : R) : 'M[R]_m :=
  (kfu x y sigma l_x l_y phi)^T.

Section Notebook.

(* Global variables: x, y, n, y_u, y_f, s                                  *)
Variable n : nat.
Variables x y : 'rV[R]_n.
Variable svd : svd_fun.

Definition y_u : 'rV[R]_n := \row_i (x 0 i * x 0 i + y 0 i).
Definition y_f : 'rV[R]_n := \row_i (2%Re * (x 0 i * x 0 i + x 0 i + y 0 i)).

Definition nlml (params : 'rV[R]_4) : res R :=
  let sigma_exp := Rtrigo_def.exp (item params 0) in
  let l_x_exp := Rtrigo_def.exp (item params 1) in
  let l_y_exp := Rtrigo_def.exp (item params 2) in
  let A := kuu x y sigma_exp l_x_exp l_y_exp + s *: 1%:M in
  let B := (kfu x y sigma_exp l_x_exp l_y_exp (item params 3))^T in
  let C := kff x y sigma_exp l_x_exp l_y_exp (item params 3) + s *: 1%:M in
  A_inv_logdet <-
    try_except
      (L <- cholesky A ;;
       L_inv <- solve_triangular L 1%:M ;;
       Ok (L_inv^T *m L_inv,
           2%Re * \sum_i ln (Rabs ((diag_of L) 0 i))))
      (let '(u, s_mat, vt) := svd A in
       S_inv <- inv (diag_mx s_mat) ;;
       Ok (vt^T *m S_inv *m u^T, \sum_i ln (s_mat 0 i))) ;;
  let A_inv := A_inv_logdet.1 in
  let logdet_A := A_inv_logdet.2 in
  let KA := C - B^T *m A_inv *m B in
  KA_inv_logdet <-
    try_except
      (L <- cholesky KA ;;
       L_inv <- solve_triangular L 1%:M ;;
       Ok (L_inv^T *m L_inv,
           2%Re * \sum_i ln (Rabs ((diag_of L) 0 i))))
      (let '(u, s_mat, vt) := svd KA in
       S_inv <- inv (diag_mx s_mat) ;;
       Ok (vt^T *m S_inv *m u^T, \sum_i ln (s_mat 0 i))) ;;
  let KA_inv := KA_inv_logdet.1 in
  let logdet_KA := KA_inv_logdet.2 in
  let T := A_inv *m B *m KA_inv in
  let yKy := vdot (y_u *m (A_inv + T *m B^T *m A_inv)) y_u
             - vdot ((2%Re *: y_u) *m T) y_f
             + vdot (y_f *m KA_inv) y_f in
  Ok (yKy + logdet_A + logdet_KA).

End Notebook.

End Matern.

(* ====================================================================== *)
(*  11. Notebook "PDE 2 - 3D"                                              *)
(* ====================================================================== *)

Module Example3D.

Import sp.

(* Noise parameter: s = 1e-7                                               *)
Definition s : R := 1e-7%Re.

Definition kuu_sym : expr :=
  (sigma * exp (-1 / (2 * l_x) * ((x_i - x_j) ** 2)
                - 1 / (2 * l_y) * ((y_i - y_j) ** 2)
                - 1 / (2 * l_t) * ((t_i - t_j) ** 2)))%sp.

Definition lambdify10 (e : expr) (xi xj yi yj ti tj sg lx ly lt : R) : R :=
  lambdify [:: x_i; x_j; y_i; y_j; t_i; t_j; sigma; l_x; l_y; l_t] e
           [:: xi; xj; yi; yj; ti; tj; sg; lx; ly; lt].

Definition lambdify11 (e : expr) (xi xj yi yj ti tj sg lx ly lt ph : R) : R :=
  lambdify [:: x_i; x_j; y_i; y_j; t_i; t_j; sigma; l_x; l_y; l_t; phi] e
           [:: xi; xj; yi; yj; ti; tj; sg; lx; ly; lt; ph].

Definition kuu_fn := lambdify10 kuu_sym.

Definition kuu {m} (x y t : 'rV[R]_m) (sigma l_x l_y l_t : R) : 'M[R]_m :=
  fill_pairwise (fun i j =>
    kuu_fn (x 0 i) (x 0 j) (y 0 i) (y 0 j) (t 0 i) (t 0 j) sigma l_x l_y l_t).

Definition kff_sym : expr :=
  (diff kuu_sym [:: x_i; x_i; x_j; x_j]
   + diff kuu_sym [:: y_i; x_j; x_j]
   + phi * diff kuu_sym [:: t_i; x_j; x_j]
   + diff kuu_sym [:: x_i; x_i; y_j]
   + diff kuu_sym [:: y_i; y_j]
   + phi * diff kuu_sym [:: t_i; y_j]
   + phi * diff kuu_sym [:: x_i; x_i; t_j]
   + phi * diff kuu_sym [:: y_i; t_j]
   + phi ** 2 * diff kuu_sym [:: t_i; t_j])%sp.

Definition kff_fn := lambdify11 kff_sym.

Definition kff {m} (x y t : 'rV[R]_m) (sigma l_x l_y l_t phi : R) : 'M[R]_m :=
  fill_pairwise (fun i j =>
    kff_fn (x 0 i) (x 0 j) (y 0 i) (y 0 j) (t 0 i) (t 0 j)
           sigma l_x l_y l_t phi).

Definition kfu_sym : expr :=
  (diff kuu_sym [:: x_i; x_i] + diff kuu_sym [:: y_i]
   + phi * diff kuu_sym [:: t_i])%sp.

Definition kfu_fn := lambdify11 kfu_sym.

Definition kfu {m} (x y t : 'rV[R]_m) (sigma l_x l_y l_t phi : R) : 'M[R]_m :=
  fill_pairwise (fun i j =>
    kfu_fn (x 0 i) (x 0 j) (y 0 i) (y 0 j) (t 0 i) (t 0 j)
           sigma l_x l_y l_t phi).

Definition kuf {m} (x y t : 'rV[R]_m) (sigma l_x l_y l_t phi : R) : 'M[R]_m :=
  (kfu x y t sigma l_x l_y l_t phi)^T.

Section Notebook.

(* Global variables: x, y, t, n, y_u, y_f, s                               *)
Variable n : nat.
Variables x y t : 'rV[R]_n.
Variable svd : svd_fun.

(* simulate_data: y_u = x + y + t, y_f = 0*np.ones(n)                       *)
Definition y_u : 'rV[R]_n := \row_i (x 0 i + y 0 i + t 0 i).
Definition y_f : 'rV[R]_n := 0%Re *: const_mx 1.

Definition nlml (params : 'rV[R]_5) : res R :=
  let sigma_exp := Rtrigo_def.exp (item params 0) in
  let l_x_exp := Rtrigo_def.exp (item params 1) in
  let l_y_exp := Rtrigo_def.exp (item params 2) in
  let l_t_exp := Rtrigo_def.exp (item params 3) in
  let A := kuu x y t sigma_exp l_x_exp l_y_exp l_t_exp + s *: 1%:M in
  let B := (kfu x y t sigma_exp l_x_exp l_y_exp l_t_exp (item params 4))^T in
  let C := kff x y t sigma_exp l_x_exp l_y_exp l_t_exp (item params 4)
           + s *: 1%:M in
  A_inv_logdet <-
    try_except
      (L <- cholesky A ;;
       L_inv <- solve_triangular L 1%:M ;;
       Ok (L_inv^T *m L_inv,
           2%Re * \sum_i ln (Rabs ((diag_of L) 0 i))))
      (let '(u, s_mat, vt) := svd A in
       S_inv <- inv (diag_mx s_mat) ;;
       Ok (vt^T *m S_inv *m u^T, \sum_i ln (s_mat 0 i))) ;;
  let A_inv := A_inv_logdet.1 in
  let logdet_A := A_inv_logdet.2 in
  let KA := C - B^T *m A_inv *m B in
  KA_inv_logdet <-
    try_except
      (L <- cholesky KA ;;
       L_inv <- solve_triangular L 1%:M ;;
       Ok (L_inv^T *m L_inv,
           2%Re * \sum_i ln (Rabs ((diag_of L) 0 i))))
      (let '(u, s_mat, vt) := svd KA in
       S_inv <- inv (diag_mx s_mat) ;;
       Ok (vt^T *m S_inv *m u^T, \sum_i ln (s_mat 0 i))) ;;
  let KA_inv := KA_inv_logdet.1 in
  let logdet_KA := KA_inv_logdet.2 in
  let T := A_inv *m B *m KA_inv in
  let yKy := vdot (y_u *m (A_inv + T *m B^T *m A_inv)) y_u
             - vdot ((2%Re *: y_u) *m T) y_f
             + vdot (y_f *m KA_inv) y_f in
  Ok (yKy + logdet_A + logdet_KA).

End Notebook.

End Example3D.

(* ---------------------------------------------------------------------- *)
(*  12. Evaluating the factorization on a given factor                     *)
(* ---------------------------------------------------------------------- *)

(* The factorization is complete: on L L^T, with L lower triangular and a
   positive diagonal, it returns L.                                        *)
Lemma cholesky_complete n (L : 'M[R]_n) :
  is_trig_mx L -> (forall i, (0 < L i i)%Re) -> cholesky (L *m L^T) = Ok L.
Proof.
elim: n L => [|n IH]; last rewrite -[n.+1]/(1 + n)%N; move=> L trigL posL.
  by rewrite cholesky0 (flatmx0 L).
have ur0 : ursubmx L = 0 by apply: ursubmx_trig.
have ulE : ulsubmx L = (L 0 0)%:M.
  by rewrite [LHS]mx11_scalar !mxE lshift0.
have lpos := posL 0; set l := L 0 0 in ulE lpos.
have LE : L = block_mx l%:M 0 (dlsubmx L) (drsubmx L).
  by rewrite -ulE -ur0 submxK.
set c := dlsubmx L in LE; set L' := drsubmx L in LE.
have ME : L *m L^T = block_mx (l * l)%:M (l *: c^T) (l *: c) (c *m c^T + L' *m L'^T).
  rewrite {1 2}LE tr_block_mx mulmx_block tr_scalar_mx trmx0.
  rewrite !mulmx0 !mul0mx !addr0 -scalar_mxM mul_scalar_mx mul_mx_scalar.
  by [].
have M00 : (L *m L^T) 0 0 = l * l.
  by rewrite ME -[0 in LHS](lshift0 n 0) block_mxEul mxE eqxx mulr1n.
rewrite choleskyS; lazy zeta; rewrite M00.
case: Rlt_dec => [ll0|nll0]; last by case: nll0; toR; nra.
have -> : sqrt (l * l) = l by apply: sqrt_square; lra.
have cE : (/ l)%Re *: dlsubmx (L *m L^T) = c.
  rewrite ME block_mxKdl scalerA.
  have -> : (/ l)%Re * l = 1 by toR; field; lra.
  by rewrite scale1r.
rewrite cE.
have -> : drsubmx (L *m L^T) - c *m c^T = L' *m L'^T.
  by rewrite ME block_mxKdr addrC addKr.
rewrite IH ?bind_Ok -?LE //; first exact: drsubmx_trig.
by move=> i; have := posL (rshift 1 i); rewrite {1}LE block_mxEdr.
Qed.

(* A positive diagonal 2 x 2 matrix, the shape of the joint matrix of one
   sample point whose cross-covariance vanishes.                           *)
Lemma cholesky_diag2 (a b : R) : (0 < a)%Re -> (0 < b)%Re ->
  cholesky (block_mx a%:M 0 0 b%:M : 'M[R]_(1 + 1)) =
  Ok (block_mx (sqrt a)%:M 0 0 (sqrt b)%:M).
Proof.
move=> a0 b0; set L : 'M[R]_(1 + 1) := block_mx (sqrt a)%:M 0 0 (sqrt b)%:M.
have sa := sqrt_lt_R0 _ a0; have sb := sqrt_lt_R0 _ b0.
have <- : L *m L^T = block_mx a%:M 0 0 b%:M.
  rewrite /L tr_block_mx mulmx_block !tr_scalar_mx !trmx0.
  rewrite !mulmx0 !mul0mx !addr0 add0r -!scalar_mxM.
  by congr (block_mx _%:M 0 0 _%:M); apply: sqrt_sqrt; lra.
apply: cholesky_complete.
  by rewrite /L is_trig_block_mx // eqxx !scalar_mx_is_trig.
move=> i; case: (split_ordP i) => j ->; rewrite /L ?block_mxEul ?block_mxEdr;
  by rewrite [j]ord1 mxE eqxx mulr1n.
Qed.

Lemma cholesky_scalar (a : R) : (0 < a)%Re ->
  cholesky (a%:M : 'M[R]_1) = Ok (sqrt a)%:M.
Proof.
move=> a0; have sa := sqrt_lt_R0 _ a0.
have <- : (sqrt a)%:M *m ((sqrt a)%:M : 'M[R]_1)^T = a%:M.
  by rewrite tr_scalar_mx -scalar_mxM; congr (_%:M); apply: sqrt_sqrt; lra.
apply: cholesky_complete; first exact: scalar_mx_is_trig.
by move=> i; rewrite [i]ord1 mxE eqxx mulr1n.
Qed.

(* A pivot that is not positive stops the factorization at once.           *)
Lemma cholesky_nonpos n (M : 'M[R]_(1 + n)) :
  Rle (M 0 0) 0%Re -> cholesky M = Raise (LinAlgError NotPositiveDefinite).
Proof.
move=> M0; rewrite choleskyS; lazy zeta; set a := M 0 0 in M0 *.
by case: Rlt_dec => // a0; lra.
Qed.

(* ---------------------------------------------------------------------- *)
(*  13. Symmetry of the other kernels                                      *)
(* ---------------------------------------------------------------------- *)

(* Names the value of the base kernel's exponential and identifies its
   occurrence with swapped sample points.                                  *)
Ltac fold_exp :=
  match goal with |- context [Rtrigo_def.exp ?u] =>
    let E := fresh "E" in
    set E := Rtrigo_def.exp u;
    repeat match goal with |- context [Rtrigo_def.exp ?v] =>
      have -> : Rtrigo_def.exp v = E
        by rewrite /E; congr (Rtrigo_def.exp _); ring
    end
  end.

Lemma AdvDiff_kuu_fn_sym xi xj yi yj ti tj sg lx ly lt :
  AdvDiff.kuu_fn xi xj yi yj ti tj sg lx ly lt =
  AdvDiff.kuu_fn xj xi yj yi tj ti sg lx ly lt.
Proof.
rewrite /AdvDiff.kuu_fn /AdvDiff.lambdify10 /AdvDiff.kuu_sym; sp_compute.
by fold_exp.
Qed.

Lemma AdvDiff_kff_fn_sym xi xj yi yj ti tj sg lx ly lt a b c d :
  AdvDiff.kff_fn xi xj yi yj ti tj sg lx ly lt a b c d =
  AdvDiff.kff_fn xj xi yj yi tj ti sg lx ly lt a b c d.
Proof.
rewrite /AdvDiff.kff_fn /AdvDiff.lambdify14 /AdvDiff.kff_sym /AdvDiff.kuu_sym.
sp_compute; fold_exp.
by ring.
Qed.

Lemma NlmlSvd_kuu_fn_sym xi xj yi yj sg lx ly :
  NlmlSvd.kuu_fn xi xj yi yj sg lx ly = NlmlSvd.kuu_fn xj xi yj yi sg lx ly.
Proof.
rewrite /NlmlSvd.kuu_fn /NlmlSvd.lambdify7 /NlmlSvd.kuu_sym; sp_compute.
by fold_exp.
Qed.

Lemma NlmlSvd_kff_fn_sym xi xj yi yj sg lx ly ph :
  NlmlSvd.kff_fn xi xj yi yj sg lx ly ph =
  NlmlSvd.kff_fn xj xi yj yi sg lx ly ph.
Proof.
rewrite /NlmlSvd.kff_fn /NlmlSvd.lambdify8 /NlmlSvd.kff_sym /NlmlSvd.kuu_sym.
by sp_compute; fold_exp; ring.
Qed.

Lemma Example3D_kuu_fn_sym xi xj yi yj ti tj sg lx ly lt :
  Example3D.kuu_fn xi xj yi yj ti tj sg lx ly lt =
  Example3D.kuu_fn xj xi yj yi tj ti sg lx ly lt.
Proof.
rewrite /Example3D.kuu_fn /Example3D.lambdify10 /Example3D.kuu_sym; sp_compute.
by fold_exp.
Qed.

Lemma Example3D_kff_fn_sym xi xj yi yj ti tj sg lx ly lt ph :
  Example3D.kff_fn xi xj yi yj ti tj sg lx ly lt ph =
  Example3D.kff_fn xj xi yj yi tj ti sg lx ly lt ph.
Proof.
rewrite /Example3D.kff_fn /Example3D.lambdify11 /Example3D.kff_sym.
by rewrite /Example3D.kuu_sym; sp_compute; fold_exp; ring.
Qed.

Lemma sq_swap (a b : R) : ((a + -1 * b) ^ 2 = (b + -1 * a) ^ 2)%Re.
Proof. by ring. Qed.

(* The Matern kernels: the radicand of r_l is put in one form, then the
   square root and the exponential are treated as indeterminates.          *)
Ltac matern_sym xi xj yi yj :=
  sp_compute; rewrite ?(sq_swap xj xi) ?(sq_swap yj yi);
  match goal with |- context [R_sqrt.sqrt (?a + ?b)] =>
    set (q := R_sqrt.sqrt (a + b)) end;
  match goal with |- context [Rtrigo_def.exp ?u] =>
    set (E := Rtrigo_def.exp u) end;
  ring.

Lemma Matern_kuu_fn_sym xi xj yi yj sg lx ly :
  Matern.kuu_fn xi xj yi yj sg lx ly = Matern.kuu_fn xj xi yj yi sg lx ly.
Proof.
rewrite /Matern.kuu_fn /Matern.lambdify7 /Matern.kuu_sym /Matern.r_l.
by matern_sym xi xj yi yj.
Qed.

Lemma Matern_kff_fn_sym xi xj yi yj sg lx ly ph :
  Matern.kff_fn xi xj yi yj sg lx ly ph =
  Matern.kff_fn xj xi yj yi sg lx ly ph.
Proof.
rewrite /Matern.kff_fn /Matern.lambdify8 /Matern.kff_sym /Matern.kuu_sym.
by rewrite /Matern.r_l; matern_sym xi xj yi yj.
Qed.

(* A pairwise kernel matrix of a symmetric kernel function is symmetric.   *)
Lemma fill_pairwise_sym n (g : 'I_n -> 'I_n -> R) :
  (forall i j, g i j = g j i) -> (fill_pairwise g)^T = fill_pairwise g.
Proof.
by move=> gS; rewrite fill_pairwiseE; apply/matrixP => i j; rewrite !mxE.
Qed.

Lemma noise_sym n (M : 'M[R]_n) (s : R) :
  M^T = M -> (M + s *: 1%:M)^T = M + s *: 1%:M.
Proof. by move=> symM; rewrite linearD /= symM linearZ /= trmx1. Qed.

Section AdvDiffFacts.

Variable n : nat.
Variables x y t : 'rV[R]_n.
Variable svd : svd_fun.

Lemma AdvDiff_symK sg lx ly lt a b c d s :
  (AdvDiff.K x y t sg lx ly lt a b c d s)^T = AdvDiff.K x y t sg lx ly lt a b c d s.
Proof.
rewrite /AdvDiff.K /AdvDiff.kuf tr_block_mx trmxK.
rewrite !noise_sym //; apply: fill_pairwise_sym => i j.
  exact: AdvDiff_kuu_fn_sym.
exact: AdvDiff_kff_fn_sym.
Qed.

(* On the Cholesky path the accumulator holds sum_i log|L_ii|.             *)
Lemma inv_and_logsum_cholesky m (M L : 'M[R]_m) :
  M^T = M -> cholesky M = Ok L ->
  AdvDiff.inv_and_logsum svd M = Ok (invmx M, \sum_i ln (Rabs (L i i))).
Proof.
move=> symM cM; have [_ sL Minv] := cholesky_inverse symM cM.
by rewrite /AdvDiff.inv_and_logsum cM bind_Ok sL bind_Ok /= Minv for_range_sum add0r.
Qed.

(* ... which is half of the log-determinant.                               *)
Lemma inv_and_logsum_half m (M L : 'M[R]_m) (r : 'M[R]_m * R) :
  M^T = M -> cholesky M = Ok L -> AdvDiff.inv_and_logsum svd M = Ok r ->
  ln (\det M) = (2 * r.2)%Re.
Proof.
move=> symM cM; rewrite (inv_and_logsum_cholesky symM cM) => -[<-] /=.
by have [_ ->] := cholesky_logdet symM cM.
Qed.

Lemma inv_and_logsum_fallback m (M : 'M[R]_m) e :
  cholesky M = Raise e ->
  AdvDiff.inv_and_logsum svd M =
  (let '(u, s_mat, vt) := svd M in
   S_inv <- inv (diag_mx s_mat) ;;
   Ok (vt^T *m S_inv *m u^T,
       for_range (fun i log_sum => log_sum + ln (s_mat 0 i)) 0%Re)).
Proof. by move=> cM; rewrite /AdvDiff.inv_and_logsum cM bind_Raise try_except_Raise. Qed.

Lemma inv_and_logsum_never_npd m (M : 'M[R]_m) :
  AdvDiff.inv_and_logsum svd M <> Raise (LinAlgError NotPositiveDefinite).
Proof.
rewrite /AdvDiff.inv_and_logsum.
case cM: (cholesky M) => [L|e] /=.
  by case: (solve_triangular _ _) => [Li|[[]]] //=;
     case: (svd M) => [[u s] vt]; case E: (inv _) => [Si|e'] //=;
     rewrite (inv_raises E).
case: e {cM} => _; case: (svd M) => [[u s] vt].
by case E: (inv _) => [Si|e'] //=; rewrite (inv_raises E).
Qed.

End AdvDiffFacts.

(* ---------------------------------------------------------------------- *)
(*  14. The SVD branch                                                     *)
(* ---------------------------------------------------------------------- *)

Section SvdBranch.

Variable svd : svd_fun.
Variable m : nat.
Variable M : 'M[R]_m.

Hypothesis svdM : is_svd M (svd M).

Lemma svd_branch_inverse (F : 'M[R]_m -> 'rV[R]_m -> 'M[R]_m -> R) :
  M \in unitmx ->
  (let '(u, s_mat, vt) := svd M in
   S_inv <- inv (diag_mx s_mat) ;;
   Ok (vt^T *m S_inv *m u^T, F u s_mat vt)) =
  Ok (invmx M, F (svd M).1.1 (svd M).1.2 (svd M).2).
Proof.
case E: (svd M) svdM => [[u s] vt] svdE uM /=.
have uS : diag_mx s \in unitmx by rewrite -(svd_unitmx svdE).
by rewrite /inv uS bind_Ok (svd_inverse svdE).
Qed.

Lemma svd_branch_singular (T : Type) (F : 'M[R]_m -> 'rV[R]_m -> 'M[R]_m -> 'M[R]_m -> T) :
  M \notin unitmx ->
  (let '(u, s_mat, vt) := svd M in
   S_inv <- inv (diag_mx s_mat) ;; Ok (F u s_mat vt S_inv)) =
  Raise (LinAlgError SingularMatrix).
Proof.
case E: (svd M) svdM => [[u s] vt] svdE uM /=.
by rewrite /inv -(svd_unitmx svdE) (negbTE uM).
Qed.

(* sum_i log s_i = log|det M| when no singular value vanishes.             *)
Lemma svd_logdet : M \in unitmx ->
  \sum_i ln ((svd M).1.2 0 i) = ln (Rabs (\det M)).
Proof.
case E: (svd M) svdM => [[u s] vt] svdE uM /=.
have [_ _ s0 _] := svdE.
rewrite (svd_absdet svdE) ln_prod // => i.
have : s 0 i != 0.
  by move: uM; rewrite (svd_unitmx svdE) diag_unitmx => /forallP.
by move/Rneq0P; have := s0 i; lra.
Qed.

End SvdBranch.

(* A symmetric matrix on which the factorization returns is invertible, so
   on a singular symmetric matrix it raises.                               *)
Lemma cholesky_singular n (M : 'M[R]_n) :
  M^T = M -> M \notin unitmx -> exists e, cholesky M = Raise e.
Proof.
move=> symM nuM; case cM: (cholesky M) => [L|e]; last by exists e.
by have [uM _ _] := cholesky_inverse symM cM; rewrite uM in nuM.
Qed.

Section AdvDiffSvd.

Variable svd : svd_fun.
Variable m : nat.
Variable M : 'M[R]_m.

Lemma inv_and_logsum_svd e :
  cholesky M = Raise e -> is_svd M (svd M) -> M \in unitmx ->
  AdvDiff.inv_and_logsum svd M = Ok (invmx M, ln (Rabs (\det M))).
Proof.
move=> cM svdM uM; rewrite (inv_and_logsum_fallback _ cM).
rewrite (svd_branch_inverse svdM
  (fun _ s_mat _ => for_range (fun i log_sum => log_sum + ln (s_mat 0 i)) 0%Re)) //.
by rewrite for_range_sum add0r svd_logdet.
Qed.

Lemma inv_and_logsum_singular e :
  cholesky M = Raise e -> is_svd M (svd M) -> M \notin unitmx ->
  AdvDiff.inv_and_logsum svd M = Raise (LinAlgError SingularMatrix).
Proof.
move=> cM svdM uM; rewrite (inv_and_logsum_fallback _ cM).
exact: (svd_branch_singular svdM
  (fun u s_mat vt S_inv => (vt^T *m S_inv *m u^T,
     for_range (fun i log_sum => log_sum + ln (s_mat 0 i)) 0%Re))).
Qed.

End AdvDiffSvd.

(* ---------------------------------------------------------------------- *)
(*  15. The determinant-form notebook: the block solver and the gradient   *)
(* ---------------------------------------------------------------------- *)

Lemma getitem_ord m (v : 'rV[R]_m) (i : 'I_m) : getitem v i = v 0 i.
Proof. by rewrite /getitem valK. Qed.

Section DerivativeMatrix.

Variable n : nat.
Variable guu : R -> R -> R -> R -> R -> R -> R.
Variables gfu gff : R -> R -> R -> R -> R -> R -> R -> R.
Variables x y : 'rV[R]_n.
Variables l_x l_y phi : R.

(* The loop nest of K_l_x, K_l_y and K_phi fills the four blocks: the
   derivative kernels of uu, the transpose of fu, fu and ff.               *)
Lemma K_derivativeE :
  DetMax.K_derivative guu gfu gff x y l_x l_y phi =
  block_mx
    (\matrix_(i, j) guu (x 0 i) (x 0 j) (y 0 i) (y 0 j) l_x l_y)
    (\matrix_(i, j) gfu (x 0 i) (x 0 j) (y 0 i) (y 0 j) l_x l_y phi)^T
    (\matrix_(i, j) gfu (x 0 i) (x 0 j) (y 0 i) (y 0 j) l_x l_y phi)
    (\matrix_(i, j) gff (x 0 i) (x 0 j) (y 0 i) (y 0 j) l_x l_y phi).
Proof.
pose g (i j : 'I_(n + n)) : R :=
  if (i < n)%N then
    if (j < n)%N then
      guu (getitem x i) (getitem x j) (getitem y i) (getitem y j) l_x l_y
    else gfu (getitem x (j - n)) (getitem x i) (getitem y (j - n))
             (getitem y i) l_x l_y phi
  else
    if (j < n)%N then
      gfu (getitem x (i - n)) (getitem x j) (getitem y (i - n))
          (getitem y j) l_x l_y phi
    else gff (getitem x (i - n)) (getitem x (j - n)) (getitem y (i - n))
             (getitem y (j - n)) l_x l_y phi.
rewrite /DetMax.K_derivative (@pairwise_loopE _ g).
  move=> i j k; rewrite /g ![(n <= _)%N]leqNgt.
  by case: (i < n)%N; case: (j < n)%N => //=; apply/matrixP => a b; rewrite !mxE.
apply/matrixP => i j; rewrite mxE /g.
case: (split_ordP i) => i' ->; case: (split_ordP j) => j' -> /=.
- by rewrite ?ltn_ord block_mxEul mxE !getitem_ord.
- rewrite ?ltn_ord ?[(n + _ < n)%N]ltnNge ?leq_addr /= ?addKn block_mxEur !mxE.
  by rewrite !getitem_ord.
- rewrite ?[(n + _ < n)%N]ltnNge ?leq_addr /= ?ltn_ord ?addKn block_mxEdl mxE.
  by rewrite !getitem_ord.
- rewrite ?[(n + _ < n)%N]ltnNge ?leq_addr /= ?addKn block_mxEdr mxE.
  by rewrite !getitem_ord.
Qed.

End DerivativeMatrix.

Section DetMaxGradient.

Variable n : nat.
Variables x y : 'rV[R]_n.
Variable svd : svd_fun.
Variables l_x l_y phi : R.

Let A := DetMax.kuu x y l_x l_y + DetMax.s *: 1%:M.
Let B := (DetMax.kfu x y l_x l_y phi)^T.
Let C := DetMax.kff x y l_x l_y phi + DetMax.s *: 1%:M.
Let S := C - B^T *m invmx A *m B.
Let K := DetMax.K x y l_x l_y phi.

(* On the Cholesky paths the block solver returns K^-1 and val(theta).     *)
Lemma DetMax_K_inv_and_det_cholesky :
  returns (cholesky A) -> returns (cholesky S) ->
  DetMax.K_inv_and_det x y svd l_x l_y phi =
  Ok (invmx K, DetMax_val x y l_x l_y phi).
Proof.
rewrite /DetMax.K_inv_and_det -/A -/B -/C.
case cA: (cholesky A) => [LA|] // _.
have symA : A^T = A by apply: DetMax_symA.
have [uA sLA Ainv] := cholesky_inverse symA cA.
rewrite bind_Ok sLA !bind_Ok /= Ainv -/S.
case cS: (cholesky S) => [LS|] // _.
have symS : S^T = S by apply: schur_sym => //; apply: DetMax_symC.
have [uS sLS Sinv] := cholesky_inverse symS cS.
rewrite bind_Ok sLS !bind_Ok /= Sinv.
have [invK _ dets] := DetMax_schur_blocks uA uS.
by rewrite /DetMax.piece_together -invK dets.
Qed.

(* The analytic gradient, component by component: with w = K^-1 y,
   val(theta) * (tr(K^-1 dK) - 2n w^T dK w / (y^T w)).                      *)
Definition DetMax_w : 'rV[R]_(n + n) := (invmx K *m (DetMax.y_con x y)^T)^T.

Definition DetMax_component (dK : 'M[R]_(n + n)) : R :=
  DetMax_val x y l_x l_y phi *
  (\tr (invmx K *m dK)
   - vdot (((2 * n)%:R *: DetMax_w) *m dK) DetMax_w
     / vdot (DetMax.y_con x y) DetMax_w).

Lemma DetMax_grad_L_cholesky :
  returns (cholesky A) -> returns (cholesky S) ->
  DetMax.grad_L x y svd l_x l_y phi =
  Ok [:: DetMax_component (DetMax.K_l_x x y l_x l_y phi);
         DetMax_component (DetMax.K_l_y x y l_x l_y phi);
         DetMax_component (DetMax.K_phi x y l_x l_y phi)].
Proof.
move=> cA cS; rewrite /DetMax.grad_L.
by rewrite (DetMax_K_inv_and_det_cholesky cA cS) bind_Ok.
Qed.

End DetMaxGradient.

(* ---------------------------------------------------------------------- *)
(*  16. The two objectives of the SVD notebook                             *)
(* ---------------------------------------------------------------------- *)

Section NlmlSvdFacts.

Variable svd : svd_fun.
Variable m : nat.
Variable params : 'rV[R]_4.
Variables x y y1 y2 : 'rV[R]_m.
Variable s : R.

Let K := NlmlSvd.joint_K params x y s.
Let yv := row_mx y1 y2.

Lemma NlmlSvd_symK : K^T = K.
Proof.
rewrite /K /NlmlSvd.joint_K /NlmlSvd.kuf tr_block_mx trmxK.
rewrite !noise_sym //; apply: fill_pairwise_sym => i j.
  exact: NlmlSvd_kuu_fn_sym.
exact: NlmlSvd_kff_fn_sym.
Qed.

(* y^T K^-1 y                                                              *)
Definition NlmlSvd_quad : R := vdot (yv *m invmx K) yv.

(* The plain objective returns the sign of det K plus the quadratic form:
   item(0) of the broadcast sum selects the first component of slogdet.    *)
Lemma NlmlSvd_nlml_value : K \in unitmx ->
  NlmlSvd.nlml params x y y1 y2 s = Ok (sign (\det K) + NlmlSvd_quad).
Proof.
move=> uK; rewrite /NlmlSvd.nlml -/K -/yv /inv uK bind_Ok /=.
by rewrite mxE /= /NlmlSvd_quad vdotE.
Qed.

Lemma NlmlSvd_nlml_raises : K \notin unitmx ->
  NlmlSvd.nlml params x y y1 y2 s = Raise (LinAlgError SingularMatrix).
Proof. by move=> uK; rewrite /NlmlSvd.nlml -/K /inv (negbTE uK). Qed.

Hypothesis svdK : is_svd K (svd K).

Lemma NlmlSvd_nlml_svd_value : K \in unitmx ->
  NlmlSvd.nlml_svd svd params x y y1 y2 s =
  Ok (ln (Rabs (\det K)) + NlmlSvd_quad).
Proof.
move=> uK; rewrite /NlmlSvd.nlml_svd -/K -/yv.
have := svd_logdet svdK uK.
case E: (svd K) svdK => [[u sv] vt] svdE /= logdet.
have uS : diag_mx sv \in unitmx by rewrite -(svd_unitmx svdE).
rewrite /inv uS bind_Ok (svd_inverse svdE) // for_range_sum add0r.
have -> : \sum_i ln (Rabs (sv 0 i)) = \sum_i ln (sv 0 i).
  apply: eq_bigr => i _; have [_ _ s0 _] := svdE.
  by rewrite Rabs_right //; have := s0 i; lra.
by rewrite logdet mxE [_%:M 0 0]mxE eqxx mulr1n /NlmlSvd_quad vdotE.
Qed.

(* With a vanishing singular value np.linalg.inv raises, and nothing
   catches it.                                                             *)
Lemma NlmlSvd_nlml_svd_raises : K \notin unitmx ->
  NlmlSvd.nlml_svd svd params x y y1 y2 s = Raise (LinAlgError SingularMatrix).
Proof.
move=> uK; rewrite /NlmlSvd.nlml_svd -/K.
case E: (svd K) svdK => [[u sv] vt] svdE /=.
by rewrite /inv -(svd_unitmx svdE) (negbTE uK).
Qed.

End NlmlSvdFacts.

(* ---------------------------------------------------------------------- *)
(*  17. The Matern evaluators                                              *)
(* ---------------------------------------------------------------------- *)

Section MaternFacts.

Variable m : nat.
Variables x y : 'rV[R]_m.
Variables sigma l_x l_y phi : R.

Lemma Matern_kffE (i j : 'I_m) :
  Matern.kff x y sigma l_x l_y phi i j =
  if i == j then
    Matern.kff_fn (x 0 i) (x 0 j + Matern.corr_nan)
                  (y 0 i) (y 0 j + Matern.corr_nan) sigma l_x l_y phi
  else Matern.kff_fn (x 0 i) (x 0 j) (y 0 i) (y 0 j) sigma l_x l_y phi.
Proof.
rewrite /Matern.kff (@pairwise_loopE _ (fun i j =>
  if i == j then
    Matern.kff_fn (x 0 i) (x 0 j + Matern.corr_nan)
                  (y 0 i) (y 0 j + Matern.corr_nan) sigma l_x l_y phi
  else Matern.kff_fn (x 0 i) (x 0 j) (y 0 i) (y 0 j) sigma l_x l_y phi)).
  by move=> a b k; case: (a == b).
by rewrite mxE.
Qed.

Lemma Matern_kfuE (i j : 'I_m) :
  Matern.kfu x y sigma l_x l_y phi i j =
  if i == j then
    Matern.kfu_fn (x 0 i) (x 0 j + Matern.corr_nan)
                  (y 0 i) (y 0 j + Matern.corr_nan) sigma l_x l_y phi
  else Matern.kfu_fn (x 0 i) (x 0 j) (y 0 i) (y 0 j) sigma l_x l_y phi.
Proof.
rewrite /Matern.kfu (@pairwise_loopE _ (fun i j =>
  if i == j then
    Matern.kfu_fn (x 0 i) (x 0 j + Matern.corr_nan)
                  (y 0 i) (y 0 j + Matern.corr_nan) sigma l_x l_y phi
  else Matern.kfu_fn (x 0 i) (x 0 j) (y 0 i) (y 0 j) sigma l_x l_y phi)).
  by move=> a b k; case: (a == b).
by rewrite mxE.
Qed.

End MaternFacts.

(* ---------------------------------------------------------------------- *)
(*  18. The block form of the log-likelihood objective (Matern and 3D      *)
(*      notebooks)                                                         *)
(* ---------------------------------------------------------------------- *)

(* The body shared, word for word, by the two nlml functions once their
   blocks A, B, C are evaluated.                                           *)
Definition block_objective (svd : svd_fun) {n : nat} (A B C : 'M[R]_n)
    (y_u y_f : 'rV[R]_n) : res R :=
  A_inv_logdet <-
    try_except
      (L <- cholesky A ;;
       L_inv <- solve_triangular L 1%:M ;;
       Ok (L_inv^T *m L_inv,
           2%Re * \sum_i ln (Rabs ((diag_of L) 0 i))))
      (let '(u, s_mat, vt) := svd _ A in
       S_inv <- inv (diag_mx s_mat) ;;
       Ok (vt^T *m S_inv *m u^T, \sum_i ln (s_mat 0 i))) ;;
  let A_inv := A_inv_logdet.1 in
  let logdet_A := A_inv_logdet.2 in
  let KA := C - B^T *m A_inv *m B in
  KA_inv_logdet <-
    try_except
      (L <- cholesky KA ;;
       L_inv <- solve_triangular L 1%:M ;;
       Ok (L_inv^T *m L_inv,
           2%Re * \sum_i ln (Rabs ((diag_of L) 0 i))))
      (let '(u, s_mat, vt) := svd _ KA in
       S_inv <- inv (diag_mx s_mat) ;;
       Ok (vt^T *m S_inv *m u^T, \sum_i ln (s_mat 0 i))) ;;
  let KA_inv := KA_inv_logdet.1 in
  let logdet_KA := KA_inv_logdet.2 in
  let T := A_inv *m B *m KA_inv in
  let yKy := vdot (y_u *m (A_inv + T *m B^T *m A_inv)) y_u
             - vdot ((2%Re *: y_u) *m T) y_f
             + vdot (y_f *m KA_inv) y_f in
  Ok (yKy + logdet_A + logdet_KA).

Lemma Example3D_nlmlE n (x y t : 'rV[R]_n) svd (params : 'rV[R]_5) :
  Example3D.nlml x y t svd params =
  let sg := Rtrigo_def.exp (item params 0) in
  let lx := Rtrigo_def.exp (item params 1) in
  let ly := Rtrigo_def.exp (item params 2) in
  let lt := Rtrigo_def.exp (item params 3) in
  block_objective svd
    (Example3D.kuu x y t sg lx ly lt + Example3D.s *: 1%:M)
    (Example3D.kfu x y t sg lx ly lt (item params 4))^T
    (Example3D.kff x y t sg lx ly lt (item params 4) + Example3D.s *: 1%:M)
    (Example3D.y_u x y t) (Example3D.y_f n).
Proof. by []. Qed.

Lemma Matern_nlmlE n (x y : 'rV[R]_n) svd (params : 'rV[R]_4) :
  Matern.nlml x y svd params =
  let sg := Rtrigo_def.exp (item params 0) in
  let lx := Rtrigo_def.exp (item params 1) in
  let ly := Rtrigo_def.exp (item params 2) in
  block_objective svd
    (Matern.kuu x y sg lx ly + Matern.s *: 1%:M)
    (Matern.kfu x y sg lx ly (item params 3))^T
    (Matern.kff x y sg lx ly (item params 3) + Matern.s *: 1%:M)
    (Matern.y_u x y) (Matern.y_f x y).
Proof. by []. Qed.

Section BlockObjective.

Variable svd : svd_fun.
Variable n : nat.
Variables A B C : 'M[R]_n.
Variables y_u y_f : 'rV[R]_n.

Hypothesis symA : A^T = A.
Hypothesis symC : C^T = C.

Let S := C - B^T *m invmx A *m B.
Let K := block_mx A B B^T C.
Let yc := row_mx y_u y_f.

(* On the Cholesky paths the value is y^T K^-1 y + log det K: here the
   factor 2 in front of sum_i log|L_ii| is present.                        *)
Lemma block_objective_cholesky :
  returns (cholesky A) -> returns (cholesky S) ->
  (0 < \det K)%Re /\
  block_objective svd A B C y_u y_f =
  Ok (vdot (yc *m invmx K) yc + ln (\det K)).
Proof.
rewrite /block_objective.
case cA: (cholesky A) => [LA|] // _.
have [uA sLA Ainv] := cholesky_inverse symA cA.
have [dA0 lnA] := cholesky_logdet symA cA.
rewrite bind_Ok sLA !bind_Ok /= Ainv -/S.
case cS: (cholesky S) => [LS|] // _.
have symS : S^T = S by apply: schur_sym.
have [uS sLS Sinv] := cholesky_inverse symS cS.
have [dS0 lnS] := cholesky_logdet symS cS.
rewrite bind_Ok sLS !bind_Ok /= Sinv.
have dK : \det K = \det A * \det S by rewrite /K det_block_schur.
split; first by rewrite dK; toR; apply: Rmult_lt_0_compat.
rewrite /yc /K (@invmx_block_sym _ A B C symA symC uA uS) block_quadratic_form.
rewrite -/K dK -[\det A * _]/(\det A * \det S)%Re ln_mult // lnA lnS.
have dE (L : 'M[R]_n) : \sum_i ln (Rabs (diag_of L 0 i)) = \sum_i ln (Rabs (L i i)).
  by apply: eq_bigr => i _; rewrite mxE.
by rewrite !dE addrA.
Qed.

End BlockObjective.

(* ---------------------------------------------------------------------- *)
(*  19. Concrete inputs: one sample point at the origin                    *)
(* ---------------------------------------------------------------------- *)

(* np.array([...]) of a few numbers.                                       *)
Definition row_of (l : seq R) : 'rV[R]_(size l) := \row_i nth 0%Re l i.

(* x = y = t = np.array([0.0])                                             *)
Definition origin : 'rV[R]_1 := const_mx 0%Re.

(* An SVD routine that returns some singular value decomposition of its
   argument whenever one exists.                                           *)
Definition svd_choice : svd_fun :=
  fun n M => epsilon (inhabits ((1%:M, 0, 1%:M) : svd_result n)) (is_svd M).

Lemma svd_choiceP n (M : 'M[R]_n) r : is_svd M r -> is_svd M (svd_choice M).
Proof. by move=> svdr; apply: epsilon_spec; exists r. Qed.

Lemma item3 (a b c : R) :
  [/\ item (row_of [:: a; b; c]) 0 = a, item (row_of [:: a; b; c]) 1 = b
    & item (row_of [:: a; b; c]) 2 = c].
Proof. by split; rewrite /item mxE inordK. Qed.

Lemma item4 (a b c d : R) :
  [/\ item (row_of [:: a; b; c; d]) 0 = a, item (row_of [:: a; b; c; d]) 1 = b,
      item (row_of [:: a; b; c; d]) 2 = c & item (row_of [:: a; b; c; d]) 3 = d].
Proof. by split; rewrite /item mxE inordK. Qed.

Lemma fill_pairwise1 (g : 'I_1 -> 'I_1 -> R) : fill_pairwise g = (g 0 0)%:M.
Proof.
by rewrite fill_pairwiseE; apply/matrixP => i j; rewrite !mxE !ord1 eqxx mulr1n.
Qed.

Lemma scalar_noise (a s : R) : a%:M + s *: 1%:M = (a + s)%:M :> 'M[R]_1.
Proof. by rewrite scale_scalar_mx mulr1 -raddfD. Qed.

(* Evaluates a kernel whose two sample points coincide: the exponent of
   the base kernel vanishes.                                               *)
Ltac kernel_at_origin :=
  sp_compute;
  repeat match goal with |- context [Rtrigo_def.exp ?u] =>
    have -> : u = 0%Re by toR; field
  end;
  rewrite ?exp_0; toR; field.

Lemma DetMax_kuu_origin : DetMax.kuu_fn 0 0 0 0 1 1 = 1.
Proof. by rewrite /DetMax.kuu_fn /DetMax.kuu_sym; kernel_at_origin. Qed.

Lemma DetMax_kfu_origin : DetMax.kfu_fn 0 0 0 0 1 1 1 = 0.
Proof.
by rewrite /DetMax.kfu_fn /DetMax.kfu_sym /DetMax.kuu_sym; kernel_at_origin.
Qed.

Lemma DetMax_kff_origin : DetMax.kff_fn 0 0 0 0 1 1 1 = 3%Re.
Proof.
by rewrite /DetMax.kff_fn /DetMax.kff_sym /DetMax.kuu_sym; kernel_at_origin.
Qed.

Lemma DetMax_blocks_origin :
  [/\ DetMax.kuu origin origin 1 1 + DetMax.s *: 1%:M = (1 + DetMax.s)%:M,
      DetMax.kfu origin origin 1 1 1 = 0
    & DetMax.kff origin origin 1 1 1 + DetMax.s *: 1%:M = (3%Re + DetMax.s)%:M].
Proof.
rewrite /DetMax.kuu /DetMax.kfu /DetMax.kff !fill_pairwise1 !mxE.
rewrite DetMax_kuu_origin DetMax_kfu_origin DetMax_kff_origin !scalar_noise.
by split=> //; rewrite -scalemx1 scale0r.
Qed.

Lemma DetMax_K_origin :
  DetMax.K origin origin 1 1 1 =
  block_mx (1 + DetMax.s)%:M 0 0 (3%Re + DetMax.s)%:M.
Proof.
have [eA eB eC] := DetMax_blocks_origin.
by rewrite /DetMax.K /DetMax.kuf eA eB eC trmx0.
Qed.

Lemma DetMax_s_pos : (0 < DetMax.s)%Re.
Proof. by rewrite /DetMax.s; lra. Qed.

(* ---------------------------------------------------------------------- *)
(*  20. Which failures reach the caller                                    *)
(* ---------------------------------------------------------------------- *)

(* The computation ends with the LinAlgError of a failed factorization.    *)
Definition surfaces_npd {T} (c : res T) : bool :=
  if c is Raise (LinAlgError NotPositiveDefinite) then true else false.

Lemma bind_npd {T U} (c : res T) (k : T -> res U) :
  ~~ surfaces_npd c -> (forall v, ~~ surfaces_npd (k v)) ->
  ~~ surfaces_npd (bind c k).
Proof. by case: c => [v|e] //=. Qed.

Lemma try_except_npd {T} (c h : res T) :
  ~~ surfaces_npd h -> ~~ surfaces_npd (try_except c h).
Proof. by case: c => [v|[w]]. Qed.

Lemma inv_npd n (M : 'M[R]_n) : ~~ surfaces_npd (inv M).
Proof. by rewrite /inv; case: ifP. Qed.

(* The handler of every try block: only np.linalg.inv can raise in it.     *)
Lemma svd_handler_npd (svd : svd_fun) n (M : 'M[R]_n) T
    (F : 'M[R]_n -> 'rV[R]_n -> 'M[R]_n -> 'M[R]_n -> T) :
  ~~ surfaces_npd (let '(u, s_mat, vt) := svd _ M in
                   S_inv <- inv (diag_mx s_mat) ;; Ok (F u s_mat vt S_inv)).
Proof. by case: (svd _ M) => [[u s] vt]; apply: bind_npd (inv_npd _) _. Qed.

Lemma inv_and_logsum_npd svd m (M : 'M[R]_m) :
  ~~ surfaces_npd (AdvDiff.inv_and_logsum svd M).
Proof.
apply: try_except_npd.
exact: (svd_handler_npd svd M (fun u s_mat vt S_inv =>
  (vt^T *m S_inv *m u^T,
   for_range (fun i log_sum => log_sum + ln (s_mat 0 i)) 0%Re))).
Qed.

Lemma AdvDiff_nlml_npd n (x y t : 'rV[R]_n) svd y_u y_f params :
  ~~ surfaces_npd (AdvDiff.nlml x y t svd y_u y_f params).
Proof. by apply: bind_npd => //; apply: inv_and_logsum_npd. Qed.

Lemma Synthetic_nlml_npd n (x y t : 'rV[R]_n) svd params :
  ~~ surfaces_npd (AdvDiff.Synthetic.nlml x y t svd params).
Proof. by apply: bind_npd => //; apply: inv_and_logsum_npd. Qed.

Lemma DetMax_nlml_npd n (x y : 'rV[R]_n) svd params :
  ~~ surfaces_npd (DetMax.nlml x y svd params).
Proof.
apply: try_except_npd.
exact: (svd_handler_npd svd _ (fun u s_mat vt S_inv =>
  \prod_i (vdot (DetMax.y_con x y *m (vt^T *m S_inv *m u^T)) (DetMax.y_con x y)
           * s_mat 0 i))).
Qed.

Lemma block_objective_npd svd n (A B C : 'M[R]_n) y_u y_f :
  ~~ surfaces_npd (block_objective svd A B C y_u y_f).
Proof.
apply: bind_npd => [|r].
  apply: try_except_npd.
  exact: (svd_handler_npd svd _ (fun u s_mat vt S_inv =>
    (vt^T *m S_inv *m u^T, \sum_i ln (s_mat 0 i)))).
apply: bind_npd => [|r'] //.
apply: try_except_npd.
exact: (svd_handler_npd svd _ (fun u s_mat vt S_inv =>
  (vt^T *m S_inv *m u^T, \sum_i ln (s_mat 0 i)))).
Qed.

(* ---------------------------------------------------------------------- *)
(*  21. More concrete inputs                                               *)
(* ---------------------------------------------------------------------- *)

(* A diagonal matrix with non-negative entries is its own singular value
   decomposition.                                                          *)
Lemma diag_svd n (d : 'rV[R]_n) :
  (forall i, Rle 0%Re (d 0 i)) -> is_svd (diag_mx d) (1%:M, d, 1%:M).
Proof. by move=> d0; split; rewrite ?trmx1 ?mulmx1 ?mul1mx. Qed.

Lemma diag2E (a b : R) :
  block_mx a%:M 0 0 b%:M = diag_mx (row_mx a%:M b%:M) :> 'M[R]_(1 + 1).
Proof.
rewrite diag_mx_row; congr block_mx; apply/matrixP => i j;
  by rewrite !mxE !ord1.
Qed.

Lemma block_mx00 n (a : R) B C (D : 'M[R]_n) :
  (block_mx a%:M B C D : 'M[R]_(1 + n)) 0 0 = a.
Proof. by rewrite -[0 in LHS](lshift0 n 0) block_mxEul mxE eqxx mulr1n. Qed.

Lemma det_diag2 (a b : R) :
  \det (block_mx a%:M 0 0 b%:M : 'M[R]_(1 + 1)) = a * b.
Proof. by rewrite det_ublock !det_scalar1. Qed.

Lemma AdvDiff_kuu_origin : AdvDiff.kuu_fn 0 0 0 0 0 0 1 1 1 1 = 1.
Proof. by rewrite /AdvDiff.kuu_fn /AdvDiff.lambdify10 /AdvDiff.kuu_sym; kernel_at_origin. Qed.

Lemma AdvDiff_kfu_origin : AdvDiff.kfu_fn 0 0 0 0 0 0 1 1 1 1 0 0 0 0 = 0.
Proof.
rewrite /AdvDiff.kfu_fn /AdvDiff.lambdify14 /AdvDiff.kfu_sym /AdvDiff.kuu_sym.
by kernel_at_origin.
Qed.

Lemma AdvDiff_kff_origin : AdvDiff.kff_fn 0 0 0 0 0 0 1 1 1 1 0 0 0 0 = 1.
Proof.
rewrite /AdvDiff.kff_fn /AdvDiff.lambdify14 /AdvDiff.kff_sym /AdvDiff.kuu_sym.
by kernel_at_origin.
Qed.

Lemma AdvDiff_K_origin (s : R) :
  AdvDiff.K origin origin origin 1 1 1 1 0 0 0 0 s =
  block_mx (1 + s)%:M 0 0 (1 + s)%:M.
Proof.
rewrite /AdvDiff.K /AdvDiff.kuf /AdvDiff.kuu /AdvDiff.kfu /AdvDiff.kff.
rewrite !fill_pairwise1 !mxE AdvDiff_kuu_origin AdvDiff_kfu_origin.
rewrite AdvDiff_kff_origin !scalar_noise.
by rewrite -[0%:M]scalemx1 scale0r trmx0.
Qed.

Lemma NlmlSvd_kuu_origin : NlmlSvd.kuu_fn 0 0 0 0 1 1 1 = 1.
Proof. by rewrite /NlmlSvd.kuu_fn /NlmlSvd.lambdify7 /NlmlSvd.kuu_sym; kernel_at_origin. Qed.

Lemma NlmlSvd_kfu_origin : NlmlSvd.kfu_fn 0 0 0 0 1 1 1 1 = 0.
Proof.
rewrite /NlmlSvd.kfu_fn /NlmlSvd.lambdify8 /NlmlSvd.kfu_sym /NlmlSvd.kuu_sym.
by kernel_at_origin.
Qed.

Lemma NlmlSvd_kff_origin : NlmlSvd.kff_fn 0 0 0 0 1 1 1 1 = 3%Re.
Proof.
rewrite /NlmlSvd.kff_fn /NlmlSvd.lambdify8 /NlmlSvd.kff_sym /NlmlSvd.kuu_sym.
by kernel_at_origin.
Qed.


Lemma AdvDiff_s_pos : (0 < AdvDiff.s)%Re.
Proof. by rewrite /AdvDiff.s; lra. Qed.

Lemma Example3D_s_pos : (0 < Example3D.s)%Re.
Proof. by rewrite /Example3D.s; lra. Qed.

Lemma Matern_noise_vanishes n (M : 'M[R]_n) : M + Matern.s *: 1%:M = M.
Proof. by rewrite /Matern.s -[0%Re]/(0 : R) scale0r addr0. Qed.

Lemma NlmlSvd_K_origin (s : R) :
  NlmlSvd.joint_K (row_of [:: 0%Re; 0%Re; 0%Re; 1%Re]) origin origin s =
  block_mx (1 + s)%:M 0 0 (3%Re + s)%:M.
Proof.
have [e0 e1 e2 e3] := item4 0%Re 0%Re 0%Re 1%Re.
rewrite /NlmlSvd.joint_K e0 e1 e2 e3 exp_0.
rewrite /NlmlSvd.kuf /NlmlSvd.kuu /NlmlSvd.kfu /NlmlSvd.kff.
rewrite !fill_pairwise1 !mxE NlmlSvd_kuu_origin NlmlSvd_kfu_origin.
rewrite NlmlSvd_kff_origin !scalar_noise.
by rewrite -[0%:M]scalemx1 scale0r trmx0.
Qed.

(* The SVD path of the solvers on a positive diagonal 2 x 2 matrix.        *)
Lemma svd_path_diag2 (a b : R) : (0 < a)%Re -> (0 < b)%Re ->
  let M : 'M[R]_(1 + 1) := block_mx a%:M 0 0 b%:M in
  [/\ M \in unitmx, is_svd M (svd_choice M)
    & (let '(u, s_mat, vt) := svd_choice M in
       S_inv <- inv (diag_mx s_mat) ;;
       Ok (vt^T *m S_inv *m u^T,
           for_range (fun i log_sum => log_sum + ln (s_mat 0 i)) 0%Re)) =
      Ok (invmx M, ln (a * b))].
Proof.
move=> a0 b0 M.
have dM : \det M = a * b by rewrite /M det_diag2.
have ab0 : (0 < a * b)%Re by apply: Rmult_lt_0_compat.
have uM : M \in unitmx by rewrite unitmxE dM unitfE; apply: Rlt0_neq0.
have svdM : is_svd M (svd_choice M).
  apply: (@svd_choiceP _ M (1%:M, row_mx a%:M b%:M, 1%:M)).
  rewrite /M diag2E; apply: diag_svd => i; rewrite mxE.
  by case: split_ordP => j _; rewrite mxE [j]ord1 eqxx mulr1n; lra.
split=> //.
rewrite (svd_branch_inverse svdM
  (fun _ s_mat _ => for_range (fun i log_sum => log_sum + ln (s_mat 0 i)) 0%Re)) //.
by rewrite for_range_sum add0r svd_logdet // dM Rabs_right //; toR; lra.
Qed.

(* ---------------------------------------------------------------------- *)
(*  22. A repeated sample point                                            *)
(* ---------------------------------------------------------------------- *)

(* x = y = t = np.array([0.0, 0.0]): the same point sampled twice.         *)
Definition twice_origin : 'rV[R]_2 := const_mx 0%Re.

(* The orthogonal matrix that diagonalises the 2 x 2 matrices with four
   equal entries, and the singular values it yields.                       *)
Definition hadamard2 : 'M[R]_2 :=
  \matrix_(i, j) (if (i == 1 :> nat) && (j == 1 :> nat)
                  then (- / sqrt 2)%Re else (/ sqrt 2)%Re).

Definition rank_one_values (c : R) : 'rV[R]_2 :=
  \row_j (if j == 0 :> nat then (2 * c)%Re else 0%Re).

Lemma ord2_cases (k : 'I_2) : k = ord0 \/ k = ord_max.
Proof. by case: k => [[|[|k]] lt2] //; [left | right]; apply/val_inj. Qed.

Lemma inv_sqrt2_sq : (/ sqrt 2 * / sqrt 2 = / 2)%Re.
Proof.
have s2 : (sqrt 2 * sqrt 2 = 2)%Re by apply: sqrt_sqrt; lra.
have p2 : (0 < sqrt 2)%Re by apply: sqrt_lt_R0; lra.
by rewrite -Rinv_mult s2.
Qed.

Lemma hadamard2_orth : hadamard2^T *m hadamard2 = 1%:M.
Proof.
have rr := inv_sqrt2_sq; set r := (/ sqrt 2)%Re in rr.
apply/matrixP => i j; case: (ord2_cases i) => ->; case: (ord2_cases j) => ->;
  rewrite !(mxE, big_ord_recl, big_ord0) /= -/r ?mulr1n ?mulr0n; toR; nra.
Qed.

Lemma hadamard2_diag (c : R) :
  hadamard2 *m diag_mx (rank_one_values c) *m hadamard2^T = const_mx c.
Proof.
have rr := inv_sqrt2_sq; set r := (/ sqrt 2)%Re in rr.
apply/matrixP => i j; case: (ord2_cases i) => ->; case: (ord2_cases j) => ->;
  rewrite !(mxE, big_ord_recl, big_ord0) /= -/r ?mulr1n ?mulr0n; toR;
  by transitivity (2 * c * (r * r))%Re; [ring | rewrite rr; field].
Qed.

Lemma duplicate_svd (c1 c2 : R) : Rle 0%Re c1 -> Rle 0%Re c2 ->
  is_svd (block_mx (const_mx c1) 0 0 (const_mx c2) : 'M[R]_(2 + 2))
         (block_mx hadamard2 0 0 hadamard2,
          row_mx (rank_one_values c1) (rank_one_values c2),
          (block_mx hadamard2 0 0 hadamard2)^T).
Proof.
move=> c10 c20.
have orth : (block_mx hadamard2 0 0 hadamard2)^T *m
            block_mx hadamard2 0 0 hadamard2 = 1%:M :> 'M[R]_(2 + 2).
  rewrite tr_block_mx !trmx0 mulmx_block !mulmx0 !mul0mx !addr0 !add0r.
  by rewrite hadamard2_orth -scalar_mx_block.
split; rewrite ?trmxK //.
  move=> i; rewrite mxE; case: split_ordP => j _; rewrite mxE;
    by case: ifP => _; lra.
rewrite diag_mx_row tr_block_mx !trmx0 !mulmx_block.
by rewrite !(mulmx0, mul0mx, addr0, add0r) !hadamard2_diag.
Qed.

(* Two equal rows: the joint matrix of a repeated point is singular when
   no noise is added.                                                      *)
Lemma duplicate_singular (c1 c2 : R) :
  (block_mx (const_mx c1) 0 0 (const_mx c2) : 'M[R]_(2 + 2)) \notin unitmx.
Proof.
rewrite unitmxE unitfE negbK; apply/eqP.
apply: (@determinant_alternate _ _ _ (lshift 2 ord0) (lshift 2 ord_max)) => // j.
by rewrite !block_mxEv !col_mxEu !mxE; case: split_ordP => k _; rewrite !mxE.
Qed.

Lemma NlmlSvd_K_twice :
  NlmlSvd.joint_K (row_of [:: 0%Re; 0%Re; 0%Re; 1%Re])
                  twice_origin twice_origin 0 =
  block_mx (const_mx 1) 0 0 (const_mx 3%Re).
Proof.
have [e0 e1 e2 e3] := item4 0%Re 0%Re 0%Re 1%Re.
rewrite /NlmlSvd.joint_K e0 e1 e2 e3 exp_0 !scale0r !addr0.
rewrite /NlmlSvd.kuf /NlmlSvd.kuu /NlmlSvd.kfu /NlmlSvd.kff !fill_pairwiseE.
congr block_mx; apply/matrixP => i j; rewrite !mxE.
- exact: NlmlSvd_kuu_origin.
- exact: NlmlSvd_kfu_origin.
- exact: NlmlSvd_kfu_origin.
- exact: NlmlSvd_kff_origin.
Qed.

Lemma AdvDiff_K_twice :
  AdvDiff.K twice_origin twice_origin twice_origin 1 1 1 1 0 0 0 0 0 =
  block_mx (const_mx 1) 0 0 (const_mx 1).
Proof.
rewrite /AdvDiff.K !scale0r !addr0.
rewrite /AdvDiff.kuf /AdvDiff.kuu /AdvDiff.kfu /AdvDiff.kff !fill_pairwiseE.
congr block_mx; apply/matrixP => i j; rewrite !mxE.
- exact: AdvDiff_kuu_origin.
- exact: AdvDiff_kfu_origin.
- exact: AdvDiff_kfu_origin.
- exact: AdvDiff_kff_origin.
Qed.

(* A vanishing singular value makes the matrix singular.                   *)
Lemma zero_singular_value n (M : 'M[R]_n) (svd : svd_fun) :
  is_svd M (svd _ M) -> (exists i, (svd _ M).1.2 0 i = 0) -> M \notin unitmx.
Proof.
case E: (svd _ M) => [[u sv] vt] svdE /= [i si0].
rewrite (svd_unitmx svdE) diag_unitmx; apply/forallP => /(_ i).
by rewrite si0 eqxx.
Qed.

(* ... and a singular matrix has one in each of its decompositions.        *)
Lemma singular_zero_value n (M : 'M[R]_n) (svd : svd_fun) :
  is_svd M (svd _ M) -> M \notin unitmx -> exists i, (svd _ M).1.2 0 i = 0.
Proof.
case E: (svd _ M) => [[u sv] vt] svdE /=.
rewrite (svd_unitmx svdE) diag_unitmx negb_forall => /existsP [i].
by rewrite negbK => /eqP si0; exists i.
Qed.

(* ---------------------------------------------------------------------- *)
(*  23. Derivatives: sums, products, and what sp.diff computes             *)
(* ---------------------------------------------------------------------- *)

Section DerivativeRules.

Variables (f g : R -> R) (t lf lg : R).
Hypothesis df : derivable_pt_lim f t lf.
Hypothesis dg : derivable_pt_lim g t lg.

Lemma der_add : derivable_pt_lim (fun u => f u + g u) t (lf + lg).
Proof. exact: derivable_pt_lim_plus. Qed.

Lemma der_mul : derivable_pt_lim (fun u => f u * g u) t (lf * g t + f t * lg).
Proof. exact: derivable_pt_lim_mult. Qed.

Lemma der_opp : derivable_pt_lim (fun u => - f u) t (- lf).
Proof. exact: derivable_pt_lim_opp. Qed.

Lemma der_comp (h : R -> R) (lh : R) :
  derivable_pt_lim h (f t) lh -> derivable_pt_lim (fun u => h (f u)) t (lh * lf).
Proof. by move=> dh; apply: (derivable_pt_lim_comp f h). Qed.

Lemma der_inv : f t <> 0 ->
  derivable_pt_lim (fun u => (/ f u)%Re) t (- lf / (f t * f t))%Re.
Proof.
move=> ft0.
have d1 : derivable_pt_lim (fun _ => 1%Re) t 0%Re by apply: derivable_pt_lim_const.
have := derivable_pt_lim_div _ _ _ _ _ d1 df ft0.
rewrite /div_fct /Rsqr => dq.
have -> : (- lf / (f t * f t) = (0 * f t - lf * 1) / (f t * f t))%Re.
  by field.
by apply: derivable_pt_lim_ext dq => z; rewrite /Rdiv Rmult_1_l.
Qed.

End DerivativeRules.

Lemma der_const (c t : R) : derivable_pt_lim (fun _ => c) t 0.
Proof. exact: derivable_pt_lim_const. Qed.

Lemma der_id (t : R) : derivable_pt_lim (fun u => u) t 1.
Proof. exact: derivable_pt_lim_id. Qed.

Lemma der_eq (f : R -> R) (t l l' : R) :
  l = l' -> derivable_pt_lim f t l -> derivable_pt_lim f t l'.
Proof. by move=> ->. Qed.

(* Finite sums and products of differentiable functions.                   *)
Lemma der_sum (I : Type) (r : seq I) (F : I -> R -> R) (F' : I -> R) (t : R) :
  (forall i, derivable_pt_lim (F i) t (F' i)) ->
  derivable_pt_lim (fun u => \sum_(i <- r) F i u) t (\sum_(i <- r) F' i).
Proof.
move=> dF; elim: r => [|i r IH].
  rewrite big_nil; apply: derivable_pt_lim_ext (der_const 0 t) => z.
  by rewrite big_nil.
rewrite big_cons.
apply: derivable_pt_lim_ext (der_add (dF i) IH) => z.
by rewrite big_cons.
Qed.

Lemma der_prod (I : eqType) (r : seq I) (F : I -> R -> R) (F' : I -> R)
    (t : R) :
  uniq r -> (forall i, derivable_pt_lim (F i) t (F' i)) ->
  derivable_pt_lim (fun u => \prod_(i <- r) F i u) t
    (\sum_(k <- r) F' k * \prod_(i <- r | i != k) F i t).
Proof.
move=> + dF; elim: r => [|a r IH] /=.
  move=> _; rewrite big_nil; apply: derivable_pt_lim_ext (der_const 1 t) => z.
  by rewrite big_nil.
case/andP=> anr ur; have {IH}dr := IH ur.
have da := der_mul (dF a) dr.
apply: derivable_pt_lim_ext (der_eq _ da) => [z|]; first by rewrite big_cons.
rewrite big_cons [in RHS]big_cons eqxx /=; congr (_ * _ + _).
  rewrite big_seq_cond [RHS]big_seq_cond; apply: eq_bigl => i.
  by case ir: (i \in r) => //=; apply/esym/negP => /eqP ia; rewrite -ia ir in anr.
rewrite mulr_sumr big_seq [RHS]big_seq; apply: eq_bigr => k kr.
have ka : a != k by apply: contraNneq anr => ->.
by rewrite big_cons ka mulrCA.
Qed.

(* The value of one symbol replaced.                                       *)
Definition sp_upd (env : sp.symbol -> R) (v : sp.symbol) (u : R) :
  sp.symbol -> R :=
  fun w => if sp.symbol_eqb w v then u else env w.

(* The expression is evaluated away from its singularities: no negative
   power of zero, no square root of a non-positive number.                 *)
Fixpoint sp_smooth (env : sp.symbol -> R) (e : sp.expr) : Prop :=
  match e with
  | sp.Sym _ | sp.Int _ => True
  | sp.Add e1 e2 | sp.Mul e1 e2 => sp_smooth env e1 /\ sp_smooth env e2
  | sp.Pow e1 (Zneg _) => sp_smooth env e1 /\ sp.eval env e1 <> 0%Re
  | sp.Pow e1 _ => sp_smooth env e1
  | sp.exp e1 => sp_smooth env e1
  | sp.sqrt e1 => sp_smooth env e1 /\ (0 < sp.eval env e1)%Re
  end.

Lemma symbol_eqbP (u v : sp.symbol) : reflect (u = v) (sp.symbol_eqb u v).
Proof. by case: u; case: v; constructor. Qed.

Lemma eval_ext (env1 env2 : sp.symbol -> R) (e : sp.expr) :
  env1 =1 env2 -> sp.eval env1 e = sp.eval env2 e.
Proof. by move=> eqe; elim: e => //= [e1 -> e2 ->|e1 -> e2 ->|e1 ->|e1 ->|e1 ->]. Qed.

Lemma sp_upd_same (env : sp.symbol -> R) (v : sp.symbol) :
  sp_upd env v (env v) =1 env.
Proof. by move=> w; rewrite /sp_upd; case: symbol_eqbP => // ->. Qed.

Lemma pow_int_nat (r : R) (m : nat) : sp.pow_int r (Z.of_nat m) = (r ^ m)%Re.
Proof. by case: m => [|m] //=; rewrite SuccNat2Pos.id_succ. Qed.

Lemma der_pow_int (k : Z) (r : R) :
  ((k < 0)%Z -> r <> 0%Re) ->
  derivable_pt_lim (fun u => sp.pow_int u k) r
                   (IZR k * sp.pow_int r (k - 1))%Re.
Proof.
case: k => [|p|p] r0.
- by apply: der_eq (der_const 1%Re r); rewrite /= Rmult_0_l.
- have := derivable_pt_lim_pow r (Pos.to_nat p).
  apply: der_eq; rewrite INR_IPR; congr (_ * _)%Re.
  rewrite -pow_int_nat; congr (sp.pow_int r _).
  by have := Pos2Nat.is_pos p; lia.
- have {}r0 : r <> 0%Re by apply: r0.
  have [m pm] : exists m, Pos.to_nat p = m.+1.
    by have := Pos2Nat.is_pos p; case: (Pos.to_nat p) => [|m] //; [lia | exists m].
  have dpow := derivable_pt_lim_pow r (Pos.to_nat p).
  have pn0 : (r ^ Pos.to_nat p)%Re <> 0%Re by apply: pow_nonzero.
  have := der_inv dpow pn0; apply: der_eq.
  have -> : (Z.neg p - 1 = Z.neg (p + 1))%Z by lia.
  rewrite -[IZR (Z.neg p)]/(- IPR p)%Re -INR_IPR.
  rewrite -[sp.pow_int r _]/(/ r ^ Pos.to_nat (p + 1))%Re.
  rewrite Pos2Nat.inj_add pm -[Pos.to_nat 1]/1%N Nat.add_1_r -[m.+1.-1]/m.
  have q0 : (r ^ m)%Re <> 0%Re by apply: pow_nonzero.
  rewrite -!tech_pow_Rmult.
  by set q := (r ^ m)%Re in q0 *; set c := INR _; field.
Qed.

Arguments sp.mkMul : simpl never.
Arguments sp.mkAdd : simpl never.

(* sp.diff computes the derivative of the function that sp.lambdify makes
   of the expression.                                                      *)
Theorem diff1_sound (env : sp.symbol -> R) (v : sp.symbol) (e : sp.expr) :
  sp_smooth env e ->
  derivable_pt_lim (fun u => sp.eval (sp_upd env v u) e) (env v)
                   (sp.eval env (sp.diff1 v e)).
Proof.
have same e' : sp.eval (sp_upd env v (env v)) e' = sp.eval env e'.
  exact/eval_ext/sp_upd_same.
elim: e => [w|z|e1 IH1 e2 IH2|e1 IH1 e2 IH2|e1 IH1 k|e1 IH1|e1 IH1] /=.
- move=> _; rewrite /sp_upd; case: (sp.symbol_eqb w v) => /=.
    exact: derivable_pt_lim_id.
  exact: derivable_pt_lim_const.
- by move=> _; apply: derivable_pt_lim_const.
- case=> s1 s2; rewrite sp.eval_mkAdd.
  exact: derivable_pt_lim_plus (IH1 s1) (IH2 s2).
- case=> s1 s2; rewrite sp.eval_mkAdd !sp.eval_mkMul.
  have := derivable_pt_lim_mult _ _ _ _ _ (IH1 s1) (IH2 s2).
  by rewrite !same; apply.
- move=> sk; rewrite !sp.eval_mkMul /=.
  have [s1 r0] : sp_smooth env e1 /\ ((k < 0)%Z -> sp.eval env e1 <> 0%Re).
    by case: k sk => [|p|p] //; case.
  rewrite -same in r0; have := der_comp (IH1 s1) (der_pow_int r0).
  by rewrite same; apply.
- move=> s1; rewrite sp.eval_mkMul /=.
  have := der_comp (IH1 s1) (derivable_pt_lim_exp _).
  by rewrite same; apply.
- case=> s1 r0; rewrite sp.eval_mkMul /=.
  rewrite -same in r0; have := der_comp (IH1 s1) (derivable_pt_lim_sqrt _ r0).
  by rewrite same; apply: der_eq; toR; rewrite Rmult_1_r Rmult_comm.
Qed.

(* ---------------------------------------------------------------------- *)
(*  24. Derivatives of matrix-valued functions of one parameter            *)
(* ---------------------------------------------------------------------- *)

(* Entry by entry, D is the derivative of F at t.                          *)
Definition mx_deriv {m n} (F : R -> 'M[R]_(m, n)) (t : R) (D : 'M[R]_(m, n)) :
  Prop :=
  forall i j, derivable_pt_lim (fun u => F u i j) t (D i j).

Lemma mx_deriv_const m n (M : 'M[R]_(m, n)) (t : R) :
  mx_deriv (fun _ => M) t 0.
Proof. by move=> i j; rewrite mxE; apply: der_const. Qed.

Lemma mx_deriv_mul m n p (F : R -> 'M[R]_(m, n)) (G : R -> 'M[R]_(n, p))
    (t : R) F' G' :
  mx_deriv F t F' -> mx_deriv G t G' ->
  mx_deriv (fun u => F u *m G u) t (F' *m G t + F t *m G').
Proof.
move=> dF dG i j.
have dk k := der_mul (dF i k) (dG k j).
apply: derivable_pt_lim_ext (der_eq _ (der_sum (index_enum 'I_n) dk)) => [z|].
  by rewrite mxE.
by rewrite !mxE -big_split.
Qed.

Lemma mx_deriv_scale m n (q : R -> R) (F : R -> 'M[R]_(m, n)) (t q' : R) F' :
  derivable_pt_lim q t q' -> mx_deriv F t F' ->
  mx_deriv (fun u => q u *: F u) t (q' *: F t + q t *: F').
Proof.
move=> dq dF i j.
apply: derivable_pt_lim_ext (der_eq _ (der_mul dq (dF i j))) => [z|].
  by rewrite mxE.
by rewrite !mxE.
Qed.

(* The derivative of the determinant, from the Leibniz formula: the sum
   over the rows k of the determinant with row k replaced by its
   derivative, expanded along that row.                                    *)
Definition det_deriv {n} (M M' : 'M[R]_n) : R :=
  \sum_k \sum_j M' k j * cofactor M k j.

Lemma det_replaced_row n (M M' : 'M[R]_n) (k : 'I_n) :
  \sum_(s : 'S_n) (-1) ^+ s * (M' k (s k) * \prod_(i | i != k) M i (s i)) =
  \sum_j M' k j * cofactor M k j.
Proof.
pose Rk : 'M[R]_n := \matrix_(i, j) (if i == k then M' k j else M i j).
have <- : \det Rk = \sum_j M' k j * cofactor M k j.
  rewrite (expand_det_row Rk k); apply: eq_bigr => j _.
  rewrite mxE eqxx; congr (_ * _); rewrite /cofactor; congr (_ * \det _).
  by apply/matrixP => a b; rewrite !mxE eq_sym (negbTE (neq_lift k a)).
rewrite /determinant; apply: eq_bigr => s _; congr (_ * _).
rewrite [RHS](bigD1 k) //= mxE eqxx.
by congr (_ * _); apply: eq_bigr => i /negbTE ik; rewrite mxE ik.
Qed.

Lemma der_det n (F : R -> 'M[R]_n) (t : R) (F' : 'M[R]_n) :
  mx_deriv F t F' ->
  derivable_pt_lim (fun u => \det (F u)) t (det_deriv (F t) F').
Proof.
move=> dF.
have dprod (s : 'S_n) :
    derivable_pt_lim (fun u => (-1) ^+ s * \prod_i F u i (s i)) t
      ((-1) ^+ s * \sum_k F' k (s k) * \prod_(i | i != k) F t i (s i)).
  have dp := der_prod (index_enum_uniq 'I_n) (fun i => dF i (s i)).
  apply: der_eq (der_mul (der_const ((-1) ^+ s) t) dp).
  by rewrite mul0r add0r.
apply: der_eq (der_sum (index_enum 'S_n) dprod).
rewrite /det_deriv -(eq_bigr _ (fun k _ => det_replaced_row (F t) F' k)).
rewrite exchange_big; apply: eq_bigr => s _.
by rewrite mulr_sumr.
Qed.

Lemma det_deriv_trace n (M M' : 'M[R]_n) :
  det_deriv M M' = \tr (\adj M *m M').
Proof.
rewrite /det_deriv /mxtrace exchange_big; apply: eq_bigr => j _.
by rewrite mxE; apply: eq_bigr => k _; rewrite mxE mulrC.
Qed.

Lemma mx_deriv_adj n (F : R -> 'M[R]_n) (t : R) (F' : 'M[R]_n) :
  mx_deriv F t F' -> exists A', mx_deriv (fun u => \adj (F u)) t A'.
Proof.
move=> dF.
exists (\matrix_(i, j) ((-1) ^+ (j + i) *
          det_deriv (row' j (col' i (F t))) (row' j (col' i F')))) => i j.
have dG : mx_deriv (fun u => row' j (col' i (F u))) t (row' j (col' i F')).
  move=> a b; rewrite !mxE.
  by apply: derivable_pt_lim_ext (dF (lift j a) (lift i b)) => z; rewrite !mxE.
have dc := der_mul (der_const ((-1) ^+ (j + i)) t) (der_det dG).
apply: derivable_pt_lim_ext (der_eq _ dc) => [z|]; first by rewrite mxE.
by rewrite mxE mul0r add0r.
Qed.

(* A differentiable function that does not vanish at t does not vanish
   near t.                                                                 *)
Lemma der_neq0_near (d : R -> R) (t d' : R) :
  derivable_pt_lim d t d' -> d t <> 0 ->
  exists a b : R, (a < t < b)%Re /\ forall z, (a < z < b)%Re -> d z <> 0.
Proof.
move=> dd dt0.
have cd : continuity_pt d t.
  by apply: derivable_continuous_pt; exists d'.
have [eps epsP] := continuous_neq_0 d t cd dt0.
have e0 := cond_pos eps.
exists (t - eps)%Re, (t + eps)%Re; split; first by lra.
move=> z zI; have -> : z = (t + (z - t))%Re by ring.
by apply: epsP; apply: Rabs_def1; lra.
Qed.

(* The derivative of the inverse: - M^-1 M' M^-1.                          *)
Theorem mx_deriv_inv n (F : R -> 'M[R]_n) (t : R) (F' : 'M[R]_n) :
  F t \in unitmx -> mx_deriv F t F' ->
  mx_deriv (fun u => invmx (F u)) t (- (invmx (F t) *m F' *m invmx (F t))).
Proof.
move=> uF dF.
have dt0 : \det (F t) <> 0 by apply/Rneq0P; rewrite -unitfE -unitmxE.
have dd := der_det dF; set d' := det_deriv _ _ in dd.
have [A' dA] := mx_deriv_adj dF.
have [a [b [atb nz]]] := der_neq0_near dd dt0.
set N := invmx (F t); set c := \det (F t) in dt0.
have adjE : \adj (F t) = c *: N.
  rewrite /N /invmx uF scalerA -[c * _]/(c * / c)%Re Rinv_r //.
  by rewrite -[1%Re]/(1 : R) scale1r.
have A'E : A' = N *m (d'%:M - F' *m (c *: N)).
  apply: (can_inj (mulKmx uF)); rewrite mulKVmx // -adjE.
  apply/eqP; rewrite eq_sym subr_eq addrC; apply/eqP/matrixP => i j.
  apply: (uniqueness_limite (fun u => (F u *m \adj (F u)) i j) t); last first.
    exact: mx_deriv_mul dF dA i j.
  apply: (@derivable_pt_lim_ext (fun u => \det (F u) *+ (i == j))).
    by move=> z; rewrite mul_mx_adj mxE.
  rewrite mxE; case: (i == j); rewrite ?mulr1n // !mulr0n.
  exact: der_const.
move=> i j.
have dN0 : derivable_pt_lim (fun u => (/ \det (F u))%Re * (\adj (F u)) i j) t
             ((- d' / (c * c))%Re * (\adj (F t)) i j + (/ c)%Re * A' i j).
  exact: der_mul (der_inv dd dt0) (dA i j).
apply: derivable_pt_lim_locally_ext atb _ (der_eq _ dN0) => [z zI|].
  have uz : F z \in unitmx by rewrite unitmxE unitfE; apply/Rneq0P/nz.
  by rewrite /invmx uz [RHS]mxE.
have entry (a0 b0 : R) (X Y : 'M[R]_n) :
    a0 * X i j + b0 * Y i j = (a0 *: X + b0 *: Y) i j.
  by rewrite 3!mxE.
rewrite entry adjE A'E; congr (fun_of_matrix _ i j).
rewrite mulmxBr mul_mx_scalar -!scalemxAr scalerBr !scalerA addrA -scalerDl.
have -> : (- d' / (c * c))%Re * c + (/ c)%Re * d' = 0 by toR; field.
have -> : (/ c)%Re * c = 1 by toR; field.
by rewrite scale0r add0r scale1r mulmxA.
Qed.

Lemma mx_deriv_add m n (F G : R -> 'M[R]_(m, n)) (t : R) F' G' :
  mx_deriv F t F' -> mx_deriv G t G' ->
  mx_deriv (fun u => F u + G u) t (F' + G').
Proof.
move=> dF dG i j.
apply: derivable_pt_lim_ext (der_eq _ (der_add (dF i j) (dG i j))) => [z|];
  by rewrite mxE.
Qed.

Lemma mx_deriv_tr m n (F : R -> 'M[R]_(m, n)) (t : R) F' :
  mx_deriv F t F' -> mx_deriv (fun u => (F u)^T) t F'^T.
Proof.
move=> dF i j.
by apply: derivable_pt_lim_ext (der_eq _ (dF j i)) => [z|]; rewrite mxE.
Qed.

Lemma mx_deriv_block n (Fuu Fuf Ffu Fff : R -> 'M[R]_n) (t : R)
    Duu Duf Dfu Dff :
  mx_deriv Fuu t Duu -> mx_deriv Fuf t Duf ->
  mx_deriv Ffu t Dfu -> mx_deriv Fff t Dff ->
  mx_deriv (fun u => block_mx (Fuu u) (Fuf u) (Ffu u) (Fff u)) t
           (block_mx Duu Duf Dfu Dff).
Proof.
move=> duu duf dfu dff i j.
case: (split_ordP i) => a ->; case: (split_ordP j) => b ->.
- by apply: derivable_pt_lim_ext (der_eq _ (duu a b)) => [z|]; rewrite block_mxEul.
- by apply: derivable_pt_lim_ext (der_eq _ (duf a b)) => [z|]; rewrite block_mxEur.
- by apply: derivable_pt_lim_ext (der_eq _ (dfu a b)) => [z|]; rewrite block_mxEdl.
- by apply: derivable_pt_lim_ext (der_eq _ (dff a b)) => [z|]; rewrite block_mxEdr.
Qed.

(* A pairwise kernel matrix whose kernel depends on the parameter.         *)
Lemma mx_deriv_fill n (g : R -> 'I_n -> 'I_n -> R) (g' : 'I_n -> 'I_n -> R)
    (t : R) :
  (forall i j, derivable_pt_lim (fun u => g u i j) t (g' i j)) ->
  mx_deriv (fun u => fill_pairwise (g u)) t (\matrix_(i, j) g' i j).
Proof.
move=> dg i j.
apply: derivable_pt_lim_ext (der_eq _ (dg i j)) => [z|]; last by rewrite mxE.
by rewrite fill_pairwiseE mxE.
Qed.

(* ---------------------------------------------------------------------- *)
(*  25. The derivative kernels of the determinant-form notebook            *)
(* ---------------------------------------------------------------------- *)

Ltac sp_smooth_compute :=
  cbv [sp_smooth sp.eval sp.diff sp.diff1 sp.mkAdd sp.mkMul sp.neg sp.sub
       sp.div sp.symbol_eqb sp.symbol_id sp.pow_int Nat.eqb
       Z.sub Z.add Z.opp Z.pos_sub Z.double Z.succ_double Z.pred_double
       Pos.pred_double Pos.succ Pos.add].

Lemma DetMax_kuu_smooth (env : sp.symbol -> R) :
  (0 < env sp.l_x)%Re -> (0 < env sp.l_y)%Re -> sp_smooth env DetMax.kuu_sym.
Proof.
move=> lx0 ly0; rewrite /DetMax.kuu_sym; sp_smooth_compute.
by repeat split; lra.
Qed.

Lemma DetMax_kfu_smooth (env : sp.symbol -> R) :
  (0 < env sp.l_x)%Re -> (0 < env sp.l_y)%Re -> sp_smooth env DetMax.kfu_sym.
Proof.
move=> lx0 ly0; rewrite /DetMax.kfu_sym /DetMax.kuu_sym; sp_smooth_compute.
by repeat split; lra.
Qed.

Lemma DetMax_kff_smooth (env : sp.symbol -> R) :
  (0 < env sp.l_x)%Re -> (0 < env sp.l_y)%Re -> sp_smooth env DetMax.kff_sym.
Proof.
move=> lx0 ly0; rewrite /DetMax.kff_sym /DetMax.kuu_sym; sp_smooth_compute.
by repeat split; lra.
Qed.

(* The lambdified derivative of a kernel is the derivative of the
   lambdified kernel in the corresponding argument.                        *)
Ltac lambdify_der v sm :=
  apply: derivable_pt_lim_ext (diff1_sound v sm) => z;
  apply: eval_ext; case.

Section KernelDerivatives.

Variables xi xj yi yj lx ly ph : R.
Hypothesis lx0 : (0 < lx)%Re.
Hypothesis ly0 : (0 < ly)%Re.

Let env6 := sp.bind_args [:: sp.x_i; sp.x_j; sp.y_i; sp.y_j; sp.l_x; sp.l_y]
                         [:: xi; xj; yi; yj; lx; ly].
Let env7 :=
  sp.bind_args [:: sp.x_i; sp.x_j; sp.y_i; sp.y_j; sp.l_x; sp.l_y; sp.phi]
               [:: xi; xj; yi; yj; lx; ly; ph].

Let suu : sp_smooth env6 DetMax.kuu_sym.
Proof. exact: DetMax_kuu_smooth. Qed.

Let sfu : sp_smooth env7 DetMax.kfu_sym.
Proof. exact: DetMax_kfu_smooth. Qed.

Let sff : sp_smooth env7 DetMax.kff_sym.
Proof. exact: DetMax_kff_smooth. Qed.

Lemma DetMax_kuu_der :
  [/\ derivable_pt_lim (fun u => DetMax.kuu_fn xi xj yi yj u ly) lx
        (DetMax.kuu_l_x xi xj yi yj lx ly),
      derivable_pt_lim (fun u => DetMax.kuu_fn xi xj yi yj lx u) ly
        (DetMax.kuu_l_y xi xj yi yj lx ly)
    & derivable_pt_lim (fun u => DetMax.kuu_fn xi xj yi yj lx ly) ph
        (DetMax.kuu_phi xi xj yi yj lx ly)].
Proof.
split.
- by lambdify_der sp.l_x suu.
- by lambdify_der sp.l_y suu.
- exact: der_const.
Qed.

Lemma DetMax_kfu_der :
  [/\ derivable_pt_lim (fun u => DetMax.kfu_fn xi xj yi yj u ly ph) lx
        (DetMax.kfu_l_x xi xj yi yj lx ly ph),
      derivable_pt_lim (fun u => DetMax.kfu_fn xi xj yi yj lx u ph) ly
        (DetMax.kfu_l_y xi xj yi yj lx ly ph)
    & derivable_pt_lim (fun u => DetMax.kfu_fn xi xj yi yj lx ly u) ph
        (DetMax.kfu_phi xi xj yi yj lx ly ph)].
Proof.
split.
- by lambdify_der sp.l_x sfu.
- by lambdify_der sp.l_y sfu.
- by lambdify_der sp.phi sfu.
Qed.

Lemma DetMax_kff_der :
  [/\ derivable_pt_lim (fun u => DetMax.kff_fn xi xj yi yj u ly ph) lx
        (DetMax.kff_l_x xi xj yi yj lx ly ph),
      derivable_pt_lim (fun u => DetMax.kff_fn xi xj yi yj lx u ph) ly
        (DetMax.kff_l_y xi xj yi yj lx ly ph)
    & derivable_pt_lim (fun u => DetMax.kff_fn xi xj yi yj lx ly u) ph
        (DetMax.kff_phi xi xj yi yj lx ly ph)].
Proof.
split.
- by lambdify_der sp.l_x sff.
- by lambdify_der sp.l_y sff.
- by lambdify_der sp.phi sff.
Qed.

End KernelDerivatives.

(* K_l_x, K_l_y and K_phi are the partial derivatives of the matrix K.     *)
Section JointMatrixDerivatives.

Variable n : nat.
Variables x y : 'rV[R]_n.
Variables l_x l_y phi : R.
Hypothesis lx0 : (0 < l_x)%Re.
Hypothesis ly0 : (0 < l_y)%Re.

Lemma DetMax_K_der_l_x :
  mx_deriv (fun u => DetMax.K x y u l_y phi) l_x (DetMax.K_l_x x y l_x l_y phi).
Proof.
rewrite /DetMax.K_l_x K_derivativeE -[X in block_mx X]addr0.
rewrite -[X in block_mx _ _ _ X]addr0.
apply: mx_deriv_block; rewrite /DetMax.kuf.
- apply: mx_deriv_add (mx_deriv_const _ _); apply: mx_deriv_fill => i j.
  by have [] := DetMax_kuu_der (x 0 i) (x 0 j) (y 0 i) (y 0 j) phi lx0 ly0.
- apply: mx_deriv_tr; apply: mx_deriv_fill => i j.
  by have [] := DetMax_kfu_der (x 0 i) (x 0 j) (y 0 i) (y 0 j) phi lx0 ly0.
- apply: mx_deriv_fill => i j.
  by have [] := DetMax_kfu_der (x 0 i) (x 0 j) (y 0 i) (y 0 j) phi lx0 ly0.
- apply: mx_deriv_add (mx_deriv_const _ _); apply: mx_deriv_fill => i j.
  by have [] := DetMax_kff_der (x 0 i) (x 0 j) (y 0 i) (y 0 j) phi lx0 ly0.
Qed.

Lemma DetMax_K_der_l_y :
  mx_deriv (fun u => DetMax.K x y l_x u phi) l_y (DetMax.K_l_y x y l_x l_y phi).
Proof.
rewrite /DetMax.K_l_y K_derivativeE -[X in block_mx X]addr0.
rewrite -[X in block_mx _ _ _ X]addr0.
apply: mx_deriv_block; rewrite /DetMax.kuf.
- apply: mx_deriv_add (mx_deriv_const _ _); apply: mx_deriv_fill => i j.
  by have [] := DetMax_kuu_der (x 0 i) (x 0 j) (y 0 i) (y 0 j) phi lx0 ly0.
- apply: mx_deriv_tr; apply: mx_deriv_fill => i j.
  by have [] := DetMax_kfu_der (x 0 i) (x 0 j) (y 0 i) (y 0 j) phi lx0 ly0.
- apply: mx_deriv_fill => i j.
  by have [] := DetMax_kfu_der (x 0 i) (x 0 j) (y 0 i) (y 0 j) phi lx0 ly0.
- apply: mx_deriv_add (mx_deriv_const _ _); apply: mx_deriv_fill => i j.
  by have [] := DetMax_kff_der (x 0 i) (x 0 j) (y 0 i) (y 0 j) phi lx0 ly0.
Qed.

Lemma DetMax_K_der_phi :
  mx_deriv (fun u => DetMax.K x y l_x l_y u) phi (DetMax.K_phi x y l_x l_y phi).
Proof.
rewrite /DetMax.K_phi K_derivativeE -[X in block_mx X]addr0.
rewrite -[X in block_mx _ _ _ X]addr0.
apply: mx_deriv_block; rewrite /DetMax.kuf.
- apply: mx_deriv_add (mx_deriv_const _ _); apply: mx_deriv_fill => i j.
  by have [] := DetMax_kuu_der (x 0 i) (x 0 j) (y 0 i) (y 0 j) phi lx0 ly0.
- apply: mx_deriv_tr; apply: mx_deriv_fill => i j.
  by have [] := DetMax_kfu_der (x 0 i) (x 0 j) (y 0 i) (y 0 j) phi lx0 ly0.
- apply: mx_deriv_fill => i j.
  by have [] := DetMax_kfu_der (x 0 i) (x 0 j) (y 0 i) (y 0 j) phi lx0 ly0.
- apply: mx_deriv_add (mx_deriv_const _ _); apply: mx_deriv_fill => i j.
  by have [] := DetMax_kff_der (x 0 i) (x 0 j) (y 0 i) (y 0 j) phi lx0 ly0.
Qed.

End JointMatrixDerivatives.

(* ---------------------------------------------------------------------- *)
(*  26. The derivative of det((y^T M^-1 y) M)                              *)
(* ---------------------------------------------------------------------- *)

Lemma natr_INR (m : nat) : m%:R = INR m :> R.
Proof.
by elim: m => [|m IH] //; rewrite mulrS IH S_INR addrC.
Qed.

Section FormBDerivative.

Variable m : nat.
Variable F : R -> 'M[R]_m.
Variables (t : R) (F' : 'M[R]_m).
Variable yv : 'rV[R]_m.

Hypothesis symF : (F t)^T = F t.
Hypothesis uF : F t \in unitmx.
Hypothesis dF : mx_deriv F t F'.

Let N := invmx (F t).
Let w : 'rV[R]_m := (N *m yv^T)^T.
Let q (u : R) : R := vdot (yv *m invmx (F u)) yv.

Lemma quad_as_dot : vdot yv w = q t.
Proof. by rewrite /q /w !vdotE trmxK mulmxA. Qed.

Lemma der_quad : derivable_pt_lim q t (- vdot (w *m F') w).
Proof.
have dN := mx_deriv_inv uF dF.
have d1 := mx_deriv_mul (mx_deriv_const yv t) dN.
have d2 := mx_deriv_mul d1 (mx_deriv_const yv^T t).
apply: derivable_pt_lim_ext (der_eq _ (d2 0 0)) => [z|]; first by rewrite /q vdotE.
rewrite mul0mx add0r mulmx0 addr0 mulmxN mulNmx mxE -/N; congr (- _).
have wE : w = yv *m N by rewrite /w trmx_mul trmxK /N sym_invmx.
by rewrite vdotE {1}wE /w trmxK !mulmxA.
Qed.

(* val' = val * (tr(M^-1 M') - m w^T M' w / (y^T w)), with w = M^-1 y.      *)
Theorem der_form_B : q t <> 0 ->
  derivable_pt_lim (fun u => \det (q u *: F u)) t
    (\det (q t *: F t) *
     (\tr (N *m F') - vdot ((m%:R *: w) *m F') w / vdot yv w)).
Proof.
move=> q0.
have dq := der_quad; set V := vdot (w *m F') w in dq.
have dd := der_det dF; rewrite det_deriv_trace in dd.
have adjE : \adj (F t) = \det (F t) *: N.
  rewrite /N /invmx uF scalerA.
  have d0 : \det (F t) <> 0 by apply/Rneq0P; rewrite -unitfE -unitmxE.
  by rewrite -[_ * _]/(_ * / _)%Re Rinv_r // -[1%Re]/(1 : R) scale1r.
rewrite adjE -scalemxAl mxtraceZ in dd.
have dp := der_comp dq (derivable_pt_lim_pow (q t) m).
have dv := der_mul dp dd.
apply: derivable_pt_lim_ext (der_eq _ dv) => [z|]; first by rewrite detZ Rexpn.
rewrite detZ Rexpn -scalemxAl vdotZl quad_as_dot -/V natr_INR.
set D := \det (F t); set T := \tr (N *m F'); set qt := q t in q0 *.
case: (m) => [|k]; first by rewrite /=; toR; field.
by rewrite -[k.+1.-1]/k -tech_pow_Rmult; set p := (qt ^ k)%Re; set c := INR _; toR; field.
Qed.

End FormBDerivative.

(* One sample point away from the origin: x = np.array([1.0]),
   y = np.array([0.0]), where the observed values do not vanish.          *)
Definition unit_abscissa : 'rV[R]_1 := const_mx 1%Re.

Lemma DetMax_kernels_same_point (a b : R) :
  [/\ DetMax.kuu_fn a a b b 1 1 = 1, DetMax.kfu_fn a a b b 1 1 1 = 0
    & DetMax.kff_fn a a b b 1 1 1 = 3%Re].
Proof.
split.
- by rewrite /DetMax.kuu_fn /DetMax.kuu_sym; kernel_at_origin.
- by rewrite /DetMax.kfu_fn /DetMax.kfu_sym /DetMax.kuu_sym; kernel_at_origin.
- by rewrite /DetMax.kff_fn /DetMax.kff_sym /DetMax.kuu_sym; kernel_at_origin.
Qed.

Lemma DetMax_blocks_single (x y : 'rV[R]_1) :
  [/\ DetMax.kuu x y 1 1 + DetMax.s *: 1%:M = (1 + DetMax.s)%:M,
      DetMax.kfu x y 1 1 1 = 0
    & DetMax.kff x y 1 1 1 + DetMax.s *: 1%:M = (3%Re + DetMax.s)%:M].
Proof.
have [euu efu eff] := DetMax_kernels_same_point (x 0 0) (y 0 0).
rewrite /DetMax.kuu /DetMax.kfu /DetMax.kff !fill_pairwise1.
rewrite euu efu eff !scalar_noise.
by split=> //; rewrite -scalemx1 scale0r.
Qed.

Lemma vdot0l n (v : 'rV[R]_n) : vdot 0 v = 0.
Proof. by rewrite vdotE mul0mx mxE. Qed.

(* ---------------------------------------------------------------------- *)
(*  26a. One sample point with a non-vanishing cross-covariance            *)
(* ---------------------------------------------------------------------- *)

(* One sample point, length scales 1 and phi = 2: the cross-covariance of
   u and f at the point does not vanish.                                   *)
Lemma DetMax_kernels_same_point_phi2 (a b : R) :
  [/\ DetMax.kuu_fn a a b b 1 1 = 1, DetMax.kfu_fn a a b b 1 1 2%Re = 1
    & DetMax.kff_fn a a b b 1 1 2%Re = 4%Re].
Proof.
split.
- by rewrite /DetMax.kuu_fn /DetMax.kuu_sym; kernel_at_origin.
- by rewrite /DetMax.kfu_fn /DetMax.kfu_sym /DetMax.kuu_sym; kernel_at_origin.
- by rewrite /DetMax.kff_fn /DetMax.kff_sym /DetMax.kuu_sym; kernel_at_origin.
Qed.

Lemma DetMax_blocks_single_phi2 (x y : 'rV[R]_1) :
  [/\ DetMax.kuu x y 1 1 + DetMax.s *: 1%:M = (1 + DetMax.s)%:M,
      DetMax.kfu x y 1 1 2%Re = 1%:M
    & DetMax.kff x y 1 1 2%Re + DetMax.s *: 1%:M = (4%Re + DetMax.s)%:M].
Proof.
have [euu efu eff] := DetMax_kernels_same_point_phi2 (x 0 0) (y 0 0).
rewrite /DetMax.kuu /DetMax.kfu /DetMax.kff !fill_pairwise1.
by rewrite euu efu eff !scalar_noise.
Qed.

(* The factorization of a 2 x 2 matrix [[a, b], [b, c]]: it returns when
   a and the Schur complement c - b^2/a are positive.                      *)
Lemma cholesky_block2 (a b c : R) : (0 < a)%Re -> (0 < c - b * b / a)%Re ->
  returns (cholesky (block_mx a%:M b%:M b%:M c%:M : 'M[R]_(1 + 1))).
Proof.
move=> a0 s0; rewrite choleskyS; lazy zeta.
have e00 := block_mx00 a (b%:M : 'M[R]_1) b%:M c%:M; rewrite e00.
case: Rlt_dec => [a1|na]; last by case: na.
rewrite block_mxKdl block_mxKdr.
have sa := sqrt_lt_R0 _ a0.
have -> : c%:M - ((/ sqrt a)%Re *: b%:M) *m ((/ sqrt a)%Re *: b%:M)^T =
          (c - b * b / a)%Re%:M :> 'M[R]_1.
  rewrite scale_scalar_mx tr_scalar_mx -scalar_mxM -raddfB /=; congr (_%:M).
  have e : (sqrt a * sqrt a = a)%Re by apply: sqrt_sqrt; lra.
  toR; rewrite -{3}e; field; lra.
by rewrite cholesky_scalar.
Qed.

Lemma DetMax_data_unit_abscissa :
  DetMax.y_u unit_abscissa origin = 1%:M /\
  DetMax.y_f unit_abscissa origin = 4%Re%:M.
Proof.
split; apply/rowP => i; rewrite !mxE [i]ord1 eqxx mulr1n; toR; ring.
Qed.

(* ---------------------------------------------------------------------- *)
(*  26b. The determinant-form objectives once their matrices are evaluated *)
(* ---------------------------------------------------------------------- *)

(* The body of nlml of the determinant-form notebook once K(...) and y_con
   are evaluated.                                                          *)
Definition det_objective (svd : svd_fun) {m : nat} (K : 'M[R]_m)
    (y_con : 'rV[R]_m) : res R :=
  try_except
    (L <- cholesky K ;;
     L_inv <- solve_triangular L 1%:M ;;
     let K_inv := L_inv^T *m L_inv in
     let val := \det (vdot (y_con *m K_inv) y_con *: (L *m L^T)) in
     Ok val)
    (let '(u, s_mat, vt) := svd _ K in
     S_inv <- inv (diag_mx s_mat) ;;
     let K_inv := vt^T *m S_inv *m u^T in
     let val := \prod_i (vdot (y_con *m K_inv) y_con * s_mat 0 i) in
     Ok val).

(* The body of nlml_block once the blocks A, B, C are evaluated.           *)
Definition det_block_objective (svd : svd_fun) {n : nat} (A B C : 'M[R]_n)
    (y_u y_f : 'rV[R]_n) : res R :=
  A_inv_det <-
    try_except
      (L <- cholesky A ;;
       L_inv <- solve_triangular L 1%:M ;;
       Ok (L_inv^T *m L_inv, \prod_i (diag_of L) 0 i ^+ 2))
      (let '(u, s_mat, vt) := svd _ A in
       S_inv <- inv (diag_mx s_mat) ;;
       Ok (vt^T *m S_inv *m u^T, \prod_i s_mat 0 i)) ;;
  let A_inv := A_inv_det.1 in
  let KA := C - B^T *m A_inv *m B in
  KA_inv_det <-
    try_except
      (L <- cholesky KA ;;
       L_inv <- solve_triangular L 1%:M ;;
       Ok (L_inv^T *m L_inv, \prod_i (diag_of L) 0 i ^+ 2))
      (let '(u, s_mat, vt) := svd _ KA in
       S_inv <- inv (diag_mx s_mat) ;;
       Ok (vt^T *m S_inv *m u^T, \prod_i s_mat 0 i)) ;;
  let KA_inv := KA_inv_det.1 in
  let T := A_inv *m B *m KA_inv in
  let factor := vdot (y_u *m (A_inv + T *m B^T *m A_inv)) y_u
                - vdot ((2%Re *: y_u) *m T) y_f
                + vdot (y_f *m KA_inv) y_f in
  Ok (\det (factor *: A) * \det (factor *: KA)).

(* The body of K_inv_and_det of the same notebook once A, B, C and y_con
   are evaluated.                                                          *)
Definition det_block_solver (svd : svd_fun) {n : nat} (A B C : 'M[R]_n)
    (y_con : 'rV[R]_(n + n)) : res ('M[R]_(n + n) * R) :=
  A_inv <-
    try_except
      (L <- cholesky A ;;
       L_inv <- solve_triangular L 1%:M ;;
       Ok (L_inv^T *m L_inv))
      (let '(u, s_mat, vt) := svd _ A in
       S_inv <- inv (diag_mx s_mat) ;;
       Ok (vt^T *m S_inv *m u^T)) ;;
  let KA := C - B^T *m A_inv *m B in
  KA_inv <-
    try_except
      (L <- cholesky KA ;;
       L_inv <- solve_triangular L 1%:M ;;
       Ok (L_inv^T *m L_inv))
      (let '(u, s_mat, vt) := svd _ KA in
       S_inv <- inv (diag_mx s_mat) ;;
       Ok (vt^T *m S_inv *m u^T)) ;;
  let K_inv := DetMax.piece_together A_inv B KA_inv in
  let f := vdot (y_con *m K_inv) y_con in
  let det_fK := \det (f *: A) * \det (f *: KA) in
  Ok (K_inv, det_fK).

Lemma DetMax_nlmlE n (x y : 'rV[R]_n) svd (params : 'rV[R]_3) :
  DetMax.nlml x y svd params =
  det_objective svd
    (DetMax.K x y (Rtrigo_def.exp (item params 0))
       (Rtrigo_def.exp (item params 1)) (item params 2))
    (DetMax.y_con x y).
Proof. by []. Qed.

Lemma DetMax_nlml_blockE n (x y : 'rV[R]_n) svd (params : 'rV[R]_3) :
  DetMax.nlml_block x y svd params =
  let lx := Rtrigo_def.exp (item params 0) in
  let ly := Rtrigo_def.exp (item params 1) in
  det_block_objective svd
    (DetMax.kuu x y lx ly + DetMax.s *: 1%:M)
    (DetMax.kfu x y lx ly (item params 2))^T
    (DetMax.kff x y lx ly (item params 2) + DetMax.s *: 1%:M)
    (DetMax.y_u x y) (DetMax.y_f x y).
Proof. by []. Qed.

Lemma DetMax_K_inv_and_detE n (x y : 'rV[R]_n) svd (l_x l_y phi : R) :
  DetMax.K_inv_and_det x y svd l_x l_y phi =
  det_block_solver svd
    (DetMax.kuu x y l_x l_y + DetMax.s *: 1%:M)
    (DetMax.kfu x y l_x l_y phi)^T
    (DetMax.kff x y l_x l_y phi + DetMax.s *: 1%:M)
    (DetMax.y_con x y).
Proof. by []. Qed.

(* ---------------------------------------------------------------------- *)
(*  26c. What the SVD handlers return                                      *)
(* ---------------------------------------------------------------------- *)

(* np.linalg.inv(np.diag(s_mat)) raises as soon as one entry of s_mat is
   zero, whatever the routine returned otherwise.                          *)
Lemma svd_handler_zero (svd : svd_fun) n (M : 'M[R]_n) (T : Type)
    (F : 'M[R]_n -> 'rV[R]_n -> 'M[R]_n -> 'M[R]_n -> T) :
  (exists i, (svd _ M).1.2 0 i = 0) ->
  (let '(u, s_mat, vt) := svd _ M in
   S_inv <- inv (diag_mx s_mat) ;; Ok (F u s_mat vt S_inv)) =
  Raise (LinAlgError SingularMatrix).
Proof.
case: (svd _ M) => [[u sv] vt] /= [i si0].
rewrite /inv diag_unitmx.
have -> : [forall i, sv 0 i != 0] = false.
  by apply/negbTE; rewrite negb_forall; apply/existsP; exists i; rewrite si0 eqxx.
by [].
Qed.

Section DetObjective.

Variable svd : svd_fun.
Variable m : nat.
Variable M : 'M[R]_m.
Variable y_con : 'rV[R]_m.

Lemma det_objective_fallback e : cholesky M = Raise e ->
  det_objective svd M y_con =
  (let '(u, s_mat, vt) := svd M in
   S_inv <- inv (diag_mx s_mat) ;;
   Ok (\prod_i (vdot (y_con *m (vt^T *m S_inv *m u^T)) y_con * s_mat 0 i))).
Proof. by move=> cM; rewrite /det_objective cM bind_Raise try_except_Raise. Qed.

(* On the SVD path the value is q^m |det M|, with q = y^T M^-1 y; the
   Cholesky path gives det(q M) = q^m det M.                              *)
Lemma det_objective_svd e :
  cholesky M = Raise e -> is_svd M (svd M) -> M \in unitmx ->
  det_objective svd M y_con =
  Ok (vdot (y_con *m invmx M) y_con ^+ m * Rabs (\det M)).
Proof.
move=> cM svdM uM; rewrite (det_objective_fallback cM).
case E: (svd M) svdM => [[u sv] vt] svdE /=.
have uS : diag_mx sv \in unitmx by rewrite -(svd_unitmx svdE).
rewrite /inv uS bind_Ok (svd_inverse svdE) // big_split /=.
by rewrite prodr_const card_ord (svd_absdet svdE).
Qed.

Lemma det_objective_singular e :
  cholesky M = Raise e -> (exists i, (svd M).1.2 0 i = 0) ->
  det_objective svd M y_con = Raise (LinAlgError SingularMatrix).
Proof.
move=> cM z; rewrite (det_objective_fallback cM).
exact: (svd_handler_zero (fun u s_mat vt S_inv =>
  \prod_i (vdot (y_con *m (vt^T *m S_inv *m u^T)) y_con * s_mat 0 i)) z).
Qed.

(* The handler can only end with the LinAlgError of np.linalg.inv.          *)
Lemma det_objective_npd : ~~ surfaces_npd (det_objective svd M y_con).
Proof.
apply: try_except_npd.
exact: (svd_handler_npd svd M (fun u s_mat vt S_inv =>
  \prod_i (vdot (y_con *m (vt^T *m S_inv *m u^T)) y_con * s_mat 0 i))).
Qed.

End DetObjective.

(* The inversion pattern of the log-likelihood block objectives: whichever
   path is taken, an invertible symmetric matrix comes with its inverse
   and log|det|.                                                           *)
Lemma logdet_inversion (svd : svd_fun) n (M : 'M[R]_n) :
  M^T = M -> M \in unitmx -> returns (cholesky M) \/ is_svd M (svd _ M) ->
  try_except
    (L <- cholesky M ;;
     L_inv <- solve_triangular L 1%:M ;;
     Ok (L_inv^T *m L_inv, 2%Re * \sum_i ln (Rabs ((diag_of L) 0 i))))
    (let '(u, s_mat, vt) := svd _ M in
     S_inv <- inv (diag_mx s_mat) ;;
     Ok (vt^T *m S_inv *m u^T, \sum_i ln (s_mat 0 i))) =
  Ok (invmx M, ln (Rabs (\det M))).
Proof.
move=> symM uM; case cM: (cholesky M) => [L|e] svdM.
  have [_ sL Minv] := cholesky_inverse symM cM.
  have [d0 lnM] := cholesky_logdet symM cM.
  have -> : Rabs (\det M) = \det M by apply: Rabs_right; apply/Rle_ge/Rlt_le.
  rewrite bind_Ok sL bind_Ok /= Minv lnM; congr (Ok (_, _)); congr (_ * _).
  by apply: eq_bigr => i _; rewrite mxE.
case: svdM => // svdM; rewrite bind_Raise try_except_Raise.
rewrite (svd_branch_inverse svdM (fun _ s_mat _ => \sum_i ln (s_mat 0 i))) //.
by rewrite svd_logdet.
Qed.

Section BlockObjectiveValue.

Variable svd : svd_fun.
Variable n : nat.
Variables A B C : 'M[R]_n.
Variables y_u y_f : 'rV[R]_n.

Let S := C - B^T *m invmx A *m B.
Let K := block_mx A B B^T C.
Let yc := row_mx y_u y_f.

(* y^T K^-1 y + log|det K| on every combination of paths.                  *)
Lemma block_objective_value :
  A^T = A -> C^T = C -> A \in unitmx -> S \in unitmx ->
  returns (cholesky A) \/ is_svd A (svd A) ->
  returns (cholesky S) \/ is_svd S (svd S) ->
  block_objective svd A B C y_u y_f =
  Ok (vdot (yc *m invmx K) yc + ln (Rabs (\det K))).
Proof.
move=> symA symC uA uS svdA svdS.
have symS : S^T = S by apply: schur_sym.
rewrite /block_objective (logdet_inversion symA uA svdA) bind_Ok /= -/S.
rewrite (logdet_inversion symS uS svdS) bind_Ok /=.
rewrite /yc /K (@invmx_block_sym _ A B C symA symC uA uS) block_quadratic_form.
rewrite det_block_schur // -/S -addrA; congr (Ok (_ + _)).
toR; rewrite Rabs_mult ln_mult //; apply: Rabs_pos_lt; apply/Rneq0P;
  by rewrite -unitfE -unitmxE.
Qed.

End BlockObjectiveValue.

(* ---------------------------------------------------------------------- *)
(*  26d. The SVD objective at small and at vanishing singular values       *)
(* ---------------------------------------------------------------------- *)

Section NlmlSvdOutcome.

Variable svd : svd_fun.
Variable m : nat.
Variable params : 'rV[R]_4.
Variables x y y1 y2 : 'rV[R]_m.
Variable s : R.

Let K := NlmlSvd.joint_K params x y s.
Let yv := row_mx y1 y2.

(* No contract of the routine is needed for the failure: a zero among the
   values it returns is enough.                                            *)
Lemma NlmlSvd_nlml_svd_zero :
  (exists i, (svd K).1.2 0 i = 0) ->
  NlmlSvd.nlml_svd svd params x y y1 y2 s = Raise (LinAlgError SingularMatrix).
Proof.
rewrite /NlmlSvd.nlml_svd -/K.
case: (svd K) => [[u sv] vt] /= [i si0].
rewrite /inv diag_unitmx.
have -> : [forall i, sv 0 i != 0] = false.
  by apply/negbTE; rewrite negb_forall; apply/existsP; exists i; rewrite si0 eqxx.
by [].
Qed.

(* ... and with no zero among them the objective returns the number it
   computes from them, however small they are.                             *)
Lemma NlmlSvd_nlml_svd_nonzero :
  (forall i, (svd K).1.2 0 i <> 0) ->
  NlmlSvd.nlml_svd svd params x y y1 y2 s =
  Ok (\sum_i ln (Rabs ((svd K).1.2 0 i))
      + (yv *m ((svd K).2^T *m invmx (diag_mx (svd K).1.2) *m (svd K).1.1^T)
            *m yv^T) 0 0).
Proof.
rewrite /NlmlSvd.nlml_svd -/K -/yv.
case: (svd K) => [[u sv] vt] /= s0.
rewrite /inv diag_unitmx.
have -> : [forall i, sv 0 i != 0] by apply/forallP => i; apply/Rneq0P.
by rewrite bind_Ok for_range_sum add0r mxE [_%:M 0 0]mxE eqxx mulr1n.
Qed.

End NlmlSvdOutcome.

Lemma inv_and_logsum_zero (svd : svd_fun) m (M : 'M[R]_m) e :
  cholesky M = Raise e -> (exists i, (svd _ M).1.2 0 i = 0) ->
  AdvDiff.inv_and_logsum svd M = Raise (LinAlgError SingularMatrix).
Proof.
move=> cM z; rewrite (inv_and_logsum_fallback _ cM).
exact: (svd_handler_zero (fun u s_mat vt S_inv =>
  (vt^T *m S_inv *m u^T,
   for_range (fun i log_sum => log_sum + ln (s_mat 0 i)) 0%Re)) z).
Qed.

(* The singular values of a diagonal matrix are bounded by its largest
   entry, in every decomposition of it.                                    *)
Lemma svd_diag_bound n (d : 'rV[R]_n) (r : svd_result n) (c : R) :
  is_svd (diag_mx d) r -> Rle 0%Re c ->
  (forall k, Rle (d 0 k * d 0 k) (c * c)) ->
  forall i, Rle (r.1.2 0 i) c.
Proof.
case: r => [[u sv] vt] /= [uu vv s0 KE] c0 dc i.
have DD : vt *m (diag_mx d)^T *m diag_mx d *m vt^T = diag_mx sv *m diag_mx sv.
  rewrite {1 2}KE !trmx_mul tr_diag_mx !mulmxA vv mul1mx.
  rewrite -[diag_mx sv *m u^T *m u]mulmxA uu mulmx1.
  by rewrite -[_ *m vt *m vt^T]mulmxA vv mulmx1.
have /(congr1 (fun A : 'M[R]_n => A i i)) := DD.
rewrite tr_diag_mx -[vt *m _ *m _]mulmxA !mulmx_diag mul_mx_diag.
rewrite [RHS]mxE eqxx mulr1n [in RHS]mxE mxE.
have -> : \sum_k (\matrix_(i0, j) (vt i0 j * (\row_j0 (d 0 j0 * d 0 j0)) 0 j)) i k
                 * vt^T k i =
          \sum_k vt i k * vt i k * (d 0 k * d 0 k).
  by apply: eq_bigr => k _; rewrite !mxE; toR; ring.
move=> sq.
have one : \sum_k vt i k * vt i k = 1.
  by have /(congr1 (fun A : 'M[R]_n => A i i)) := vv;
     rewrite !mxE eqxx mulr1n => <-; apply: eq_bigr => k _; rewrite mxE.
have le : Rle (\sum_k vt i k * vt i k * (d 0 k * d 0 k))%R
              (\sum_k vt i k * vt i k * (c * c))%R.
  elim/big_ind2: _ => [|a1 a2 b1 b2 h1 h2|k _]; first by toR; lra.
    by toR; lra.
  by toR; apply: Rmult_le_compat_l; [nra | exact: dc].
rewrite -mulr_suml one mul1r in le.
have := s0 i; move: le; rewrite sq; toR => le si0.
by nra.
Qed.

(* One sample point at the origin, unit length scales, phi = 1 and signal
   variance exp(p0).                                                       *)
Lemma NlmlSvd_kernels_origin_sigma (sg : R) :
  [/\ NlmlSvd.kuu_fn 0 0 0 0 sg 1 1 = sg, NlmlSvd.kfu_fn 0 0 0 0 sg 1 1 1 = 0
    & NlmlSvd.kff_fn 0 0 0 0 sg 1 1 1 = (3 * sg)%Re].
Proof.
split.
- by rewrite /NlmlSvd.kuu_fn /NlmlSvd.lambdify7 /NlmlSvd.kuu_sym; kernel_at_origin.
- rewrite /NlmlSvd.kfu_fn /NlmlSvd.lambdify8 /NlmlSvd.kfu_sym /NlmlSvd.kuu_sym.
  by kernel_at_origin.
- rewrite /NlmlSvd.kff_fn /NlmlSvd.lambdify8 /NlmlSvd.kff_sym /NlmlSvd.kuu_sym.
  by kernel_at_origin.
Qed.

Lemma NlmlSvd_K_origin_sigma (p0 s : R) :
  NlmlSvd.joint_K (row_of [:: p0; 0%Re; 0%Re; 1%Re]) origin origin s =
  block_mx (Rtrigo_def.exp p0 + s)%:M 0 0 (3 * Rtrigo_def.exp p0 + s)%Re%:M.
Proof.
have [e0 e1 e2 e3] := item4 p0 0%Re 0%Re 1%Re.
have [euu efu eff] := NlmlSvd_kernels_origin_sigma (Rtrigo_def.exp p0).
rewrite /NlmlSvd.joint_K e0 e1 e2 e3 exp_0.
rewrite /NlmlSvd.kuf /NlmlSvd.kuu /NlmlSvd.kfu /NlmlSvd.kff.
rewrite !fill_pairwise1 !mxE euu efu eff !scalar_noise.
by rewrite -[0%:M]scalemx1 scale0r trmx0.
Qed.

Lemma exp_nat_ge (k : nat) : Rle (2 ^ k)%Re (Rtrigo_def.exp (INR k)).
Proof.
elim: k => [|k IH]; first by rewrite /= exp_0; lra.
rewrite S_INR exp_plus -tech_pow_Rmult.
have e1 := exp_ineq1_le 1; have p2 : (0 < 2 ^ k)%Re by apply: pow_lt; lra.
have ek := exp_pos (INR k).
by nra.
Qed.

(* ---------------------------------------------------------------------- *)
(*  26e. The Matern blocks of one sample point at small length scales      *)
(* ---------------------------------------------------------------------- *)

Lemma Matern_kuu_same_point (a b sg lx ly : R) :
  Matern.kuu_fn a a b b sg lx ly = sg.
Proof.
rewrite /Matern.kuu_fn /Matern.lambdify7 /Matern.kuu_sym /Matern.r_l; sp_compute.
have -> : ((a + -1 * a) ^ 2 * / lx ^ 1 + (b + -1 * b) ^ 2 * / ly ^ 1 = 0)%Re by ring.
by rewrite sqrt_0 !Rmult_0_r Rplus_0_r exp_0 /=; ring.
Qed.

(* The ff kernel on the shifted diagonal (second point moved by e in x and
   in y), for sigma = 1, phi = 0 and l_x = l_y = 2 e^2, where r_l = 1.      *)
Lemma Matern_kff_shifted (xi yi e : R) : (0 < e)%Re ->
  Matern.kff_fn xi (xi + e) yi (yi + e) 1 (2 * (e * e)) (2 * (e * e)) 0 =
  (Rtrigo_def.exp (- sqrt 5) *
   ((5 / 6) * (sqrt 5 - 3 / 2) / (e * e)
    + (25 / 12) * (17 / 4 - 11 / 4 * sqrt 5) / (e * e * e * e)))%Re.
Proof.
move=> e0; set l := (2 * (e * e))%Re; set w := sqrt 5.
rewrite /Matern.kff_fn /Matern.lambdify8 /Matern.kff_sym /Matern.kuu_sym.
rewrite /Matern.r_l; sp_compute.
have radE : ((xi + -1 * (xi + e)) ^ 2 * / l ^ 1
             + (yi + -1 * (yi + e)) ^ 2 * / l ^ 1 = 1)%Re.
  by rewrite /l; field; lra.
rewrite !radE sqrt_1 -/w.
have w2 : (w * w = 5)%Re by apply: sqrt_sqrt; lra.
have -> : (-1 * w * 1 = - w)%Re by ring.
set E := Rtrigo_def.exp _; rewrite /l.
by field [w2]; lra.
Qed.

(* With the notebook's shift corr_nan the diagonal entry of the ff block is
   negative there.                                                         *)
Lemma Matern_kff_shifted_neg (xi yi : R) :
  let l := (2 * (Matern.corr_nan * Matern.corr_nan))%Re in
  (Matern.kff_fn xi (xi + Matern.corr_nan) yi (yi + Matern.corr_nan) 1 l l 0
   < 0)%Re.
Proof.
move=> l; have e0 : (0 < Matern.corr_nan)%Re by rewrite /Matern.corr_nan; lra.
rewrite /l Matern_kff_shifted //.
set w := sqrt 5; set E := Rtrigo_def.exp _.
have E0 : (0 < E)%Re by apply: exp_pos.
have w2 : (w * w = 5)%Re by apply: sqrt_sqrt; lra.
have w0 : (0 <= w)%Re by apply: sqrt_pos.
have wl : (2 < w)%Re by nra.
have wu : (w < 3)%Re by nra.
set e := Matern.corr_nan in e0 *.
have e2 : (0 < e * e)%Re by apply: Rmult_lt_0_compat.
have e4 : (0 < e * e * e * e)%Re.
  by have := Rmult_lt_0_compat _ _ e2 e2; rewrite -!Rmult_assoc.
have -> : (5 / 6 * (w - 3 / 2) / (e * e)
           + 25 / 12 * (17 / 4 - 11 / 4 * w) / (e * e * e * e) =
           (5 / 6 * (w - 3 / 2) * (e * e) + 25 / 12 * (17 / 4 - 11 / 4 * w))
           * / (e * e * e * e))%Re by field; lra.
have num : (5 / 6 * (w - 3 / 2) * (e * e)
            + 25 / 12 * (17 / 4 - 11 / 4 * w) < 0)%Re.
  have : (e * e < 1)%Re by rewrite /e /Matern.corr_nan; lra.
  by nra.
have den := Rinv_0_lt_compat _ e4.
set N := (5 / 6 * (w - 3 / 2) * (e * e) + 25 / 12 * (17 / 4 - 11 / 4 * w))%Re
  in num *.
set D := (/ (e * e * e * e))%Re in den *.
have ND : (N * D < 0)%Re by nra.
by nra.
Qed.

Lemma Matern_blocks_single (x y : 'rV[R]_1) (sg lx ly ph : R) :
  [/\ Matern.kuu x y sg lx ly + Matern.s *: 1%:M = sg%:M,
      Matern.kfu x y sg lx ly ph =
      (Matern.kfu_fn (x 0 0) (x 0 0 + Matern.corr_nan)
                     (y 0 0) (y 0 0 + Matern.corr_nan) sg lx ly ph)%:M
    & Matern.kff x y sg lx ly ph + Matern.s *: 1%:M =
      (Matern.kff_fn (x 0 0) (x 0 0 + Matern.corr_nan)
                     (y 0 0) (y 0 0 + Matern.corr_nan) sg lx ly ph)%:M].
Proof.
split; rewrite ?Matern_noise_vanishes.
- by rewrite /Matern.kuu fill_pairwise1 Matern_kuu_same_point.
- by rewrite [LHS]mx11_scalar Matern_kfuE eqxx.
- by rewrite [LHS]mx11_scalar Matern_kffE eqxx.
Qed.

(* A negative 1 x 1 matrix: the factorization fails on it, it is
   invertible and it has a singular value decomposition.                   *)
Lemma negative_scalar (a : R) : (a < 0)%Re ->
  [/\ cholesky (a%:M : 'M[R]_1) = Raise (LinAlgError NotPositiveDefinite),
      is_svd (a%:M : 'M[R]_1) (svd_choice a%:M)
    & (a%:M : 'M[R]_1) \in unitmx].
Proof.
move=> a0; split.
- apply: (@cholesky_nonpos 0).
  by rewrite mxE eqxx mulr1n; lra.
- apply: (@svd_choiceP _ _ (1%:M, const_mx (- a)%Re, (-1)%Re%:M)).
  split; rewrite ?trmx1 ?mul1mx ?tr_scalar_mx -?scalar_mxM //.
  + by congr (_%:M); toR; ring.
  + by move=> i; rewrite mxE; lra.
  + have -> : diag_mx (const_mx (- a)%Re) = (- a)%Re%:M :> 'M[R]_1.
      by apply/matrixP => i j; rewrite !mxE.
    by rewrite -scalar_mxM; congr (_%:M); toR; ring.
- by rewrite unitmxE det_scalar1 unitfE; apply/Rneq0P; lra.
Qed.


(* ====================================================================== *)
(*  27. The properties of the specification                                *)
(* ====================================================================== *)

(** C1: the solver of the advection-diffusion notebooks evaluated on the
    joint matrix of one sample point at the origin (sigma = l_x = l_y =
    l_t = 1, a = b = c = d = 0, s = 1e-7), which is diag(1 + s, 1 + s).
    The matrix is symmetric and its Cholesky factorization succeeds, yet
    the value returned alongside the inverse is sum_i log|L_ii| =
    log(1 + s): half of log det M = 2 log(1 + s), which is what the SVD
    path of the same function yields for the same matrix. *)
Theorem C1_cholesky_path_returns_half_logdet (svd : svd_fun) :
  let M := AdvDiff.K origin origin origin 1 1 1 1 0 0 0 0 AdvDiff.s in
  [/\ M^T = M /\
      cholesky M = Ok (block_mx (sqrt (1 + AdvDiff.s))%:M 0 0
                                (sqrt (1 + AdvDiff.s))%:M),
      AdvDiff.K_inv_and_det origin origin origin svd 1 1 1 1 0 0 0 0 AdvDiff.s
      = Ok (invmx M, ln (1 + AdvDiff.s)),
      ln (\det M) = (2 * ln (1 + AdvDiff.s))%Re,
      (let '(u, s_mat, vt) := svd_choice M in
       S_inv <- inv (diag_mx s_mat) ;;
       Ok (vt^T *m S_inv *m u^T,
           for_range (fun i log_sum => log_sum + ln (s_mat 0 i)) 0%Re)) =
      Ok (invmx M, ln (\det M))
    & (ln (1 + AdvDiff.s) < ln (\det M))%Re].
Proof.
move=> M; have s0 := AdvDiff_s_pos.
have a0 : (0 < 1 + AdvDiff.s)%Re by toR; lra.
have symM : M^T = M by apply: AdvDiff_symK.
have cM := cholesky_diag2 a0 a0; rewrite -AdvDiff_K_origin -/M in cM.
have dM : \det M = (1 + AdvDiff.s) * (1 + AdvDiff.s).
  by rewrite /M AdvDiff_K_origin det_diag2.
have lnM : ln (\det M) = (2 * ln (1 + AdvDiff.s))%Re.
  by rewrite dM -[_ * _]/(Rmult _ _) ln_mult //; toR; lra.
have [_ half] := cholesky_logdet symM cM.
have l0 : (0 < ln (1 + AdvDiff.s))%Re.
  by rewrite -ln_1; apply: ln_increasing; toR; lra.
split=> //.
- rewrite /AdvDiff.K_inv_and_det -/M (inv_and_logsum_cholesky svd symM cM).
  by congr (Ok (_, _)); move: half; rewrite lnM; toR; lra.
- have [_ _] := svd_path_diag2 a0 a0; rewrite -AdvDiff_K_origin -/M => ->.
  by rewrite dM.
- by rewrite lnM; toR; lra.
Qed.

(** C2: the plain objective [nlml] of the SVD notebook evaluated at one
    sample point at the origin, params = (0, 0, 0, 1), s = 1e-7, for any
    two observed values.  K = diag(1 + s, 3 + s) is invertible, and the
    value returned is sign(det K) + y^T K^-1 y = 1 + y^T K^-1 y: item(0)
    of the broadcast sum picks the sign that slogdet returns, not the
    logarithm.  log det K + y^T K^-1 y, which [nlml_svd] returns at the
    same input, is strictly larger. *)
Theorem C2_nlml_returns_sign_plus_quadratic_form (y1 y2 : 'rV[R]_1) :
  let params := row_of [:: 0%Re; 0%Re; 0%Re; 1%Re] in
  let K := NlmlSvd.joint_K params origin origin 1e-7%Re in
  let q := NlmlSvd_quad params origin origin y1 y2 1e-7%Re in
  [/\ K \in unitmx,
      q = vdot (row_mx y1 y2 *m invmx K) (row_mx y1 y2),
      NlmlSvd.nlml params origin origin y1 y2 1e-7%Re = Ok (1 + q),
      NlmlSvd.nlml_svd svd_choice params origin origin y1 y2 1e-7%Re =
      Ok (ln (\det K) + q)
    & (1 + q < ln (\det K) + q)%Re].
Proof.
move=> params K q.
have a0 : (0 < 1 + 1e-7)%Re by lra.
have b0 : (0 < 3 + 1e-7)%Re by lra.
have KE : K = block_mx (1 + 1e-7%Re)%:M 0 0 (3%Re + 1e-7%Re)%:M.
  exact: NlmlSvd_K_origin.
have dK : \det K = ((1 + 1e-7) * (3 + 1e-7))%Re by rewrite KE det_diag2.
have [uK svdK _] := svd_path_diag2 a0 b0; rewrite -KE in uK svdK.
have d3 : (3 < \det K)%Re by rewrite dK; lra.
have ln1 : (1 < ln (\det K))%Re.
  rewrite -[X in (X < _)%Re]ln_exp; apply: ln_increasing; first exact: exp_pos.
  by have := exp_le_3; lra.
split=> //.
- rewrite (NlmlSvd_nlml_value y1 y2 uK) -/K /sign.
  by case: Rlt_dec => // nd; case: nd; lra.
- rewrite (NlmlSvd_nlml_svd_value y1 y2 svdK uK) -/K Rabs_right //; lra.
- by toR; lra.
Qed.

(** C3: block (Schur-complement) inversion and whole-matrix inversion of
    the same joint covariance matrix agree: for every hyperparameter
    vector at which all Cholesky factorizations succeed (of K, of A and of
    the Schur complement KA), [nlml] and [nlml_block] of the
    determinant-form notebook return the same value, det((y^T K^-1 y) K),
    over exact real arithmetic. *)
Theorem C3_nlml_block_agrees n (x y : 'rV[R]_n) (svd : svd_fun)
    (params : 'rV[R]_3) :
  let l_x := Rtrigo_def.exp (item params 0) in
  let l_y := Rtrigo_def.exp (item params 1) in
  let phi := item params 2 in
  let A := DetMax.kuu x y l_x l_y + DetMax.s *: 1%:M in
  let B := (DetMax.kfu x y l_x l_y phi)^T in
  let C := DetMax.kff x y l_x l_y phi + DetMax.s *: 1%:M in
  returns (cholesky (DetMax.K x y l_x l_y phi)) ->
  returns (cholesky A) ->
  returns (cholesky (C - B^T *m invmx A *m B)) ->
  DetMax.nlml x y svd params = DetMax.nlml_block x y svd params /\
  DetMax.nlml x y svd params = Ok (DetMax_val x y l_x l_y phi).
Proof.
move=> l_x l_y phi A B C cK cA cS.
rewrite (@DetMax_nlml_cholesky _ x y svd l_x l_y phi) //.
by rewrite (@DetMax_nlml_block_cholesky _ x y svd l_x l_y phi).
Qed.

Lemma C3_witness :
  let x := unit_abscissa in
  let y := origin in
  let params := row_of [:: 0%Re; 0%Re; 2%Re] in
  [/\ (DetMax.kfu x y 1 1 2%Re)^T = 1%:M,
      DetMax.y_con x y = row_mx 1%:M 4%Re%:M,
      DetMax.nlml x y svd_choice params = DetMax.nlml_block x y svd_choice params,
      DetMax.nlml x y svd_choice params = Ok (DetMax_val x y 1 1 2%Re)
    & DetMax_val x y 1 1 2%Re <> 0].
Proof.
move=> x y params.
have [e0 e1 e2] := item3 0%Re 0%Re 2%Re.
have [eA eB eC] := DetMax_blocks_single_phi2 x y.
have [eu ef] := DetMax_data_unit_abscissa.
have s0 := DetMax_s_pos.
have a0 : (0 < 1 + DetMax.s)%Re by toR; lra.
have S0 : (0 < 4 + DetMax.s - 1 * 1 / (1 + DetMax.s))%Re.
  have : (/ (1 + DetMax.s) < / 1)%Re by apply: Rinv_lt_contravar; toR; lra.
  by rewrite Rinv_1; toR; lra.
have KE : DetMax.K x y 1 1 2%Re =
          block_mx (1 + DetMax.s)%:M 1%:M 1%:M (4%Re + DetMax.s)%:M.
  by rewrite /DetMax.K /DetMax.kuf eA eB eC tr_scalar_mx.
have SE : (4%Re + DetMax.s)%:M
          - (1%:M : 'M[R]_1)^T *m invmx (1 + DetMax.s)%:M *m 1%:M =
          (4 + DetMax.s - 1 * 1 / (1 + DetMax.s))%Re%:M :> 'M[R]_1.
  rewrite trmx1 mul1mx mulmx1 invmx_scalar -raddfB /=; congr (_%:M).
  by toR; field; lra.
have uA : ((1 + DetMax.s)%:M : 'M[R]_1) \in unitmx.
  by rewrite unitmxE det_scalar1 unitfE; apply: Rlt0_neq0.
have uS : ((4 + DetMax.s - 1 * 1 / (1 + DetMax.s))%Re%:M : 'M[R]_1) \in unitmx.
  by rewrite unitmxE det_scalar1 unitfE; apply: Rlt0_neq0.
have [agree value] : 
  DetMax.nlml x y svd_choice params = DetMax.nlml_block x y svd_choice params /\
  DetMax.nlml x y svd_choice params = Ok (DetMax_val x y 1 1 2%Re).
  have := @C3_nlml_block_agrees _ x y svd_choice params.
  lazy zeta; rewrite e0 e1 e2 exp_0 eA eB eC KE tr_scalar_mx SE; apply.
  - exact: cholesky_block2.
  - by rewrite cholesky_scalar.
  - by rewrite cholesky_scalar.
split=> //; first by rewrite eB tr_scalar_mx.
  by rewrite /DetMax.y_con eu ef.
have [] := @DetMax_schur_blocks _ x y 1 1 2%Re.
- by rewrite eA.
- by rewrite eA eB eC tr_scalar_mx SE.
move=> _ qE dets; rewrite /DetMax_val -dets eA eB eC tr_scalar_mx SE.
move: qE; rewrite eA eB eC tr_scalar_mx SE eu ef !invmx_scalar => qE.
rewrite !detZ !det_scalar1 !expr1.
set q := DetMax_quad _ _ _ _ _ in qE *.
have q0 : (0 < q)%Re.
  rewrite qE /vdot !(mxE, big_ord1) /= ?mulr1n; toR.
  set a := (1 + DetMax.s)%Re in a0 S0 *.
  set S := (4 + DetMax.s - 1 * 1 / a)%Re in S0 *.
  have eS : (a * S = (4 + DetMax.s) * a - 1)%Re by rewrite /S; field; lra.
  clearbody S.
  match goal with |- (0 < ?e)%Re =>
    have -> : e = ((a * S + 1 - 8 * a + 16 * (a * a)) * / (a * a * S))%Re
      by field; lra
  end.
  apply: Rmult_lt_0_compat; last first.
    by apply: Rinv_0_lt_compat; repeat apply: Rmult_lt_0_compat.
  by rewrite eS /a; nra.
apply/Rneq0P/Rlt0_neq0; toR.
by repeat apply: Rmult_lt_0_compat.
Defined.



(** C5: every assembled joint covariance matrix is symmetric: for all
    sample coordinates and (positive) length scales, the uu block produced
    by [kuu] and the ff block produced by [kff] are symmetric, entry
    (i, j) equals entry (j, i); the uf block is exactly the transpose of
    the fu block; so K = K^T.  The joint matrices of the
    advection-diffusion and SVD notebooks are symmetric as well. *)
Theorem C5_joint_covariance_symmetric n (x y : 'rV[R]_n) (l_x l_y phi : R) :
  (0 < l_x)%Re -> (0 < l_y)%Re ->
  [/\ forall i j, DetMax.kuu x y l_x l_y i j = DetMax.kuu x y l_x l_y j i,
      forall i j, DetMax.kff x y l_x l_y phi i j = DetMax.kff x y l_x l_y phi j i,
      DetMax.kuf x y l_x l_y phi = (DetMax.kfu x y l_x l_y phi)^T,
      (DetMax.K x y l_x l_y phi)^T = DetMax.K x y l_x l_y phi
    & (forall t sigma l_t a b c d s,
         (AdvDiff.K x y t sigma l_x l_y l_t a b c d s)^T =
         AdvDiff.K x y t sigma l_x l_y l_t a b c d s) /\
      (forall p4 s, (NlmlSvd.joint_K p4 x y s)^T = NlmlSvd.joint_K p4 x y s)].
Proof.
move=> _ _; split=> [i j|i j|||] //.
- by rewrite -{1}(DetMax.kuu_sym_mx x y l_x l_y) mxE.
- by rewrite -{1}(DetMax.kff_sym_mx x y l_x l_y phi) mxE.
- exact: DetMax_symK.
- split=> [t sigma l_t a b c d s|p4 s]; first exact: AdvDiff_symK.
  exact: NlmlSvd_symK.
Qed.

Lemma C5_witness :
  [/\ forall i j, DetMax.kuu origin origin 1%Re 1%Re i j =
                  DetMax.kuu origin origin 1%Re 1%Re j i,
      forall i j, DetMax.kff origin origin 1%Re 1%Re 2%Re i j =
                  DetMax.kff origin origin 1%Re 1%Re 2%Re j i,
      DetMax.kuf origin origin 1%Re 1%Re 2%Re =
      (DetMax.kfu origin origin 1%Re 1%Re 2%Re)^T,
      (DetMax.K origin origin 1%Re 1%Re 2%Re)^T =
      DetMax.K origin origin 1%Re 1%Re 2%Re
    & (forall t sigma l_t a b c d s,
         (AdvDiff.K origin origin t sigma 1%Re 1%Re l_t a b c d s)^T =
         AdvDiff.K origin origin t sigma 1%Re 1%Re l_t a b c d s) /\
      (forall p4 s, (NlmlSvd.joint_K p4 origin origin s)^T =
                    NlmlSvd.joint_K p4 origin origin s)].
Proof. by apply: C5_joint_covariance_symmetric; lra. Defined.



(** C7: in the Matern-kernel evaluator, for every pair of indices, the
    operator-derived kernels [kff] and [kfu] are evaluated at the exact
    sample coordinates whenever i differs from j; only at diagonal entries
    (i = j) is the second point shifted by corr_nan = 1e-4, in both its x
    and its y coordinate. *)
Theorem C7_matern_diagonal_shift m (x y : 'rV[R]_m) (sigma l_x l_y phi : R)
    (i j : 'I_m) :
  [/\ Matern.corr_nan = 1e-4%Re,
      Matern.kff x y sigma l_x l_y phi i j =
      (if i == j then
         Matern.kff_fn (x 0 i) (x 0 j + Matern.corr_nan)
                       (y 0 i) (y 0 j + Matern.corr_nan) sigma l_x l_y phi
       else Matern.kff_fn (x 0 i) (x 0 j) (y 0 i) (y 0 j) sigma l_x l_y phi)
    & Matern.kfu x y sigma l_x l_y phi i j =
      (if i == j then
         Matern.kfu_fn (x 0 i) (x 0 j + Matern.corr_nan)
                       (y 0 i) (y 0 j + Matern.corr_nan) sigma l_x l_y phi
       else Matern.kfu_fn (x 0 i) (x 0 j) (y 0 i) (y 0 j) sigma l_x l_y phi)].
Proof. by split; [| exact: Matern_kffE | exact: Matern_kfuE]. Qed.

(** C8: for every input matrix M on which the Cholesky factorization
    raises the not-positive-definite LinAlgError, the failure is caught
    and the solver returns what its SVD path computes.  When M is
    invertible and np.linalg.svd returns a decomposition of it, that is:
    [K_inv_and_det] of the advection-diffusion notebooks returns
    (M^-1, log|det M|), [nlml] of the determinant-form notebook returns
    (y^T M^-1 y)^m |det M|, and the block objective [nlml] of the Matern
    and 3D notebooks returns y^T K^-1 y + log|det K|, whether the failure
    occurs on the block A or on the Schur complement.  No solver and no
    NLML evaluation ever ends with the LinAlgError of a failed
    factorization. *)
Theorem C8_cholesky_failure_recovered (svd : svd_fun) :
  [/\ forall m (M : 'M[R]_m) (y_con : 'rV[R]_m),
        cholesky M = Raise (LinAlgError NotPositiveDefinite) ->
        AdvDiff.inv_and_logsum svd M =
        (let '(u, s_mat, vt) := svd _ M in
         S_inv <- inv (diag_mx s_mat) ;;
         Ok (vt^T *m S_inv *m u^T,
             for_range (fun i log_sum => log_sum + ln (s_mat 0 i)) 0%Re)) /\
        det_objective svd M y_con =
        (let '(u, s_mat, vt) := svd _ M in
         S_inv <- inv (diag_mx s_mat) ;;
         Ok (\prod_i (vdot (y_con *m (vt^T *m S_inv *m u^T)) y_con
                      * s_mat 0 i))),
      forall m (M : 'M[R]_m),
        cholesky M = Raise (LinAlgError NotPositiveDefinite) ->
        is_svd M (svd _ M) -> M \in unitmx ->
        [/\ AdvDiff.inv_and_logsum svd M = Ok (invmx M, ln (Rabs (\det M))),
            forall y_con : 'rV[R]_m,
              det_objective svd M y_con =
              Ok (vdot (y_con *m invmx M) y_con ^+ m * Rabs (\det M)),
            forall (B C : 'M[R]_m) (y_u y_f : 'rV[R]_m),
              let S := C - B^T *m invmx M *m B in
              let K := block_mx M B B^T C in
              let yc := row_mx y_u y_f in
              M^T = M -> C^T = C -> S \in unitmx -> is_svd S (svd _ S) ->
              block_objective svd M B C y_u y_f =
              Ok (vdot (yc *m invmx K) yc + ln (Rabs (\det K)))
          & forall (A B C : 'M[R]_m) (y_u y_f : 'rV[R]_m),
              let K := block_mx A B B^T C in
              let yc := row_mx y_u y_f in
              A^T = A -> C^T = C -> returns (cholesky A) ->
              C - B^T *m invmx A *m B = M ->
              block_objective svd A B C y_u y_f =
              Ok (vdot (yc *m invmx K) yc + ln (Rabs (\det K)))],
      [/\ forall n (x y t : 'rV[R]_n) sigma l_x l_y l_t a b c d s,
            AdvDiff.K_inv_and_det x y t svd sigma l_x l_y l_t a b c d s =
            AdvDiff.inv_and_logsum svd
              (AdvDiff.K x y t sigma l_x l_y l_t a b c d s),
          forall n (x y : 'rV[R]_n) (p3 : 'rV[R]_3),
            DetMax.nlml x y svd p3 =
            det_objective svd
              (DetMax.K x y (Rtrigo_def.exp (item p3 0))
                 (Rtrigo_def.exp (item p3 1)) (item p3 2))
              (DetMax.y_con x y),
          forall n (x y t : 'rV[R]_n) (p5 : 'rV[R]_5),
            Example3D.nlml x y t svd p5 =
            block_objective svd
              (Example3D.kuu x y t (Rtrigo_def.exp (item p5 0))
                 (Rtrigo_def.exp (item p5 1)) (Rtrigo_def.exp (item p5 2))
                 (Rtrigo_def.exp (item p5 3)) + Example3D.s *: 1%:M)
              (Example3D.kfu x y t (Rtrigo_def.exp (item p5 0))
                 (Rtrigo_def.exp (item p5 1)) (Rtrigo_def.exp (item p5 2))
                 (Rtrigo_def.exp (item p5 3)) (item p5 4))^T
              (Example3D.kff x y t (Rtrigo_def.exp (item p5 0))
                 (Rtrigo_def.exp (item p5 1)) (Rtrigo_def.exp (item p5 2))
                 (Rtrigo_def.exp (item p5 3)) (item p5 4)
               + Example3D.s *: 1%:M)
              (Example3D.y_u x y t) (Example3D.y_f n)
        & forall n (x y : 'rV[R]_n) (p4 : 'rV[R]_4),
            Matern.nlml x y svd p4 =
            block_objective svd
              (Matern.kuu x y (Rtrigo_def.exp (item p4 0))
                 (Rtrigo_def.exp (item p4 1)) (Rtrigo_def.exp (item p4 2))
               + Matern.s *: 1%:M)
              (Matern.kfu x y (Rtrigo_def.exp (item p4 0))
                 (Rtrigo_def.exp (item p4 1)) (Rtrigo_def.exp (item p4 2))
                 (item p4 3))^T
              (Matern.kff x y (Rtrigo_def.exp (item p4 0))
                 (Rtrigo_def.exp (item p4 1)) (Rtrigo_def.exp (item p4 2))
                 (item p4 3) + Matern.s *: 1%:M)
              (Matern.y_u x y) (Matern.y_f x y)],
      forall m (M B C : 'M[R]_m) (y_con y_u y_f : 'rV[R]_m),
        [/\ ~~ surfaces_npd (AdvDiff.inv_and_logsum svd M),
            ~~ surfaces_npd (det_objective svd M y_con)
          & ~~ surfaces_npd (block_objective svd M B C y_u y_f)]
    & forall n (x y t y_u y_f : 'rV[R]_n) p8 p6 p5 p3 p4,
        [/\ ~~ surfaces_npd (AdvDiff.nlml x y t svd y_u y_f p8),
            ~~ surfaces_npd (AdvDiff.Synthetic.nlml x y t svd p6),
            ~~ surfaces_npd (Example3D.nlml x y t svd p5),
            ~~ surfaces_npd (DetMax.nlml x y svd p3)
          & ~~ surfaces_npd (Matern.nlml x y svd p4)]].
Proof.
split.
- move=> m M y_con cM; split; first exact: inv_and_logsum_fallback cM.
  exact: det_objective_fallback cM.
- move=> m M cM svdM uM; split.
  + exact: inv_and_logsum_svd cM svdM uM.
  + by move=> y_con; apply: det_objective_svd cM svdM uM.
  + move=> B C y_u y_f S K yc symM symC uS svdS.
    by apply: block_objective_value => //; right.
  + move=> A B C y_u y_f K yc symA symC cA SE.
    have uA : A \in unitmx.
      case cAE: (cholesky A) cA => [L|] // _.
      by have [] := cholesky_inverse symA cAE.
    by apply: block_objective_value; rewrite ?SE //; [left | right].
- by [].
- move=> m M B C y_con y_u y_f; split.
  + exact: inv_and_logsum_npd.
  + exact: (det_objective_npd svd M y_con).
  + exact: block_objective_npd.
- move=> n x y t y_u y_f p8 p6 p5 p3 p4; split.
  + exact: AdvDiff_nlml_npd.
  + exact: Synthetic_nlml_npd.
  + by rewrite Example3D_nlmlE; apply: block_objective_npd.
  + exact: DetMax_nlml_npd.
  + by rewrite Matern_nlmlE; apply: block_objective_npd.
Qed.

(* Four inputs on which the factorization fails and the SVD path returns:
   the joint matrix of the advection-diffusion notebooks for one sample
   point and s = -2, which is -I, handed to [K_inv_and_det], to the body of
   the determinant-form [nlml] and, as block A, to the block objective; and
   the Matern notebook itself at one sample point x = 1, y = 0 with
   params = (0, log l, log l, 0), l = 2 corr_nan^2, where the shifted
   diagonal entry of the ff block is negative, so that the factorization of
   A returns and that of the Schur complement fails.                       *)
Lemma C8_witness :
  let M := AdvDiff.K origin origin origin 1 1 1 1 0 0 0 0 (-2)%Re in
  let I : 'M[R]_(1 + 1) := 1%:M in
  let l := (2 * (Matern.corr_nan * Matern.corr_nan))%Re in
  let p4 := row_of [:: 0%Re; ln l; ln l; 0%Re] in
  let x := unit_abscissa in
  let y := origin in
  let A := Matern.kuu x y 1 l l + Matern.s *: 1%:M in
  let B := (Matern.kfu x y 1 l l 0)^T in
  let C := Matern.kff x y 1 l l 0 + Matern.s *: 1%:M in
  let yc := row_mx (Matern.y_u x y) (Matern.y_f x y) in
  [/\ cholesky M = Raise (LinAlgError NotPositiveDefinite),
      AdvDiff.K_inv_and_det origin origin origin svd_choice
        1 1 1 1 0 0 0 0 (-2)%Re = Ok (invmx M, ln (Rabs (\det M))),
      forall y_con : 'rV[R]_(1 + 1),
        det_objective svd_choice M y_con =
        Ok (vdot (y_con *m invmx M) y_con ^+ (1 + 1) * Rabs (\det M)),
      forall y_u y_f : 'rV[R]_(1 + 1),
        block_objective svd_choice M I I y_u y_f =
        Ok (vdot (row_mx y_u y_f *m invmx (block_mx M I I^T I))
                 (row_mx y_u y_f)
            + ln (Rabs (\det (block_mx M I I^T I))))
    & [/\ returns (cholesky A),
          cholesky (C - B^T *m invmx A *m B) =
          Raise (LinAlgError NotPositiveDefinite)
        & Matern.nlml x y svd_choice p4 =
          Ok (vdot (yc *m invmx (block_mx A B B^T C)) yc
              + ln (Rabs (\det (block_mx A B B^T C))))]].
Proof.
move=> M I l p4 x y A B C yc.
have ME : M = (-1)%Re%:M.
  by rewrite /M AdvDiff_K_origin -scalar_mx_block; congr (_%:M); toR; ring.
have cM : cholesky M = Raise (LinAlgError NotPositiveDefinite).
  rewrite /M AdvDiff_K_origin; apply: cholesky_nonpos.
  by rewrite block_mx00; toR; lra.
have svdM : is_svd M (svd_choice M).
  rewrite ME; apply: (@svd_choiceP _ _ (1%:M, const_mx 1, (-1)%Re%:M)).
  split; rewrite ?trmx1 ?mul1mx ?tr_scalar_mx -?scalar_mxM //.
  + by congr (_%:M); toR; ring.
  + by move=> i; rewrite mxE; toR; lra.
  + have -> : diag_mx (const_mx 1) = 1%:M :> 'M[R]_(1 + 1).
      by apply/matrixP => i j; rewrite !mxE.
    by rewrite mul1mx.
have uM : M \in unitmx.
  rewrite ME unitmxE det_scalar unitfE; apply/Rneq0P.
  by rewrite Rexpn /=; toR; lra.
have symM : M^T = M by rewrite ME tr_scalar_mx.
have SE : I - I^T *m invmx M *m I = 2%Re%:M.
  rewrite /I trmx1 mul1mx mulmx1 ME invmx_scalar -raddfB /=; congr (_%:M).
  by toR; field.
have svdS : is_svd (2%Re%:M : 'M[R]_(1 + 1)) (svd_choice 2%Re%:M).
  apply: (@svd_choiceP _ _ (1%:M, const_mx 2%Re, 1%:M)).
  split; rewrite ?trmx1 ?mul1mx ?mulmx1 //.
  + by move=> i; rewrite mxE; lra.
  + by apply/matrixP => i j; rewrite !mxE.
have uS : (2%Re%:M : 'M[R]_(1 + 1)) \in unitmx.
  rewrite unitmxE det_scalar unitfE; apply/Rneq0P.
  by rewrite Rexpn /=; toR; lra.
have [_ values [_ _ _ tie] _ _] := C8_cholesky_failure_recovered svd_choice.
have [r1 r2 r3 _] := values _ M cM svdM uM.
split=> // [y_u y_f|]; first by apply: r3; rewrite ?SE ?trmx1.
have l0 : (0 < l)%Re by rewrite /l /Matern.corr_nan; lra.
have [eA eB eC] := Matern_blocks_single x y 1 l l 0.
set b := Matern.kfu_fn _ _ _ _ _ _ _ _ in eB.
set c := Matern.kff_fn _ _ _ _ _ _ _ _ in eC.
have c0 : (c < 0)%Re by apply: Matern_kff_shifted_neg.
have cA : cholesky A = Ok (sqrt 1)%:M by rewrite /A eA cholesky_scalar //; lra.
have SchurE : C - B^T *m invmx A *m B = (c - b * b)%Re%:M.
  rewrite /A /B /C eA eB eC trmxK tr_scalar_mx invmx_scalar -!scalar_mxM.
  by rewrite -raddfB /=; congr (_%:M); toR; field.
have s0 : (c - b * b < 0)%Re by nra.
have [cS svdSc uSc] := negative_scalar s0.
have [_ _ _ r4] := values _ _ cS svdSc uSc.
split; rewrite ?cA ?SchurE //.
have [e0 e1 e2 e3] := item4 0%Re (ln l) (ln l) 0%Re.
rewrite tie e0 e1 e2 e3 exp_0 exp_ln // -/A -/B -/C.
apply: r4 => //; rewrite ?cA //.
- by rewrite /A eA tr_scalar_mx.
- by rewrite /C eC tr_scalar_mx.
Defined.

(** C9, as stated, at the SVD objective [nlml_svd] with l_x = l_y = 1 and
    phi = 1, at three inputs.  First, small singular values: one sample
    point, params = (-100, 0, 0, 1) and s = 0, so K = diag(e^-100,
    3 e^-100); every singular value of every decomposition of K is at most
    3 e^-100 <= 3 / 2^100, the inversion succeeds and the objective
    returns the ordinary number log 3 - 200 + y^T K^-1 y, which is
    log 3 - 200 for vanishing observed values: no sentinel, and less than
    the log 3 it returns for the same data at params = (0, 0, 0, 1).
    Second, a vanishing singular value: a sample point listed twice with
    no noise added (x = y = (0, 0), params = (0, 0, 0, 1), s = 0), where K
    has two pairs of equal rows.  Third, one sample point with s = -1,
    where K = diag(0, 2).  In the last two cases K is singular, the routine
    returns a genuine singular value decomposition of it, and whatever the
    observed values the objective ends with the LinAlgError that
    np.linalg.inv raises; it returns no value at all. *)
Lemma C9_nlml_svd_returns_no_sentinel :
  let small := row_of [:: (-100)%Re; 0%Re; 0%Re; 1%Re] in
  let params := row_of [:: 0%Re; 0%Re; 0%Re; 1%Re] in
  let K0 := NlmlSvd.joint_K small origin origin 0 in
  let K := NlmlSvd.joint_K params twice_origin twice_origin 0 in
  let K1 := NlmlSvd.joint_K params origin origin (-1)%Re in
  [/\ [/\ is_svd K0 (svd_choice K0) /\ K0 \in unitmx,
          (forall i,
             Rle ((svd_choice K0).1.2 0 i) (3 * Rtrigo_def.exp (-100))) /\
          Rle (3 * Rtrigo_def.exp (-100)) (3 / 2 ^ 100),
          forall y1 y2 : 'rV[R]_1,
            NlmlSvd.nlml_svd svd_choice small origin origin y1 y2 0 =
            Ok ((ln 3 - 200)%Re + NlmlSvd_quad small origin origin y1 y2 0),
          NlmlSvd.nlml_svd svd_choice small origin origin origin origin 0 =
          Ok (ln 3 - 200)%Re
        & NlmlSvd.nlml_svd svd_choice params origin origin origin origin 0 =
          Ok (ln 3)],
      is_svd K (svd_choice K) /\ K \notin unitmx,
      forall y1 y2 : 'rV[R]_2,
        NlmlSvd.nlml_svd svd_choice params twice_origin twice_origin y1 y2 0
        = Raise (LinAlgError SingularMatrix) /\
        ~~ returns (NlmlSvd.nlml_svd svd_choice params twice_origin
                      twice_origin y1 y2 0),
      is_svd K1 (svd_choice K1) /\ K1 \notin unitmx
    & forall y1 y2 : 'rV[R]_1,
        NlmlSvd.nlml_svd svd_choice params origin origin y1 y2 (-1)%Re
        = Raise (LinAlgError SingularMatrix) /\
        ~~ returns (NlmlSvd.nlml_svd svd_choice params origin origin
                      y1 y2 (-1)%Re)].
Proof.
move=> small params K0 K K1.
have svdK : is_svd K (svd_choice K).
  rewrite /K NlmlSvd_K_twice; apply: svd_choiceP.
  by apply: (@duplicate_svd 1 3%Re); toR; lra.
have uK : K \notin unitmx by rewrite /K NlmlSvd_K_twice duplicate_singular.
have svdK1 : is_svd K1 (svd_choice K1).
  rewrite /K1 NlmlSvd_K_origin diag2E.
  apply: (@svd_choiceP _ _ (1%:M, _, 1%:M)); apply: diag_svd => i.
  rewrite mxE; case: split_ordP => j _; rewrite mxE [j]ord1 eqxx mulr1n;
    by toR; lra.
have uK1 : K1 \notin unitmx.
  rewrite /K1 NlmlSvd_K_origin unitmxE det_diag2 unitfE negbK.
  by apply/eqP; toR; ring.
split=> // [|y1 y2|y1 y2]; first last.
- by rewrite (NlmlSvd_nlml_svd_raises y1 y2 svdK1 uK1).
- by rewrite (NlmlSvd_nlml_svd_raises y1 y2 svdK uK).
set sg := Rtrigo_def.exp (-100).
have sg0 : (0 < sg)%Re by apply: exp_pos.
have K0E : K0 = block_mx sg%:M 0 0 (3 * sg)%Re%:M.
  rewrite /K0 NlmlSvd_K_origin_sigma.
  by congr (block_mx _%:M _ _ _%:M); rewrite /sg; toR; ring.
have dK0 : \det K0 = (sg * (3 * sg))%Re by rewrite K0E det_diag2.
have [uK0 svdK0] : K0 \in unitmx /\ is_svd K0 (svd_choice K0).
  have b0 : (0 < 3 * sg)%Re by lra.
  by have [u0 s0 _] := svd_path_diag2 sg0 b0; rewrite K0E; split.
have value (y1 y2 : 'rV[R]_1) :
    NlmlSvd.nlml_svd svd_choice small origin origin y1 y2 0 =
    Ok ((ln 3 - 200)%Re + NlmlSvd_quad small origin origin y1 y2 0).
  have p3 : (0 < 3 * sg)%Re by lra.
  have absE : Rabs (sg * (3 * sg)) = (sg * (3 * sg))%Re.
    by apply: Rabs_right; apply/Rle_ge/Rlt_le/Rmult_lt_0_compat.
  have lnE : ln (sg * (3 * sg)) = (ln 3 - 200)%Re.
    have l3 : ln (3 * sg) = (ln 3 + ln sg)%Re by apply: ln_mult; lra.
    have ls : ln sg = (-100)%Re by rewrite /sg ln_exp.
    by rewrite ln_mult // l3 ls; lra.
  rewrite (NlmlSvd_nlml_svd_value y1 y2 svdK0 uK0) -/K0 dK0 absE lnE.
  by [].
have zero_data : row_mx origin origin = 0 :> 'rV[R]_(1 + 1).
  by rewrite /origin -[const_mx 0%Re]/(0 : 'rV[R]_1) row_mx0.
split=> //.
- split.
    move=> i; move: svdK0; rewrite K0E diag2E => svdK0.
    apply: (svd_diag_bound svdK0); first by lra.
    move=> k; rewrite mxE; case: split_ordP => j _;
      by rewrite mxE [j]ord1 eqxx mulr1n; toR; nra.
  have := exp_nat_ge 100; rewrite /sg.
  have -> : (-100)%Re = (- INR 100)%Re by rewrite INR_IZR_INZ /=; lra.
  rewrite exp_Ropp; set E := Rtrigo_def.exp _ => le.
  have p2 : (0 < 2 ^ 100)%Re by apply: pow_lt; lra.
  have iE : (/ E <= / 2 ^ 100)%Re by apply: Rinv_le_contravar.
  by rewrite /Rdiv; lra.
- by rewrite value /NlmlSvd_quad zero_data mul0mx vdot0l addr0.
- have a1 : (0 < 1 + 0)%Re by lra.
  have b3 : (0 < 3 + 0)%Re by lra.
  have [uP svdP _] := svd_path_diag2 a1 b3.
  have KP : NlmlSvd.joint_K params origin origin 0 =
            block_mx (1 + 0)%Re%:M 0 0 (3 + 0)%Re%:M.
    by rewrite NlmlSvd_K_origin; congr (block_mx _%:M _ _ _%:M); toR; ring.
  rewrite -KP in uP svdP.
  rewrite (NlmlSvd_nlml_svd_value origin origin svdP uP) KP det_diag2.
  rewrite /NlmlSvd_quad zero_data mul0mx vdot0l addr0.
  by congr (Ok (ln _)); rewrite Rabs_right; toR; lra.
Qed.

(** C9, amended: for every input at which the routine np.linalg.svd
    returns an exactly-zero singular value for the joint matrix,
    np.linalg.inv(np.diag(s)) raises LinAlgError (singular matrix) on the
    SVD path and nothing catches it: the SVD objective [nlml_svd], and,
    once their Cholesky factorization has failed, the solver
    [K_inv_and_det] of the advection-diffusion notebooks and [nlml] of the
    determinant-form notebook end with that exception, which reaches their
    caller.  When no singular value is exactly zero, however small they
    are, [nlml_svd] returns the ordinary value
    sum_i log|s_i| + y^T V S^-1 U^T y.  No sentinel value is returned in
    either case. *)
Theorem C9_zero_singular_value_raises (svd : svd_fun) :
  [/\ forall n (p4 : 'rV[R]_4) (x y y1 y2 : 'rV[R]_n) (s : R),
        (exists i, (svd _ (NlmlSvd.joint_K p4 x y s)).1.2 0 i = 0) ->
        NlmlSvd.nlml_svd svd p4 x y y1 y2 s =
        Raise (LinAlgError SingularMatrix) /\
        ~~ returns (NlmlSvd.nlml_svd svd p4 x y y1 y2 s),
      forall n (p4 : 'rV[R]_4) (x y y1 y2 : 'rV[R]_n) (s : R),
        let K := NlmlSvd.joint_K p4 x y s in
        let yv := row_mx y1 y2 in
        (forall i, (svd _ K).1.2 0 i <> 0) ->
        NlmlSvd.nlml_svd svd p4 x y y1 y2 s =
        Ok (\sum_i ln (Rabs ((svd _ K).1.2 0 i))
            + (yv *m ((svd _ K).2^T *m invmx (diag_mx (svd _ K).1.2)
                      *m (svd _ K).1.1^T) *m yv^T) 0 0),
      forall n (x y t : 'rV[R]_n) (sigma l_x l_y l_t a b c d s : R),
        let K := AdvDiff.K x y t sigma l_x l_y l_t a b c d s in
        cholesky K = Raise (LinAlgError NotPositiveDefinite) ->
        (exists j, (svd _ K).1.2 0 j = 0) ->
        AdvDiff.K_inv_and_det x y t svd sigma l_x l_y l_t a b c d s =
        Raise (LinAlgError SingularMatrix) /\
        ~~ returns (AdvDiff.K_inv_and_det x y t svd sigma l_x l_y l_t a b c d s),
      forall m (K : 'M[R]_m) (y_con : 'rV[R]_m),
        cholesky K = Raise (LinAlgError NotPositiveDefinite) ->
        (exists j, (svd _ K).1.2 0 j = 0) ->
        det_objective svd K y_con = Raise (LinAlgError SingularMatrix)
    & forall n (x y : 'rV[R]_n) (p3 : 'rV[R]_3),
        DetMax.nlml x y svd p3 =
        det_objective svd
          (DetMax.K x y (Rtrigo_def.exp (item p3 0))
             (Rtrigo_def.exp (item p3 1)) (item p3 2))
          (DetMax.y_con x y)].
Proof.
split=> //.
- by move=> n p4 x y y1 y2 s z; rewrite (NlmlSvd_nlml_svd_zero y1 y2 z).
- by move=> n p4 x y y1 y2 s K yv s0; apply: NlmlSvd_nlml_svd_nonzero.
- move=> n x y t sigma l_x l_y l_t a b c d s K cK z.
  by rewrite /AdvDiff.K_inv_and_det (inv_and_logsum_zero cK z).
- by move=> m K y_con cK z; apply: det_objective_singular cK z.
Qed.

Lemma C9_witness :
  let p4 := row_of [:: 0%Re; 0%Re; 0%Re; 1%Re] in
  let x := twice_origin in
  let K := AdvDiff.K x x x 1 1 1 1 0 0 0 0 0 in
  [/\ exists i, (svd_choice (NlmlSvd.joint_K p4 x x 0)).1.2 0 i = 0,
      NlmlSvd.nlml_svd svd_choice p4 x x x x 0 =
      Raise (LinAlgError SingularMatrix),
      cholesky K = Raise (LinAlgError NotPositiveDefinite) /\
      exists j, (svd_choice K).1.2 0 j = 0,
      AdvDiff.K_inv_and_det x x x svd_choice 1 1 1 1 0 0 0 0 0 =
      Raise (LinAlgError SingularMatrix)
    & forall y_con, det_objective svd_choice K y_con =
                    Raise (LinAlgError SingularMatrix)].
Proof.
move=> p4 x K.
have svd1 : is_svd (block_mx (const_mx 1) 0 0 (const_mx 3%Re) : 'M[R]_(2 + 2))
                   (svd_choice (block_mx (const_mx 1) 0 0 (const_mx 3%Re))).
  by apply: svd_choiceP; apply: (@duplicate_svd 1 3%Re); toR; lra.
have svd2 : is_svd (block_mx (const_mx 1) 0 0 (const_mx 1) : 'M[R]_(2 + 2))
                   (svd_choice (block_mx (const_mx 1) 0 0 (const_mx 1))).
  by apply: svd_choiceP; apply: (@duplicate_svd 1 1); toR; lra.
have z1 : exists i, (svd_choice (NlmlSvd.joint_K p4 x x 0)).1.2 0 i = 0.
  rewrite NlmlSvd_K_twice.
  exact: singular_zero_value svd1 (duplicate_singular _ _).
have z2 : exists j, (svd_choice K).1.2 0 j = 0.
  rewrite /K AdvDiff_K_twice.
  exact: singular_zero_value svd2 (duplicate_singular _ _).
have cK : cholesky K = Raise (LinAlgError NotPositiveDefinite).
  have symK : K^T = K by apply: AdvDiff_symK.
  have nuK : K \notin unitmx by rewrite /K AdvDiff_K_twice duplicate_singular.
  by have [e cE] := cholesky_singular symK nuK; rewrite cE (cholesky_raises cE).
have [r1 _ r3 r4 _] := C9_zero_singular_value_raises svd_choice.
split=> //.
- by have [] := r1 _ p4 x x x x 0 z1.
- by have [] := r3 _ x x x 1 1 1 1 0 0 0 0 0 cK z2.
- by move=> y_con; apply: r4 cK z2.
Defined.

(** C10: for every hyperparameter triple (l_x, l_y, phi), with positive
    length scales, at which the decompositions succeed and y^T w does not
    vanish, [grad_L] returns the three numbers
    val * (tr(K^-1 dK) - 2n w^T dK w / (y^T w)), with w = K^-1 y,
    val = det((y^T K^-1 y) K) and dK the matrices K_l_x, K_l_y, K_phi of
    derivative kernels; and these are the partial derivatives of val with
    respect to l_x, l_y and phi. *)
Theorem C10_grad_L_is_the_gradient n (x y : 'rV[R]_n) (svd : svd_fun)
    (l_x l_y phi : R) :
  let A := DetMax.kuu x y l_x l_y + DetMax.s *: 1%:M in
  let B := (DetMax.kfu x y l_x l_y phi)^T in
  let C := DetMax.kff x y l_x l_y phi + DetMax.s *: 1%:M in
  let K := DetMax.K x y l_x l_y phi in
  let yc := DetMax.y_con x y in
  let w : 'rV[R]_(n + n) := (invmx K *m yc^T)^T in
  let val := \det (vdot (yc *m invmx K) yc *: K) in
  let component (dK : 'M[R]_(n + n)) :=
    val * (\tr (invmx K *m dK)
           - vdot (((2 * n)%:R *: w) *m dK) w / vdot yc w) in
  (0 < l_x)%Re -> (0 < l_y)%Re ->
  returns (cholesky A) -> returns (cholesky (C - B^T *m invmx A *m B)) ->
  vdot yc w <> 0 ->
  [/\ DetMax.grad_L x y svd l_x l_y phi =
      Ok [:: component (DetMax.K_l_x x y l_x l_y phi);
             component (DetMax.K_l_y x y l_x l_y phi);
             component (DetMax.K_phi x y l_x l_y phi)],
      derivable_pt_lim (fun u => DetMax_val x y u l_y phi) l_x
        (component (DetMax.K_l_x x y l_x l_y phi)),
      derivable_pt_lim (fun u => DetMax_val x y l_x u phi) l_y
        (component (DetMax.K_l_y x y l_x l_y phi))
    & derivable_pt_lim (fun u => DetMax_val x y l_x l_y u) phi
        (component (DetMax.K_phi x y l_x l_y phi))].
Proof.
move=> A B C K yc w val component lx0 ly0 cA cS q0.
have symK : K^T = K by apply: DetMax_symK.
have symA : A^T = A by apply: DetMax_symA.
have symC : C^T = C by apply: DetMax_symC.
have symS := schur_sym B symA symC.
have uA : A \in unitmx.
  case cAE: (cholesky A) cA => [L|] // _.
  by have [] := cholesky_inverse symA cAE.
have uS : C - B^T *m invmx A *m B \in unitmx.
  case cSE: (cholesky _) cS => [L|] // _.
  by have [] := cholesky_inverse symS cSE.
have uK : K \in unitmx by rewrite /K DetMax_KE; apply: unitmx_block_schur.
have q0' : vdot (yc *m invmx K) yc <> 0 by rewrite -quad_as_dot.
have nn : (2 * n)%:R = (n + n)%:R :> R by rewrite mul2n addnn.
rewrite /component; split.
- exact: DetMax_grad_L_cholesky.
- rewrite nn.
  exact: (@der_form_B _ (fun u => DetMax.K x y u l_y phi) l_x _ yc symK uK
            (DetMax_K_der_l_x x y phi lx0 ly0) q0').
- rewrite nn.
  exact: (@der_form_B _ (fun u => DetMax.K x y l_x u phi) l_y _ yc symK uK
            (DetMax_K_der_l_y x y phi lx0 ly0) q0').
- rewrite nn.
  exact: (@der_form_B _ (fun u => DetMax.K x y l_x l_y u) phi _ yc symK uK
            (DetMax_K_der_phi x y phi lx0 ly0) q0').
Qed.

Lemma C10_witness :
  let x := unit_abscissa in
  let y := origin in
  let K := DetMax.K x y 1 1 1 in
  let yc := DetMax.y_con x y in
  let w : 'rV[R]_(1 + 1) := (invmx K *m yc^T)^T in
  let val := \det (vdot (yc *m invmx K) yc *: K) in
  let component (dK : 'M[R]_(1 + 1)) :=
    val * (\tr (invmx K *m dK)
           - vdot (((2 * 1)%:R *: w) *m dK) w / vdot yc w) in
  [/\ DetMax.grad_L x y svd_choice 1 1 1 =
      Ok [:: component (DetMax.K_l_x x y 1 1 1);
             component (DetMax.K_l_y x y 1 1 1);
             component (DetMax.K_phi x y 1 1 1)],
      derivable_pt_lim (fun u => DetMax_val x y u 1 1) 1
        (component (DetMax.K_l_x x y 1 1 1)),
      derivable_pt_lim (fun u => DetMax_val x y 1 u 1) 1
        (component (DetMax.K_l_y x y 1 1 1))
    & derivable_pt_lim (fun u => DetMax_val x y 1 1 u) 1
        (component (DetMax.K_phi x y 1 1 1))].
Proof.
have [eA eB eC] := DetMax_blocks_single unit_abscissa origin.
have s0 := DetMax_s_pos.
have a0 : (0 < 1 + DetMax.s)%Re by toR; lra.
have c0 : (0 < 3 + DetMax.s)%Re by toR; lra.
have cA := cholesky_scalar a0; have cS := cholesky_scalar c0.
have symA : ((1 + DetMax.s)%:M : 'M[R]_1)^T = (1 + DetMax.s)%:M.
  by rewrite tr_scalar_mx.
have symC : ((3%Re + DetMax.s)%:M : 'M[R]_1)^T = (3%Re + DetMax.s)%:M.
  by rewrite tr_scalar_mx.
have [uA _ _] := cholesky_inverse symA cA.
have [uC _ _] := cholesky_inverse symC cS.
apply: C10_grad_L_is_the_gradient; rewrite ?eA ?eB ?eC; try by toR; lra.
- by rewrite cA.
- by rewrite !trmx0 !mul0mx subr0 cS.
- rewrite quad_as_dot.
  have [] := @DetMax_schur_blocks _ unit_abscissa origin 1 1 1.
  + by rewrite eA.
  + by rewrite eA eB eC !trmx0 !mul0mx subr0.
  move=> _ + _; rewrite /DetMax_quad eA eB eC !trmx0 !mul0mx !mulmx0 => ->.
  rewrite !mul0mx !mulmx0 addr0 subr0 vdot0l subr0 !invmx_scalar.
  rewrite !mul_mx_scalar !vdotZl /vdot !big_ord1 !mxE.
  have := Rinv_0_lt_compat _ a0; have := Rinv_0_lt_compat _ c0.
  by toR; nra.
Defined.

(* ---------------------------------------------------------------------- *)
(*  28. Derivatives of lambdified expressions                              *)
(* ---------------------------------------------------------------------- *)

(* d2 is the second derivative of f at t.                                  *)
Definition second_derivative (f : R -> R) (t d2 : R) : Prop :=
  exists f' : R -> R,
    (forall u, derivable_pt_lim f u (f' u)) /\ derivable_pt_lim f' t d2.

Lemma sp_upd_upd (env : sp.symbol -> R) (v : sp.symbol) (u w : R) :
  sp_upd (sp_upd env v u) v w =1 sp_upd env v w.
Proof. by move=> z; rewrite /sp_upd; case: (sp.symbol_eqb z v). Qed.

Lemma sp_upd_at (env : sp.symbol -> R) (v : sp.symbol) (u : R) :
  sp_upd env v u v = u.
Proof. by rewrite /sp_upd; case: symbol_eqbP. Qed.

(* First and second derivatives of a lambdified expression in one of its
   arguments are what sp.diff returns.                                     *)
Lemma diff1_sound_at (env : sp.symbol -> R) (v : sp.symbol) (e : sp.expr)
    (f : R -> R) (t : R) :
  (forall u, f u = sp.eval (sp_upd env v u) e) -> t = env v ->
  sp_smooth env e ->
  derivable_pt_lim f t (sp.eval env (sp.diff e [:: v])).
Proof.
move=> fE -> sm; apply: derivable_pt_lim_ext (diff1_sound v sm) => z.
by rewrite fE.
Qed.

Lemma diff2_sound_at (env : sp.symbol -> R) (v : sp.symbol) (e : sp.expr)
    (f : R -> R) (t : R) :
  (forall u, f u = sp.eval (sp_upd env v u) e) -> t = env v ->
  (forall u, sp_smooth (sp_upd env v u) e) ->
  sp_smooth env (sp.diff1 v e) ->
  second_derivative f t (sp.eval env (sp.diff e [:: v; v])).
Proof.
move=> fE -> sm sm'.
exists (fun u => sp.eval (sp_upd env v u) (sp.diff1 v e)); split; last first.
  exact: diff1_sound.
move=> u; have := diff1_sound v (sm u); rewrite sp_upd_at.
apply: derivable_pt_lim_ext => z.
by rewrite fE; apply: eval_ext; apply: sp_upd_upd.
Qed.

(* The operator of the first notebooks, phi u + u_x + u_yy, applied to a
   function k of a point (x, y): r is its value at (x0, y0).               *)
Definition DetMax_operator_at (ph : R) (k : R -> R -> R) (x0 y0 r : R) : Prop :=
  exists kx kyy : R,
    [/\ derivable_pt_lim (fun u => k u y0) x0 kx,
        second_derivative (fun u => k x0 u) y0 kyy
      & r = ph * k x0 y0 + kx + kyy].

Ltac smooth_gauss :=
  sp_smooth_compute;
  cbv [sp_upd sp.bind_args sp.symbol_eqb sp.symbol_id Nat.eqb];
  repeat split; lra.

(* A lambdified function of one of its arguments.                         *)
Ltac lambdify_at :=
  move=> ?; first [by apply: eval_ext; case | reflexivity].

(* ====================================================================== *)
(*  29. What the objectives return, path by path                           *)
(* ====================================================================== *)

Section Example3DFacts.

Variable n : nat.
Variables x y t : 'rV[R]_n.
Variables sg lx ly lt ph : R.

Lemma Example3D_symA :
  (Example3D.kuu x y t sg lx ly lt + Example3D.s *: 1%:M)^T =
  Example3D.kuu x y t sg lx ly lt + Example3D.s *: 1%:M.
Proof.
by apply: noise_sym; apply: fill_pairwise_sym => i j; apply: Example3D_kuu_fn_sym.
Qed.

Lemma Example3D_symC :
  (Example3D.kff x y t sg lx ly lt ph + Example3D.s *: 1%:M)^T =
  Example3D.kff x y t sg lx ly lt ph + Example3D.s *: 1%:M.
Proof.
by apply: noise_sym; apply: fill_pairwise_sym => i j; apply: Example3D_kff_fn_sym.
Qed.

End Example3DFacts.

Lemma Example3D_kernels_same_point (u v w ph : R) :
  [/\ Example3D.kuu_fn u u v v w w 1 1 1 1 = 1,
      Example3D.kfu_fn u u v v w w 1 1 1 1 ph = (-1)%Re
    & Example3D.kff_fn u u v v w w 1 1 1 1 ph = (4 + ph * ph)%Re].
Proof.
split.
- rewrite /Example3D.kuu_fn /Example3D.lambdify10 /Example3D.kuu_sym.
  by kernel_at_origin.
- rewrite /Example3D.kfu_fn /Example3D.lambdify11 /Example3D.kfu_sym.
  by rewrite /Example3D.kuu_sym; kernel_at_origin.
- rewrite /Example3D.kff_fn /Example3D.lambdify11 /Example3D.kff_sym.
  by rewrite /Example3D.kuu_sym; kernel_at_origin.
Qed.

Lemma Example3D_blocks_single (x y t : 'rV[R]_1) (ph : R) :
  [/\ Example3D.kuu x y t 1 1 1 1 + Example3D.s *: 1%:M =
      (1 + Example3D.s)%:M,
      Example3D.kfu x y t 1 1 1 1 ph = (-1)%Re%:M
    & Example3D.kff x y t 1 1 1 1 ph + Example3D.s *: 1%:M =
      ((4 + ph * ph)%Re + Example3D.s)%:M].
Proof.
have [euu efu eff] := Example3D_kernels_same_point (x 0 0) (y 0 0) (t 0 0) ph.
rewrite /Example3D.kuu /Example3D.kfu /Example3D.kff !fill_pairwise1.
by rewrite euu efu eff !scalar_noise.
Qed.

Lemma item5 (a b c d e : R) :
  [/\ item (row_of [:: a; b; c; d; e]) 0 = a,
      item (row_of [:: a; b; c; d; e]) 1 = b,
      item (row_of [:: a; b; c; d; e]) 2 = c,
      item (row_of [:: a; b; c; d; e]) 3 = d
    & item (row_of [:: a; b; c; d; e]) 4 = e].
Proof. by split; rewrite /item mxE inordK. Qed.

(** X1: in the 3D notebook, whenever the Cholesky factorizations of A and
    of the Schur complement C - B^T A^-1 B both succeed, the joint matrix
    K = [[A, B], [B^T, C]] has a positive determinant and [nlml] returns
    y^T K^-1 y + log det K, with y the u-values followed by the
    f-values. *)
Theorem Example3D_nlml_value n (x y t : 'rV[R]_n) (svd : svd_fun)
    (params : 'rV[R]_5) :
  let sg := Rtrigo_def.exp (item params 0) in
  let lx := Rtrigo_def.exp (item params 1) in
  let ly := Rtrigo_def.exp (item params 2) in
  let lt := Rtrigo_def.exp (item params 3) in
  let A := Example3D.kuu x y t sg lx ly lt + Example3D.s *: 1%:M in
  let B := (Example3D.kfu x y t sg lx ly lt (item params 4))^T in
  let C := Example3D.kff x y t sg lx ly lt (item params 4)
           + Example3D.s *: 1%:M in
  let K := block_mx A B B^T C in
  let yc := row_mx (Example3D.y_u x y t) (Example3D.y_f n) in
  returns (cholesky A) -> returns (cholesky (C - B^T *m invmx A *m B)) ->
  (0 < \det K)%Re /\
  Example3D.nlml x y t svd params =
  Ok (vdot (yc *m invmx K) yc + ln (\det K)).
Proof.
move=> sg lx ly lt A B C K yc cA cS; rewrite Example3D_nlmlE.
exact: (block_objective_cholesky svd _ _ (Example3D_symA _ _ _ _ _ _ _)
          (Example3D_symC _ _ _ _ _ _ _ _)).
Qed.

Lemma Example3D_nlml_value_witness :
  let params := row_of [:: 0%Re; 0%Re; 0%Re; 0%Re; 0%Re] in
  let A := Example3D.kuu origin origin origin 1 1 1 1 + Example3D.s *: 1%:M in
  let B := (Example3D.kfu origin origin origin 1 1 1 1 0)^T in
  let C := Example3D.kff origin origin origin 1 1 1 1 0
           + Example3D.s *: 1%:M in
  let K := block_mx A B B^T C in
  let yc := row_mx (Example3D.y_u origin origin origin) (Example3D.y_f 1) in
  (0 < \det K)%Re /\
  Example3D.nlml origin origin origin svd_choice params =
  Ok (vdot (yc *m invmx K) yc + ln (\det K)).
Proof.
have [e0 e1 e2 e3 e4] := item5 0%Re 0%Re 0%Re 0%Re 0%Re.
have [eA eB eC] := Example3D_blocks_single origin origin origin 0.
have s0 := Example3D_s_pos.
have a0 : (0 < 1 + Example3D.s)%Re by toR; lra.
have := @Example3D_nlml_value 1 origin origin origin svd_choice
          (row_of [:: 0%Re; 0%Re; 0%Re; 0%Re; 0%Re]).
rewrite e0 e1 e2 e3 e4 exp_0; apply.
- by rewrite eA cholesky_scalar.
- rewrite eA eB eC trmxK tr_scalar_mx invmx_scalar -!scalar_mxM -raddfB.
  rewrite cholesky_scalar //.
  have := Rinv_0_lt_compat _ a0; have : (/ (1 + Example3D.s) < 1)%Re.
    by rewrite -[X in (_ < X)%Re]Rinv_1; apply: Rinv_lt_contravar; toR; lra.
  by toR; nra.
Defined.

Lemma item8 (a0 a1 a2 a3 a4 a5 a6 a7 : R) :
  let p := row_of [:: a0; a1; a2; a3; a4; a5; a6; a7] in
  [/\ [/\ item p 0 = a0, item p 1 = a1, item p 2 = a2 & item p 3 = a3],
      item p 4 = a4, item p 5 = a5, item p 6 = a6 & item p 7 = a7].
Proof. by split; [split | | | |]; rewrite /item mxE inordK. Qed.

(** X2: in the advection-diffusion notebook, whenever the Cholesky
    factorization of the joint matrix K succeeds, det K is positive and
    [nlml] returns (1/2) log det K + y^T K^-1 y: the log-determinant term
    enters with weight one half, because the solver sums log|L_ii| over
    the diagonal of the Cholesky factor once. *)
Theorem AdvDiff_nlml_cholesky_value n (x y t : 'rV[R]_n) (svd : svd_fun)
    (y_u y_f : 'rV[R]_n) (params : 'rV[R]_8) :
  let K := AdvDiff.K x y t
             (Rtrigo_def.exp (item params 0)) (Rtrigo_def.exp (item params 1))
             (Rtrigo_def.exp (item params 2)) (Rtrigo_def.exp (item params 3))
             (item params 4) (item params 5) (item params 6) (item params 7)
             AdvDiff.s in
  let yc := row_mx y_u y_f in
  returns (cholesky K) ->
  (0 < \det K)%Re /\
  AdvDiff.nlml x y t svd y_u y_f params =
  Ok (ln (\det K) / 2 + vdot (yc *m invmx K) yc)%Re.
Proof.
move=> K yc; case cK: (cholesky K) => [L|] // _.
have symK : K^T = K by apply: AdvDiff_symK.
have [d0 lnK] := cholesky_logdet symK cK; split=> //.
rewrite /AdvDiff.nlml /AdvDiff.K_inv_and_det -/K.
rewrite (inv_and_logsum_cholesky svd symK cK) bind_Ok /= -/yc lnK.
by congr (Ok _); toR; field.
Qed.

Lemma AdvDiff_nlml_cholesky_value_witness :
  let params :=
    row_of [:: 0%Re; 0%Re; 0%Re; 0%Re; 0%Re; 0%Re; 0%Re; 0%Re] in
  let K := AdvDiff.K origin origin origin
             (Rtrigo_def.exp (item params 0)) (Rtrigo_def.exp (item params 1))
             (Rtrigo_def.exp (item params 2)) (Rtrigo_def.exp (item params 3))
             (item params 4) (item params 5) (item params 6) (item params 7)
             AdvDiff.s in
  let yc := row_mx origin origin in
  (0 < \det K)%Re /\
  AdvDiff.nlml origin origin origin svd_choice origin origin params =
  Ok (ln (\det K) / 2 + vdot (yc *m invmx K) yc)%Re.
Proof.
have [[e0 e1 e2 e3] e4 e5 e6 e7] :=
  item8 0%Re 0%Re 0%Re 0%Re 0%Re 0%Re 0%Re 0%Re.
have s0 := AdvDiff_s_pos.
apply: AdvDiff_nlml_cholesky_value.
rewrite e0 e1 e2 e3 e4 e5 e6 e7 exp_0 AdvDiff_K_origin cholesky_diag2 //;
  by toR; lra.
Defined.

(** X3: when the Cholesky factorization of the joint matrix fails, the
    singular value decomposition returned for it is valid and the matrix
    is invertible, the solver [K_inv_and_det] of the advection-diffusion
    notebooks returns the inverse of K together with log|det K|. *)
Theorem AdvDiff_K_inv_and_det_svd_path n (x y t : 'rV[R]_n) (svd : svd_fun)
    (sigma l_x l_y l_t a b c d s : R) (e : exn) :
  let K := AdvDiff.K x y t sigma l_x l_y l_t a b c d s in
  cholesky K = Raise e -> is_svd K (svd _ K) -> K \in unitmx ->
  AdvDiff.K_inv_and_det x y t svd sigma l_x l_y l_t a b c d s =
  Ok (invmx K, ln (Rabs (\det K))).
Proof. by move=> K cK svdK uK; apply: inv_and_logsum_svd cK svdK uK. Qed.

Lemma AdvDiff_K_inv_and_det_svd_path_witness :
  let K := AdvDiff.K origin origin origin 1 1 1 1 0 0 0 0 (-2)%Re in
  AdvDiff.K_inv_and_det origin origin origin svd_choice 1 1 1 1 0 0 0 0 (-2)%Re
  = Ok (invmx K, ln (Rabs (\det K))).
Proof.
have KE : AdvDiff.K origin origin origin 1 1 1 1 0 0 0 0 (-2)%Re =
          (-1)%Re%:M.
  rewrite AdvDiff_K_origin -scalar_mx_block; congr (_%:M); toR; ring.
apply: (@AdvDiff_K_inv_and_det_svd_path _ _ _ _ _ _ _ _ _ _ _ _ _ _
          (LinAlgError NotPositiveDefinite)).
- rewrite AdvDiff_K_origin; apply: cholesky_nonpos.
  by rewrite block_mx00; toR; lra.
- rewrite KE; apply: (@svd_choiceP _ _ (1%:M, const_mx 1, (-1)%Re%:M)).
  split; rewrite ?trmx1 ?mul1mx ?tr_scalar_mx -?scalar_mxM //.
  + by congr (_%:M); toR; ring.
  + by move=> i; rewrite mxE; toR; lra.
  + have -> : diag_mx (const_mx 1) = 1%:M :> 'M[R]_(1 + 1).
      by apply/matrixP => i j; rewrite !mxE.
    by rewrite mul1mx.
- rewrite KE unitmxE det_scalar unitfE; apply/Rneq0P.
  by rewrite Rexpn /=; toR; lra.
Defined.

(** X4: the SVD objective [nlml_svd] returns log|det K| + y^T K^-1 y
    whenever the joint matrix K is invertible and the singular value
    decomposition returned for it is valid. *)
Theorem NlmlSvd_nlml_svd_returns_nlml (svd : svd_fun) m (params : 'rV[R]_4)
    (x y y1 y2 : 'rV[R]_m) (s : R) :
  let K := NlmlSvd.joint_K params x y s in
  let yc := row_mx y1 y2 in
  K \in unitmx -> is_svd K (svd _ K) ->
  NlmlSvd.nlml_svd svd params x y y1 y2 s =
  Ok (ln (Rabs (\det K)) + vdot (yc *m invmx K) yc).
Proof. by move=> K yc uK svdK; apply: NlmlSvd_nlml_svd_value. Qed.

Lemma NlmlSvd_nlml_svd_returns_nlml_witness :
  let params := row_of [:: 0%Re; 0%Re; 0%Re; 1%Re] in
  let K := NlmlSvd.joint_K params origin origin 1e-7%Re in
  let yc := row_mx origin origin in
  NlmlSvd.nlml_svd svd_choice params origin origin origin origin 1e-7%Re =
  Ok (ln (Rabs (\det K)) + vdot (yc *m invmx K) yc).
Proof.
have a0 : (0 < 1 + 1e-7)%Re by lra.
have b0 : (0 < 3 + 1e-7)%Re by lra.
have [uK svdK _] := svd_path_diag2 a0 b0.
by apply: NlmlSvd_nlml_svd_returns_nlml; rewrite NlmlSvd_K_origin.
Defined.

(** X5: the plain objective [nlml] of the SVD notebook raises the
    LinAlgError of np.linalg.inv when the joint matrix K is singular, and
    otherwise returns sign(det K) + y^T K^-1 y, the first component of the
    pair that np.linalg.slogdet yields plus the quadratic form. *)
Theorem NlmlSvd_nlml_outcome m (params : 'rV[R]_4) (x y y1 y2 : 'rV[R]_m)
    (s : R) :
  let K := NlmlSvd.joint_K params x y s in
  let yc := row_mx y1 y2 in
  NlmlSvd.nlml params x y y1 y2 s =
  if K \in unitmx then Ok (sign (\det K) + vdot (yc *m invmx K) yc)
  else Raise (LinAlgError SingularMatrix).
Proof.
move=> K yc; case: ifPn => uK; first exact: NlmlSvd_nlml_value.
exact: NlmlSvd_nlml_raises.
Qed.

(* ---------------------------------------------------------------------- *)
(*  30. The gradient in the optimizer's variables                          *)
(* ---------------------------------------------------------------------- *)

(** X6: at positive length scales the matrices returned by [K_l_x],
    [K_l_y] and [K_phi] are, entry by entry, the partial derivatives of
    the joint matrix K with respect to l_x, l_y and phi. *)
Theorem DetMax_K_partial_derivatives n (x y : 'rV[R]_n) (l_x l_y phi : R) :
  (0 < l_x)%Re -> (0 < l_y)%Re ->
  [/\ forall i j, derivable_pt_lim (fun u => DetMax.K x y u l_y phi i j) l_x
                    (DetMax.K_l_x x y l_x l_y phi i j),
      forall i j, derivable_pt_lim (fun u => DetMax.K x y l_x u phi i j) l_y
                    (DetMax.K_l_y x y l_x l_y phi i j)
    & forall i j, derivable_pt_lim (fun u => DetMax.K x y l_x l_y u i j) phi
                    (DetMax.K_phi x y l_x l_y phi i j)].
Proof.
move=> lx0 ly0; split=> i j.
- exact: (DetMax_K_der_l_x x y phi lx0 ly0).
- exact: (DetMax_K_der_l_y x y phi lx0 ly0).
- exact: (DetMax_K_der_phi x y phi lx0 ly0).
Qed.

Lemma DetMax_K_partial_derivatives_witness :
  [/\ forall i j, derivable_pt_lim
                    (fun u => DetMax.K unit_abscissa origin u 1 1 i j) 1
                    (DetMax.K_l_x unit_abscissa origin 1 1 1 i j),
      forall i j, derivable_pt_lim
                    (fun u => DetMax.K unit_abscissa origin 1 u 1 i j) 1
                    (DetMax.K_l_y unit_abscissa origin 1 1 1 i j)
    & forall i j, derivable_pt_lim
                    (fun u => DetMax.K unit_abscissa origin 1 1 u i j) 1
                    (DetMax.K_phi unit_abscissa origin 1 1 1 i j)].
Proof. by apply: DetMax_K_partial_derivatives; toR; lra. Defined.

(* The derivative of the objective along the exponential reparametrization
   of a length scale.                                                      *)
Lemma der_along_exp (h : R -> R) (p l : R) :
  derivable_pt_lim h (Rtrigo_def.exp p) l ->
  derivable_pt_lim (fun u => h (Rtrigo_def.exp u)) p (l * Rtrigo_def.exp p).
Proof.
move=> dh.
exact: (@der_comp Rtrigo_def.exp p (Rtrigo_def.exp p)
          (derivable_pt_lim_exp p) h l dh).
Qed.

(* One sample point, (1, 0): the quadratic form does not vanish there.     *)
Lemma DetMax_single_point_facts :
  let x := unit_abscissa in
  let y := origin in
  let A := DetMax.kuu x y 1 1 + DetMax.s *: 1%:M in
  let B := (DetMax.kfu x y 1 1 1)^T in
  let C := DetMax.kff x y 1 1 1 + DetMax.s *: 1%:M in
  let yc := DetMax.y_con x y in
  [/\ returns (cholesky A), returns (cholesky (C - B^T *m invmx A *m B))
    & vdot yc (invmx (DetMax.K x y 1 1 1) *m yc^T)^T <> 0].
Proof.
have [eA eB eC] := DetMax_blocks_single unit_abscissa origin.
have s0 := DetMax_s_pos.
have a0 : (0 < 1 + DetMax.s)%Re by toR; lra.
have c0 : (0 < 3 + DetMax.s)%Re by toR; lra.
have cA := cholesky_scalar a0; have cS := cholesky_scalar c0.
move=> x y A B C yc; rewrite /A /B /C /yc /x /y eA eB eC; split.
- by rewrite cA.
- by rewrite !trmx0 !mul0mx subr0 cS.
- rewrite quad_as_dot.
  have [] := @DetMax_schur_blocks _ unit_abscissa origin 1 1 1.
  + have symA : ((1 + DetMax.s)%:M : 'M[R]_1)^T = (1 + DetMax.s)%:M.
      by rewrite tr_scalar_mx.
    by rewrite eA; have [] := cholesky_inverse symA cA.
  + have symC : ((3%Re + DetMax.s)%:M : 'M[R]_1)^T = (3%Re + DetMax.s)%:M.
      by rewrite tr_scalar_mx.
    rewrite eA eB eC !trmx0 !mul0mx subr0.
    by have [] := cholesky_inverse symC cS.
  move=> _ + _; rewrite /DetMax_quad eA eB eC !trmx0 !mul0mx !mulmx0 => ->.
  rewrite !mul0mx !mulmx0 addr0 subr0 vdot0l subr0 !invmx_scalar.
  rewrite !mul_mx_scalar !vdotZl /vdot !big_ord1 !mxE.
  have := Rinv_0_lt_compat _ a0; have := Rinv_0_lt_compat _ c0.
  by toR; nra.
Qed.

(** X7: [grad_nlml] is the gradient of the objective in the variables the
    optimizer moves.  At parameters (p0, p1, p2), read as l_x = exp p0,
    l_y = exp p1 and phi = p2, where the Cholesky factorizations succeed
    and y^T K^-1 y does not vanish, [nlml_block] returns
    val = det((y^T K^-1 y) K) and [grad_nlml] returns the three partial
    derivatives of val with respect to p0, p1 and p2. *)
Theorem DetMax_grad_nlml_is_gradient n (x y : 'rV[R]_n) (svd : svd_fun)
    (par : 'rV[R]_3) :
  let l_x := Rtrigo_def.exp (item par 0) in
  let l_y := Rtrigo_def.exp (item par 1) in
  let phi := item par 2 in
  let A := DetMax.kuu x y l_x l_y + DetMax.s *: 1%:M in
  let B := (DetMax.kfu x y l_x l_y phi)^T in
  let C := DetMax.kff x y l_x l_y phi + DetMax.s *: 1%:M in
  let K := DetMax.K x y l_x l_y phi in
  let yc := DetMax.y_con x y in
  returns (cholesky A) -> returns (cholesky (C - B^T *m invmx A *m B)) ->
  vdot yc (invmx K *m yc^T)^T <> 0 ->
  exists g0 g1 g2 : R,
  [/\ DetMax.nlml_block x y svd par = Ok (DetMax_val x y l_x l_y phi)
    & DetMax.grad_nlml x y svd par = Ok [:: g0; g1; g2]]
  /\
  [/\ derivable_pt_lim
        (fun u => DetMax_val x y (Rtrigo_def.exp u) l_y phi) (item par 0) g0,
      derivable_pt_lim
        (fun u => DetMax_val x y l_x (Rtrigo_def.exp u) phi) (item par 1) g1
    & derivable_pt_lim (fun u => DetMax_val x y l_x l_y u) (item par 2) g2].
Proof.
move=> l_x l_y phi A B C K yc cA cS q0.
have lx0 : (0 < l_x)%Re by apply: exp_pos.
have ly0 : (0 < l_y)%Re by apply: exp_pos.
have symK : K^T = K by apply: DetMax_symK.
have symA : A^T = A by apply: DetMax_symA.
have symC : C^T = C by apply: DetMax_symC.
have symS := schur_sym B symA symC.
have uA : A \in unitmx.
  case cAE: (cholesky A) cA => [L|] // _.
  by have [] := cholesky_inverse symA cAE.
have uS : C - B^T *m invmx A *m B \in unitmx.
  case cSE: (cholesky _) cS => [L|] // _.
  by have [] := cholesky_inverse symS cSE.
have uK : K \in unitmx by rewrite /K DetMax_KE; apply: unitmx_block_schur.
have q0' : vdot (yc *m invmx K) yc <> 0 by rewrite -quad_as_dot.
have nn : (2 * n)%:R = (n + n)%:R :> R by rewrite mul2n addnn.
have d1 := @der_form_B _ (fun u => DetMax.K x y u l_y phi) l_x _ yc symK uK
             (DetMax_K_der_l_x x y phi lx0 ly0) q0'.
have d2 := @der_form_B _ (fun u => DetMax.K x y l_x u phi) l_y _ yc symK uK
             (DetMax_K_der_l_y x y phi lx0 ly0) q0'.
have d3 := @der_form_B _ (fun u => DetMax.K x y l_x l_y u) phi _ yc symK uK
             (DetMax_K_der_phi x y phi lx0 ly0) q0'.
rewrite /DetMax.grad_nlml -/l_x -/l_y -/phi.
rewrite (DetMax_grad_L_cholesky svd cA cS) bind_Ok /= /DetMax_component.
rewrite /DetMax_w -/K -/yc nn mulr1.
do 3![eexists]; split; first split; first exact: DetMax_nlml_block_cholesky.
- by [].
split.
- exact: (der_along_exp (h := fun u => DetMax_val x y u l_y phi) d1).
- exact: (der_along_exp (h := fun u => DetMax_val x y l_x u phi) d2).
- exact: d3.
Qed.

Lemma DetMax_grad_nlml_is_gradient_witness :
  let x := unit_abscissa in
  let y := origin in
  let par := row_of [:: 0%Re; 0%Re; 1%Re] in
  let l_x := Rtrigo_def.exp (item par 0) in
  let l_y := Rtrigo_def.exp (item par 1) in
  let phi := item par 2 in
  exists g0 g1 g2 : R,
  [/\ DetMax.nlml_block x y svd_choice par = Ok (DetMax_val x y l_x l_y phi)
    & DetMax.grad_nlml x y svd_choice par = Ok [:: g0; g1; g2]]
  /\
  [/\ derivable_pt_lim
        (fun u => DetMax_val x y (Rtrigo_def.exp u) l_y phi) (item par 0) g0,
      derivable_pt_lim
        (fun u => DetMax_val x y l_x (Rtrigo_def.exp u) phi) (item par 1) g1
    & derivable_pt_lim (fun u => DetMax_val x y l_x l_y u) (item par 2) g2].
Proof.
have [e0 e1 e2] := item3 0%Re 0%Re 1%Re.
have [cA cS q0] := DetMax_single_point_facts.
by apply: DetMax_grad_nlml_is_gradient; rewrite ?e0 ?e1 ?e2 ?exp_0.
Defined.

(* ---------------------------------------------------------------------- *)
(*  31. The operator kernels as derivatives of the base kernel             *)
(* ---------------------------------------------------------------------- *)

Section DetMaxOperator.

Variables xi xj yi yj lx ly ph : R.
Hypothesis lx0 : (0 < lx)%Re.
Hypothesis ly0 : (0 < ly)%Re.

Let env7 :=
  sp.bind_args [:: sp.x_i; sp.x_j; sp.y_i; sp.y_j; sp.l_x; sp.l_y; sp.phi]
               [:: xi; xj; yi; yj; lx; ly; ph].

Lemma DetMax_kfu_from_kuu :
  DetMax_operator_at ph (fun u v => DetMax.kuu_fn u xj v yj lx ly) xi yi
    (DetMax.kfu_fn xi xj yi yj lx ly ph).
Proof.
exists (sp.eval env7 (sp.diff DetMax.kuu_sym [:: sp.x_i])),
       (sp.eval env7 (sp.diff DetMax.kuu_sym [:: sp.y_i; sp.y_i])); split.
- apply: (@diff1_sound_at env7 sp.x_i DetMax.kuu_sym); first by lambdify_at.
  + by [].
  + by rewrite /DetMax.kuu_sym /env7; smooth_gauss.
- apply: (@diff2_sound_at env7 sp.y_i DetMax.kuu_sym); first by lambdify_at.
  + by [].
  + by move=> u; rewrite /DetMax.kuu_sym /env7; smooth_gauss.
  + by rewrite /DetMax.kuu_sym /env7; smooth_gauss.
- rewrite /DetMax.kfu_fn /DetMax.kuu_fn /DetMax.kfu_sym /env7.
  by rewrite /DetMax.kuu_sym; sp_compute; toR; ring.
Qed.

Lemma DetMax_kff_from_kfu :
  DetMax_operator_at ph (fun u v => DetMax.kfu_fn xi u yi v lx ly ph) xj yj
    (DetMax.kff_fn xi xj yi yj lx ly ph).
Proof.
exists (sp.eval env7 (sp.diff DetMax.kfu_sym [:: sp.x_j])),
       (sp.eval env7 (sp.diff DetMax.kfu_sym [:: sp.y_j; sp.y_j])); split.
- apply: (@diff1_sound_at env7 sp.x_j DetMax.kfu_sym); first by lambdify_at.
  + by [].
  + by rewrite /DetMax.kfu_sym /DetMax.kuu_sym /env7; smooth_gauss.
- apply: (@diff2_sound_at env7 sp.y_j DetMax.kfu_sym); first by lambdify_at.
  + by [].
  + by move=> u; rewrite /DetMax.kfu_sym /DetMax.kuu_sym /env7; smooth_gauss.
  + by rewrite /DetMax.kfu_sym /DetMax.kuu_sym /env7; smooth_gauss.
- rewrite /DetMax.kff_fn /DetMax.kfu_fn /DetMax.kff_sym.
  rewrite /DetMax.kfu_sym /env7 /DetMax.kuu_sym.
  by sp_compute; fold_exp; toR; ring.
Qed.

End DetMaxOperator.

Section NlmlSvdOperator.

Variables xi xj yi yj sg lx ly ph : R.
Hypothesis lx0 : (0 < lx)%Re.
Hypothesis ly0 : (0 < ly)%Re.

Let env8 :=
  sp.bind_args
    [:: sp.x_i; sp.x_j; sp.y_i; sp.y_j; sp.sigma; sp.l_x; sp.l_y; sp.phi]
    [:: xi; xj; yi; yj; sg; lx; ly; ph].

Lemma NlmlSvd_kfu_from_kuu :
  DetMax_operator_at ph (fun u v => NlmlSvd.kuu_fn u xj v yj sg lx ly) xi yi
    (NlmlSvd.kfu_fn xi xj yi yj sg lx ly ph).
Proof.
exists (sp.eval env8 (sp.diff NlmlSvd.kuu_sym [:: sp.x_i])),
       (sp.eval env8 (sp.diff NlmlSvd.kuu_sym [:: sp.y_i; sp.y_i])); split.
- apply: (@diff1_sound_at env8 sp.x_i NlmlSvd.kuu_sym); first by lambdify_at.
  + by [].
  + by rewrite /NlmlSvd.kuu_sym /env8; smooth_gauss.
- apply: (@diff2_sound_at env8 sp.y_i NlmlSvd.kuu_sym); first by lambdify_at.
  + by [].
  + by move=> u; rewrite /NlmlSvd.kuu_sym /env8; smooth_gauss.
  + by rewrite /NlmlSvd.kuu_sym /env8; smooth_gauss.
- rewrite /NlmlSvd.kfu_fn /NlmlSvd.kuu_fn /NlmlSvd.lambdify8.
  rewrite /NlmlSvd.lambdify7 /NlmlSvd.kfu_sym /env8 /NlmlSvd.kuu_sym.
  by sp_compute; toR; ring.
Qed.

Lemma NlmlSvd_kff_from_kfu :
  DetMax_operator_at ph (fun u v => NlmlSvd.kfu_fn xi u yi v sg lx ly ph) xj yj
    (NlmlSvd.kff_fn xi xj yi yj sg lx ly ph).
Proof.
exists (sp.eval env8 (sp.diff NlmlSvd.kfu_sym [:: sp.x_j])),
       (sp.eval env8 (sp.diff NlmlSvd.kfu_sym [:: sp.y_j; sp.y_j])); split.
- apply: (@diff1_sound_at env8 sp.x_j NlmlSvd.kfu_sym); first by lambdify_at.
  + by [].
  + by rewrite /NlmlSvd.kfu_sym /NlmlSvd.kuu_sym /env8; smooth_gauss.
- apply: (@diff2_sound_at env8 sp.y_j NlmlSvd.kfu_sym); first by lambdify_at.
  + by [].
  + by move=> u; rewrite /NlmlSvd.kfu_sym /NlmlSvd.kuu_sym /env8; smooth_gauss.
  + by rewrite /NlmlSvd.kfu_sym /NlmlSvd.kuu_sym /env8; smooth_gauss.
- rewrite /NlmlSvd.kff_fn /NlmlSvd.kfu_fn /NlmlSvd.lambdify8.
  rewrite /NlmlSvd.kff_sym /NlmlSvd.kfu_sym /env8.
  by rewrite /NlmlSvd.kuu_sym; sp_compute; fold_exp; toR; ring.
Qed.

End NlmlSvdOperator.

(** X8: in the determinant-form and SVD notebooks the kernel kfu is the
    operator phi u + u_x + u_yy of the notebooks' equation applied to kuu
    as a function of the first sample point, and kff is the same operator
    applied to kfu as a function of the second sample point; this holds
    for all points and all positive length scales. *)
Theorem operator_kernels_2D (xi xj yi yj sg lx ly ph : R) :
  (0 < lx)%Re -> (0 < ly)%Re ->
  [/\ DetMax_operator_at ph (fun u v => DetMax.kuu_fn u xj v yj lx ly) xi yi
        (DetMax.kfu_fn xi xj yi yj lx ly ph),
      DetMax_operator_at ph (fun u v => DetMax.kfu_fn xi u yi v lx ly ph) xj yj
        (DetMax.kff_fn xi xj yi yj lx ly ph),
      DetMax_operator_at ph (fun u v => NlmlSvd.kuu_fn u xj v yj sg lx ly) xi yi
        (NlmlSvd.kfu_fn xi xj yi yj sg lx ly ph)
    & DetMax_operator_at ph
        (fun u v => NlmlSvd.kfu_fn xi u yi v sg lx ly ph) xj yj
        (NlmlSvd.kff_fn xi xj yi yj sg lx ly ph)].
Proof.
move=> lx0 ly0; split.
- exact: DetMax_kfu_from_kuu.
- exact: DetMax_kff_from_kfu.
- exact: NlmlSvd_kfu_from_kuu.
- exact: NlmlSvd_kff_from_kfu.
Qed.

Lemma operator_kernels_2D_witness :
  [/\ DetMax_operator_at 2 (fun u v => DetMax.kuu_fn u 0 v 0 1 1) 1 0
        (DetMax.kfu_fn 1 0 0 0 1 1 2),
      DetMax_operator_at 2 (fun u v => DetMax.kfu_fn 1 u 0 v 1 1 2) 0 0
        (DetMax.kff_fn 1 0 0 0 1 1 2),
      DetMax_operator_at 2 (fun u v => NlmlSvd.kuu_fn u 0 v 0 1 1 1) 1 0
        (NlmlSvd.kfu_fn 1 0 0 0 1 1 1 2)
    & DetMax_operator_at 2 (fun u v => NlmlSvd.kfu_fn 1 u 0 v 1 1 1 2) 0 0
        (NlmlSvd.kff_fn 1 0 0 0 1 1 1 2)].
Proof. by apply: operator_kernels_2D; toR; lra. Defined.

(* The operator of the advection-diffusion notebooks,
   a u_x + b u_y + c u_xx + d u_yy - u_t, applied to a function k of a
   point (x, y, t): r is its value at (x0, y0, t0).                        *)
Definition AdvDiff_operator_at (a b c d : R) (k : R -> R -> R -> R)
    (x0 y0 t0 r : R) : Prop :=
  exists kx ky kxx kyy kt : R,
    [/\ derivable_pt_lim (fun u => k u y0 t0) x0 kx,
        derivable_pt_lim (fun u => k x0 u t0) y0 ky,
        second_derivative (fun u => k u y0 t0) x0 kxx,
        second_derivative (fun u => k x0 u t0) y0 kyy
      & derivable_pt_lim (fun u => k x0 y0 u) t0 kt]
    /\ r = a * kx + b * ky + c * kxx + d * kyy - kt.

(* The operator of the 3D notebook, u_xx + u_y + phi u_t.                  *)
Definition Example3D_operator_at (ph : R) (k : R -> R -> R -> R)
    (x0 y0 t0 r : R) : Prop :=
  exists kxx ky kt : R,
    [/\ second_derivative (fun u => k u y0 t0) x0 kxx,
        derivable_pt_lim (fun u => k x0 u t0) y0 ky,
        derivable_pt_lim (fun u => k x0 y0 u) t0 kt
      & r = kxx + ky + ph * kt].

Section AdvDiffOperator.

Variables xi xj yi yj ti tj sg lx ly lt a b c d : R.
Hypothesis lx0 : (0 < lx)%Re.
Hypothesis ly0 : (0 < ly)%Re.
Hypothesis lt0 : (0 < lt)%Re.

Let env14 :=
  sp.bind_args
    [:: sp.x_i; sp.x_j; sp.y_i; sp.y_j; sp.t_i; sp.t_j; sp.sigma;
        sp.l_x; sp.l_y; sp.l_t; sp.a; sp.b; sp.c; sp.d]
    [:: xi; xj; yi; yj; ti; tj; sg; lx; ly; lt; a; b; c; d].

Lemma AdvDiff_kfu_from_kuu :
  AdvDiff_operator_at a b c d
    (fun u v w => AdvDiff.kuu_fn u xj v yj w tj sg lx ly lt) xi yi ti
    (AdvDiff.kfu_fn xi xj yi yj ti tj sg lx ly lt a b c d).
Proof.
exists (sp.eval env14 (sp.diff AdvDiff.kuu_sym [:: sp.x_i])),
       (sp.eval env14 (sp.diff AdvDiff.kuu_sym [:: sp.y_i])),
       (sp.eval env14 (sp.diff AdvDiff.kuu_sym [:: sp.x_i; sp.x_i])),
       (sp.eval env14 (sp.diff AdvDiff.kuu_sym [:: sp.y_i; sp.y_i])),
       (sp.eval env14 (sp.diff AdvDiff.kuu_sym [:: sp.t_i])); split; first split.
- apply: (@diff1_sound_at env14 sp.x_i AdvDiff.kuu_sym); first by lambdify_at.
  + by [].
  + by rewrite /AdvDiff.kuu_sym /env14; smooth_gauss.
- apply: (@diff1_sound_at env14 sp.y_i AdvDiff.kuu_sym); first by lambdify_at.
  + by [].
  + by rewrite /AdvDiff.kuu_sym /env14; smooth_gauss.
- apply: (@diff2_sound_at env14 sp.x_i AdvDiff.kuu_sym); first by lambdify_at.
  + by [].
  + by move=> u; rewrite /AdvDiff.kuu_sym /env14; smooth_gauss.
  + by rewrite /AdvDiff.kuu_sym /env14; smooth_gauss.
- apply: (@diff2_sound_at env14 sp.y_i AdvDiff.kuu_sym); first by lambdify_at.
  + by [].
  + by move=> u; rewrite /AdvDiff.kuu_sym /env14; smooth_gauss.
  + by rewrite /AdvDiff.kuu_sym /env14; smooth_gauss.
- apply: (@diff1_sound_at env14 sp.t_i AdvDiff.kuu_sym); first by lambdify_at.
  + by [].
  + by rewrite /AdvDiff.kuu_sym /env14; smooth_gauss.
- rewrite /AdvDiff.kfu_fn /AdvDiff.lambdify14 /AdvDiff.kfu_sym /env14.
  by rewrite /AdvDiff.kuu_sym; sp_compute; toR; ring.
Qed.

Lemma AdvDiff_kff_from_kfu :
  AdvDiff_operator_at a b c d
    (fun u v w => AdvDiff.kfu_fn xi u yi v ti w sg lx ly lt a b c d) xj yj tj
    (AdvDiff.kff_fn xi xj yi yj ti tj sg lx ly lt a b c d).
Proof.
exists (sp.eval env14 (sp.diff AdvDiff.kfu_sym [:: sp.x_j])),
       (sp.eval env14 (sp.diff AdvDiff.kfu_sym [:: sp.y_j])),
       (sp.eval env14 (sp.diff AdvDiff.kfu_sym [:: sp.x_j; sp.x_j])),
       (sp.eval env14 (sp.diff AdvDiff.kfu_sym [:: sp.y_j; sp.y_j])),
       (sp.eval env14 (sp.diff AdvDiff.kfu_sym [:: sp.t_j])); split; first split.
- apply: (@diff1_sound_at env14 sp.x_j AdvDiff.kfu_sym); first by lambdify_at.
  + by [].
  + by rewrite /AdvDiff.kfu_sym /AdvDiff.kuu_sym /env14; smooth_gauss.
- apply: (@diff1_sound_at env14 sp.y_j AdvDiff.kfu_sym); first by lambdify_at.
  + by [].
  + by rewrite /AdvDiff.kfu_sym /AdvDiff.kuu_sym /env14; smooth_gauss.
- apply: (@diff2_sound_at env14 sp.x_j AdvDiff.kfu_sym); first by lambdify_at.
  + by [].
  + by move=> u; rewrite /AdvDiff.kfu_sym /AdvDiff.kuu_sym /env14; smooth_gauss.
  + by rewrite /AdvDiff.kfu_sym /AdvDiff.kuu_sym /env14; smooth_gauss.
- apply: (@diff2_sound_at env14 sp.y_j AdvDiff.kfu_sym); first by lambdify_at.
  + by [].
  + by move=> u; rewrite /AdvDiff.kfu_sym /AdvDiff.kuu_sym /env14; smooth_gauss.
  + by rewrite /AdvDiff.kfu_sym /AdvDiff.kuu_sym /env14; smooth_gauss.
- apply: (@diff1_sound_at env14 sp.t_j AdvDiff.kfu_sym); first by lambdify_at.
  + by [].
  + by rewrite /AdvDiff.kfu_sym /AdvDiff.kuu_sym /env14; smooth_gauss.
- rewrite /AdvDiff.kff_fn /AdvDiff.kfu_fn /AdvDiff.lambdify14.
  rewrite /AdvDiff.kff_sym /AdvDiff.kfu_sym /env14 /AdvDiff.kuu_sym.
  by sp_compute; fold_exp; toR; ring.
Qed.

End AdvDiffOperator.

Section Example3DOperator.

Variables xi xj yi yj ti tj sg lx ly lt ph : R.
Hypothesis lx0 : (0 < lx)%Re.
Hypothesis ly0 : (0 < ly)%Re.
Hypothesis lt0 : (0 < lt)%Re.

Let env11 :=
  sp.bind_args
    [:: sp.x_i; sp.x_j; sp.y_i; sp.y_j; sp.t_i; sp.t_j; sp.sigma;
        sp.l_x; sp.l_y; sp.l_t; sp.phi]
    [:: xi; xj; yi; yj; ti; tj; sg; lx; ly; lt; ph].

Lemma Example3D_kfu_from_kuu :
  Example3D_operator_at ph
    (fun u v w => Example3D.kuu_fn u xj v yj w tj sg lx ly lt) xi yi ti
    (Example3D.kfu_fn xi xj yi yj ti tj sg lx ly lt ph).
Proof.
exists (sp.eval env11 (sp.diff Example3D.kuu_sym [:: sp.x_i; sp.x_i])),
       (sp.eval env11 (sp.diff Example3D.kuu_sym [:: sp.y_i])),
       (sp.eval env11 (sp.diff Example3D.kuu_sym [:: sp.t_i])); split.
- apply: (@diff2_sound_at env11 sp.x_i Example3D.kuu_sym); first by lambdify_at.
  + by [].
  + by move=> u; rewrite /Example3D.kuu_sym /env11; smooth_gauss.
  + by rewrite /Example3D.kuu_sym /env11; smooth_gauss.
- apply: (@diff1_sound_at env11 sp.y_i Example3D.kuu_sym); first by lambdify_at.
  + by [].
  + by rewrite /Example3D.kuu_sym /env11; smooth_gauss.
- apply: (@diff1_sound_at env11 sp.t_i Example3D.kuu_sym); first by lambdify_at.
  + by [].
  + by rewrite /Example3D.kuu_sym /env11; smooth_gauss.
- rewrite /Example3D.kfu_fn /Example3D.lambdify11 /Example3D.kfu_sym /env11.
  by rewrite /Example3D.kuu_sym; sp_compute; toR; ring.
Qed.

Lemma Example3D_kff_from_kfu :
  Example3D_operator_at ph
    (fun u v w => Example3D.kfu_fn xi u yi v ti w sg lx ly lt ph) xj yj tj
    (Example3D.kff_fn xi xj yi yj ti tj sg lx ly lt ph).
Proof.
exists (sp.eval env11 (sp.diff Example3D.kfu_sym [:: sp.x_j; sp.x_j])),
       (sp.eval env11 (sp.diff Example3D.kfu_sym [:: sp.y_j])),
       (sp.eval env11 (sp.diff Example3D.kfu_sym [:: sp.t_j])); split.
- apply: (@diff2_sound_at env11 sp.x_j Example3D.kfu_sym); first by lambdify_at.
  + by [].
  + move=> u; rewrite /Example3D.kfu_sym /Example3D.kuu_sym /env11.
    by smooth_gauss.
  + by rewrite /Example3D.kfu_sym /Example3D.kuu_sym /env11; smooth_gauss.
- apply: (@diff1_sound_at env11 sp.y_j Example3D.kfu_sym); first by lambdify_at.
  + by [].
  + by rewrite /Example3D.kfu_sym /Example3D.kuu_sym /env11; smooth_gauss.
- apply: (@diff1_sound_at env11 sp.t_j Example3D.kfu_sym); first by lambdify_at.
  + by [].
  + by rewrite /Example3D.kfu_sym /Example3D.kuu_sym /env11; smooth_gauss.
- rewrite /Example3D.kff_fn /Example3D.kfu_fn /Example3D.lambdify11.
  rewrite /Example3D.kff_sym /Example3D.kfu_sym /env11 /Example3D.kuu_sym.
  by sp_compute; fold_exp; toR; ring.
Qed.

End Example3DOperator.

(** X9: in the advection-diffusion notebooks the kernel kfu is the
    operator a u_x + b u_y + c u_xx + d u_yy - u_t applied to kuu as a
    function of the first sample point (x_i, y_i, t_i), and the 25-term
    kernel kff is the same operator applied to kfu as a function of the
    second sample point; this holds for all points, all coefficients and
    all positive length scales. *)
Theorem operator_kernels_advection_diffusion
    (xi xj yi yj ti tj sg lx ly lt a b c d : R) :
  (0 < lx)%Re -> (0 < ly)%Re -> (0 < lt)%Re ->
  AdvDiff_operator_at a b c d
    (fun u v w => AdvDiff.kuu_fn u xj v yj w tj sg lx ly lt) xi yi ti
    (AdvDiff.kfu_fn xi xj yi yj ti tj sg lx ly lt a b c d) /\
  AdvDiff_operator_at a b c d
    (fun u v w => AdvDiff.kfu_fn xi u yi v ti w sg lx ly lt a b c d) xj yj tj
    (AdvDiff.kff_fn xi xj yi yj ti tj sg lx ly lt a b c d).
Proof.
move=> lx0 ly0 lt0; split.
- exact: AdvDiff_kfu_from_kuu.
- exact: AdvDiff_kff_from_kfu.
Qed.

Lemma operator_kernels_advection_diffusion_witness :
  AdvDiff_operator_at 2 2 1 1
    (fun u v w => AdvDiff.kuu_fn u 0 v 0 w 0 1 1 1 1) 1 0 0
    (AdvDiff.kfu_fn 1 0 0 0 0 0 1 1 1 1 2 2 1 1) /\
  AdvDiff_operator_at 2 2 1 1
    (fun u v w => AdvDiff.kfu_fn 1 u 0 v 0 w 1 1 1 1 2 2 1 1) 0 0 0
    (AdvDiff.kff_fn 1 0 0 0 0 0 1 1 1 1 2 2 1 1).
Proof. by apply: operator_kernels_advection_diffusion; toR; lra. Defined.

(** X10: in the 3D notebook the kernel kfu is the operator
    u_xx + u_y + phi u_t applied to kuu as a function of the first sample
    point, and kff is the same operator applied to kfu as a function of
    the second sample point; this holds for all points and all positive
    length scales. *)
Theorem operator_kernels_3D (xi xj yi yj ti tj sg lx ly lt ph : R) :
  (0 < lx)%Re -> (0 < ly)%Re -> (0 < lt)%Re ->
  Example3D_operator_at ph
    (fun u v w => Example3D.kuu_fn u xj v yj w tj sg lx ly lt) xi yi ti
    (Example3D.kfu_fn xi xj yi yj ti tj sg lx ly lt ph) /\
  Example3D_operator_at ph
    (fun u v w => Example3D.kfu_fn xi u yi v ti w sg lx ly lt ph) xj yj tj
    (Example3D.kff_fn xi xj yi yj ti tj sg lx ly lt ph).
Proof.
move=> lx0 ly0 lt0; split.
- exact: Example3D_kfu_from_kuu.
- exact: Example3D_kff_from_kfu.
Qed.

Lemma operator_kernels_3D_witness :
  Example3D_operator_at 2
    (fun u v w => Example3D.kuu_fn u 0 v 0 w 0 1 1 1 1) 1 0 0
    (Example3D.kfu_fn 1 0 0 0 0 0 1 1 1 1 2) /\
  Example3D_operator_at 2
    (fun u v w => Example3D.kfu_fn 1 u 0 v 0 w 1 1 1 1 2) 0 0 0
    (Example3D.kff_fn 1 0 0 0 0 0 1 1 1 1 2).
Proof. by apply: operator_kernels_3D; toR; lra. Defined.

(* The Matern kernel is smooth away from coinciding sample points.         *)
Lemma Matern_radicand_pos (a b c d lx ly : R) :
  (0 < lx)%Re -> (0 < ly)%Re -> a <> b ->
  (0 < (a + -1 * b) ^ Pos.to_nat 2 * / lx ^ Pos.to_nat 1 +
       (c + -1 * d) ^ Pos.to_nat 2 * / ly ^ Pos.to_nat 1)%Re.
Proof.
move=> lx0 ly0 ab; rewrite /= !Rmult_1_r.
have ix := Rinv_0_lt_compat _ lx0; have iy := Rinv_0_lt_compat _ ly0.
have sq : (0 < (a + -1 * b) * (a + -1 * b))%Re.
  have /Rsqr_pos_lt : (a + -1 * b)%Re <> 0%Re by move=> e; apply: ab; lra.
  by [].
have sq' : (0 <= (c + -1 * d) * (c + -1 * d))%Re.
  exact: Rle_0_sqr.
apply: Rplus_lt_le_0_compat; first exact: Rmult_lt_0_compat.
by apply: Rmult_le_pos => //; lra.
Qed.

Lemma Matern_root_neq0 (a b c d lx ly : R) :
  (0 < lx)%Re -> (0 < ly)%Re -> a <> b ->
  (2 * sqrt ((a + -1 * b) ^ Pos.to_nat 2 * / lx ^ Pos.to_nat 1 +
             (c + -1 * d) ^ Pos.to_nat 2 * / ly ^ Pos.to_nat 1))%Re <> 0%Re.
Proof.
move=> lx0 ly0 ab.
have := sqrt_lt_R0 _ (@Matern_radicand_pos a b c d lx ly lx0 ly0 ab).
by move=> ? ?; lra.
Qed.

Ltac smooth_matern :=
  sp_smooth_compute;
  cbv [sp_upd sp.bind_args sp.symbol_eqb sp.symbol_id Nat.eqb];
  repeat split;
  first [ lra | exact: Matern_radicand_pos | exact: Matern_root_neq0 ].

Section MaternOperator.

Variables xi xj yi yj sg lx ly ph : R.
Hypothesis lx0 : (0 < lx)%Re.
Hypothesis ly0 : (0 < ly)%Re.
Hypothesis xij : xi <> xj.

Let env8 :=
  sp.bind_args
    [:: sp.x_i; sp.x_j; sp.y_i; sp.y_j; sp.sigma; sp.l_x; sp.l_y; sp.phi]
    [:: xi; xj; yi; yj; sg; lx; ly; ph].

Lemma Matern_kfu_from_kuu :
  DetMax_operator_at ph (fun u v => Matern.kuu_fn u xj v yj sg lx ly) xi yi
    (Matern.kfu_fn xi xj yi yj sg lx ly ph).
Proof.
exists (sp.eval env8 (sp.diff Matern.kuu_sym [:: sp.x_i])),
       (sp.eval env8 (sp.diff Matern.kuu_sym [:: sp.y_i; sp.y_i])); split.
- apply: (@diff1_sound_at env8 sp.x_i Matern.kuu_sym); first by lambdify_at.
  + by [].
  + by rewrite /Matern.kuu_sym /Matern.r_l /env8; smooth_matern.
- apply: (@diff2_sound_at env8 sp.y_i Matern.kuu_sym); first by lambdify_at.
  + by [].
  + by move=> u; rewrite /Matern.kuu_sym /Matern.r_l /env8; smooth_matern.
  + by rewrite /Matern.kuu_sym /Matern.r_l /env8; smooth_matern.
- rewrite /Matern.kfu_fn /Matern.kuu_fn /Matern.lambdify8 /Matern.lambdify7.
  rewrite /Matern.kfu_sym /env8 /Matern.kuu_sym /Matern.r_l.
  by sp_compute; toR; ring.
Qed.

Lemma Matern_kff_from_kfu :
  DetMax_operator_at ph (fun u v => Matern.kfu_fn xi u yi v sg lx ly ph) xj yj
    (Matern.kff_fn xi xj yi yj sg lx ly ph).
Proof.
exists (sp.eval env8 (sp.diff Matern.kfu_sym [:: sp.x_j])),
       (sp.eval env8 (sp.diff Matern.kfu_sym [:: sp.y_j; sp.y_j])); split.
- apply: (@diff1_sound_at env8 sp.x_j Matern.kfu_sym); first by lambdify_at.
  + by [].
  + rewrite /Matern.kfu_sym /Matern.kuu_sym /Matern.r_l /env8.
    by smooth_matern.
- apply: (@diff2_sound_at env8 sp.y_j Matern.kfu_sym); first by lambdify_at.
  + by [].
  + move=> u; rewrite /Matern.kfu_sym /Matern.kuu_sym /Matern.r_l /env8.
    by smooth_matern.
  + rewrite /Matern.kfu_sym /Matern.kuu_sym /Matern.r_l /env8.
    by smooth_matern.
- rewrite /Matern.kff_fn /Matern.kfu_fn /Matern.lambdify8 /Matern.kff_sym.
  rewrite /Matern.kfu_sym /env8 /Matern.kuu_sym /Matern.r_l.
  by sp_compute; fold_exp; toR; ring.
Qed.

End MaternOperator.

(** X11: in the Matern notebook, at sample points with different
    abscissae and positive length scales, the kernel kfu is the operator
    phi u + u_x + u_yy applied to kuu as a function of the first sample
    point, and kff is the same operator applied to kfu as a function of
    the second sample point. *)
Theorem operator_kernels_Matern (xi xj yi yj sg lx ly ph : R) :
  (0 < lx)%Re -> (0 < ly)%Re -> xi <> xj ->
  DetMax_operator_at ph (fun u v => Matern.kuu_fn u xj v yj sg lx ly) xi yi
    (Matern.kfu_fn xi xj yi yj sg lx ly ph) /\
  DetMax_operator_at ph (fun u v => Matern.kfu_fn xi u yi v sg lx ly ph) xj yj
    (Matern.kff_fn xi xj yi yj sg lx ly ph).
Proof.
move=> lx0 ly0 xij; split.
- exact: Matern_kfu_from_kuu.
- exact: Matern_kff_from_kfu.
Qed.

Lemma operator_kernels_Matern_witness :
  DetMax_operator_at 2 (fun u v => Matern.kuu_fn u 0 v 0 1 1 1) 1 0
    (Matern.kfu_fn 1 0 0 0 1 1 1 2) /\
  DetMax_operator_at 2 (fun u v => Matern.kfu_fn 1 u 0 v 1 1 1 2) 0 0
    (Matern.kff_fn 1 0 0 0 1 1 1 2).
Proof. by apply: operator_kernels_Matern; toR; lra. Defined.

(* ---------------------------------------------------------------------- *)
(*  34. The simulated observations solve the notebooks' equations          *)
(* ---------------------------------------------------------------------- *)

Lemma second_derivative_unique (f f' : R -> R) (t d d2 : R) :
  (forall u, derivable_pt_lim f u (f' u)) -> derivable_pt_lim f' t d ->
  second_derivative f t d2 -> d2 = d.
Proof.
move=> df df' [g [dg dg']].
have gE u : f' u = g u by apply: uniqueness_limite (df u) (dg u).
apply: uniqueness_limite df'.
by apply: derivable_pt_lim_ext dg' => z.
Qed.

Ltac der_poly :=
  repeat first [ apply: der_id | apply: der_const | apply: der_add
               | apply: der_mul | apply: der_opp ].

(* u(x, y) = x^2 + y, the solution the 2D notebooks sample.                *)
Definition solution_2D (a b : R) : R := a * a + b.

Lemma solution_2D_x (a b : R) :
  derivable_pt_lim (fun u => solution_2D u b) a (2%Re * a).
Proof.
apply: (@der_eq _ _ (1 * a + a * 1 + 0)); first by toR; ring.
by rewrite /solution_2D; der_poly.
Qed.

Lemma solution_2D_y (a b : R) :
  derivable_pt_lim (fun u => solution_2D a u) b 1.
Proof.
apply: (@der_eq _ _ (0 + 1)); first by toR; ring.
by rewrite /solution_2D; der_poly.
Qed.

(** X12: the observations that [simulate_data] of the 2D notebooks
    produces solve the notebooks' equation with phi = 2.  At every sample
    point y_u is u = x^2 + y and y_f is phi u + u_x + u_yy for phi = 2;
    and at a sample point where u does not vanish, 2 is the only value of
    phi for which y_f is the operator applied to u. *)
Theorem simulate_data_solves_2D n (x y : 'rV[R]_n) (i : 'I_n) :
  [/\ DetMax.y_u x y 0 i = solution_2D (x 0 i) (y 0 i),
      Matern.y_u x y = DetMax.y_u x y /\ Matern.y_f x y = DetMax.y_f x y,
      DetMax_operator_at 2 solution_2D (x 0 i) (y 0 i) (DetMax.y_f x y 0 i)
    & forall ph : R,
        DetMax_operator_at ph solution_2D (x 0 i) (y 0 i)
          (DetMax.y_f x y 0 i) ->
        DetMax.y_u x y 0 i <> 0 -> ph = 2%Re].
Proof.
have dyy v : derivable_pt_lim (fun _ : R => 1) v 0 by apply: der_const.
split=> //.
- by rewrite mxE.
- exists (2%Re * x 0 i), 0; split; first exact: solution_2D_x.
    by exists (fun=> 1); split=> // u; apply: solution_2D_y.
  by rewrite mxE /solution_2D; toR; ring.
- move=> ph [kx [kyy [dx dy]]]; rewrite !mxE => e u0.
  have kxE := uniqueness_limite _ _ _ _ dx (solution_2D_x (x 0 i) (y 0 i)).
  have kyyE := second_derivative_unique (solution_2D_y (x 0 i))
                 (dyy (y 0 i)) dy.
  move: e u0; rewrite kxE kyyE /solution_2D; toR => e u0.
  apply: (Rmult_eq_reg_r (x 0 i * x 0 i + y 0 i)) => //.
  by toR; nra.
Qed.

(* u(x, y, t) = exp(2x) + 3y - t, the solution the synthetic
   advection-diffusion notebook samples.                                   *)
Definition solution_advection (a b c : R) : R :=
  Rtrigo_def.exp (2%Re * a) + 3%Re * b - c.

Lemma exp2_der (a : R) :
  derivable_pt_lim (fun u => Rtrigo_def.exp (2%Re * u)) a
    (2%Re * Rtrigo_def.exp (2%Re * a)).
Proof.
have d2 : derivable_pt_lim (fun u => 2%Re * u) a 2%Re.
  apply: (@der_eq _ _ (0 * a + 2%Re * 1)); first by toR; ring.
  by der_poly.
apply: (@der_eq _ _ (Rtrigo_def.exp (2%Re * a) * 2%Re)); first by toR; ring.
exact: (der_comp d2 (derivable_pt_lim_exp _)).
Qed.

Lemma solution_advection_x (a b c : R) :
  derivable_pt_lim (fun u => solution_advection u b c) a
    (2%Re * Rtrigo_def.exp (2%Re * a)).
Proof.
apply: (@der_eq _ _ (2%Re * Rtrigo_def.exp (2%Re * a)
                     + (0 * b + 3%Re * 0) + - 0)); first by toR; ring.
rewrite /solution_advection.
apply: der_add; last by der_poly.
by apply: der_add; [apply: exp2_der | der_poly].
Qed.

Lemma solution_advection_xx (a b c : R) :
  second_derivative (fun u => solution_advection u b c) a
    (4%Re * Rtrigo_def.exp (2%Re * a)).
Proof.
exists (fun u => 2%Re * Rtrigo_def.exp (2%Re * u)); split.
  by move=> u; apply: solution_advection_x.
apply: (@der_eq _ _ (0 * Rtrigo_def.exp (2%Re * a)
                     + 2%Re * (2%Re * Rtrigo_def.exp (2%Re * a)))).
  by toR; ring.
by apply: der_mul; [apply: der_const | apply: exp2_der].
Qed.

Lemma solution_advection_y (a b c : R) :
  derivable_pt_lim (fun u => solution_advection a u c) b 3%Re.
Proof.
apply: (@der_eq _ _ (0 + (0 * b + 3%Re * 1) + - 0)); first by toR; ring.
by rewrite /solution_advection; der_poly.
Qed.

Lemma solution_advection_t (a b c : R) :
  derivable_pt_lim (fun u => solution_advection a b u) c (-1)%Re.
Proof.
apply: (@der_eq _ _ (0 + (0 * b + 3%Re * 0) + - 1)); first by toR; ring.
by rewrite /solution_advection; der_poly.
Qed.

(** X13: the observations that [simulate_data] of the synthetic
    advection-diffusion notebook produces solve the notebook's equation
    a u_x + b u_y + c u_xx + d u_yy - u_t = f.  At every sample point y_u
    is u = exp(2x) + 3y - t and y_f = 5 is the operator applied to u for
    a = -1, b = 4/3, c = 1/2 and every d; and y_f is the operator applied
    to u only for coefficients with (2a + 4c) exp(2x) + 3b = 4, whatever
    d. *)
Theorem simulate_data_solves_advection_diffusion n (x y t : 'rV[R]_n)
    (i : 'I_n) :
  [/\ AdvDiff.Synthetic.y_u x y t 0 i =
      solution_advection (x 0 i) (y 0 i) (t 0 i),
      forall d : R,
        AdvDiff_operator_at (-1)%Re (4 / 3)%Re (1 / 2)%Re d solution_advection
          (x 0 i) (y 0 i) (t 0 i) (AdvDiff.Synthetic.y_f n 0 i)
    & forall a b c d : R,
        AdvDiff_operator_at a b c d solution_advection
          (x 0 i) (y 0 i) (t 0 i) (AdvDiff.Synthetic.y_f n 0 i) ->
        (2%Re * a + 4%Re * c) * Rtrigo_def.exp (2%Re * x 0 i) + 3%Re * b = 4%Re].
Proof.
have dy v := solution_advection_y (x 0 i) v (t 0 i).
have dyy v : derivable_pt_lim (fun _ : R => 3%Re) v 0 by apply: der_const.
split.
- by rewrite mxE.
- move=> d.
  exists (2%Re * Rtrigo_def.exp (2%Re * x 0 i)), 3%Re,
         (4%Re * Rtrigo_def.exp (2%Re * x 0 i)), 0, (-1)%Re; split.
    split.
    + exact: solution_advection_x.
    + exact: solution_advection_y.
    + exact: solution_advection_xx.
    + by exists (fun=> 3%Re).
    + exact: solution_advection_t.
  by rewrite !mxE; toR; field.
- move=> a b c d [kx [ky [kxx [kyy [kt [[dx dy' dxx dyy' dt]]]]]]].
  have -> := uniqueness_limite _ _ _ _ dx (solution_advection_x _ _ _).
  have -> := uniqueness_limite _ _ _ _ dy' (solution_advection_y _ _ _).
  have -> := uniqueness_limite _ _ _ _ dt (solution_advection_t _ _ _).
  have [fx [dfx dfx']] := solution_advection_xx (x 0 i) (y 0 i) (t 0 i).
  have -> := second_derivative_unique dfx dfx' dxx.
  have -> := second_derivative_unique dy (dyy (y 0 i)) dyy'.
  by rewrite !mxE; toR; lra.
Qed.

(* u(x, y, t) = x + y + t, the solution the 3D notebook samples.           *)
Definition solution_3D (a b c : R) : R := a + b + c.

(** X14: the observations that [simulate_data] of the 3D notebook
    produces solve the notebook's equation u_xx + u_y + phi u_t = f with
    phi = -1 and with no other phi: at every sample point y_u is
    u = x + y + t, and y_f = 0 is the operator applied to u exactly when
    phi = -1. *)
Theorem simulate_data_solves_3D n (x y t : 'rV[R]_n) (i : 'I_n) (ph : R) :
  Example3D.y_u x y t 0 i = solution_3D (x 0 i) (y 0 i) (t 0 i) /\
  (Example3D_operator_at ph solution_3D (x 0 i) (y 0 i) (t 0 i)
     (Example3D.y_f n 0 i) <-> ph = (-1)%Re).
Proof.
have dx v : derivable_pt_lim (fun u => solution_3D u (y 0 i) (t 0 i)) v 1.
  apply: (@der_eq _ _ (1 + 0 + 0)); first by toR; ring.
  by rewrite /solution_3D; der_poly.
have dxx v : derivable_pt_lim (fun _ : R => 1) v 0 by apply: der_const.
have dy : derivable_pt_lim (fun u => solution_3D (x 0 i) u (t 0 i)) (y 0 i) 1.
  apply: (@der_eq _ _ (0 + 1 + 0)); first by toR; ring.
  by rewrite /solution_3D; der_poly.
have dt : derivable_pt_lim (fun u => solution_3D (x 0 i) (y 0 i) u) (t 0 i) 1.
  apply: (@der_eq _ _ (0 + 0 + 1)); first by toR; ring.
  by rewrite /solution_3D; der_poly.
split; first by rewrite mxE.
split.
- move=> [kxx [ky [kt [dxx' dy' dt']]]].
  have -> := second_derivative_unique dx (dxx (x 0 i)) dxx'.
  have -> := uniqueness_limite _ _ _ _ dy' dy.
  have -> := uniqueness_limite _ _ _ _ dt' dt.
  by rewrite !mxE; toR; lra.
- move=> ->; exists 0, 1, 1; split=> //.
    by exists (fun=> 1).
  by rewrite !mxE; toR; ring.
Qed.

(* ---------------------------------------------------------------------- *)
(*  35. The data generator of the advection-diffusion notebook             *)
(* ---------------------------------------------------------------------- *)

Module Generator.

(* The exceptions of Python's own that the generator can raise.            *)
Inductive py_exn := IndexError | ValueError | ZeroDivisionError | KeyError.

Inductive py (A : Type) := Return (a : A) | Throw (e : py_exn).
Arguments Return {A} a.
Arguments Throw {A} e.

Definition and_then {A B} (c : py A) (k : A -> py B) : py B :=
  match c with Return a => k a | Throw e => Throw e end.

(* for i in l: st = body(i, st)                                            *)
Fixpoint for_each {S : Type} (l : seq nat) (body : nat -> S -> py S) (st : S) :
    py S :=
  match l with
  | [::] => Return st
  | i :: l' => and_then (body i st) (for_each l' body)
  end.

(* One- and two-dimensional arrays, the latter as the list of their rows.  *)
Definition array1 : Type := seq R.
Definition array2 : Type := seq (seq R).

Definition zeros (m : nat) : array1 := nseq m 0.

Definition eye (m : nat) : array2 :=
  mkseq (fun i => mkseq (fun j => if i == j then 1 else 0) m) m.

(* a[k] = v with a Python integer k: a negative k counts from the end, an
   index outside [-len, len) raises IndexError.                            *)
Definition setitem (a : array1) (k : Z) (v : R) : py array1 :=
  let len := Z.of_nat (size a) in
  if ((0 <=? k) && (k <? len))%Z then Return (set_nth 0 a (Z.to_nat k) v)
  else if ((- len <=? k) && (k <? 0))%Z then
    Return (set_nth 0 a (Z.to_nat (k + len)) v)
  else Throw IndexError.

(* shape[1] of a two-dimensional array                                     *)
Definition width (A : array2) : nat := size (head [::] A).

Definition transpose (A : array2) : array2 :=
  mkseq (fun j => [seq nth 0 r j | r <- A]) (width A).

(* A @ B: the inner dimensions must agree.                                 *)
Definition matmul (A B : array2) : py array2 :=
  if all (fun r => size r == size B) A then
    Return [seq mkseq (fun j => \sum_(0 <= k < size B)
                                   nth 0 r k * nth 0 (nth [::] B k) j)
                      (width B)
           | r <- A]
  else Throw ValueError.

Definition pad_input_2 (input : array2) (pad_by : nat) : py array2 :=
  let mesh_size := size input in
  let B := eye mesh_size in
  and_then
    (for_each (iota 0 pad_by) (fun i B =>
       and_then
         (setitem (zeros mesh_size)
                  (Z.of_nat mesh_size - Z.of_nat i - 1)%Z 1)
         (fun a => Return (a :: B))) B) (fun B =>
  and_then
    (for_each (iota 0 pad_by) (fun i B =>
       and_then (setitem (zeros mesh_size) (Z.of_nat i) 1)
         (fun a => Return (rcons B a))) B) (fun B =>
  and_then (matmul B input) (fun BI => matmul BI (transpose B)))).

(* l[start:stop] for Python integers; stop = None is an omitted bound.     *)
Definition slice {T : Type} (start : Z) (stop : option Z) (l : seq T) : seq T :=
  let len := Z.of_nat (size l) in
  let clamp (k : Z) :=
    if (k <? 0)%Z then Z.max 0 (k + len) else Z.min k len in
  let lo := clamp start in
  let hi := if stop is Some k then clamp k else len in
  take (Z.to_nat hi - Z.to_nat lo) (drop (Z.to_nat lo) l).

(* A[rows, cols] with two slices                                           *)
Definition getitem2 (A : array2) (rows cols : Z * option Z) : array2 :=
  [seq slice cols.1 cols.2 r | r <- slice rows.1 rows.2 A].

(* Elementwise operations on arrays of one shape, and scalar multiples.    *)
Definition elementwise (op : R -> R -> R) (A B : array2) : array2 :=
  [seq [seq op p.1 p.2 | p <- zip rs.1 rs.2] | rs <- zip A B].

Definition add2 := elementwise (fun u v => u + v).
Definition sub2 := elementwise (fun u v => u - v).

Definition scale2 (s : R) (A : array2) : array2 :=
  [seq [seq s * v | v <- r] | r <- A].

(* The coefficients of the generated equation.                             *)
Definition a : R := 2%Re.
Definition b : R := 2%Re.
Definition c : R := 0.5%Re.
Definition d : R := 0.5%Re.

(* x / y for Python floats                                                 *)
Definition true_div (x y : R) : py R :=
  if y == 0 then Throw ZeroDivisionError else Return (x / y).

(* The body of the time loop of generate: one explicit step of
   u_t = a u_x + b u_y + c u_xx + d u_yy on the periodic grid.             *)
Definition step (dt dx dy : R) (u : array2) : py array2 :=
  and_then (pad_input_2 u 2) (fun padded =>
  let un := getitem2 padded (1%Z, None) (1%Z, None) in
  let inner := getitem2 un (1%Z, Some (-1)%Z) (1%Z, Some (-1)%Z) in
  let east := getitem2 un (1%Z, Some (-1)%Z) (2%Z, None) in
  let west := getitem2 un (1%Z, Some (-1)%Z) (0%Z, Some (-2)%Z) in
  let south := getitem2 un (2%Z, None) (1%Z, Some (-1)%Z) in
  let north := getitem2 un (0%Z, Some (-2)%Z) (1%Z, Some (-1)%Z) in
  and_then (true_div (c * dt) (dx ^+ 2)) (fun c_xx =>
  and_then (true_div (d * dt) (dy ^+ 2)) (fun d_yy =>
  and_then (true_div (a * dt) dx) (fun a_x =>
  and_then (true_div (b * dt) dy) (fun b_y =>
  let u' :=
    add2 (add2 (add2 (add2 inner
      (scale2 c_xx (add2 (sub2 east (scale2 2%Re inner)) west)))
      (scale2 d_yy (add2 (sub2 south (scale2 2%Re inner)) north)))
      (scale2 a_x (sub2 east inner)))
      (scale2 b_y (sub2 south inner)) in
  Return (getitem2 u' (0%Z, Some (-1)%Z) (0%Z, Some (-1)%Z))))))).

(* for n in range(nt - 1): ...; sample['u' + str(n + 1)] = u
   The layers u0, u1, ... in the order of their keys.                      *)
Fixpoint time_loop (steps : nat) (dt dx dy : R) (u : array2) :
    py (seq array2) :=
  match steps with
  | 0 => Return [:: u]
  | k.+1 => and_then (step dt dx dy u) (fun u' =>
            and_then (time_loop k dt dx dy u') (fun ls => Return (u :: ls)))
  end.

(* l[start::step] for step > 0                                             *)
Definition slice_step {T : Type} (start step : nat) (l : seq T) : seq T :=
  mask (mkseq (fun i => (start <= i) && ((i - start) %% step == 0)) (size l))
       l.

(* A sample is the dictionary with the keys 'u0', 'u1', ..., here the list
   of its values in the order of the keys.  np.random.randint(scale) is
   the argument draw; randint raises ValueError when scale <= 0.           *)
Definition downsample (draw1 draw2 : nat) (sample : seq array2) (scale : nat) :
    py (seq array2) :=
  if scale == 0%N then Throw ValueError
  else
    Return [seq [seq slice_step draw2 scale r | r <- slice_step draw1 scale A]
           | A <- sample].

(* A.mean()                                                                *)
Definition mean (A : array2) : R :=
  (\sum_(r <- A) \sum_(v <- r) v) / (sumn [seq size r | r <- A])%:R.

(* sample[arg] = sample[arg] + noise * stdvar * np.random.standard_normal(size);
   the draws of standard_normal are the arrays normal 0, normal 1, ...     *)
Definition addNoise (normal : nat -> array2) (sample : seq array2) (noise : R)
    (layers : nat) : py (seq array2) :=
  match sample with
  | [::] => Throw KeyError
  | u0 :: _ =>
      let mean_ := mean u0 in
      let stdvar :=
        sqrt (mean [seq [seq (v - mean_) ^+ 2 | v <- r] | r <- u0]) in
      let startnoise := normal 0%N in
      let sample :=
        set_nth [::] sample 0 (add2 u0 (scale2 (noise * stdvar) startnoise)) in
      for_each (iota 1 (layers - 1)) (fun l sample =>
        if l < size sample then
          let endnoise := normal l in
          Return (set_nth [::] sample l
                    (add2 (nth [::] sample l)
                          (scale2 (noise * stdvar) endnoise)))
        else Throw KeyError) sample
  end.

(* The dictionary options of the notebook.                                 *)
Record options := {
  mesh_size : nat * nat;
  layers : nat;
  dt : R;
  batch_size : nat;
  noise_level : R;
  downsample_by : nat
}.

(* What the generator draws: the initial field that initgen returns for
   sample i, the two offsets of downsample and the normal deviates of
   addNoise.                                                               *)
Record draws := {
  initgen : nat -> array2;
  offset1 : nat -> nat;
  offset2 : nat -> nat;
  standard_normal : nat -> nat -> array2
}.

Definition generate (opts : options) (rnd : draws) : py (seq (seq array2)) :=
  let nx := (mesh_size opts).1 in
  let ny := (mesh_size opts).2 in
  let nt := layers opts in
  and_then (true_div (2 * PI) (nx%:R - 1)) (fun dx =>
  and_then (true_div (2 * PI) (ny%:R - 1)) (fun dy =>
  for_each (iota 0 (batch_size opts)) (fun i batch =>
    let u := initgen rnd i in
    and_then (time_loop (nt - 1) (dt opts) dx dy u) (fun sample =>
    and_then (downsample (offset1 rnd i) (offset2 rnd i) sample
                (downsample_by opts)) (fun sample =>
    and_then (addNoise (standard_normal rnd i) sample (noise_level opts) nt)
      (fun sample => Return (rcons batch sample))))) [::])).

(* np.random.randint(high) for a float high: the argument draw, or
   ValueError when high <= 0.                                              *)
Definition randint (high : Z) (draw : nat) : py nat :=
  if (0 <? high)%Z then Return draw else Throw ValueError.

(* l[k] for a list and an index k >= 0                                     *)
Definition getitem {T : Type} (e : py_exn) (x0 : T) (l : seq T) (k : nat) :
    py T :=
  if k < size l then Return (nth x0 l k) else Throw e.

(* The draws of simulate_data in its pass i.                               *)
Record picks := {
  t_rand : nat -> nat;
  x_rand : nat -> nat;
  y_rand : nat -> nat
}.

(* m // (2*np.pi)                                                          *)
Definition floor_div_2pi (m : nat) : Z := Int_part (m%:R / (2 * PI)).

(* simulate_data of the notebook, with its lists x_val_arr, y_val_arr,
   t_val_arr and val_arr as the state of the loop; n is the global n.      *)
Definition simulate_data (opts : options) (rnd : draws) (pk : picks) (n : nat) :
    py (seq R * seq R * seq R * seq R * seq R) :=
  and_then (generate opts rnd) (fun batch =>
  and_then
    (for_each (iota 0 n) (fun i st =>
       let '(x_val_arr, y_val_arr, t_val_arr, val_arr) := st in
       and_then (randint (Z.of_nat (layers opts)) (t_rand pk i)) (fun t_rand =>
       and_then (randint (floor_div_2pi (mesh_size opts).1) (x_rand pk i))
         (fun x_rand =>
       and_then (randint (floor_div_2pi (mesh_size opts).2) (y_rand pk i))
         (fun y_rand =>
       and_then (getitem IndexError [::] batch 0) (fun sample =>
       and_then (getitem KeyError [::] sample t_rand) (fun layer =>
       and_then (getitem IndexError [::] layer x_rand) (fun row =>
       and_then (getitem IndexError 0 row y_rand) (fun val =>
       and_then (true_div (2 * PI) ((mesh_size opts).1%:R - 1)) (fun hx =>
       and_then (true_div (2 * PI) ((mesh_size opts).2%:R - 1)) (fun hy =>
       let x_val := hx * x_rand%:R in
       let y_val := hy * y_rand%:R in
       let t_val := t_rand%:R * dt opts in
       Return (rcons x_val_arr x_val, rcons y_val_arr y_val,
               rcons t_val_arr t_val, rcons val_arr val)))))))))))
       ([::], [::], [::], [::]))
    (fun st =>
       let '(x_val_arr, y_val_arr, t_val_arr, val_arr) := st in
       Return (x_val_arr, y_val_arr, t_val_arr, val_arr,
               zeros (size val_arr)))).

End Generator.

(* ---------------------------------------------------------------------- *)
(*  36. Periodic padding                                                   *)
(* ---------------------------------------------------------------------- *)

Import Generator.

(* The unit vector that the loops of pad_input_2 build.                    *)
Definition one_hot (m k : nat) : array1 :=
  mkseq (fun j => if j == k then 1 else 0) m.

(* An m x w array.                                                         *)
Definition has_shape (m w : nat) (A : array2) : bool :=
  (size A == m) && all (fun r => size r == w) A.

(* The entry of a padded array comes from this row or column.              *)
Definition periodic (m p r : nat) : nat := (r + (m - p)) %% m.

Lemma Zltb_nat (i m : nat) : (Z.of_nat i <? Z.of_nat m)%Z = (i < m).
Proof.
apply/idP/idP.
  by move/Z.ltb_lt/Nat2Z.inj_lt/ltP.
by move/ltP/Nat2Z.inj_lt/Z.ltb_lt.
Qed.

Lemma Zleb0_nat (i : nat) : (0 <=? Z.of_nat i)%Z.
Proof. exact/Z.leb_le/Nat2Z.is_nonneg. Qed.

Lemma set_nth_zeros (m k : nat) :
  k < m -> set_nth 0 (zeros m) k 1 = one_hot m k.
Proof.
move=> km; apply: (@eq_from_nth _ 0).
  by rewrite size_set_nth size_nseq size_mkseq; apply/maxn_idPr.
move=> j; rewrite size_set_nth size_nseq (maxn_idPr km) => jm.
by rewrite nth_set_nth /= nth_nseq jm nth_mkseq.
Qed.

Lemma setitem_front (m i : nat) :
  setitem (zeros m) (Z.of_nat i) 1 =
  if i < m then Return (one_hot m i) else Throw IndexError.
Proof.
rewrite /setitem size_nseq Zleb0_nat Zltb_nat /=.
case: ltnP => im; first by rewrite Nat2Z.id set_nth_zeros.
have -> : (Z.of_nat i <? 0)%Z = false.
  by apply/Z.ltb_ge/Nat2Z.is_nonneg.
by rewrite andbF.
Qed.

Lemma setitem_back (m i : nat) :
  i < m ->
  setitem (zeros m) (Z.of_nat m - Z.of_nat i - 1)%Z 1 =
  Return (one_hot m (m - i.+1)).
Proof.
move=> im; rewrite /setitem size_nseq.
have e : (Z.of_nat m - Z.of_nat i - 1)%Z = Z.of_nat (m - i.+1).
  move/ltP: im => im.
  have -> : (m - i.+1)%N = (m - S i)%coq_nat by [].
  by rewrite Nat2Z.inj_sub //; lia.
rewrite e Zleb0_nat Zltb_nat Nat2Z.id /=.
have lt : m - i.+1 < m by rewrite ltn_subrL /= (leq_ltn_trans _ im).
by rewrite lt set_nth_zeros.
Qed.

(* Whatever its argument, the store a[mesh_size - i - 1] = 1 fails with
   IndexError only.                                                        *)
Lemma setitem_throws (a0 : array1) (k : Z) (v : R) (e : py_exn) :
  setitem a0 k v = Throw e -> e = IndexError.
Proof.
rewrite /setitem; case: ifP => // _; case: ifP => // _.
by case.
Qed.

Lemma size_one_hot (m k : nat) : size (one_hot m k) = m.
Proof. by rewrite size_mkseq. Qed.

Lemma nth_one_hot (m k j : nat) :
  nth 0 (one_hot m k) j = if (j < m) && (j == k) then 1 else 0.
Proof.
case: ltnP => jm /=; first by rewrite nth_mkseq.
by rewrite nth_default // size_one_hot.
Qed.

Lemma eye_one_hot (m : nat) : eye m = [seq one_hot m i | i <- iota 0 m].
Proof.
rewrite /eye /mkseq; apply: eq_map => i; apply: eq_map => j.
by rewrite eq_sym.
Qed.

(* The first loop prepends, the second appends.                            *)
Lemma prepend_loop (m s k : nat) (B : array2) :
  s + k <= m ->
  for_each (iota s k) (fun i B =>
    and_then (setitem (zeros m) (Z.of_nat m - Z.of_nat i - 1)%Z 1)
             (fun a => Return (a :: B))) B =
  Return (rev [seq one_hot m (m - i.+1) | i <- iota s k] ++ B).
Proof.
elim: k s B => [|k IH] s B //= skm.
have sm : s < m by apply: leq_trans skm; rewrite addnS ltnS leq_addr.
rewrite setitem_back //= IH; first by rewrite addSnnS.
by rewrite rev_cons cat_rcons.
Qed.

Lemma append_loop (m s k : nat) (B : array2) :
  s + k <= m ->
  for_each (iota s k) (fun i B =>
    and_then (setitem (zeros m) (Z.of_nat i) 1)
             (fun a => Return (rcons B a))) B =
  Return (B ++ [seq one_hot m i | i <- iota s k]).
Proof.
elim: k s B => [|k IH] s B /= skm; first by rewrite cats0.
have sm : s < m by apply: leq_trans skm; rewrite addnS ltnS leq_addr.
rewrite setitem_front sm /= IH; first by rewrite addSnnS.
by rewrite cat_rcons.
Qed.

(* The rows and columns that pad_input_2 selects.                          *)
Definition padded_indices (m p : nat) : seq nat :=
  rev [seq (m - i.+1)%N | i <- iota 0 p] ++ iota 0 m ++ iota 0 p.

Lemma padding_matrix (m p : nat) :
  p <= m ->
  rev [seq one_hot m (m - i.+1) | i <- iota 0 p] ++ eye m
    ++ [seq one_hot m i | i <- iota 0 p] =
  [seq one_hot m i | i <- padded_indices m p].
Proof.
move=> pm; rewrite /padded_indices !map_cat map_rev -map_comp eye_one_hot.
by [].
Qed.

Lemma padded_indices_lt (m p : nat) :
  p <= m -> all (fun i => i < m) (padded_indices m p).
Proof.
move=> pm; rewrite /padded_indices !all_cat all_rev; apply/and3P; split.
- apply/allP => j /mapP [i]; rewrite mem_iota add0n => /andP [_ ip] ->.
  by rewrite ltn_subrL /= (leq_ltn_trans _ (leq_trans ip pm)).
- by apply/allP => j; rewrite mem_iota add0n => /andP [].
- apply/allP => j; rewrite mem_iota add0n => /andP [_ jp].
  exact: leq_trans pm.
Qed.

Lemma size_padded_indices (m p : nat) : size (padded_indices m p) = (m + 2 * p)%N.
Proof.
rewrite /padded_indices !size_cat size_rev size_map !size_iota.
by rewrite mul2n -addnn addnCA addnA addnC [(m + p)%N]addnC addnA.
Qed.

(* Linear arithmetic on indices.                                           *)
Ltac index_lia :=
  repeat match goal with
  | H : is_true (_ < _) |- _ =>
      move/ltP: H; rewrite -?plusE -?minusE -?multE => H
  | H : is_true (_ <= _) |- _ =>
      move/leP: H; rewrite -?plusE -?minusE -?multE => H
  end;
  first [apply/ltP | apply/leP | idtac];
  rewrite -?plusE -?minusE -?multE; lia.

Lemma padded_indicesE (m p : nat) :
  p <= m -> padded_indices m p = mkseq (periodic m p) (m + 2 * p).
Proof.
move=> pm; apply: (@eq_from_nth _ 0%N); rewrite size_padded_indices.
  by rewrite size_mkseq.
move=> r rlt; rewrite nth_mkseq // /padded_indices /periodic !nth_cat.
rewrite size_rev size_map !size_iota.
case: (ltnP r p) => rp.
  have lt : p - r.+1 < p by index_lia.
  rewrite nth_rev size_map size_iota // (nth_map 0%N) ?size_iota //.
  rewrite nth_iota // add0n modn_small; last by index_lia.
  by index_lia.
case: (ltnP (r - p) m) => rm.
  rewrite nth_iota // add0n.
  have -> : (r + (m - p) = r - p + m)%N by index_lia.
  by rewrite modnDr modn_small.
have lt : r - p - m < p by index_lia.
rewrite nth_iota // add0n.
have -> : (r + (m - p) = r - p - m + m + m)%N by index_lia.
by rewrite !modnDr modn_small //; index_lia.
Qed.

(* A product with a unit vector selects one term.                          *)
Lemma sum_one_hot (m i : nat) (g : nat -> R) :
  i < m -> \sum_(0 <= k < m) nth 0 (one_hot m i) k * g k = g i.
Proof.
move=> im; rewrite big_mkord (bigD1 (Ordinal im)) // big1 => [k ki|].
  by rewrite nth_one_hot ltn_ord /= -val_eqE /= in ki *; rewrite (negbTE ki) mul0r.
by rewrite [LHS]addr0 nth_one_hot im eqxx /= mul1r.
Qed.

Lemma sum_one_hot_r (m i : nat) (g : nat -> R) :
  i < m -> \sum_(0 <= k < m) g k * nth 0 (one_hot m i) k = g i.
Proof.
move=> im; rewrite -[RHS](sum_one_hot g im).
by apply: eq_bigr => k _; rewrite mulrC.
Qed.

Lemma width_shape (m w : nat) (A : array2) :
  0 < m -> has_shape m w A -> width A = w.
Proof.
rewrite /has_shape /width; case: A => [|r A] /=; first by case: m.
by move=> _ /andP [_ /andP [/eqP]].
Qed.

Lemma size_row (m w : nat) (A : array2) (i : nat) :
  has_shape m w A -> i < m -> size (nth [::] A i) = w.
Proof.
move=> /andP [/eqP <- /allP sz] im.
by apply/eqP/sz/mem_nth.
Qed.

(* B @ X for a matrix B of unit rows picks rows of X.                      *)
Lemma matmul_rows (m w : nat) (idxs : seq nat) (X : array2) :
  has_shape m w X -> all (fun i => i < m) idxs ->
  matmul [seq one_hot m i | i <- idxs] X =
  Return [seq nth [::] X i | i <- idxs].
Proof.
move=> shX lt; have /andP [/eqP szX _] := shX.
have szB : all (fun r => size r == m) [seq one_hot m i | i <- idxs].
  by rewrite all_map; apply/allP => i _ /=; rewrite size_one_hot.
rewrite /matmul szX szB; congr Return; rewrite -!map_comp; apply/eq_in_map => i ii /=.
have im : i < m by move/allP: lt; apply.
have m0 : 0 < m by apply: leq_ltn_trans im.
rewrite (width_shape m0 shX); apply: (@eq_from_nth _ 0).
  by rewrite size_mkseq (size_row shX).
move=> j; rewrite size_mkseq => jw.
by rewrite nth_mkseq // (sum_one_hot (fun k => nth 0 (nth [::] X k) j)).
Qed.

(* Y @ B.T for a matrix B of unit rows picks columns of Y.                 *)
Lemma matmul_columns (m : nat) (idxs : seq nat) (Y : array2) :
  0 < size idxs -> all (fun r => size r == m) Y ->
  all (fun i => i < m) idxs ->
  matmul Y (transpose [seq one_hot m i | i <- idxs]) =
  Return [seq [seq nth 0 r i | i <- idxs] | r <- Y].
Proof.
move=> nonempty szY lt.
have wB : width [seq one_hot m i | i <- idxs] = m.
  by case: idxs nonempty {lt} => [|i idxs] //= _; rewrite /width /= size_one_hot.
have szT : size (transpose [seq one_hot m i | i <- idxs]) = m.
  by rewrite /transpose size_mkseq wB.
rewrite /matmul szT szY; congr Return; apply/eq_in_map => r rY.
have m0 : 0 < m.
  case: idxs nonempty lt {wB szT} => [|i idxs] //= _ /andP [im _].
  exact: leq_ltn_trans im.
have wT : width (transpose [seq one_hot m i | i <- idxs]) = size idxs.
  rewrite /width /transpose wB; case: (m) m0 => [|m'] //= _.
  by rewrite !size_map.
rewrite wT; apply: (@eq_from_nth _ 0); first by rewrite size_mkseq size_map.
move=> j; rewrite size_mkseq => jlt.
rewrite nth_mkseq // (nth_map 0%N) //.
have im : nth 0%N idxs j < m by move/allP: lt; apply; apply: mem_nth.
rewrite -[RHS](sum_one_hot_r (fun k => nth 0 r k) im).
rewrite !big_mkord; apply: eq_bigr => k _; congr (_ * _).
rewrite /transpose wB nth_mkseq // (nth_map [::]) ?size_map //.
by rewrite (nth_map 0%N).
Qed.

Lemma for_each_cat (S : Type) (l1 l2 : seq nat) (body : nat -> S -> py S)
    (st : S) :
  for_each (l1 ++ l2) body st =
  and_then (for_each l1 body st) (for_each l2 body).
Proof.
elim: l1 st => [|i l1 IH] st //=.
by case: (body i st) => [st'|e] /=.
Qed.

Lemma for_each_throws (S : Type) (l : seq nat) (body : nat -> S -> py S)
    (st : S) (e0 e : py_exn) :
  (forall i st' e', body i st' = Throw e' -> e' = e0) ->
  for_each l body st = Throw e -> e = e0.
Proof.
move=> be; elim: l st => [|i l IH] st //=.
case bE: (body i st) => [st'|e'] /=; first exact: IH.
by case=> <-; apply: be bE.
Qed.

(* The rows and columns of the input that the product B @ input @ B.T
   puts at each place.                                                     *)
Lemma pad_input_2_select (m p : nat) (input : array2) :
  has_shape m m input -> p <= m ->
  pad_input_2 input p =
  Return (mkseq (fun r => mkseq (fun c =>
            nth 0 (nth [::] input (periodic m p r)) (periodic m p c))
            (m + 2 * p)) (m + 2 * p)).
Proof.
move=> sh pm; have /andP [/eqP sz /allP rows] := sh.
rewrite /pad_input_2 sz prepend_loop // [and_then _ _]/=.
rewrite append_loop // [and_then _ _]/= -catA padding_matrix //.
have lt := padded_indices_lt pm.
rewrite (matmul_rows sh lt) [and_then _ _]/=.
case: (posnP (m + 2 * p)) => [z|pos].
  move: (size_padded_indices m p); rewrite z => /size0nil ->.
  by rewrite /= /matmul /=.
have szY : all (fun r => size r == m)
             [seq nth [::] input i | i <- padded_indices m p].
  rewrite all_map; apply/allP => i ii /=.
  by rewrite (size_row sh) //; move/allP: lt; apply.
rewrite matmul_columns ?size_padded_indices //.
congr Return; rewrite padded_indicesE // /mkseq -!map_comp.
by apply: eq_map => r /=; rewrite -map_comp.
Qed.

(** X15: for a square array of mesh_size rows and pad_by <= mesh_size,
    [pad_input_2] returns the periodic extension of its input by pad_by
    cells on every side: an array of mesh_size + 2 pad_by rows and
    columns whose entry (r, c) is the input's entry
    ((r - pad_by) mod mesh_size, (c - pad_by) mod mesh_size). *)
Theorem pad_input_2_periodic (m p : nat) (input : array2) :
  has_shape m m input -> p <= m ->
  exists padded : array2,
    [/\ pad_input_2 input p = Return padded,
        has_shape (m + 2 * p) (m + 2 * p) padded
      & forall r c, r < m + 2 * p -> c < m + 2 * p ->
        nth 0 (nth [::] padded r) c =
        nth 0 (nth [::] input ((r + (m - p)) %% m)) ((c + (m - p)) %% m)].
Proof.
move=> sh pm; rewrite (pad_input_2_select sh pm).
eexists; split; first by [].
  rewrite /has_shape size_mkseq eqxx /=.
  by apply/allP => row /mapP [r _ ->]; rewrite size_mkseq.
by move=> r c rlt clt; rewrite !nth_mkseq.
Qed.

Lemma pad_input_2_periodic_witness :
  let input : array2 := [:: [:: 1; 2%Re]; [:: 3%Re; 4%Re]] in
  exists padded : array2,
    [/\ pad_input_2 input 1 = Return padded,
        has_shape (2 + 2 * 1) (2 + 2 * 1) padded
      & forall r c, r < 2 + 2 * 1 -> c < 2 + 2 * 1 ->
        nth 0 (nth [::] padded r) c =
        nth 0 (nth [::] input ((r + (2 - 1)) %% 2)) ((c + (2 - 1)) %% 2)].
Proof. exact: (@pad_input_2_periodic 2 1). Defined.

(** X16: [pad_input_2] cannot pad by more than the mesh size: for
    pad_by > mesh_size it raises IndexError, whatever the array. *)
Theorem pad_input_2_raises (input : array2) (p : nat) :
  size input < p -> pad_input_2 input p = Throw IndexError.
Proof.
move=> mp; rewrite /pad_input_2; set m := size input.
case loop1: (for_each _ _ _) => [B|e] /=; last first.
  congr Throw; apply: for_each_throws loop1 => i st e'.
  by case sE: (setitem _ _ _) => [a0|e''] //= [<-]; apply: setitem_throws sE.
have -> : iota 0 p = iota 0 m ++ iota m (p - m).
  by rewrite -iotaD subnKC // ltnW.
rewrite for_each_cat append_loop // [and_then _ _]/=.
have -> : (p - m = (p - m).-1.+1)%N by rewrite prednK // subn_gt0.
by rewrite /= setitem_front ltnn.
Qed.

Lemma pad_input_2_raises_witness :
  pad_input_2 [:: [:: 1; 2%Re]; [:: 3%Re; 4%Re]] 3 = Throw IndexError.
Proof. exact: pad_input_2_raises. Defined.

(** X17: the array handed to [pad_input_2] must be square: for an array
    of mesh_size > 0 rows whose rows have another length, and
    pad_by <= mesh_size, the product with B.T raises ValueError. *)
Theorem pad_input_2_not_square (m w p : nat) (input : array2) :
  has_shape m w input -> 0 < m -> w != m -> p <= m ->
  pad_input_2 input p = Throw ValueError.
Proof.
move=> sh m0 wm pm; have /andP [/eqP sz _] := sh.
rewrite /pad_input_2 sz prepend_loop // [and_then _ _]/=.
rewrite append_loop // [and_then _ _]/= -catA padding_matrix //.
have lt := padded_indices_lt pm.
rewrite (matmul_rows sh lt) [and_then _ _]/= /matmul.
have -> : size (transpose [seq one_hot m i | i <- padded_indices m p]) = m.
  rewrite /transpose size_mkseq /width.
  have : 0 < size (padded_indices m p).
    by rewrite size_padded_indices addn_gt0 m0.
  by case: (padded_indices m p) => [|i l] //= _; rewrite size_one_hot.
case: ifP => // /allP sizes.
have : 0 < size (padded_indices m p).
  by rewrite size_padded_indices addn_gt0 m0.
case iE: (padded_indices m p) lt sizes => [|i l] //= /andP [im _] sizes _.
have := sizes (nth [::] input i); rewrite inE eqxx /= => /(_ isT).
by rewrite (size_row sh) // (negbTE wm).
Qed.

Lemma pad_input_2_not_square_witness :
  pad_input_2 [:: [:: 1; 2%Re; 3%Re]; [:: 4%Re; 5%Re; 6%Re]] 1 =
  Throw ValueError.
Proof. exact: (@pad_input_2_not_square 2 3 1). Defined.

(* ---------------------------------------------------------------------- *)
(*  37. One time step on the periodic grid                                 *)
(* ---------------------------------------------------------------------- *)

Import Generator.

(* The array with entry f r c at (r, c).                                   *)
Definition grid (f : nat -> nat -> R) (n1 n2 : nat) : array2 :=
  mkseq (fun r => mkseq (f r) n2) n1.

Lemma size_grid f n1 n2 : size (grid f n1 n2) = n1.
Proof. by rewrite size_mkseq. Qed.

Lemma nth_grid f n1 n2 r c :
  r < n1 -> c < n2 -> nth 0 (nth [::] (grid f n1 n2) r) c = f r c.
Proof. by move=> rn cn; rewrite /grid !nth_mkseq. Qed.

Lemma eq_grid f g n1 n2 :
  (forall r c, r < n1 -> c < n2 -> f r c = g r c) ->
  grid f n1 n2 = grid g n1 n2.
Proof.
move=> fg; apply/eq_in_map => r; rewrite mem_iota add0n => /andP [_ rn].
by apply/eq_in_map => c; rewrite mem_iota add0n => /andP [_ cn]; apply: fg.
Qed.

Lemma grid_of_shape (m w : nat) (A : array2) :
  has_shape m w A -> A = grid (fun r c => nth 0 (nth [::] A r) c) m w.
Proof.
move=> sh; have /andP [/eqP sz _] := sh.
apply: (@eq_from_nth _ [::]); first by rewrite size_grid.
move=> r; rewrite sz => rm; rewrite nth_mkseq //.
apply: (@eq_from_nth _ 0); first by rewrite size_mkseq (size_row sh).
by move=> c; rewrite (size_row sh) // => cw; rewrite nth_mkseq.
Qed.

Lemma shape_grid f n1 n2 : has_shape n1 n2 (grid f n1 n2).
Proof.
rewrite /has_shape size_grid eqxx /=; apply/allP => r /mapP [i _ ->].
by rewrite size_mkseq.
Qed.

(* Slices of the two kinds that the step takes.                            *)
Lemma slice_from (T : Type) (k : nat) (l : seq T) :
  k <= size l -> slice (Z.of_nat k) None l = drop k l.
Proof.
move=> kl; rewrite /slice.
have -> : (Z.of_nat k <? 0)%Z = false by apply/Z.ltb_ge/Nat2Z.is_nonneg.
have -> : Z.min (Z.of_nat k) (Z.of_nat (size l)) = Z.of_nat k.
  by apply/Z.min_l/Nat2Z.inj_le/leP.
by rewrite !Nat2Z.id take_oversize // size_drop.
Qed.

Lemma slice_between (T : Type) (k e : nat) (l : seq T) :
  k + e.+1 <= size l ->
  slice (Z.of_nat k) (Some (- Z.of_nat e.+1)%Z) l =
  take (size l - k - e.+1) (drop k l).
Proof.
move=> kl; rewrite /slice.
have kl' : k <= size l by apply: leq_trans kl; rewrite leq_addr.
have -> : (Z.of_nat k <? 0)%Z = false by apply/Z.ltb_ge/Nat2Z.is_nonneg.
have -> : Z.min (Z.of_nat k) (Z.of_nat (size l)) = Z.of_nat k.
  by apply/Z.min_l/Nat2Z.inj_le/leP.
have -> : (- Z.of_nat e.+1 <? 0)%Z.
  by apply/Z.ltb_lt; rewrite Nat2Z.inj_succ; lia.
have -> : Z.max 0 (- Z.of_nat e.+1 + Z.of_nat (size l)) =
          Z.of_nat (size l - e.+1).
  have le : (e.+1 <= size l)%coq_nat.
    by apply/leP; apply: leq_trans kl; rewrite leq_addl.
  by rewrite -minusE Nat2Z.inj_sub //; lia.
rewrite !Nat2Z.id; congr (take _ _).
by rewrite subnAC.
Qed.

Lemma drop_mkseq (T : Type) (f : nat -> T) (k n : nat) :
  drop k (mkseq f n) = mkseq (fun i => f (k + i)%N) (n - k).
Proof.
rewrite /mkseq -map_drop drop_iota add0n -[k in iota k]addn0 iotaDl.
by rewrite -map_comp.
Qed.

Lemma take_mkseq (T : Type) (f : nat -> T) (k n : nat) :
  k <= n -> take k (mkseq f n) = mkseq f k.
Proof. by move=> kn; rewrite /mkseq -map_take take_iota (minn_idPl kn). Qed.

Lemma getitem2_grid (f : nat -> nat -> R) (n1 n2 : nat)
    (r0 c0 : nat) (r1 c1 : option nat) :
  r0 + odflt 0%N (omap succn r1) <= n1 ->
  c0 + odflt 0%N (omap succn c1) <= n2 ->
  getitem2 (grid f n1 n2)
    (Z.of_nat r0, omap (fun e => (- Z.of_nat e.+1)%Z) r1)
    (Z.of_nat c0, omap (fun e => (- Z.of_nat e.+1)%Z) c1) =
  grid (fun r c => f (r0 + r)%N (c0 + c)%N)
       (n1 - r0 - odflt 0%N (omap succn r1))
       (n2 - c0 - odflt 0%N (omap succn c1)).
Proof.
move=> rn cn; rewrite /getitem2 /=.
have rows : slice (Z.of_nat r0) (omap (fun e => (- Z.of_nat e.+1)%Z) r1)
              (grid f n1 n2) =
            mkseq (fun r => mkseq (f (r0 + r)%N) n2)
                  (n1 - r0 - odflt 0%N (omap succn r1)).
  case: r1 rn => [e|] /= rn.
    rewrite slice_between ?size_grid // drop_mkseq take_mkseq //.
    by rewrite leq_subr.
  rewrite addn0 in rn.
  by rewrite slice_from ?size_grid // drop_mkseq subn0.
rewrite rows /grid -map_comp; apply: eq_map => r /=.
case: c1 cn => [e|] /= cn.
  rewrite slice_between ?size_mkseq // drop_mkseq take_mkseq //.
  by rewrite leq_subr.
rewrite addn0 in cn.
by rewrite slice_from ?size_mkseq // drop_mkseq subn0.
Qed.

Lemma elementwise_grid (op : R -> R -> R) f g n1 n2 :
  elementwise op (grid f n1 n2) (grid g n1 n2) =
  grid (fun r c => op (f r c) (g r c)) n1 n2.
Proof.
rewrite /elementwise /grid /mkseq zip_map -map_comp; apply: eq_map => r /=.
by rewrite zip_map -map_comp.
Qed.

Lemma scale2_grid (s : R) f n1 n2 :
  scale2 s (grid f n1 n2) = grid (fun r c => s * f r c) n1 n2.
Proof.
rewrite /scale2 /grid /mkseq -map_comp; apply: eq_map => r /=.
by rewrite -map_comp.
Qed.

(* The entry (r mod m, c mod m) of an array: its periodic continuation.    *)
Definition wrap (u : array2) (m r c : nat) : R :=
  nth 0 (nth [::] u (r %% m)) (c %% m).

(* The explicit finite-difference formula of the time loop.                *)
Definition stencil (dt dx dy : R) (v : nat -> nat -> R) (m i j : nat) : R :=
  v i j
  + c * dt / dx ^+ 2 * (v i j.+1 - 2%Re * v i j + v i (j + m - 1)%N)
  + d * dt / dy ^+ 2 * (v i.+1 j - 2%Re * v i j + v (i + m - 1)%N j)
  + a * dt / dx * (v i j.+1 - v i j)
  + b * dt / dy * (v i.+1 j - v i j).

Lemma getitem2_grid_add (f : nat -> nat -> R) (n1 n2 : nat)
    (r0 c0 : nat) (r1 c1 : option nat) :
  getitem2 (grid f (odflt 0%N (omap succn r1) + (r0 + n1))
                   (odflt 0%N (omap succn c1) + (c0 + n2)))
    (Z.of_nat r0, omap (fun e => (- Z.of_nat e.+1)%Z) r1)
    (Z.of_nat c0, omap (fun e => (- Z.of_nat e.+1)%Z) c1) =
  grid (fun r c => f (r0 + r)%N (c0 + c)%N) n1 n2.
Proof.
set e1 := odflt _ _; set e2 := odflt _ _.
have le1 : r0 + e1 <= e1 + (r0 + n1) by index_lia.
have le2 : c0 + e2 <= e2 + (c0 + n2) by index_lia.
by rewrite getitem2_grid //; congr (grid _ _ _); index_lia.
Qed.

Lemma true_div_neq0 (x y : R) : y != 0 -> true_div x y = Return (x / y).
Proof. by rewrite /true_div => /negbTE ->. Qed.

Lemma step_grid (m : nat) (u : array2) (dt dx dy : R) :
  has_shape m m u -> 1 < m -> dx != 0 -> dy != 0 ->
  step dt dx dy u = Return (grid (stencil dt dx dy (wrap u m) m) m m).
Proof.
move=> sh m1 dx0 dy0; rewrite /step (pad_input_2_select sh (p := 2)) //.
rewrite !true_div_neq0 ?expf_neq0 // [and_then _ _]/=.
set P := fun r c : nat => nth 0 (nth [::] u (periodic m 2 r)) (periodic m 2 c).
rewrite -[mkseq _ _]/(grid P (m + 2 * 2) (m + 2 * 2)).
have -> : (m + 2 * 2 = 4 + m)%N by rewrite addnC.
rewrite (@getitem2_grid_add P (3 + m) (3 + m) 1 1 None None).
set un := fun r c : nat => P (1 + r)%N (1 + c)%N.
rewrite (@getitem2_grid_add un (1 + m) (1 + m) 1 1 (Some 0%N) (Some 0%N)).
rewrite (@getitem2_grid_add un (1 + m) (1 + m) 1 2 (Some 0%N) None).
rewrite (@getitem2_grid_add un (1 + m) (1 + m) 1 0 (Some 0%N) (Some 1%N)).
rewrite (@getitem2_grid_add un (1 + m) (1 + m) 2 1 None (Some 0%N)).
rewrite (@getitem2_grid_add un (1 + m) (1 + m) 0 1 (Some 1%N) (Some 0%N)).
rewrite /add2 /sub2 !(elementwise_grid, scale2_grid).
rewrite (@getitem2_grid_add _ m m 0 0 (Some 0%N) (Some 0%N)).
have mid k : periodic m 2 (1 + (1 + (0 + k))) = k %% m.
  rewrite /periodic; have -> : (1 + (1 + (0 + k)) + (m - 2) = k + m)%N.
    by index_lia.
  by rewrite modnDr.
have next k : periodic m 2 (1 + (2 + (0 + k))) = k.+1 %% m.
  rewrite /periodic; have -> : (1 + (2 + (0 + k)) + (m - 2) = k.+1 + m)%N.
    by index_lia.
  by rewrite modnDr.
have prev k : periodic m 2 (1 + (0 + (0 + k))) = (k + m - 1) %% m.
  rewrite /periodic; congr (_ %% _); by index_lia.
congr Return; apply: eq_grid => r k rm km.
by rewrite /stencil /un /P /wrap !mid ?next ?prev !add0n.
Qed.

(* ---------------------------------------------------------------------- *)
(*  38. What the time loop preserves                                       *)
(* ---------------------------------------------------------------------- *)

Import Generator.

(* u.sum(), the sum of all entries of an array.                            *)
Definition total (A : array2) : R := \sum_(r <- A) \sum_(v <- r) v.

Lemma total_grid f n1 n2 :
  total (grid f n1 n2) = \sum_(0 <= r < n1) \sum_(0 <= k < n2) f r k.
Proof.
rewrite /total /grid /mkseq big_map /index_iota !subn0.
by apply: eq_bigr => r _; rewrite big_map.
Qed.

(* Sums over one period do not see a shift of the index.                   *)
Lemma sum_shift_next (m : nat) (h : nat -> R) :
  \sum_(0 <= j < m) h (j.+1 %% m) = \sum_(0 <= j < m) h j.
Proof.
case: m => [|k]; first by rewrite !big_geq.
rewrite big_nat_recr //= modnn [RHS]big_nat_recl // addrC; congr (_ + _).
apply: eq_big_nat => j /andP [_ jk].
by rewrite modn_small.
Qed.

Lemma sum_shift_prev (m : nat) (h : nat -> R) :
  \sum_(0 <= j < m) h ((j + m - 1) %% m) = \sum_(0 <= j < m) h j.
Proof.
case: m => [|k]; first by rewrite !big_geq.
rewrite big_nat_recl // [RHS]big_nat_recr //= addrC; congr (_ + _).
  apply: eq_big_nat => j /andP [_ jk].
  by rewrite addSn subn1 /= modnDr modn_small // ltnS ltnW.
by rewrite add0n subn1 /= modn_small.
Qed.

Lemma wrap_mod (u : array2) (m r k : nat) :
  wrap u m (r %% m) k = wrap u m r k /\ wrap u m r (k %% m) = wrap u m r k.
Proof. by rewrite /wrap !modn_mod. Qed.

(* The stencil is one linear combination of the field and its four
   shifted copies.                                                         *)
Definition combine (kx ky ax ay : R) (f0 fe fw fs fn : R) : R :=
  f0 + kx * (fe - 2%Re * f0 + fw) + ky * (fs - 2%Re * f0 + fn)
  + ax * (fe - f0) + ay * (fs - f0).

Lemma sum_combine (I : Type) (l : seq I) (kx ky ax ay : R)
    (f0 fe fw fs fn : I -> R) :
  \sum_(i <- l) combine kx ky ax ay (f0 i) (fe i) (fw i) (fs i) (fn i) =
  combine kx ky ax ay (\sum_(i <- l) f0 i) (\sum_(i <- l) fe i)
    (\sum_(i <- l) fw i) (\sum_(i <- l) fs i) (\sum_(i <- l) fn i).
Proof.
elim: l => [|i l IH]; first by rewrite !big_nil /combine; toR; ring.
by rewrite !big_cons IH /combine; toR; ring.
Qed.

Lemma combine_same (kx ky ax ay S : R) : combine kx ky ax ay S S S S S = S.
Proof. by rewrite /combine; toR; ring. Qed.

Lemma stencil_total (dt dx dy : R) (u : array2) (m : nat) :
  total (grid (stencil dt dx dy (wrap u m) m) m m) =
  total (grid (wrap u m) m m).
Proof.
rewrite !total_grid.
set v := wrap u m.
set S := \sum_(0 <= r < m) \sum_(0 <= k < m) v r k.
have east : \sum_(0 <= r < m) \sum_(0 <= k < m) v r k.+1 = S.
  apply: eq_bigr => r _; rewrite -[RHS](sum_shift_next m (v r)).
  by apply: eq_bigr => k _; rewrite /v; have [_ ->] := wrap_mod u m r k.+1.
have west : \sum_(0 <= r < m) \sum_(0 <= k < m) v r (k + m - 1)%N = S.
  apply: eq_bigr => r _; rewrite -[RHS](sum_shift_prev m (v r)).
  apply: eq_bigr => k _; rewrite /v.
  by have [_ ->] := wrap_mod u m r (k + m - 1).
have south : \sum_(0 <= r < m) \sum_(0 <= k < m) v r.+1 k = S.
  rewrite -[RHS](sum_shift_next m (fun r => \sum_(0 <= k < m) v r k)).
  apply: eq_bigr => r _; apply: eq_bigr => k _; rewrite /v.
  by have [-> _] := wrap_mod u m r.+1 k.
have north : \sum_(0 <= r < m) \sum_(0 <= k < m) v (r + m - 1)%N k = S.
  rewrite -[RHS](sum_shift_prev m (fun r => \sum_(0 <= k < m) v r k)).
  apply: eq_bigr => r _; apply: eq_bigr => k _; rewrite /v.
  by have [-> _] := wrap_mod u m (r + m - 1) k.
set kx : R := (c * dt / dx ^+ 2)%Re; set ky : R := (d * dt / dy ^+ 2)%Re.
set ax : R := (a * dt / dx)%Re; set ay : R := (b * dt / dy)%Re.
have stE r k : stencil dt dx dy v m r k =
    combine kx ky ax ay (v r k) (v r k.+1) (v r (k + m - 1)%N)
                        (v r.+1 k) (v (r + m - 1)%N k).
  by [].
under eq_bigr => r _ do under eq_bigr => k _ do rewrite stE.
under eq_bigr => r _ do rewrite sum_combine.
by rewrite sum_combine east west south north combine_same.
Qed.

Lemma wrap_grid (u : array2) (m : nat) :
  has_shape m m u -> grid (wrap u m) m m = u.
Proof.
move=> sh; rewrite [RHS](grid_of_shape sh); apply: eq_grid => r k rm km.
by rewrite /wrap !modn_small.
Qed.

(** X18: on a square array of mesh_size >= 2 rows and for non-zero grid
    spacings, one pass through the body of the time loop of [generate]
    returns the array of the same shape whose entry (i, j) is
    u[i,j] + c dt/dx^2 (u[i,j+1] - 2 u[i,j] + u[i,j-1])
           + d dt/dy^2 (u[i+1,j] - 2 u[i,j] + u[i-1,j])
           + a dt/dx (u[i,j+1] - u[i,j]) + b dt/dy (u[i+1,j] - u[i,j]),
    with a = b = 2, c = d = 0.5 and all indices taken modulo mesh_size:
    forward differences on the periodic grid. *)
Theorem step_periodic_stencil (m : nat) (u : array2) (dt dx dy : R) :
  has_shape m m u -> 1 < m -> dx != 0 -> dy != 0 ->
  exists u' : array2,
    [/\ step dt dx dy u = Return u', has_shape m m u'
      & forall i j, i < m -> j < m ->
        let v r k := nth 0 (nth [::] u (r %% m)) (k %% m) in
        nth 0 (nth [::] u' i) j =
        v i j
        + 0.5%Re * dt / dx ^+ 2 * (v i j.+1 - 2%Re * v i j + v i (j + m - 1)%N)
        + 0.5%Re * dt / dy ^+ 2 * (v i.+1 j - 2%Re * v i j + v (i + m - 1)%N j)
        + 2%Re * dt / dx * (v i j.+1 - v i j)
        + 2%Re * dt / dy * (v i.+1 j - v i j)].
Proof.
move=> sh m1 dx0 dy0; exists (grid (stencil dt dx dy (wrap u m) m) m m).
split; [exact: step_grid | exact: shape_grid |].
by move=> i j im jm /=; rewrite nth_grid.
Qed.

Lemma step_periodic_stencil_witness :
  let u : array2 := [:: [:: 1; 2%Re]; [:: 3%Re; 4%Re]] in
  exists u' : array2,
    [/\ step 1 1 1 u = Return u', has_shape 2 2 u'
      & forall i j, i < 2 -> j < 2 ->
        let v r k := nth 0 (nth [::] u (r %% 2)) (k %% 2) in
        nth 0 (nth [::] u' i) j =
        v i j
        + 0.5%Re * 1 / 1 ^+ 2 * (v i j.+1 - 2%Re * v i j + v i (j + 2 - 1)%N)
        + 0.5%Re * 1 / 1 ^+ 2 * (v i.+1 j - 2%Re * v i j + v (i + 2 - 1)%N j)
        + 2%Re * 1 / 1 * (v i j.+1 - v i j)
        + 2%Re * 1 / 1 * (v i.+1 j - v i j)].
Proof. by apply: (@step_periodic_stencil 2); rewrite ?oner_neq0. Defined.

(* Every pass of the time loop keeps the shape and the sum of the field.   *)
Lemma step_conserves (m : nat) (u : array2) (dt dx dy : R) :
  has_shape m m u -> 1 < m -> dx != 0 -> dy != 0 ->
  exists u' : array2,
    [/\ step dt dx dy u = Return u', has_shape m m u' & total u' = total u].
Proof.
move=> sh m1 dx0 dy0; exists (grid (stencil dt dx dy (wrap u m) m) m m).
split; [exact: step_grid | exact: shape_grid |].
by rewrite stencil_total wrap_grid.
Qed.

Lemma time_loop_layers (m k : nat) (u : array2) (dt dx dy : R) :
  has_shape m m u -> 1 < m -> dx != 0 -> dy != 0 ->
  exists layers : seq array2,
    [/\ time_loop k dt dx dy u = Return layers,
        size layers = k.+1,
        nth [::] layers 0 = u,
        all (has_shape m m) layers
      & all (fun l => total l == total u) layers].
Proof.
move=> + m1 dx0 dy0; elim: k u => [|k IH] u sh.
  by exists [:: u]; split=> //=; rewrite ?sh ?eqxx.
have [u' [stepE sh' tot]] := step_conserves dt sh m1 dx0 dy0.
have [ls [loopE sz _ shapes totals]] := IH u' sh'.
exists (u :: ls); split=> //=.
- by rewrite stepE /= loopE.
- by rewrite sz.
- by rewrite sh.
- rewrite eqxx /=; apply/allP => l lin.
  by rewrite -tot; move/allP: totals; apply.
Qed.

(** X19: on a square initial array of mesh_size >= 2 rows and for
    non-zero grid spacings the time loop of [generate] never fails: after
    k passes it has produced k + 1 layers, the first of them the initial
    array, all of the initial shape and all with the same sum of entries
    as the initial array (the scheme conserves the total of the field). *)
Theorem time_loop_conserves (m k : nat) (u : array2) (dt dx dy : R) :
  has_shape m m u -> 1 < m -> dx != 0 -> dy != 0 ->
  exists layers : seq array2,
    [/\ time_loop k dt dx dy u = Return layers,
        size layers = k.+1,
        nth [::] layers 0 = u
      & forall l, l \in layers -> has_shape m m l /\ total l = total u].
Proof.
move=> sh m1 dx0 dy0.
have [ls [loopE sz first shapes totals]] := time_loop_layers k dt sh m1 dx0 dy0.
exists ls; split=> // l lin; split; first by move/allP: shapes; apply.
by apply/eqP; move/allP: totals; apply.
Qed.

Lemma time_loop_conserves_witness :
  let u : array2 := [:: [:: 1; 2%Re]; [:: 3%Re; 4%Re]] in
  exists layers : seq array2,
    [/\ time_loop 8 1 1 1 u = Return layers,
        size layers = 9,
        nth [::] layers 0 = u
      & forall l, l \in layers -> has_shape 2 2 l /\ total l = total u].
Proof. by apply: (@time_loop_conserves 2); rewrite ?oner_neq0. Defined.

(* ---------------------------------------------------------------------- *)
(*  39. Restarting the optimizer                                           *)
(* ---------------------------------------------------------------------- *)

Module Restarts.

(* scipy's OptimizeResult, as far as the notebooks read it: the point x
   and the objective value, the attribute fun.                             *)
Record OptimizeResult (k : nat) := { x : 'rV[R]_k; fun_ : R }.

(* What a call can end with: an exception of the objective, which
   opt.minimize does not catch, or the ValueError of min().               *)
Inductive failure := Objective (e : exn) | ValueError.

Inductive outcome (A : Type) := Return (a : A) | Throw (e : failure).
Arguments Return {A} a.
Arguments Throw {A} e.

(* min(l, key = lambda x: x.fun): the first element with the least key;
   an empty sequence raises ValueError.                                    *)
Definition min_by_fun {k : nat} (l : seq (OptimizeResult k)) :
    outcome (OptimizeResult k) :=
  match l with
  | [::] => Throw ValueError
  | r :: l' =>
      Return (foldl (fun best item =>
                if Rlt_dec (fun_ item) (fun_ best) then item else best) r l')
  end.

Section Notebook.

(* The number of hyperparameters: 8 in the advection-diffusion notebook, 5
   in the 3D notebook.                                                     *)
Variable k : nat.

(* opt.minimize(nlml, x0, method = "Nelder-Mead", ...) and the successive
   draws of np.random.rand(k).                                             *)
Variable minimize : 'rV[R]_k -> res (OptimizeResult k).
Variable rand : nat -> 'rV[R]_k.

(* for it in range(0, n): all_results.append(opt.minimize(...))            *)
Fixpoint restarts (its : seq nat) (all_results : seq (OptimizeResult k)) :
    outcome (seq (OptimizeResult k)) :=
  match its with
  | [::] => Return all_results
  | it :: its' =>
      match minimize (rand it) with
      | Ok r => restarts its' (rcons all_results r)
      | Raise e => Throw (Objective e)
      end
  end.

(* The arguments x, y, y_u, y_f are not used: nlml reads the globals.      *)
Definition minimize_restarts {m : nat} (x y y_u y_f : 'rV[R]_m) (n : nat) :
    outcome (OptimizeResult k) :=
  match restarts (iota 0 n) [::] with
  | Return all_results => min_by_fun all_results
  | Throw e => Throw e
  end.

End Notebook.

End Restarts.

Import Restarts.

Lemma restartsE (k : nat) (minimize : 'rV[R]_k -> res (OptimizeResult k))
    (rand : nat -> 'rV[R]_k) (r : nat -> OptimizeResult k)
    (its : seq nat) (acc : seq (OptimizeResult k)) :
  (forall it, it \in its -> minimize (rand it) = Ok (r it)) ->
  restarts minimize rand its acc = Return (acc ++ [seq r it | it <- its]).
Proof.
elim: its acc => [|it its IH] acc ok /=; first by rewrite cats0.
rewrite ok ?mem_head // IH ?cat_rcons // => j jin.
by apply: ok; rewrite inE jin orbT.
Qed.

(* The running minimum of min(): its key is a lower bound of all keys, it
   is an element of the sequence, and no element before it has the same
   key.                                                                    *)
Lemma min_scan (k : nat) (l : seq (OptimizeResult k)) (r0 : OptimizeResult k) :
  let best := foldl (fun best item =>
                if Rlt_dec (fun_ item) (fun_ best) then item else best) r0 l in
  exists i, [/\ i < (size l).+1, best = nth r0 (r0 :: l) i,
                forall j, j < (size l).+1 ->
                  (fun_ best <= fun_ (nth r0 (r0 :: l) j))%Re
              & forall j, j < i ->
                  (fun_ best < fun_ (nth r0 (r0 :: l) j))%Re].
Proof.
elim/last_ind: l => [|l it IH] /=.
  exists 0; split=> // j; rewrite ltnS leqn0 => /eqP -> /=.
  exact: Rle_refl.
rewrite -cats1 foldl_cat /=; case: IH => i [isz bestE lower strict].
set best := foldl _ _ _ in bestE lower strict *.
rewrite size_cat /= addn1.
have nth_old j : j < (size l).+1 ->
    nth r0 (r0 :: l ++ [:: it]) j = nth r0 (r0 :: l) j.
  by case: j => [|j] //=; rewrite ltnS => jl; rewrite nth_cat jl.
have nth_new : nth r0 (r0 :: l ++ [:: it]) (size l).+1 = it.
  by rewrite /= nth_cat ltnn subnn.
case: Rlt_dec => lt.
- exists (size l).+1; split=> //.
  + move=> j; rewrite ltnS leq_eqVlt => /orP [/eqP ->|jl].
      by rewrite nth_new; apply: Rle_refl.
    rewrite nth_old //; apply: Rle_trans (lower j jl).
    exact: Rlt_le.
  + move=> j jl; rewrite nth_old //.
    exact: Rlt_le_trans lt (lower j jl).
- exists i; split=> //.
  + exact: ltnW.
  + by rewrite nth_old.
  + move=> j; rewrite ltnS leq_eqVlt => /orP [/eqP ->|jl].
      by rewrite nth_new; apply: Rnot_lt_le.
    by rewrite nth_old //; apply: lower.
  + move=> j ji; have jl := ltn_trans ji isz.
    by rewrite nth_old //; apply: strict.
Qed.

Lemma restarts_cat (k : nat) (minimize : 'rV[R]_k -> res (OptimizeResult k))
    (rand : nat -> 'rV[R]_k) (l1 l2 : seq nat) (acc : seq (OptimizeResult k)) :
  restarts minimize rand (l1 ++ l2) acc =
  match restarts minimize rand l1 acc with
  | Return acc' => restarts minimize rand l2 acc'
  | Throw e => Throw e
  end.
Proof.
elim: l1 acc => [|it l1 IH] acc //=.
by case: (minimize (rand it)).
Qed.

(** X20: when every one of the n > 0 restarts of the optimizer returns,
    [minimize_restarts] returns the result of one of them, restart i,
    whose objective value is least among all n results; among results of
    equal value it is the earliest. *)
Theorem minimize_restarts_returns_best (k m : nat)
    (minimize : 'rV[R]_k -> res (OptimizeResult k)) (rand : nat -> 'rV[R]_k)
    (r : nat -> OptimizeResult k) (x y y_u y_f : 'rV[R]_m) (n : nat) :
  0 < n -> (forall it, it < n -> minimize (rand it) = Ok (r it)) ->
  exists i,
    [/\ i < n,
        minimize_restarts minimize rand x y y_u y_f n = Return (r i),
        forall j, j < n -> (fun_ (r i) <= fun_ (r j))%Re
      & forall j, j < i -> (fun_ (r i) < fun_ (r j))%Re].
Proof.
case: n => [|n] // _ ok; rewrite /minimize_restarts.
have ok' it : it \in iota 0 n.+1 -> minimize (rand it) = Ok (r it).
  by rewrite mem_iota add0n => /andP [_]; apply: ok.
rewrite (restartsE [::] ok') /=.
set l := [seq r it | it <- iota 1 n].
have szl : size l = n by rewrite size_map size_iota.
have nthE j : j < n.+1 -> nth (r 0) (r 0 :: l) j = r j.
  case: j => [|j] //=; rewrite ltnS => jn.
  by rewrite (nth_map 0%N) ?size_iota // nth_iota.
have [i [isz bestE lower strict]] := min_scan l (r 0).
rewrite szl in isz lower; exists i; split=> //.
- by rewrite bestE nthE.
- by move=> j jn; rewrite -(nthE i) // -bestE -(nthE j) //; apply: lower.
- move=> j ji; have jn := ltn_trans ji isz.
  by rewrite -(nthE i) // -bestE -(nthE j) //; apply: strict.
Qed.

Lemma minimize_restarts_returns_best_witness :
  let minimize (p : 'rV[R]_1) := Ok {| x := p; fun_ := p 0 0 * p 0 0 |} in
  let rand (it : nat) : 'rV[R]_1 := const_mx (it%:R - 1) in
  let r (it : nat) := {| x := rand it; fun_ := rand it 0 0 * rand it 0 0 |} in
  exists i,
    [/\ i < 3,
        minimize_restarts minimize rand origin origin origin origin 3 =
        Return (r i),
        forall j, j < 3 -> (fun_ (r i) <= fun_ (r j))%Re
      & forall j, j < i -> (fun_ (r i) < fun_ (r j))%Re].
Proof. by apply: minimize_restarts_returns_best. Defined.

(** X21: [minimize_restarts] has no result to return when the loop runs
    zero times or a restart fails: with n = 0 the call of min() on the
    empty list raises ValueError, and an exception that the objective
    raises in restart i, the earlier restarts having returned, ends the
    whole call; the results of the earlier restarts are lost. *)
Theorem minimize_restarts_failures (k m : nat)
    (minimize : 'rV[R]_k -> res (OptimizeResult k)) (rand : nat -> 'rV[R]_k)
    (x y y_u y_f : 'rV[R]_m) :
  minimize_restarts minimize rand x y y_u y_f 0 = Throw ValueError /\
  forall (n i : nat) (e : exn),
    i < n -> (forall j, j < i -> returns (minimize (rand j))) ->
    minimize (rand i) = Raise e ->
    minimize_restarts minimize rand x y y_u y_f n = Throw (Objective e).
Proof.
split=> // n i e ilt ok bad; rewrite /minimize_restarts.
have -> : iota 0 n = iota 0 i ++ i :: iota i.+1 (n - i.+1).
  by rewrite -[n in LHS](subnKC (ltnW ilt)) iotaD add0n -(subnSK ilt).
pose r j := if minimize (rand j) is Ok v then v
            else {| x := 0; fun_ := 0 |}.
have ok' it : it \in iota 0 i -> minimize (rand it) = Ok (r it).
  rewrite mem_iota add0n => /andP [_ /ok].
  by rewrite /r; case: (minimize (rand it)).
by rewrite restarts_cat (restartsE [::] ok') /= bad.
Qed.

(* ---------------------------------------------------------------------- *)
(*  40. The kernels see differences of sample points only                  *)
(* ---------------------------------------------------------------------- *)

Lemma AdvDiff_kernel_fn_shift (xi xj yi yj ti tj hx hy ht sg lx ly lt a b c d : R) :
  [/\ AdvDiff.kuu_fn (xi + hx) (xj + hx) (yi + hy) (yj + hy) (ti + ht) (tj + ht)
        sg lx ly lt = AdvDiff.kuu_fn xi xj yi yj ti tj sg lx ly lt,
      AdvDiff.kfu_fn (xi + hx) (xj + hx) (yi + hy) (yj + hy) (ti + ht) (tj + ht)
        sg lx ly lt a b c d =
      AdvDiff.kfu_fn xi xj yi yj ti tj sg lx ly lt a b c d
    & AdvDiff.kff_fn (xi + hx) (xj + hx) (yi + hy) (yj + hy) (ti + ht) (tj + ht)
        sg lx ly lt a b c d =
      AdvDiff.kff_fn xi xj yi yj ti tj sg lx ly lt a b c d].
Proof.
split.
- rewrite /AdvDiff.kuu_fn /AdvDiff.lambdify10 /AdvDiff.kuu_sym.
  by sp_compute; toR; fold_exp; ring.
- rewrite /AdvDiff.kfu_fn /AdvDiff.lambdify14 /AdvDiff.kfu_sym /AdvDiff.kuu_sym.
  by sp_compute; toR; fold_exp; ring.
- rewrite /AdvDiff.kff_fn /AdvDiff.lambdify14 /AdvDiff.kff_sym /AdvDiff.kuu_sym.
  by sp_compute; toR; fold_exp; ring.
Qed.

Lemma AdvDiff_K_shift n (x y t : 'rV[R]_n) (hx hy ht : R)
    (sg lx ly lt a b c d s : R) :
  AdvDiff.K (x + const_mx hx) (y + const_mx hy) (t + const_mx ht)
    sg lx ly lt a b c d s =
  AdvDiff.K x y t sg lx ly lt a b c d s.
Proof.
have sh i j := AdvDiff_kernel_fn_shift (x 0 i) (x 0 j) (y 0 i) (y 0 j)
                 (t 0 i) (t 0 j) hx hy ht sg lx ly lt a b c d.
have uu : AdvDiff.kuu (x + const_mx hx) (y + const_mx hy) (t + const_mx ht)
            sg lx ly lt = AdvDiff.kuu x y t sg lx ly lt.
  rewrite /AdvDiff.kuu !fill_pairwiseE; apply/matrixP => i j.
  by rewrite !mxE; have [-> _ _] := sh i j.
have fu : AdvDiff.kfu (x + const_mx hx) (y + const_mx hy) (t + const_mx ht)
            sg lx ly lt a b c d = AdvDiff.kfu x y t sg lx ly lt a b c d.
  rewrite /AdvDiff.kfu !fill_pairwiseE; apply/matrixP => i j.
  by rewrite !mxE; have [_ -> _] := sh i j.
have ff : AdvDiff.kff (x + const_mx hx) (y + const_mx hy) (t + const_mx ht)
            sg lx ly lt a b c d = AdvDiff.kff x y t sg lx ly lt a b c d.
  rewrite /AdvDiff.kff !fill_pairwiseE; apply/matrixP => i j.
  by rewrite !mxE; have [_ _ ->] := sh i j.
by rewrite /AdvDiff.K /AdvDiff.kuf uu fu ff.
Qed.

(** X22: the objective of the advection-diffusion notebook sees the
    sample points only through their differences: adding one constant to
    all abscissae, another to all ordinates and a third to all times
    changes neither the value that [nlml] returns nor the exception that
    it raises. *)
Theorem AdvDiff_nlml_translation n (x y t : 'rV[R]_n) (hx hy ht : R)
    (svd : svd_fun) (y_u y_f : 'rV[R]_n) (params : 'rV[R]_8) :
  AdvDiff.nlml (x + const_mx hx) (y + const_mx hy) (t + const_mx ht)
    svd y_u y_f params =
  AdvDiff.nlml x y t svd y_u y_f params.
Proof. by rewrite /AdvDiff.nlml /AdvDiff.K_inv_and_det AdvDiff_K_shift. Qed.

(* ---------------------------------------------------------------------- *)
(*  41. The samples of the generator under the notebook's options          *)
(* ---------------------------------------------------------------------- *)

Import Generator.

Lemma slice_step_all (T : Type) (l : seq T) : slice_step 0 1 l = l.
Proof.
have all_true : (fun i => (0 <= i) && ((i - 0) %% 1 == 0)) =1 (fun=> true).
  by move=> i; rewrite /= modn1.
rewrite /slice_step (eq_mkseq all_true).
have -> : mkseq (fun=> true) (size l) = nseq (size l) true.
  by apply: (@eq_from_nth _ true);
     rewrite size_mkseq ?size_nseq // => i il; rewrite nth_mkseq // nth_nseq il.
by rewrite mask_true.
Qed.

Lemma downsample_by_1 (o1 o2 : nat) (sample : seq array2) :
  o1 < 1 -> o2 < 1 -> downsample o1 o2 sample 1 = Return sample.
Proof.
case: o1 => // _; case: o2 => // _; rewrite /downsample /=; congr Return.
rewrite -[RHS]map_id; apply: eq_map => A.
by rewrite slice_step_all -[RHS]map_id; apply: eq_map => r; rewrite slice_step_all.
Qed.

Lemma add2_scale0 (m w : nat) (u z : array2) :
  has_shape m w u -> has_shape m w z -> add2 u (scale2 0 z) = u.
Proof.
move=> shu shz; rewrite (grid_of_shape shu) (grid_of_shape shz).
rewrite scale2_grid /add2 elementwise_grid; apply: eq_grid => r k _ _.
by rewrite mul0r addr0.
Qed.

Lemma set_nth_same (T : Type) (x0 : T) (l : seq T) (k : nat) :
  k < size l -> set_nth x0 l k (nth x0 l k) = l.
Proof.
move=> kl; apply: (@eq_from_nth _ x0).
  by rewrite size_set_nth; apply/maxn_idPr.
move=> i _; rewrite nth_set_nth /=.
by case: eqP => // ->.
Qed.

(* With noise = 0 the sample is left as it is.                             *)
Lemma addNoise_0 (m : nat) (normal : nat -> array2) (sample : seq array2)
    (nt : nat) :
  0 < size sample -> nt <= size sample ->
  all (has_shape m m) sample -> (forall l, has_shape m m (normal l)) ->
  addNoise normal sample 0 nt = Return sample.
Proof.
case: sample => [|u0 sample] // _ le /= /andP [sh0 shs] shn.
rewrite Rmult_0_l (add2_scale0 sh0 (shn 0%N)).
have keep (ls : seq nat) (smp : seq array2) :
    all (has_shape m m) smp -> all (fun l => l < size smp) ls ->
    for_each ls (fun l sample0 =>
      if l < size sample0 then
        Return (set_nth [::] sample0 l
                  (add2 (nth [::] sample0 l) (scale2 0 (normal l))))
      else Throw KeyError) smp = Return smp.
  move=> shsmp; elim: ls => [|l ls IH] //= /andP [lt rest].
  have shl : has_shape m m (nth [::] smp l).
    by move/allP: shsmp; apply; apply: mem_nth.
  by rewrite lt (add2_scale0 shl (shn l)) set_nth_same //=; apply: IH.
rewrite keep //=; first by rewrite sh0.
apply/allP => l; rewrite mem_iota => /andP [l0].
case: nt le => [|nt] le; first by rewrite addn0 ltnNge l0.
by rewrite subn1 /= add1n => lt; apply: leq_trans lt le.
Qed.

(* A loop that appends one item per pass.                                  *)
Lemma for_each_collect (T : Type) (l : seq nat)
    (body : nat -> seq T -> py (seq T)) (f : nat -> T) (acc : seq T) :
  (forall i acc', i \in l -> body i acc' = Return (rcons acc' (f i))) ->
  for_each l body acc = Return (acc ++ [seq f i | i <- l]).
Proof.
elim: l acc => [|i l IH] acc bodyE /=; first by rewrite cats0.
rewrite bodyE ?mem_head //= IH ?cat_rcons // => j acc' jl.
by apply: bodyE; rewrite inE jl orbT.
Qed.

(* The grid spacing 2 pi / (m - 1) of a mesh with more than one point.     *)
Lemma mesh_spacing (m : nat) :
  1 < m ->
  true_div (2 * PI)%Re (m%:R - 1)%Re = Return (2 * PI / (m%:R - 1))%Re /\
  (2 * PI / (m%:R - 1))%Re != 0.
Proof.
move=> m1; have pos : (0 < m%:R - 1)%Re.
  by rewrite natr_INR; have := lt_1_INR _ (ltP m1); lra.
have ne : (m%:R - 1)%Re != 0 by apply/Rneq0P; lra.
split; first by rewrite /true_div (negbTE ne).
apply/Rneq0P; have := PI_RGT_0; have := Rinv_0_lt_compat _ pos.
by rewrite /Rdiv; nra.
Qed.

Section CleanSamples.

Variables (opts : options) (rnd : draws) (M : nat).
Hypothesis mesh : mesh_size opts = (M, M).
Hypothesis M1 : 1 < M.
Hypothesis no_noise : noise_level opts = 0.
Hypothesis no_downsampling : downsample_by opts = 1%N.
Hypothesis drawn : forall i, i < batch_size opts ->
  [/\ has_shape M M (initgen rnd i), offset1 rnd i < 1, offset2 rnd i < 1
    & forall l, has_shape M M (standard_normal rnd i l)].

Let h : R := (2 * PI / (M%:R - 1))%Re.

(* The layers of sample i.                                                 *)
Definition sample_layers (i : nat) : seq array2 :=
  if time_loop (layers opts - 1) (dt opts) h h (initgen rnd i) is Return ls
  then ls else [::].

Lemma sample_layersE (i : nat) :
  i < batch_size opts ->
  [/\ time_loop (layers opts - 1) (dt opts) h h (initgen rnd i) =
      Return (sample_layers i),
      size (sample_layers i) = (layers opts - 1).+1
    & all (has_shape M M) (sample_layers i)].
Proof.
move=> /drawn [sh _ _ _]; have [_ h0] := mesh_spacing M1.
have [ls [loopE sz _ shapes _]] :=
  time_loop_layers (layers opts - 1) (dt opts) sh M1 h0 h0.
by rewrite /sample_layers loopE.
Qed.

Lemma generate_pass (i : nat) (batch : seq (seq array2)) :
  i < batch_size opts ->
  and_then (time_loop (layers opts - 1) (dt opts) h h (initgen rnd i))
    (fun sample =>
  and_then (downsample (offset1 rnd i) (offset2 rnd i) sample
              (downsample_by opts)) (fun sample =>
  and_then (addNoise (standard_normal rnd i) sample (noise_level opts)
              (layers opts))
    (fun sample => Return (rcons batch sample)))) =
  Return (rcons batch (sample_layers i)).
Proof.
move=> ib; have [loopE sz shapes] := sample_layersE ib.
have [_ o1 o2 shn] := drawn ib.
have pos : 0 < size (sample_layers i) by rewrite sz.
have le : layers opts <= size (sample_layers i).
  by rewrite sz subn1; apply: leqSpred.
rewrite loopE no_downsampling no_noise /and_then; cbv beta iota.
rewrite downsample_by_1 //; cbv beta iota.
by rewrite (addNoise_0 pos le shapes shn).
Qed.

Lemma generate_clean_batch :
  generate opts rnd =
  Return [seq sample_layers i | i <- iota 0 (batch_size opts)].
Proof.
have [hE _] := mesh_spacing M1.
rewrite /generate mesh [(M, M).1]/= [(M, M).2]/= hE /and_then; cbv beta iota.
rewrite -[RHS]/(Return ([::] ++ [seq sample_layers i | i <- iota 0 (batch_size opts)])).
apply: for_each_collect => i batch; rewrite mem_iota add0n => /andP [_ ib].
exact: generate_pass.
Qed.

End CleanSamples.

(** X23: with the options of the notebook, noise_level = 0 and
    downsample_by = 1, on a square mesh of more than one point and
    initial fields of the mesh's shape, [generate] returns one sample per
    batch entry, and sample i is exactly the list of layers that the time
    loop produces from the initial field of sample i, for the grid
    spacing 2 pi / (mesh_size - 1): [downsample] and [addNoise] leave the
    layers as they are. *)
Theorem generate_returns_the_layers (opts : options) (rnd : draws) (M : nat) :
  mesh_size opts = (M, M) -> 1 < M ->
  noise_level opts = 0 -> downsample_by opts = 1%N ->
  (forall i, i < batch_size opts ->
     [/\ has_shape M M (initgen rnd i), offset1 rnd i < 1, offset2 rnd i < 1
       & forall l, has_shape M M (standard_normal rnd i l)]) ->
  let h : R := (2 * PI / (M%:R - 1))%Re in
  exists batch : seq (seq array2),
    [/\ generate opts rnd = Return batch, size batch = batch_size opts
      & forall i, i < batch_size opts ->
        time_loop (layers opts - 1) (dt opts) h h (initgen rnd i) =
        Return (nth [::] batch i)].
Proof.
move=> mesh M1 no_noise no_down drawn h.
exists [seq sample_layers opts rnd M i | i <- iota 0 (batch_size opts)].
split; first exact: generate_clean_batch.
  by rewrite size_map size_iota.
move=> i ib; rewrite (nth_map 0%N) ?size_iota // nth_iota // add0n.
by have [] := sample_layersE M1 drawn ib.
Qed.

(* The options of the notebook on a mesh of 8 x 8 points, and draws that
   start every sample from the same field.                                 *)
Definition small_options : options :=
  {| mesh_size := (8, 8)%N; layers := 9; dt := 0.0015%Re; batch_size := 1;
     noise_level := 0.0%Re; downsample_by := 1 |}.

Definition flat_draws : draws :=
  {| initgen := fun _ => grid (fun r k => (r + k)%:R) 8 8;
     offset1 := fun _ => 0%N; offset2 := fun _ => 0%N;
     standard_normal := fun _ _ => grid (fun _ _ => 1) 8 8 |}.

Lemma generate_returns_the_layers_witness :
  let h : R := (2 * PI / (8%:R - 1))%Re in
  exists batch : seq (seq array2),
    [/\ generate small_options flat_draws = Return batch,
        size batch = batch_size small_options
      & forall i, i < batch_size small_options ->
        time_loop (layers small_options - 1) (dt small_options) h h
          (initgen flat_draws i) =
        Return (nth [::] batch i)].
Proof.
apply: (@generate_returns_the_layers small_options flat_draws 8) => //.
by rewrite /small_options /=; toR; lra.
Defined.

(* ---------------------------------------------------------------------- *)
(*  42. The training points drawn from the generated layers                *)
(* ---------------------------------------------------------------------- *)

Import Generator.

(* A grid index drawn below mesh // (2 pi) is an index of the mesh, and
   its coordinate lies in [0, 1).                                          *)
Lemma unit_coordinate (M k : nat) :
  1 < M -> (Z.of_nat k < floor_div_2pi M)%Z ->
  [/\ (0 <? floor_div_2pi M)%Z, k < M
    & (0 <= 2 * PI / (M%:R - 1) * k%:R < 1)%Re].
Proof.
move=> M1 lt; rewrite /floor_div_2pi !natr_INR in lt *.
have pi2 := PI2_1; have Mpos := lt_1_INR _ (ltP M1).
have k0 := pos_INR k.
have [fl _] := base_Int_part (INR M / (2 * PI)).
have le : (INR k + 1 <= IZR (Int_part (INR M / (2 * PI))))%Re.
  rewrite INR_IZR_INZ -plus_IZR; apply: IZR_le; lia.
have bound : (2 * PI * (INR k + 1) <= INR M)%Re.
  have : (INR k + 1 <= INR M / (2 * PI))%Re by lra.
  move/(Rmult_le_compat_l (2 * PI)) => e.
  have tp : (0 <= 2 * PI)%Re by lra.
  by have := e tp; rewrite /Rdiv; have -> : (2 * PI * (INR M * / (2 * PI)) = INR M)%Re by field; lra.
have prod : (0 <= (PI - 2) * (INR k + 1))%Re.
  by apply: Rmult_le_pos; lra.
split.
- apply/Z.ltb_lt; have : (0 <= Z.of_nat k)%Z by apply: Nat2Z.is_nonneg.
  lia.
- apply/ltP/INR_lt; nra.
- have hpos : (0 < 2 * PI / (INR M - 1))%Re.
    by apply: Rdiv_lt_0_compat; lra.
  split; first by apply: Rmult_le_pos => //; lra.
  apply: (Rmult_lt_reg_r (INR M - 1)); first lra.
  have -> : (2 * PI / (INR M - 1) * INR k * (INR M - 1) = 2 * PI * INR k)%Re.
    by field; lra.
  by nra.
Qed.

(* A loop that appends one item per pass to each of four lists.            *)
Lemma for_each_collect4 (T1 T2 T3 T4 : Type) (l : seq nat)
    (body : nat -> seq T1 * seq T2 * seq T3 * seq T4 ->
            py (seq T1 * seq T2 * seq T3 * seq T4))
    (f1 : nat -> T1) (f2 : nat -> T2) (f3 : nat -> T3) (f4 : nat -> T4)
    (a1 : seq T1) (a2 : seq T2) (a3 : seq T3) (a4 : seq T4) :
  (forall i b1 b2 b3 b4, i \in l ->
     body i (b1, b2, b3, b4) =
     Return (rcons b1 (f1 i), rcons b2 (f2 i), rcons b3 (f3 i),
             rcons b4 (f4 i))) ->
  for_each l body (a1, a2, a3, a4) =
  Return (a1 ++ [seq f1 i | i <- l], a2 ++ [seq f2 i | i <- l],
          a3 ++ [seq f3 i | i <- l], a4 ++ [seq f4 i | i <- l]).
Proof.
elim: l a1 a2 a3 a4 => [|i l IH] a1 a2 a3 a4 bodyE /=.
  by rewrite !cats0.
rewrite bodyE ?mem_head //= IH ?cat_rcons // => j b1 b2 b3 b4 jl.
by apply: bodyE; rewrite inE jl orbT.
Qed.

Lemma getitem_in (T : Type) (e : py_exn) (x0 : T) (l : seq T) (k : nat) :
  k < size l -> getitem e x0 l k = Return (nth x0 l k).
Proof. by rewrite /getitem => ->. Qed.

Section TrainingPoints.

Variables (opts : options) (rnd : draws) (pk : picks) (M n : nat).
Hypothesis mesh : mesh_size opts = (M, M).
Hypothesis M1 : 1 < M.
Hypothesis no_noise : noise_level opts = 0.
Hypothesis no_downsampling : downsample_by opts = 1%N.
Hypothesis one_sample : 0 < batch_size opts.
Hypothesis drawn : forall i, i < batch_size opts ->
  [/\ has_shape M M (initgen rnd i), offset1 rnd i < 1, offset2 rnd i < 1
    & forall l, has_shape M M (standard_normal rnd i l)].
Hypothesis picked : forall i, i < n ->
  [/\ t_rand pk i < layers opts,
      (Z.of_nat (x_rand pk i) < floor_div_2pi M)%Z
    & (Z.of_nat (y_rand pk i) < floor_div_2pi M)%Z].

Let h : R := (2 * PI / (M%:R - 1))%Re.
Let sample := sample_layers opts rnd M 0.

Lemma simulate_data_points :
  simulate_data opts rnd pk n =
  Return ([seq h * (x_rand pk i)%:R | i <- iota 0 n],
          [seq h * (y_rand pk i)%:R | i <- iota 0 n],
          [seq (t_rand pk i)%:R * dt opts | i <- iota 0 n],
          [seq nth 0 (nth [::] (nth [::] sample (t_rand pk i)) (x_rand pk i))
                     (y_rand pk i) | i <- iota 0 n],
          nseq n 0).
Proof.
rewrite /simulate_data (generate_clean_batch mesh) // /and_then.
cbv beta iota.
rewrite (@for_each_collect4 _ _ _ _ _ _
           (fun i => h * (x_rand pk i)%:R) (fun i => h * (y_rand pk i)%:R)
           (fun i => (t_rand pk i)%:R * dt opts)
           (fun i => nth 0 (nth [::] (nth [::] sample (t_rand pk i))
                                     (x_rand pk i)) (y_rand pk i))); last first.
  by cbv beta iota; rewrite !cat0s size_map size_iota.
move=> i b1 b2 b3 b4; rewrite mem_iota add0n => /andP [_ /picked [tl xl yl]].
have [fpos xM [x0 x1]] := unit_coordinate M1 xl.
have [_ yM _] := unit_coordinate M1 yl.
have [szs shapes] : size sample = (layers opts - 1).+1 /\
                    all (has_shape M M) sample.
  by have [_ -> ->] := sample_layersE M1 drawn one_sample.
have tin : t_rand pk i < size sample.
  by rewrite szs subn1; apply: leq_trans tl (leqSpred _).
have shl : has_shape M M (nth [::] sample (t_rand pk i)).
  by move/allP: shapes; apply; apply: mem_nth.
have [hE _] := mesh_spacing M1.
rewrite /randint mesh [(M, M).1]/= [(M, M).2]/= fpos.
have -> : (0 <? Z.of_nat (layers opts))%Z.
  by apply/Z.ltb_lt; move/ltP: tl; lia.
cbv beta iota.
have g0 : getitem IndexError [::]
            [seq sample_layers opts rnd M i0 | i0 <- iota 0 (batch_size opts)]
            0 = Return sample.
  rewrite getitem_in ?size_map ?size_iota //.
  by rewrite (nth_map 0%N) ?size_iota // nth_iota.
have g1 := getitem_in KeyError [::] tin.
have g2 : getitem IndexError [::] (nth [::] sample (t_rand pk i)) (x_rand pk i)
          = Return (nth [::] (nth [::] sample (t_rand pk i)) (x_rand pk i)).
  by apply: getitem_in; have /andP [/eqP ->] := shl.
have g3 : getitem IndexError 0
            (nth [::] (nth [::] sample (t_rand pk i)) (x_rand pk i))
            (y_rand pk i) =
          Return (nth 0 (nth [::] (nth [::] sample (t_rand pk i))
                                  (x_rand pk i)) (y_rand pk i)).
  by apply: getitem_in; rewrite (size_row shl).
by rewrite g0 g1 g2 g3 hE.
Qed.

End TrainingPoints.

(** X24: with the options of the notebook (noise_level = 0,
    downsample_by = 1, at least one sample in the batch) on a square mesh
    of more than one point, and for draws within the ranges that
    np.random.randint is given, [simulate_data] never fails and returns
    five arrays of n entries: abscissae and ordinates in [0, 1), times
    t_rand * dt, the values of the layers of the first sample at the
    drawn grid points, and zeros for the right-hand side f. *)
Theorem simulate_data_in_unit_square (opts : options) (rnd : draws)
    (pk : picks) (M n : nat) :
  mesh_size opts = (M, M) -> 1 < M ->
  noise_level opts = 0 -> downsample_by opts = 1%N ->
  0 < batch_size opts ->
  (forall i, i < batch_size opts ->
     [/\ has_shape M M (initgen rnd i), offset1 rnd i < 1, offset2 rnd i < 1
       & forall l, has_shape M M (standard_normal rnd i l)]) ->
  (forall i, i < n ->
     [/\ t_rand pk i < layers opts,
         (Z.of_nat (x_rand pk i) < floor_div_2pi M)%Z
       & (Z.of_nat (y_rand pk i) < floor_div_2pi M)%Z]) ->
  let h : R := (2 * PI / (M%:R - 1))%Re in
  exists (xs ys ts us : seq R) (ls : seq array2),
    [/\ simulate_data opts rnd pk n = Return (xs, ys, ts, us, nseq n 0),
        time_loop (layers opts - 1) (dt opts) h h (initgen rnd 0) = Return ls,
        [/\ size xs = n, size ys = n, size ts = n & size us = n]
      & forall i, i < n ->
        [/\ (0 <= nth 0 xs i < 1)%Re, (0 <= nth 0 ys i < 1)%Re,
            nth 0 ts i = (t_rand pk i)%:R * dt opts
          & nth 0 us i =
            nth 0 (nth [::] (nth [::] ls (t_rand pk i)) (x_rand pk i))
                  (y_rand pk i)]].
Proof.
move=> mesh M1 no_noise no_down one drawn picked h.
have [loopE _ _] := sample_layersE M1 drawn one.
do 4![eexists]; exists (sample_layers opts rnd M 0); split.
- exact: (simulate_data_points mesh M1 no_noise no_down one drawn picked).
- exact: loopE.
- by rewrite !size_map size_iota.
move=> i ilt; have [_ xl yl] := picked i ilt.
have [_ _ xb] := unit_coordinate M1 xl.
have [_ _ yb] := unit_coordinate M1 yl.
by rewrite !(nth_map 0%N) ?size_iota // !nth_iota // !add0n.
Qed.

Lemma floor_div_2pi_8 : (0 < floor_div_2pi 8)%Z.
Proof.
rewrite /floor_div_2pi natr_INR.
have [_ gt] := base_Int_part (INR 8 / (2 * PI)).
have pi4 := PI_4; have pi0 := PI_RGT_0.
have ge1 : (1 <= INR 8 / (2 * PI))%Re.
  apply: (Rmult_le_reg_r (2 * PI)); first lra.
  have -> : (INR 8 / (2 * PI) * (2 * PI) = INR 8)%Re by field; lra.
  by rewrite /=; lra.
by apply: lt_IZR; lra.
Qed.

Definition first_corner : picks :=
  {| t_rand := fun _ => 0%N; x_rand := fun _ => 0%N; y_rand := fun _ => 0%N |}.

Lemma simulate_data_in_unit_square_witness :
  let h : R := (2 * PI / (8%:R - 1))%Re in
  exists (xs ys ts us : seq R) (ls : seq array2),
    [/\ simulate_data small_options flat_draws first_corner 3 =
        Return (xs, ys, ts, us, nseq 3 0),
        time_loop (layers small_options - 1) (dt small_options) h h
          (initgen flat_draws 0) = Return ls,
        [/\ size xs = 3, size ys = 3, size ts = 3 & size us = 3]
      & forall i, i < 3 ->
        [/\ (0 <= nth 0 xs i < 1)%Re, (0 <= nth 0 ys i < 1)%Re,
            nth 0 ts i = (t_rand first_corner i)%:R * dt small_options
          & nth 0 us i =
            nth 0 (nth [::] (nth [::] ls (t_rand first_corner i))
                            (x_rand first_corner i))
                  (y_rand first_corner i)]].
Proof.
apply: (@simulate_data_in_unit_square small_options flat_draws first_corner 8)
  => //.
- by rewrite /small_options /=; toR; lra.
- by move=> i _; split=> //=; apply: floor_div_2pi_8.
Defined.

(* ---------------------------------------------------------------------- *)
(*  43. The two axes of the grid                                           *)
(* ---------------------------------------------------------------------- *)

Import Generator.

Lemma transpose_grid (f : nat -> nat -> R) (m : nat) :
  transpose (grid f m m) = grid (fun r k => f k r) m m.
Proof.
case: m => [|m] //.
have w := width_shape (ltn0Sn m) (shape_grid f m.+1 m.+1).
rewrite /transpose w; apply/eq_in_map => r; rewrite mem_iota add0n => /andP [_ rm].
rewrite /grid /mkseq -map_comp; apply/eq_in_map => k.
rewrite mem_iota add0n => /andP [_ km] /=.
by rewrite -[_ :: _]/(mkseq (f k) m.+1) nth_mkseq.
Qed.

(* With a = b, c = d and equal spacings the stencil treats rows and
   columns alike.                                                          *)
Lemma stencil_transpose (dt h : R) (v : nat -> nat -> R) (m i j : nat) :
  stencil dt h h (fun r k => v k r) m i j = stencil dt h h v m j i.
Proof. by rewrite /stencil /a /b /c /d; toR; ring. Qed.

(** X25: the body of the time loop treats the two axes of the grid
    alike: for equal spacings dx = dy, stepping the transposed array
    gives the transpose of the stepped array (the coefficients are
    a = b and c = d).  So it does not matter that the loop differences
    the second index with dx while [simulate_data] reads the first index
    as x. *)
Theorem step_transpose (m : nat) (u : array2) (dt h : R) :
  has_shape m m u -> 1 < m -> h != 0 ->
  exists u' : array2,
    step dt h h u = Return u' /\
    step dt h h (transpose u) = Return (transpose u').
Proof.
move=> sh m1 h0; exists (grid (stencil dt h h (wrap u m) m) m m).
split; first exact: step_grid.
rewrite [in LHS](grid_of_shape sh) transpose_grid.
rewrite (step_grid _ (shape_grid _ m m)) // transpose_grid; congr Return.
apply: eq_grid => r k rm km; rewrite -stencil_transpose.
rewrite /stencil /wrap.
have inb x : x %% m < m by rewrite ltn_mod (ltn_trans _ m1).
by rewrite !nth_grid.
Qed.

Lemma step_transpose_witness :
  let u : array2 := [:: [:: 1; 2%Re]; [:: 3%Re; 4%Re]] in
  exists u' : array2,
    step 1 1 1 u = Return u' /\
    step 1 1 1 (transpose u) = Return (transpose u').
Proof. by apply: (@step_transpose 2); rewrite ?oner_neq0. Defined.

(* ---------------------------------------------------------------------- *)
(*  44. The two advection-diffusion notebooks share one objective          *)
(* ---------------------------------------------------------------------- *)

(* params of the first notebook from the six of the second, with the
   fixed c and d appended.                                                 *)
Definition with_c_d (p : 'rV[R]_6) (c d : R) : 'rV[R]_8 :=
  row_mx p (row_of [:: c; d]).

Lemma item_with_c_d (p : 'rV[R]_6) (c d : R) :
  [/\ forall k, (k < 6)%N -> item (with_c_d p c d) k = item p k,
      item (with_c_d p c d) 6 = c & item (with_c_d p c d) 7 = d].
Proof.
split=> [k k6||].
- have k8 : (k < 8)%N by apply: (leq_trans k6).
  rewrite /item /with_c_d [LHS]mxE; case: splitP => j /=; rewrite inordK //.
    by move=> e; congr (p 0 _); apply: val_inj; rewrite /= inordK.
  by move=> e; rewrite e ltnNge leq_addr in k6.
- rewrite /item /with_c_d [LHS]mxE; case: splitP => j /=; rewrite inordK //.
    by move=> e; have := ltn_ord j; rewrite -e.
  move/eqP; rewrite -[X in X == _]addn0 eqn_add2l => /eqP j0.
  by rewrite mxE -j0.
- rewrite /item /with_c_d [LHS]mxE; case: splitP => j /=; rewrite inordK //.
    by move=> e; have := ltn_ord j; rewrite -e.
  move/eqP; rewrite -[X in X == _]/(6 + 1)%N eqn_add2l => /eqP j1.
  by rewrite mxE -j1.
Qed.

(** X26: the objective of the synthetic advection-diffusion notebook is
    the objective of the first one with the coefficients c and d fixed:
    for all six parameters, [nlml] of the second notebook returns (or
    raises) what [nlml] of the first returns for the same first six
    parameters followed by c = 0.5 and d = 0.5, on the observations that
    the second notebook simulates. *)
Theorem Synthetic_nlml_fixes_c_d n (x y t : 'rV[R]_n) (svd : svd_fun)
    (params : 'rV[R]_6) :
  AdvDiff.Synthetic.nlml x y t svd params =
  AdvDiff.nlml x y t svd (AdvDiff.Synthetic.y_u x y t)
    (AdvDiff.Synthetic.y_f n) (with_c_d params 0.5%Re 0.5%Re).
Proof.
have [lo e6 e7] := item_with_c_d params 0.5%Re 0.5%Re.
by rewrite /AdvDiff.Synthetic.nlml /AdvDiff.nlml e6 e7 !lo.
Qed.
